(** * Vitastor local block store: sync chain, submit loop, LIST and the
      metadata reader of the disk tool

    A shallow embedding of
    - [blockstore_sync.cpp]      (module [Sync]),
    - [blockstore_impl.cpp]      (module [Impl]),
    - [disk_tool_meta.cpp]       (modules [DiskTool], [DumpMeta]),
    - [cli.cpp]                  (module [Cli]),
    - [nfs_kv_create.cpp]        (modules [NfsCreate], [NfsProcs]),
    with the properties of the engine's specification stated over it,
    followed by further properties of the same code.

    Conventions.  C++ integers are [Z]; where the source relies on unsigned
    wrap-around it is written out.  An operation owned by the client is a
    record; where the source keeps pointers to operations in several places
    ([in_progress_syncs]) the operations live in a heap indexed by address.
    A client callback is opaque code: firing it is recorded in a trace. *)

From Stdlib Require Import ZArith List Bool Lia ZifyBool String.
From stdpp Require Import base option list sorting gmap strings pretty.

Local Open Scope Z_scope.

(** ** Shared data model *)

Record object_id := mk_oid { inode : Z; stripe : Z }.
Record obj_ver_id := mk_ov { oid : object_id; version : Z }.

#[global] Instance object_id_eq_dec : EqDecision object_id.
Proof. solve_decision. Defined.
#[global] Instance obj_ver_id_eq_dec : EqDecision obj_ver_id.
Proof. solve_decision. Defined.

#[global] Instance object_id_countable : Countable object_id.
Proof.
  refine (inj_countable' (fun o => (inode o, stripe o))
                         (fun p => mk_oid (fst p) (snd p)) _).
  intros []; reflexivity.
Defined.
#[global] Instance obj_ver_id_countable : Countable obj_ver_id.
Proof.
  refine (inj_countable' (fun o => (oid o, version o))
                         (fun p => mk_ov (fst p) (snd p)) _).
  intros []; reflexivity.
Defined.

(** What a call can end in: a value, a C++ exception, or undefined behaviour
    (an access outside an array, a dangling pointer). *)
Inductive outcome (A : Type) : Type :=
| Ok (a : A)
| Throw (what : string)
| Undef (what : string).
Arguments Ok {A} a.
Arguments Throw {A} what.
Arguments Undef {A} what.

#[global] Instance outcome_ret : MRet outcome := fun A a => Ok a.
#[global] Instance outcome_bind : MBind outcome := fun A B f m =>
  match m with
  | Ok a => f a
  | Throw w => Throw w
  | Undef w => Undef w
  end.

Definition EINVAL : Z := 22.
Definition ENOMEM : Z := 12.
Definition UINT64_MAX : Z := 2 ^ 64 - 1.
Definition wrap32 (x : Z) : Z := x mod 2 ^ 32.
Definition wrap64 (x : Z) : Z := x mod 2 ^ 64.

(** ** blockstore_sync.cpp *)
Module Sync.

Definition SYNC_HAS_SMALL : Z := 1.
Definition SYNC_HAS_BIG : Z := 2.
Definition SYNC_DATA_SYNC_SENT : Z := 3.
Definition SYNC_DATA_SYNC_DONE : Z := 4.
Definition SYNC_JOURNAL_SYNC_SENT : Z := 5.
Definition SYNC_DONE : Z := 6.

(** Modelled from the spec: the durability ladder of a dirty entry (§3); the
    header that numbers the [ST_*] states is not among the sources.  [ST_NONE]
    is the state of a value-initialised entry, as [dirty_db[k]] creates one. *)
Inductive dirty_state :=
| ST_NONE
| ST_IN_FLIGHT
| ST_J_SUBMITTED | ST_J_WRITTEN | ST_J_SYNCED | ST_J_STABLE
| ST_D_SUBMITTED | ST_D_WRITTEN | ST_D_SYNCED | ST_D_META_SYNCED | ST_D_STABLE.

#[global] Instance dirty_state_eq_dec : EqDecision dirty_state.
Proof. solve_decision. Defined.

Record dirty_entry := mk_dirty { state : dirty_state; location : Z }.

Definition set_state (st : dirty_state) (e : dirty_entry) : dirty_entry :=
  {| state := st; location := location e |}.

(** Modelled from the spec: the suspension reason of a full ring (§4.6); its
    number is in the absent header. *)
Definition WAIT_SQE : Z := 1.

(** The fields of [blockstore_operation] that the sync path touches.
    [in_progress_ptr] is the list node that holds the operation: the model
    finds the node by the operation's address. *)
Record blockstore_operation := mk_op {
  sync_state : Z;
  sync_big_writes : list obj_ver_id;
  sync_small_writes : list obj_ver_id;
  prev_sync_count : Z;
  pending_ops : Z;
  min_used_journal_sector : Z;
  max_used_journal_sector : Z;
  retval : Z;
  wait_for : Z
}.

Definition set_sync_state v o :=
  mk_op v (sync_big_writes o) (sync_small_writes o) (prev_sync_count o)
        (pending_ops o) (min_used_journal_sector o) (max_used_journal_sector o)
        (retval o) (wait_for o).
Definition set_sync_lists b s o :=
  mk_op (sync_state o) b s (prev_sync_count o)
        (pending_ops o) (min_used_journal_sector o) (max_used_journal_sector o)
        (retval o) (wait_for o).
Definition set_prev_sync_count v o :=
  mk_op (sync_state o) (sync_big_writes o) (sync_small_writes o) v
        (pending_ops o) (min_used_journal_sector o) (max_used_journal_sector o)
        (retval o) (wait_for o).
Definition set_pending_ops v o :=
  mk_op (sync_state o) (sync_big_writes o) (sync_small_writes o)
        (prev_sync_count o) v (min_used_journal_sector o)
        (max_used_journal_sector o) (retval o) (wait_for o).
Definition set_used_sectors lo hi o :=
  mk_op (sync_state o) (sync_big_writes o) (sync_small_writes o)
        (prev_sync_count o) (pending_ops o) lo hi (retval o) (wait_for o).
Definition set_retval v o :=
  mk_op (sync_state o) (sync_big_writes o) (sync_small_writes o)
        (prev_sync_count o) (pending_ops o) (min_used_journal_sector o)
        (max_used_journal_sector o) v (wait_for o).
Definition set_wait_for v o :=
  mk_op (sync_state o) (sync_big_writes o) (sync_small_writes o)
        (prev_sync_count o) (pending_ops o) (min_used_journal_sector o)
        (max_used_journal_sector o) (retval o) v.

Record journal_entry_big_write := mk_je {
  je_oid : object_id; je_version : Z; je_location : Z; je_crc32 : Z
}.

(** [sector_info[i].usage_count] is a [uint32_t]; the written entries are kept
    as a log. *)
Record journal_t := mk_journal {
  usage_count : list Z;
  cur_sector : Z;
  sector_count : Z;
  crc32_last : Z;
  written : list journal_entry_big_write
}.

Definition set_usage_count u j :=
  mk_journal u (cur_sector j) (sector_count j) (crc32_last j) (written j).
Definition append_entry je j :=
  mk_journal (usage_count j) (cur_sector j) (sector_count j) (je_crc32 je)
             (written j ++ [je]).

(** The engine.  [ops] is the heap of operations, [ring_space] the number of
    free submission slots, [acks] the callbacks fired so far, oldest first,
    each with the operation as the callback saw it. *)
Record blockstore := mk_bs {
  ops : gmap nat blockstore_operation;
  unsynced_big_writes : list obj_ver_id;
  unsynced_small_writes : list obj_ver_id;
  in_progress_syncs : list nat;
  dirty_db : gmap obj_ver_id dirty_entry;
  journal : journal_t;
  ring_space : nat;
  acks : list (nat * blockstore_operation)
}.

Definition set_ops v b :=
  mk_bs v (unsynced_big_writes b) (unsynced_small_writes b)
        (in_progress_syncs b) (dirty_db b) (journal b) (ring_space b) (acks b).
Definition set_unsynced big small b :=
  mk_bs (ops b) big small (in_progress_syncs b) (dirty_db b) (journal b)
        (ring_space b) (acks b).
Definition set_in_progress_syncs v b :=
  mk_bs (ops b) (unsynced_big_writes b) (unsynced_small_writes b) v
        (dirty_db b) (journal b) (ring_space b) (acks b).
Definition set_dirty_db v b :=
  mk_bs (ops b) (unsynced_big_writes b) (unsynced_small_writes b)
        (in_progress_syncs b) v (journal b) (ring_space b) (acks b).
Definition set_journal v b :=
  mk_bs (ops b) (unsynced_big_writes b) (unsynced_small_writes b)
        (in_progress_syncs b) (dirty_db b) v (ring_space b) (acks b).
Definition set_ring_space v b :=
  mk_bs (ops b) (unsynced_big_writes b) (unsynced_small_writes b)
        (in_progress_syncs b) (dirty_db b) (journal b) v (acks b).
Definition set_acks v b :=
  mk_bs (ops b) (unsynced_big_writes b) (unsynced_small_writes b)
        (in_progress_syncs b) (dirty_db b) (journal b) (ring_space b) v.

(** [*p] for an operation pointer. *)
Definition deref (b : blockstore) (p : nat) : outcome blockstore_operation :=
  match ops b !! p with
  | Some o => Ok o
  | None => Undef "dangling operation pointer"
  end.

Definition store (p : nat) (o : blockstore_operation) (b : blockstore) :=
  set_ops (<[p := o]> (ops b)) b.

(** [op->retval = r; op->callback(op)] *)
Definition fire (p : nat) (r : Z) (b : blockstore) : outcome blockstore :=
  o ← deref b p;
  let b1 := store p (set_retval r o) b in
  Ok (set_acks (acks b1 ++ [(p, set_retval r o)]) b1).

(** [dirty_db[k]]: the entry, created value-initialised when absent. *)
Definition dirty_default : dirty_entry := mk_dirty ST_NONE 0.
Definition dirty_at (db : gmap obj_ver_id dirty_entry) (k : obj_ver_id)
  : dirty_entry := default dirty_default (db !! k).

(** [for (it ...) dirty_db[*it].state = st] *)
Definition mark_all (st : dirty_state) (ks : list obj_ver_id)
    (db : gmap obj_ver_id dirty_entry) : gmap obj_ver_id dirty_entry :=
  fold_left (fun d k => <[k := set_state st (dirty_at d k)]> d) ks db.

(** [std::list::erase(it)] for the node that holds [p]. *)
Fixpoint erase_node (p : nat) (l : list nat) : list nat :=
  match l with
  | [] => []
  | n :: l' => if decide (n = p) then l' else n :: erase_node p l'
  end.

(** The nodes that follow the node of [p]: what [++it] of
    [op->in_progress_ptr] walks until [end()]. *)
Fixpoint nodes_after (p : nat) (l : list nat) : option (list nat) :=
  match l with
  | [] => None
  | n :: l' => if decide (n = p) then Some l' else nodes_after p l'
  end.

(** The [while] of [ack_sync] over the successors of the acknowledged sync.
    The node just visited is the only one erased, so walking the nodes present
    at the start is what the iterator does.  [next_sync] is a reference to
    the element of that node: after the [erase] the model goes on with the
    operation that the element pointed to. *)
Fixpoint ack_successors (rest : list nat) (done_syncs : Z) (b : blockstore)
  : outcome (Z * blockstore) :=
  match rest with
  | [] => Ok (done_syncs, b)
  | n :: rest' =>
      o ← deref b n;
      let o1 := set_prev_sync_count (prev_sync_count o - done_syncs) o in
      let b1 := store n o1 b in
      if decide (prev_sync_count o1 = 0 ∧ sync_state o1 = SYNC_DONE) then
        let b2 := set_in_progress_syncs (erase_node n (in_progress_syncs b1)) b1 in
        b3 ← fire n 0 b2;
        ack_successors rest' (done_syncs + 1) b3
      else
        ack_successors rest' done_syncs b1
  end.

Definition ack_sync (p : nat) (b : blockstore) : outcome (Z * blockstore) :=
  o ← deref b p;
  if decide (sync_state o = SYNC_DONE ∧ prev_sync_count o = 0) then
    match nodes_after p (in_progress_syncs b) with
    | None => Undef "in_progress_ptr is not a node of in_progress_syncs"
    | Some rest =>
        '(_, b1) ← ack_successors rest 1 b;
        let b2 := set_in_progress_syncs (erase_node p (in_progress_syncs b1)) b1 in
        b3 ← fire p 0 b2;
        Ok (1, b3)
    end
  else Ok (0, b).

(** Modelled from the spec: [BS_SUBMIT_GET_SQE] of the absent header.  §4.1:
    [get_sqe] hands out a slot or a sentinel when the ring is full; §4.4: the
    operation then suspends on wait-sqe and the handler returns 0. *)
Definition get_sqe (b : blockstore) : option blockstore :=
  match ring_space b with
  | O => None
  | S n => Some (set_ring_space n b)
  end.

Fixpoint get_sqes (n : nat) (b : blockstore) : option blockstore :=
  match n with
  | O => Some b
  | S n' => match get_sqe b with
            | None => None
            | Some b' => get_sqes n' b'
            end
  end.

(** The body of [if (op->sync_state == 0)] in [dequeue_sync]: the two [swap]s
    give the operation the unsynced lists, the two [clear]s empty the
    engine's. *)
Definition capture (p : nat) (o : blockstore_operation) (b : blockstore)
  : blockstore :=
  let big := unsynced_big_writes b in
  let small := unsynced_small_writes b in
  let o1 := set_sync_lists big small o in
  let st := if decide (0 < Z.of_nat (length big)) then SYNC_HAS_BIG
            else if decide (0 < Z.of_nat (length small)) then SYNC_HAS_SMALL
            else SYNC_DONE in
  store p (set_sync_state st o1) (set_unsynced [] [] b).

Section JournalHelpers.
(** Helpers of the journal that live in other files of the engine. *)

(** [space_check.check_available(op, required, size, 0)]: the sectors
    required, or the reason the operation has to wait for. *)
Variable check_available : blockstore -> Z -> Z + Z.
(** [prefill_single_journal_entry]: moves to the next sector when the entry
    does not fit in the current one. *)
Variable prefill_single_journal_entry : journal_t -> journal_t.
(** [je_crc32] of an entry whose crc field is still empty. *)
Variable compute_je_crc32 : journal_entry_big_write -> Z.
(** [prepare_journal_sector_write] for the current sector. *)
Variable prepare_journal_sector_write : journal_t -> journal_t.

(** The [while] of [continue_sync] that writes one entry per big write.
    Returns the journal, the operation and [s]. *)
Fixpoint write_big_entries (its : list obj_ver_id)
    (db : gmap obj_ver_id dirty_entry) (j : journal_t)
    (o : blockstore_operation) (s : Z) (cur : Z)
  : gmap obj_ver_id dirty_entry * journal_t * blockstore_operation * Z :=
  match its with
  | [] => (db, j, o, s)
  | it :: its' =>
      let j1 := prefill_single_journal_entry j in
      let e := dirty_at db it in
      let db1 := <[it := e]> db in
      let je0 := mk_je (oid it) (version it) (location e) 0 in
      let je := mk_je (oid it) (version it) (location e) (compute_je_crc32 je0) in
      let j2 := append_entry je j1 in
      if decide (cur ≠ cur_sector j2) then
        let o1 := if decide (cur = -1)
                  then set_used_sectors (1 + cur_sector j2)
                                        (max_used_journal_sector o) o
                  else o in
        write_big_entries its' db1 (prepare_journal_sector_write j2) o1
                          (s + 1) (cur_sector j2)
      else
        write_big_entries its' db1 j2 o s cur
  end.

(** Returns [r] and the engine; the operation is updated in the heap. *)
Definition continue_sync (p : nat) (b : blockstore) : outcome (Z * blockstore) :=
  o ← deref b p;
  if decide (sync_state o = SYNC_HAS_SMALL) then
    match get_sqe b with
    | None => Ok (0, store p (set_wait_for WAIT_SQE o) b)
    | Some b1 =>
        Ok (1, store p (set_sync_state SYNC_JOURNAL_SYNC_SENT
                          (set_pending_ops 1 o)) b1)
    end
  else if decide (sync_state o = SYNC_HAS_BIG) then
    match get_sqe b with
    | None => Ok (0, store p (set_wait_for WAIT_SQE o) b)
    | Some b1 =>
        Ok (1, store p (set_sync_state SYNC_DATA_SYNC_SENT
                          (set_pending_ops 1 o)) b1)
    end
  else if decide (sync_state o = SYNC_DATA_SYNC_DONE) then
    match check_available b (Z.of_nat (length (sync_big_writes o))) with
    | inl w => Ok (0, store p (set_wait_for w o) b)
    | inr sectors_required =>
        match get_sqes (Z.to_nat (sectors_required + 1)) b with
        | None => Ok (0, store p (set_wait_for WAIT_SQE o) b)
        | Some b1 =>
            let '(db, j, o1, s) :=
              write_big_entries (sync_big_writes o) (dirty_db b1)
                                (journal b1) o 0 (-1) in
            let o2 := set_used_sectors (min_used_journal_sector o1)
                                       (1 + cur_sector j) o1 in
            let o3 := set_sync_state SYNC_JOURNAL_SYNC_SENT
                        (set_pending_ops (1 + s) o2) in
            Ok (1, store p o3 (set_journal j (set_dirty_db db b1)))
        end
    end
  else Ok (0, b).

Definition dequeue_sync (p : nat) (b : blockstore) : outcome (Z * blockstore) :=
  o ← deref b p;
  let b1 := if decide (sync_state o = 0) then capture p o b else b in
  '(r, b2) ← continue_sync p b1;
  if decide (r ≠ 0) then
    '(done, b3) ← ack_sync p b2;
    if decide (done = 0) then
      o3 ← deref b3 p;
      let o4 := set_prev_sync_count
                  (Z.of_nat (length (in_progress_syncs b3))) o3 in
      Ok (r, set_in_progress_syncs (in_progress_syncs b3 ++ [p])
               (store p o4 b3))
    else Ok (r, b3)
  else Ok (r, b2).

End JournalHelpers.

(** [journal.sector_info[i].usage_count--] on a [uint32_t]. *)
Definition release_sector (i : Z) (j : journal_t) : outcome journal_t :=
  if decide (0 ≤ i) then
    match usage_count j !! Z.to_nat i with
    | Some u => Ok (set_usage_count
                      (<[Z.to_nat i := wrap32 (u - 1)]> (usage_count j)) j)
    | None => Undef "sector_info index out of range"
    end
  else Undef "sector_info index out of range".

(** [for (s = min; s != max; s = (s + 1) % journal.sector_count)
       journal.sector_info[s-1].usage_count--;]
    Every round either ends the loop, or leaves the array, or moves [s]
    within [0, sector_count): [fuel] counts the rounds. *)
Fixpoint release_loop (fuel : nat) (s hi : Z) (j : journal_t) : outcome journal_t :=
  if decide (s = hi) then Ok j
  else match fuel with
       | O => Undef "the release loop does not reach max_used_journal_sector"
       | S fuel' =>
           j1 ← release_sector (s - 1) j;
           if decide (sector_count j = 0) then Undef "modulo by zero"
           else release_loop fuel' ((s + 1) mod sector_count j) hi j1
       end.

Definition release_fuel (j : journal_t) : nat :=
  S (S (length (usage_count j))).

(** [data->res] is the result of the completed request. *)
Definition handle_sync_event (res : Z) (p : nat) (b : blockstore)
  : outcome blockstore :=
  if decide (res < 0) then
    Throw "write operation failed. in-memory state is corrupted."
  else
    o ← deref b p;
    let o1 := set_pending_ops (pending_ops o - 1) o in
    if decide (pending_ops o1 = 0) then
      '(o2, j) ←
        (if decide (0 < min_used_journal_sector o1) then
           j ← release_loop (release_fuel (journal b))
                 (min_used_journal_sector o1) (max_used_journal_sector o1)
                 (journal b);
           Ok (set_used_sectors 0 0 o1, j)
         else Ok (o1, journal b));
      let b1 := set_journal j b in
      if decide (sync_state o2 = SYNC_DATA_SYNC_SENT) then
        let o3 := set_sync_state SYNC_DATA_SYNC_DONE o2 in
        let db := mark_all ST_D_SYNCED (sync_big_writes o3) (dirty_db b1) in
        '(_, b2) ← ack_sync p (store p o3 (set_dirty_db db b1));
        Ok b2
      else if decide (sync_state o2 = SYNC_JOURNAL_SYNC_SENT) then
        let o3 := set_sync_state SYNC_DONE o2 in
        let db := mark_all ST_D_META_SYNCED (sync_big_writes o3) (dirty_db b1) in
        let db := mark_all ST_J_SYNCED (sync_small_writes o3) db in
        '(_, b2) ← ack_sync p (store p o3 (set_dirty_db db b1));
        Ok b2
      else Throw "BUG: unexpected sync op state"
    else Ok (store p o1 b).

(** What a callback of the sync chain is meant to see: a sync that is DONE,
    with no unacknowledged predecessor, and [retval] 0. *)
Definition acked_ok (a : nat * blockstore_operation) : Prop :=
  sync_state (snd a) = SYNC_DONE /\ prev_sync_count (snd a) = 0
  /\ retval (snd a) = 0.

End Sync.

(** Modelled from the spec: [operator <] of [object_id] and [obj_ver_id], which
    the absent header defines.  §3: objects are totally ordered by
    (inode, stripe); the dirty DB is ordered by (object, version). *)
Definition oid_lt (a b : object_id) : bool :=
  (inode a <? inode b) || ((inode a =? inode b) && (stripe a <? stripe b)).
Definition ov_lt (a b : obj_ver_id) : bool :=
  oid_lt (oid a) (oid b)
  || (bool_decide (oid a = oid b) && (version a <? version b)).

(** ** blockstore_impl.cpp *)
Module Impl.

(** Modelled from the spec: the numbering of the opcodes of §6 and of the
    suspension reasons of §4.6; the header that fixes them is not among the
    sources.  Only their being distinct and the bounds [BS_OP_MIN],
    [BS_OP_MAX] matter below. *)
Definition BS_OP_MIN : Z := 1.
Definition BS_OP_READ : Z := 1.
Definition BS_OP_WRITE : Z := 2.
Definition BS_OP_WRITE_STABLE : Z := 3.
Definition BS_OP_SYNC : Z := 4.
Definition BS_OP_STABLE : Z := 5.
Definition BS_OP_DELETE : Z := 6.
Definition BS_OP_LIST : Z := 7.
Definition BS_OP_ROLLBACK : Z := 8.
Definition BS_OP_SYNC_STAB_ALL : Z := 9.
Definition BS_OP_MAX : Z := 9.

Definition WAIT_SQE : Z := 1.
Definition WAIT_JOURNAL : Z := 3.
Definition WAIT_JOURNAL_BUFFER : Z := 4.
Definition WAIT_FREE : Z := 5.

Definition MIN_BLOCK_SIZE : Z := 4096.

(** A callback is client code.  The engine itself builds two: the one of the
    sync that [is_safe_to_stop] injects, and the wrapper that
    [BS_OP_SYNC_STAB_ALL] puts around the client's. *)
Inductive callback_t :=
| CbClient (tag : nat)
| CbDeleteOp
| CbSyncStabAll (old_callback : callback_t).

(** [blockstore_op_t] with the private data the file touches.  [buf] is the
    result of a LIST, [None] for a null pointer. *)
Record blockstore_op_t := mk_op {
  opcode : Z;
  callback : callback_t;
  op_oid : object_id;
  op_version : Z;
  offset : Z;
  len : Z;
  buf : option (list obj_ver_id);
  retval : Z;
  wait_for : Z;
  wait_detail : Z;
  op_state : Z;
  pending_ops : Z
}.

Definition set_opcode_cb v cb o :=
  mk_op v cb (op_oid o) (op_version o) (offset o) (len o) (buf o) (retval o)
        (wait_for o) (wait_detail o) (op_state o) (pending_ops o).
Definition set_retval v o :=
  mk_op (opcode o) (callback o) (op_oid o) (op_version o) (offset o) (len o)
        (buf o) v (wait_for o) (wait_detail o) (op_state o) (pending_ops o).
Definition set_list_result ver rv b o :=
  mk_op (opcode o) (callback o) (op_oid o) ver (offset o) (len o)
        b rv (wait_for o) (wait_detail o) (op_state o) (pending_ops o).
Definition set_wait_for v o :=
  mk_op (opcode o) (callback o) (op_oid o) (op_version o) (offset o) (len o)
        (buf o) (retval o) v (wait_detail o) (op_state o) (pending_ops o).
Definition set_wait_detail v o :=
  mk_op (opcode o) (callback o) (op_oid o) (op_version o) (offset o) (len o)
        (buf o) (retval o) (wait_for o) v (op_state o) (pending_ops o).
(** The placement [new] of the private data, then [wait_for = 0],
    [op_state = 0], [pending_ops = 0]; [wait_detail] is not assigned. *)
Definition init_private o :=
  mk_op (opcode o) (callback o) (op_oid o) (op_version o) (offset o) (len o)
        (buf o) (retval o) 0 (wait_detail o) 0 0.

(** Modelled from the spec: the state of a dirty entry is the product of a
    kind, a durability and flags (§3); [IS_DELETE] and [IS_STABLE] of the
    absent header test the kind and the durability. *)
Inductive write_kind := SMALL_WRITE | BIG_WRITE | DELETE.
Inductive durability :=
| IN_FLIGHT | SUBMITTED | WRITTEN | SYNCED | META_SYNCED | STABLE.
Record dirty_state := mk_state { kind : write_kind; durable : durability }.

Definition IS_DELETE (st : dirty_state) : bool :=
  match kind st with DELETE => true | _ => false end.
Definition IS_STABLE (st : dirty_state) : bool :=
  match durable st with STABLE => true | _ => false end.

Record clean_entry := mk_clean { clean_version : Z; clean_location : Z }.
Record dirty_entry := mk_dirty { state : dirty_state; location : Z }.

Record journal_sector_info := mk_sector { flush_count : Z; dirty : bool }.
Record journal_t := mk_journal {
  used_start : Z;
  cur_sector : Z;
  sector_count : Z;
  sector_info : list journal_sector_info
}.

(** The engine.  [clean_db] and [dirty_db] are ordered maps: the list is the
    order in which an iterator walks them.  [ring_space] is
    [ringloop->space_left()], [ring_has_work] is [ringloop->has_work()],
    [flusher_active] is [flusher->is_active()], [free_blocks] is
    [data_alloc->get_free_count()].  [fired] holds the operations whose
    callback was called, oldest first, as the callback saw them. *)
Record blockstore_impl_t := mk_bs {
  initialized : Z;
  readonly : bool;
  block_size : Z;
  disk_alignment : Z;
  submit_queue : list blockstore_op_t;
  unsynced_big_writes : list obj_ver_id;
  unsynced_small_writes : list obj_ver_id;
  stop_sync_submitted : bool;
  clean_db : list (object_id * clean_entry);
  dirty_db : list (obj_ver_id * dirty_entry);
  journal : journal_t;
  free_blocks : Z;
  flusher_active : bool;
  trim_released : nat;
  ring_space : Z;
  ring_has_work : bool;
  wakeups : nat;
  live : bool;
  queue_stall : bool;
  fired : list blockstore_op_t
}.

Definition set_initialized v b :=
  mk_bs v (readonly b) (block_size b) (disk_alignment b) (submit_queue b)
    (unsynced_big_writes b) (unsynced_small_writes b) (stop_sync_submitted b)
    (clean_db b) (dirty_db b) (journal b) (free_blocks b) (flusher_active b)
    (trim_released b) (ring_space b) (ring_has_work b) (wakeups b) (live b)
    (queue_stall b) (fired b).
Definition set_submit_queue v b :=
  mk_bs (initialized b) (readonly b) (block_size b) (disk_alignment b) v
    (unsynced_big_writes b) (unsynced_small_writes b) (stop_sync_submitted b)
    (clean_db b) (dirty_db b) (journal b) (free_blocks b) (flusher_active b)
    (trim_released b) (ring_space b) (ring_has_work b) (wakeups b) (live b)
    (queue_stall b) (fired b).
Definition set_stop_sync_submitted v b :=
  mk_bs (initialized b) (readonly b) (block_size b) (disk_alignment b)
    (submit_queue b) (unsynced_big_writes b) (unsynced_small_writes b) v
    (clean_db b) (dirty_db b) (journal b) (free_blocks b) (flusher_active b)
    (trim_released b) (ring_space b) (ring_has_work b) (wakeups b) (live b)
    (queue_stall b) (fired b).
Definition set_trim_released v b :=
  mk_bs (initialized b) (readonly b) (block_size b) (disk_alignment b)
    (submit_queue b) (unsynced_big_writes b) (unsynced_small_writes b)
    (stop_sync_submitted b) (clean_db b) (dirty_db b) (journal b)
    (free_blocks b) (flusher_active b) v (ring_space b) (ring_has_work b)
    (wakeups b) (live b) (queue_stall b) (fired b).
Definition set_ring_space v b :=
  mk_bs (initialized b) (readonly b) (block_size b) (disk_alignment b)
    (submit_queue b) (unsynced_big_writes b) (unsynced_small_writes b)
    (stop_sync_submitted b) (clean_db b) (dirty_db b) (journal b)
    (free_blocks b) (flusher_active b) (trim_released b) v (ring_has_work b)
    (wakeups b) (live b) (queue_stall b) (fired b).
Definition set_wakeups v b :=
  mk_bs (initialized b) (readonly b) (block_size b) (disk_alignment b)
    (submit_queue b) (unsynced_big_writes b) (unsynced_small_writes b)
    (stop_sync_submitted b) (clean_db b) (dirty_db b) (journal b)
    (free_blocks b) (flusher_active b) (trim_released b) (ring_space b)
    (ring_has_work b) v (live b) (queue_stall b) (fired b).
Definition set_live_stall lv st b :=
  mk_bs (initialized b) (readonly b) (block_size b) (disk_alignment b)
    (submit_queue b) (unsynced_big_writes b) (unsynced_small_writes b)
    (stop_sync_submitted b) (clean_db b) (dirty_db b) (journal b)
    (free_blocks b) (flusher_active b) (trim_released b) (ring_space b)
    (ring_has_work b) (wakeups b) lv st (fired b).
Definition set_fired v b :=
  mk_bs (initialized b) (readonly b) (block_size b) (disk_alignment b)
    (submit_queue b) (unsynced_big_writes b) (unsynced_small_writes b)
    (stop_sync_submitted b) (clean_db b) (dirty_db b) (journal b)
    (free_blocks b) (flusher_active b) (trim_released b) (ring_space b)
    (ring_has_work b) (wakeups b) (live b) (queue_stall b) v.

(** [op->callback(op)], through a copy of the [std::function]. *)
Definition call_callback (op : blockstore_op_t) (b : blockstore_impl_t)
  : blockstore_impl_t := set_fired (fired b ++ [op]) b.

(** [ringloop->wakeup()] *)
Definition ring_wakeup (b : blockstore_impl_t) : blockstore_impl_t :=
  set_wakeups (S (wakeups b)) b.

Definition is_rw (o : blockstore_op_t) : bool :=
  (opcode o =? BS_OP_READ) || (opcode o =? BS_OP_WRITE)
  || (opcode o =? BS_OP_WRITE_STABLE).
Definition is_write_or_delete (o : blockstore_op_t) : bool :=
  (opcode o =? BS_OP_WRITE) || (opcode o =? BS_OP_WRITE_STABLE)
  || (opcode o =? BS_OP_DELETE).

(** The condition of the first [if] of [enqueue_op].  [||] does not evaluate
    [block_size-op->offset] unless [op->offset < block_size], so the unsigned
    subtraction does not wrap. *)
Definition basic_verification_fails (b : blockstore_impl_t)
    (op : blockstore_op_t) : bool :=
  (opcode op <? BS_OP_MIN) || (BS_OP_MAX <? opcode op)
  || (is_rw op
      && ((block_size b <=? offset op)
          || (block_size b - offset op <? len op)
          || negb (len op mod disk_alignment b =? 0)))
  || (readonly b && negb (opcode op =? BS_OP_READ)
      && negb (opcode op =? BS_OP_LIST)).

Section EnqueueOp.
(** [enqueue_write] is in the write path, another file of the engine: it
    assigns the version and creates the dirty entry, or refuses the
    operation after setting its [retval]. *)
Variable enqueue_write :
  blockstore_op_t -> blockstore_impl_t -> bool * blockstore_op_t * blockstore_impl_t.

Definition enqueue_op (op : blockstore_op_t) (b : blockstore_impl_t)
  : blockstore_impl_t :=
  if basic_verification_fails b op then
    call_callback (set_retval (- EINVAL) op) b
  else
    let op1 := if opcode op =? BS_OP_SYNC_STAB_ALL
               then set_opcode_cb BS_OP_SYNC (CbSyncStabAll (callback op)) op
               else op in
    let push o b' :=
      ring_wakeup (set_submit_queue (submit_queue b' ++ [init_private o]) b') in
    if is_write_or_delete op1 then
      let '(ok, op2, b1) := enqueue_write op1 b in
      if ok then push op2 b1 else call_callback op2 b1
    else push op1 b.

(** The operation that [is_safe_to_stop] allocates: it sets the opcode, the
    buffer and the callback; the other fields are taken as 0. *)
Definition stop_sync_op : blockstore_op_t :=
  mk_op BS_OP_SYNC CbDeleteOp (mk_oid 0 0) 0 0 0 None 0 0 0 0 0.

Definition is_safe_to_stop (b : blockstore_impl_t)
  : bool * blockstore_impl_t :=
  if (0 <? Z.of_nat (length (submit_queue b)))
     || (negb (readonly b) && flusher_active b) then (false, b)
  else if (0 <? Z.of_nat (length (unsynced_big_writes b)))
          || (0 <? Z.of_nat (length (unsynced_small_writes b))) then
    if negb (readonly b) && negb (stop_sync_submitted b) then
      (false, set_stop_sync_submitted true (enqueue_op stop_sync_op b))
    else (false, b)
  else (true, b).
End EnqueueOp.

(** *** LIST *)

Fixpoint drop_while {A} (f : A -> bool) (l : list A) : list A :=
  match l with
  | [] => []
  | x :: l' => if f x then drop_while f l' else l
  end.
Fixpoint take_while {A} (f : A -> bool) (l : list A) : list A :=
  match l with
  | [] => []
  | x :: l' => if f x then x :: take_while f l' else []
  end.

(** What an iterator walks from [m.lower_bound(lo)] to [m.upper_bound(hi)]:
    from the first key that is not below [lo] to the first key above [hi]. *)
Definition map_range {K V} (lt : K -> K -> bool) (lo hi : K)
    (m : list (K * V)) : list (K * V) :=
  take_while (fun kv => negb (lt hi (fst kv)))
             (drop_while (fun kv => lt (fst kv) lo) m).

(** The arguments of a LIST, as [process_list] reads them off the operation. *)
Definition list_pg (op : blockstore_op_t) : Z := offset op.
Definition pg_count (op : blockstore_op_t) : Z := len op.
Definition pg_stripe_size (op : blockstore_op_t) : Z := stripe (op_oid op).
Definition min_inode (op : blockstore_op_t) : Z := inode (op_oid op).
Definition max_inode (op : blockstore_op_t) : Z := op_version op.

Definition pg_check_fails (op : blockstore_op_t) : bool :=
  negb (pg_count op =? 0)
  && ((pg_stripe_size op <? MIN_BLOCK_SIZE) || (pg_count op <=? list_pg op)).

Definition inode_range_given (op : blockstore_op_t) : bool :=
  (negb (min_inode op =? 0) || negb (max_inode op =? 0))
  && (min_inode op <=? max_inode op).

(** [!pg_count || ((inode + stripe / pg_stripe_size) % pg_count) == list_pg],
    in [uint64_t]. *)
Definition in_pg (op : blockstore_op_t) (o : object_id) : bool :=
  (pg_count op =? 0)
  || (wrap64 (inode o + stripe o / pg_stripe_size op) mod pg_count op
      =? list_pg op).

Definition clean_scan (op : blockstore_op_t)
    (db : list (object_id * clean_entry)) : list (object_id * clean_entry) :=
  if inode_range_given op
  then map_range oid_lt (mk_oid (min_inode op) 0)
                 (mk_oid (max_inode op) UINT64_MAX) db
  else db.

Definition dirty_scan (op : blockstore_op_t)
    (db : list (obj_ver_id * dirty_entry)) : list (obj_ver_id * dirty_entry) :=
  if inode_range_given op
  then map_range ov_lt (mk_ov (mk_oid (min_inode op) 0) 0)
                 (mk_ov (mk_oid (max_inode op) UINT64_MAX) UINT64_MAX) db
  else db.

(** [replace_stable]: a binary search in [list[search_start, search_end)];
    [None] when it reads outside the array.  Every round shrinks the range,
    so [search_end - search_start] rounds are enough. *)
Fixpoint replace_stable_loop (fuel : nat) (o : object_id) (v : Z)
    (search_start search_end : nat) (l : list obj_ver_id)
  : option (bool * list obj_ver_id) :=
  if (search_start <? search_end)%nat then
    match fuel with
    | O => None
    | S fuel' =>
        let pos := (search_start + (search_end - search_start) / 2)%nat in
        match l !! pos with
        | None => None
        | Some x =>
            if oid_lt o (oid x) then
              replace_stable_loop fuel' o v search_start pos l
            else if oid_lt (oid x) o then
              replace_stable_loop fuel' o v (pos + 1)%nat search_end l
            else Some (true, <[pos := mk_ov (oid x) v]> l)
        end
    end
  else Some (false, l).

Definition replace_stable (o : object_id) (v : Z)
    (search_start search_end : nat) (l : list obj_ver_id)
  : option (bool * list obj_ver_id) :=
  replace_stable_loop (search_end - search_start) o v search_start search_end l.

(** How a loop of [process_list] goes on: with its variables, or by leaving
    with [-ENOMEM], or by reading outside [stable]. *)
Inductive scan (A : Type) : Type :=
| Continue (a : A)
| NoMemory
| OutOfRange.
Arguments Continue {A} a.
Arguments NoMemory {A}.
Arguments OutOfRange {A}.

(** [stable], [stable_alloc], [unstable], [unstable_alloc]; [stable_count]
    and [unstable_count] are the lengths.  The counts are [int]: lists of
    2^31 entries are not considered. *)
Record list_state := mk_ls {
  stable : list obj_ver_id;
  stable_alloc : Z;
  unstable : list obj_ver_id;
  unstable_alloc : Z
}.

Definition set_last_version (v : Z) (l : list obj_ver_id) : list obj_ver_id :=
  <[(length l - 1)%nat := mk_ov (default (mk_oid 0 0) (oid <$> last l)) v]> l.

Section ProcessList.
(** Whether [malloc] or [realloc] yields room for that many entries. *)
Variable alloc_ok : Z -> bool.

(** One round of the loop over [clean_db]. *)
Definition clean_step (op : blockstore_op_t) (st : list_state)
    (c : object_id * clean_entry) : scan list_state :=
  if in_pg op (fst c) then
    let entry := mk_ov (fst c) (clean_version (snd c)) in
    if stable_alloc st <=? Z.of_nat (length (stable st)) then
      let alloc := stable_alloc st + 32768 in
      if alloc_ok alloc
      then Continue (mk_ls (stable st ++ [entry]) alloc
                           (unstable st) (unstable_alloc st))
      else NoMemory
    else Continue (mk_ls (stable st ++ [entry]) (stable_alloc st)
                         (unstable st) (unstable_alloc st))
  else Continue st.

(** One round of the loop over [dirty_db]. *)
Definition dirty_step (op : blockstore_op_t) (clean_stable_count : nat)
    (st : list_state) (d : obj_ver_id * dirty_entry) : scan list_state :=
  let k := fst d in
  let with_stable l :=
    Continue (mk_ls l (stable_alloc st) (unstable st) (unstable_alloc st)) in
  if in_pg op (oid k) then
    if IS_DELETE (state (snd d)) then
      match replace_stable (oid k) 0 0 clean_stable_count (stable st) with
      | None => OutOfRange
      | Some (true, l) => with_stable l
      | Some (false, _) =>
          match replace_stable (oid k) 0 clean_stable_count
                               (length (stable st)) (stable st) with
          | None => OutOfRange
          | Some (_, l) => with_stable l
          end
      end
    else if IS_STABLE (state (snd d)) then
      match replace_stable (oid k) (version k) 0 clean_stable_count
                           (stable st) with
      | None => OutOfRange
      | Some (true, l) => with_stable l
      | Some (false, _) =>
          if (0 <? length (stable st))%nat
             && bool_decide (oid <$> last (stable st) = Some (oid k)) then
            with_stable (set_last_version (version k) (stable st))
          else if stable_alloc st <=? Z.of_nat (length (stable st)) then
            let alloc := stable_alloc st + 32768 in
            if alloc_ok alloc
            then Continue (mk_ls (stable st ++ [k]) alloc
                                 (unstable st) (unstable_alloc st))
            else NoMemory
          else with_stable (stable st ++ [k])
      end
    else
      if unstable_alloc st <=? Z.of_nat (length (unstable st)) then
        let alloc := unstable_alloc st + 32768 in
        if alloc_ok alloc
        then Continue (mk_ls (stable st) (stable_alloc st)
                             (unstable st ++ [k]) alloc)
        else NoMemory
      else Continue (mk_ls (stable st) (stable_alloc st)
                           (unstable st ++ [k]) (unstable_alloc st))
  else Continue st.

Fixpoint scan_loop {A} (step : list_state -> A -> scan list_state)
    (its : list A) (st : list_state) : scan list_state :=
  match its with
  | [] => Continue st
  | x :: its' =>
      match step st x with
      | Continue st' => scan_loop step its' st'
      | NoMemory => NoMemory
      | OutOfRange => OutOfRange
      end
  end.

(** The two loops. *)
Definition list_scan (op : blockstore_op_t) (b : blockstore_impl_t)
  : scan (nat * list_state) :=
  let stable_alloc0 :=
    Z.of_nat (length (clean_db b))
    / (if pg_count op =? 0 then 1 else pg_count op) in
  if alloc_ok stable_alloc0 then
    match scan_loop (clean_step op) (clean_scan op (clean_db b))
                    (mk_ls [] stable_alloc0 [] 0) with
    | Continue st1 =>
        let clean_stable_count := length (stable st1) in
        match scan_loop (dirty_step op clean_stable_count)
                        (dirty_scan op (dirty_db b)) st1 with
        | Continue st2 => Continue (clean_stable_count, st2)
        | NoMemory => NoMemory
        | OutOfRange => OutOfRange
        end
    | NoMemory => NoMemory
    | OutOfRange => OutOfRange
    end
  else NoMemory.

(** [stable[j++] = stable[i]] for the entries whose version is not 0. *)
Definition remove_zeroed (l : list obj_ver_id) : list obj_ver_id :=
  List.filter (fun x => negb (version x =? 0)) l.

(** The operation as its callback sees it; [Undef] when the code reads
    outside [stable]. *)
Definition list_result (op : blockstore_op_t) (b : blockstore_impl_t)
  : outcome blockstore_op_t :=
  if pg_check_fails op then Ok (set_retval (- EINVAL) op)
  else
    match list_scan op b with
    | NoMemory => Ok (set_retval (- ENOMEM) op)
    | OutOfRange => Undef "replace_stable reads outside the list"
    | Continue (_, st) =>
        let stable' := remove_zeroed (stable st) in
        let stable_count := length stable' in
        let unstable_count := length (unstable st) in
        if (stable_alloc st <? Z.of_nat (stable_count + unstable_count))
           && negb (alloc_ok (Z.of_nat (stable_count + unstable_count))) then
          Ok (set_retval (- ENOMEM) op)
        else
          Ok (set_list_result (Z.of_nat stable_count)
                (Z.of_nat (stable_count + unstable_count))
                (Some (stable' ++ unstable st)) op)
    end.

(** [process_list]: the result, then [FINISH_OP(op)], which calls the
    callback.  Nothing else of the engine is written. *)
Definition process_list (op : blockstore_op_t) (b : blockstore_impl_t)
  : outcome (blockstore_op_t * blockstore_impl_t) :=
  op' ← list_result op b;
  Ok (op', call_callback op' b).
End ProcessList.

(** *** The submit loop *)

Definition check_wait (op : blockstore_op_t) (b : blockstore_impl_t)
  : outcome (blockstore_op_t * blockstore_impl_t) :=
  if wait_for op =? WAIT_SQE then
    if ring_space b <? wait_detail op then Ok (op, b)
    else Ok (set_wait_for 0 op, b)
  else if wait_for op =? WAIT_JOURNAL then
    if used_start (journal b) =? wait_detail op then Ok (op, b)
    else Ok (set_wait_for 0 op, set_trim_released (S (trim_released b)) b)
  else if wait_for op =? WAIT_JOURNAL_BUFFER then
    if sector_count (journal b) =? 0 then Undef "modulo by zero"
    else
      let next := (cur_sector (journal b) + 1) mod sector_count (journal b) in
      match sector_info (journal b) !! Z.to_nat next with
      | None => Undef "sector_info index out of range"
      | Some si =>
          if (0 <? flush_count si) || dirty si then Ok (op, b)
          else Ok (set_wait_for 0 op, b)
      end
  else if wait_for op =? WAIT_FREE then
    if (free_blocks b =? 0) && negb (flusher_active b) then Ok (op, b)
    else Ok (set_wait_for 0 op, b)
  else Throw "BUG: op->wait_for value is unexpected".

(** The handlers of the other files of the engine, and the two init readers.
    A handler gets the operation and the engine and returns its [int], the
    operation and the engine.  They do not walk [submit_queue]: the loop keeps
    its own cursor on it. *)
Definition handler : Type :=
  blockstore_op_t -> blockstore_impl_t -> Z * blockstore_op_t * blockstore_impl_t.

Record handlers := mk_handlers {
  dequeue_read : handler;
  dequeue_write : handler;
  dequeue_del : handler;
  continue_sync : bool -> handler;
  dequeue_stable : handler;
  dequeue_rollback : handler;
  flusher_loop : blockstore_impl_t -> blockstore_impl_t;
  ring_submit : blockstore_impl_t -> Z * blockstore_impl_t;
  metadata_init_loop : blockstore_impl_t -> Z * blockstore_impl_t;
  journal_init_loop : blockstore_impl_t -> Z * blockstore_impl_t
}.

(** What one pass did with an operation of the queue, in order: the operation
    stayed parked after [check_wait]; it was passed over because of
    [has_writes]; a handler was called and returned [r]. *)
Inductive call := CRead | CWrite | CDel | CSync | CStable | CRollback | CList.
Inductive event :=
| Parked (op : blockstore_op_t)
| PassedOver (op : blockstore_op_t)
| Called (c : call) (op : blockstore_op_t) (r : Z).

Section Loop.
Variable alloc_ok : Z -> bool.
Variable H : handlers.

(** The loop variables: the engine, the part of the queue already walked
    and kept (newest first), [has_writes], the events. *)
Record pass_state := mk_pass {
  engine : blockstore_impl_t;
  kept : list blockstore_op_t;
  has_writes : Z;
  events : list event
}.

(** How a round ends: [continue] or the end of the body; [break], with the
    operation left in the queue; an exception or undefined behaviour, which
    leaves the loop with the variables as they are. *)
Inductive round :=
| Next (s : pass_state)
| Break (s : pass_state)
| Abort (s : pass_state) (why : outcome unit).

Definition failure {A} (o : outcome A) : outcome unit :=
  match o with
  | Ok _ => Ok tt
  | Throw w => Throw w
  | Undef w => Undef w
  end.

(** The part of the body after the handler: erase, restore, break.
    [ringloop->save()] and [restore()] are modelled from the spec, §4.1: the
    cursor is what [space_left()] was when it was saved. *)
Definition after_handler (s : pass_state) (c : call) (r : Z)
    (dequeue_op cancel_op : bool) (op : blockstore_op_t)
    (b : blockstore_impl_t) (hw : Z) (ring_space0 prev_sqe_pos : Z) : round :=
  let ev := events s ++ [Called c op r] in
  let keep := if dequeue_op then kept s else op :: kept s in
  if cancel_op then
    let b1 := set_ring_space prev_sqe_pos b in
    if wait_for op =? WAIT_SQE then
      let op1 := set_wait_detail (1 + ring_space0) op in
      Break (mk_pass b1 (if dequeue_op then kept s else op1 :: kept s) hw ev)
    else Next (mk_pass b1 keep hw ev)
  else Next (mk_pass b keep hw ev).

(** The body from [unsigned ring_space = ...] on. *)
Definition dispatch (s : pass_state) (op : blockstore_op_t)
    (b : blockstore_impl_t) : round :=
  let ring_space0 := ring_space b in
  let prev_sqe_pos := ring_space b in
  let hw := has_writes s in
  let skip := Next (mk_pass b (op :: kept s) hw
                            (events s ++ [PassedOver op])) in
  if opcode op =? BS_OP_READ then
    let '(r, op1, b1) := dequeue_read H op b in
    after_handler s CRead r (negb (r =? 0)) (r =? 0) op1 b1 hw
                  ring_space0 prev_sqe_pos
  else if (opcode op =? BS_OP_WRITE) || (opcode op =? BS_OP_WRITE_STABLE) then
    if hw =? 2 then skip
    else
      let '(wr_st, op1, b1) := dequeue_write H op b in
      after_handler s CWrite wr_st (wr_st =? 2) (wr_st =? 0) op1 b1
                    (if 0 <? wr_st then 1 else 2)
                    ring_space0 prev_sqe_pos
  else if opcode op =? BS_OP_DELETE then
    if hw =? 2 then skip
    else
      let '(wr_st, op1, b1) := dequeue_del H op b in
      after_handler s CDel wr_st (wr_st =? 2) (wr_st =? 0) op1 b1
                    (if 0 <? wr_st then 1 else 2)
                    ring_space0 prev_sqe_pos
  else if opcode op =? BS_OP_SYNC then
    if negb (hw =? 0) then skip
    else
      let '(wr_st, op1, b1) := continue_sync H false op b in
      after_handler s CSync wr_st (wr_st =? 2) (wr_st =? 0) op1 b1 hw
                    ring_space0 prev_sqe_pos
  else if opcode op =? BS_OP_STABLE then
    let '(wr_st, op1, b1) := dequeue_stable H op b in
    after_handler s CStable wr_st (wr_st =? 2) (wr_st =? 0) op1 b1 hw
                  ring_space0 prev_sqe_pos
  else if opcode op =? BS_OP_ROLLBACK then
    let '(wr_st, op1, b1) := dequeue_rollback H op b in
    after_handler s CRollback wr_st (wr_st =? 2) (wr_st =? 0) op1 b1 hw
                  ring_space0 prev_sqe_pos
  else if opcode op =? BS_OP_LIST then
    match process_list alloc_ok op b with
    | Ok (op1, b1) =>
        after_handler s CList (retval op1) true false op1 b1 hw
                      ring_space0 prev_sqe_pos
    | bad => Abort (mk_pass b (op :: kept s) hw (events s)) (failure bad)
    end
  else Next (mk_pass b (op :: kept s) hw (events s)).

(** One round of the [while] over [submit_queue]. *)
Definition loop_body (s : pass_state) (op : blockstore_op_t) : round :=
  if negb (wait_for op =? 0) then
    match check_wait op (engine s) with
    | Ok (op1, b1) =>
        if wait_for op1 =? WAIT_SQE then
          Break (mk_pass b1 (op1 :: kept s) (has_writes s)
                         (events s ++ [Parked op1]))
        else if negb (wait_for op1 =? 0) then
          Next (mk_pass b1 (op1 :: kept s)
                        (if is_write_or_delete op1 then 2 else has_writes s)
                        (events s ++ [Parked op1]))
        else dispatch s op1 b1
    | bad => Abort (mk_pass (engine s) (op :: kept s) (has_writes s) (events s))
                   (failure bad)
    end
  else dispatch s op (engine s).

(** The [while]: the variables at its end, the operations not reached, and
    how it ended. *)
Fixpoint submit_pass (queue : list blockstore_op_t) (s : pass_state)
  : pass_state * list blockstore_op_t * outcome unit :=
  match queue with
  | [] => (s, [], Ok tt)
  | op :: queue' =>
      match loop_body s op with
      | Next s' => submit_pass queue' s'
      | Break s' => (s', queue', Ok tt)
      | Abort s' why => (s', queue', why)
      end
  end.

(** The pass of [loop()] over the queue, from its start. *)
Definition queue_pass (b : blockstore_impl_t)
  : pass_state * list blockstore_op_t * outcome unit :=
  submit_pass (submit_queue b) (mk_pass b [] 0 []).

(** [loop()], with the events of the pass over the queue. *)
Definition loop (b : blockstore_impl_t)
  : outcome (blockstore_impl_t * list event) :=
  if negb (initialized b =? 10) then
    let b1 := if initialized b =? 0 then set_initialized 1 b else b in
    let b2 :=
      if initialized b1 =? 1 then
        let '(res, b') := metadata_init_loop H b1 in
        if res =? 0 then set_initialized 2 b' else b'
      else b1 in
    let b3 :=
      if initialized b2 =? 2 then
        let '(res, b') := journal_init_loop H b2 in
        if res =? 0 then ring_wakeup (set_initialized 10 b') else b'
      else b2 in
    Ok (b3, [])
  else
    let initial_ring_space := ring_space b in
    let '(s, rest, ending) := queue_pass b in
    _ ← ending;
    let b1 := set_submit_queue (rev (kept s) ++ rest) (engine s) in
    let b2 := if negb (readonly b1) then flusher_loop H b1 else b1 in
    let '(ret, b3) := ring_submit H b2 in
    if ret <? 0 then Throw "io_uring_submit"
    else
      let lv := if 0 <? wrap32 (initial_ring_space - ring_space b3)
                then true else live b3 in
      Ok (set_live_stall false (negb lv && negb (ring_has_work b3)) b3,
          events s).
End Loop.

(** *** Notions used to state the properties *)

(** The invalid arguments as the specification lists them: an opcode outside
    the valid range; for READ, WRITE and WRITE_STABLE an offset at or past the
    end of the block, a length past it, or an offset or a length that is not a
    multiple of [disk_alignment]; anything but READ and LIST on a readonly
    engine. *)
Definition invalid_as_specified (b : blockstore_impl_t)
    (op : blockstore_op_t) : Prop :=
  opcode op < BS_OP_MIN \/ BS_OP_MAX < opcode op
  \/ (is_rw op = true
      /\ (block_size b <= offset op
          \/ block_size b - offset op < len op
          \/ offset op mod disk_alignment b <> 0
          \/ len op mod disk_alignment b <> 0))
  \/ (readonly b = true /\ opcode op <> BS_OP_READ /\ opcode op <> BS_OP_LIST).

(** The same without the alignment of the offset. *)
Definition invalid_arguments (b : blockstore_impl_t)
    (op : blockstore_op_t) : Prop :=
  opcode op < BS_OP_MIN \/ BS_OP_MAX < opcode op
  \/ (is_rw op = true
      /\ (block_size b <= offset op
          \/ block_size b - offset op < len op
          \/ len op mod disk_alignment b <> 0))
  \/ (readonly b = true /\ opcode op <> BS_OP_READ /\ opcode op <> BS_OP_LIST).

(** The flusher becomes active or idle; nothing else changes. *)
Definition set_flusher_active v b :=
  mk_bs (initialized b) (readonly b) (block_size b) (disk_alignment b)
    (submit_queue b) (unsynced_big_writes b) (unsynced_small_writes b)
    (stop_sync_submitted b) (clean_db b) (dirty_db b) (journal b)
    (free_blocks b) v (trim_released b) (ring_space b) (ring_has_work b)
    (wakeups b) (live b) (queue_stall b) (fired b).

(** Events of a pass: a call of [dequeue_write] or [dequeue_del]; a call of
    [continue_sync]; a write or delete that could not be submitted (the
    handler returned 0, or the operation stayed parked); a write or delete
    that was met at all. *)
Definition is_write_call (e : event) : bool :=
  match e with
  | Called CWrite _ _ | Called CDel _ _ => true
  | _ => false
  end.
Definition is_sync_call (e : event) : bool :=
  match e with
  | Called CSync _ _ => true
  | _ => false
  end.
Definition write_failed (e : event) : bool :=
  match e with
  | Called CWrite _ r | Called CDel _ r => r <=? 0
  | Parked op => is_write_or_delete op
  | _ => false
  end.
Definition write_seen (e : event) : bool :=
  match e with
  | Called CWrite _ _ | Called CDel _ _ => true
  | Parked op => is_write_or_delete op
  | _ => false
  end.

(** The events of the pass of [loop()] over the queue of [b], and the
    operations the pass walked and left in the queue. *)
Definition pass_events (alloc_ok : Z -> bool) (H : handlers)
    (b : blockstore_impl_t) : list event :=
  events (fst (fst (queue_pass alloc_ok H b))).
Definition pass_kept (alloc_ok : Z -> bool) (H : handlers)
    (b : blockstore_impl_t) : list blockstore_op_t :=
  kept (fst (fst (queue_pass alloc_ok H b))).

(** What the pass guarantees about its events, and the invariant of its
    loop that yields it: [has_writes] is 2 once a write failed and not 0 once
    a write was met. *)
Definition pass_props (s : pass_state) : Prop :=
  (forall t1 e t2, events s = t1 ++ e :: t2 -> write_failed e = true ->
        Forall (fun e' => is_write_call e' = false) t2)
  /\ (forall t1 e t2, events s = t1 ++ e :: t2 -> write_seen e = true ->
        Forall (fun e' => is_sync_call e' = false) t2)
  /\ (forall op, PassedOver op ∈ events s ->
        op ∈ kept s
        /\ (is_write_or_delete op = true \/ opcode op = BS_OP_SYNC)).

Definition pass_inv (s : pass_state) : Prop :=
  (Exists (fun e => write_failed e = true) (events s) -> has_writes s = 2)
  /\ (Exists (fun e => write_seen e = true) (events s) -> has_writes s <> 0)
  /\ pass_props s.

Definition round_inv (r : round) : Prop :=
  match r with
  | Next s => pass_inv s
  | Break s | Abort s _ => pass_props s
  end.

(** The maps are ordered by their keys and the keys are made of [uint64_t]:
    what [std::map] and the types of the fields guarantee. *)
Definition u64 (x : Z) : Prop := 0 <= x <= UINT64_MAX.
Definition oid_u64 (o : object_id) : Prop := u64 (inode o) /\ u64 (stripe o).
Definition ordered_dbs (b : blockstore_impl_t) : Prop :=
  StronglySorted (fun x y => oid_lt x y = true) (fst <$> clean_db b)
  /\ StronglySorted (fun x y => ov_lt x y = true) (fst <$> dirty_db b)
  /\ Forall (fun c => oid_u64 (fst c)) (clean_db b)
  /\ Forall (fun d => oid_u64 (oid (fst d)) /\ u64 (version (fst d)))
            (dirty_db b).

(** A dirty entry that LIST reports as unstable: neither a delete nor
    stable. *)
Definition is_unstable (d : obj_ver_id * dirty_entry) : bool :=
  negb (IS_DELETE (state (snd d))) && negb (IS_STABLE (state (snd d))).
(** A dirty entry that LIST merges into the stable part. *)
Definition is_stable_write (d : obj_ver_id * dirty_entry) : bool :=
  negb (IS_DELETE (state (snd d))) && IS_STABLE (state (snd d)).

(** *** Notions used to state and prove the properties of LIST *)

(** The inode range of a LIST, and its whole filter. *)
Definition in_inode_range (op : blockstore_op_t) (o : object_id) : bool :=
  negb (inode_range_given op)
  || ((min_inode op <=? inode o) && (inode o <=? max_inode op)).
Definition listed (op : blockstore_op_t) (o : object_id) : bool :=
  in_inode_range op o && in_pg op o.
(** The entry that LIST makes of an entry of the clean DB. *)
Definition clean_entry_of (c : object_id * clean_entry) : obj_ver_id :=
  mk_ov (fst c) (clean_version (snd c)).

(** Where an entry of the stable part comes from. *)
Definition from_clean (b : blockstore_impl_t) (x : obj_ver_id) : Prop :=
  exists c, c ∈ clean_db b /\ clean_entry_of c = x.
Definition from_stable_write (b : blockstore_impl_t) (x : obj_ver_id) : Prop :=
  exists e, (x, e) ∈ dirty_db b /\ is_stable_write (x, e) = true.

(** [list[s, e)] is strictly ordered by object. *)
Definition sorted_range (l : list obj_ver_id) (s e : nat) : Prop :=
  forall i j x y, (s <= i)%nat -> (i < j)%nat -> (j < e)%nat ->
    l !! i = Some x -> l !! j = Some y -> oid_lt (oid x) (oid y) = true.

Definition Rlt (x y : object_id) : Prop := oid_lt x y = true.
Definition Rov (x y : obj_ver_id) : Prop := ov_lt x y = true.

(** [O] is the list of the objects of [stable]: its first [csc] entries come
    from the clean DB, the others from the dirty DB; both parts are strictly
    ordered, no object is in both, and the objects of the second part are not
    above those of the dirty entries still to come. *)
Definition chain_inv (csc : nat) (rest : list (obj_ver_id * dirty_entry))
    (O : list object_id) : Prop :=
  (csc <= length O)%nat
  /\ StronglySorted Rlt (take csc O)
  /\ StronglySorted Rlt (drop csc O)
  /\ (forall y, y ∈ drop csc O -> y ∉ take csc O)
  /\ (forall y d, y ∈ drop csc O -> d ∈ rest -> oid_lt (oid (fst d)) y = false)
  /\ StronglySorted Rov (fst <$> rest).

(** Every entry of the object in the list has version 0: the compaction
    removes them all. *)
Definition zeroed (o : object_id) (l : list obj_ver_id) : Prop :=
  forall x, x ∈ l -> oid x = o -> version x = 0.

(** What one round of the loop over the dirty DB does to [stable]: nothing;
    or it sets the version of an entry of the same object, to 0 for a delete
    and to the version of the write for a stable write; or it appends the key
    of a stable write. *)
Definition stable_effect (op : blockstore_op_t) (d : obj_ver_id * dirty_entry)
    (l l' : list obj_ver_id) : Prop :=
  l' = l
  \/ (in_pg op (oid (fst d)) = true
      /\ exists pos x, l !! pos = Some x /\ oid x = oid (fst d)
         /\ ((IS_DELETE (state (snd d)) = true
              /\ l' = <[pos := mk_ov (oid (fst d)) 0]> l)
             \/ (is_stable_write d = true /\ l' = <[pos := fst d]> l)))
  \/ (in_pg op (oid (fst d)) = true /\ is_stable_write d = true
      /\ l' = l ++ [fst d]).

(** The rounds of the loop, one after the other. *)
Inductive effects (op : blockstore_op_t)
  : list (obj_ver_id * dirty_entry) -> list obj_ver_id -> list obj_ver_id -> Prop :=
| effects_nil l : effects op [] l l
| effects_cons d its l l1 l2 :
    stable_effect op d l l1 ->
    (in_pg op (oid (fst d)) = true -> IS_DELETE (state (snd d)) = true ->
     zeroed (oid (fst d)) l1) ->
    effects op its l1 l2 ->
    effects op (d :: its) l l2.

End Impl.

(** ** disk_tool_meta.cpp *)
Module DiskTool.

(** Modelled from the spec: the constants of the absent headers.  §6 gives the
    fields of the superblock; the magic and the version are the ones the
    engine writes. *)
Definition DIRECT_IO_ALIGNMENT : Z := 512.
Definition BLOCKSTORE_META_MAGIC_V1 : Z := 0x726F747341544956.
Definition BLOCKSTORE_META_VERSION_V1 : Z := 1.

Record blockstore_meta_header_v1_t := mk_hdr {
  zero : Z;
  magic : Z;
  hdr_version : Z;
  hdr_meta_block_size : Z;
  hdr_data_block_size : Z;
  hdr_bitmap_granularity : Z
}.

(** The metadata device as the tool sees it through its casts: what the first
    bytes are as a superblock, and the [oid.inode] of the [clean_disk_entry]
    that starts at a byte offset.  Offsets count from [dsk.meta_offset]. *)
Record meta_device := mk_dev {
  can_open : bool;
  first_block : blockstore_meta_header_v1_t;
  inode_at : Z -> Z
}.

(** The fields of [dsk] and of the tool that [process_meta] uses. *)
Record disk_tool_t := mk_tool {
  meta_block_size : Z;
  meta_len : Z;
  bitmap_granularity : Z;
  clean_entry_bitmap_size : Z;
  clean_entry_size : Z;
  meta_pos : Z
}.

(** A slot of the entry array that the loops visit: [block_num] and the byte
    offset of the entry on the device. *)
Record slot := mk_slot { block_num : Z; dev_offset : Z }.

(** The calls of the two function arguments. *)
Inductive meta_call :=
| HdrFn (hdr : option blockstore_meta_header_v1_t)
| RecordFn (s : slot) (with_bitmap : bool).

(** [for (i = from; cond(i); i += step)]: the values of [i], [None] when
    [fuel] rounds do not end the loop. *)
Fixpoint for_values (fuel : nat) (cond : Z -> bool) (step : Z) (i : Z)
  : option (list Z) :=
  if cond i then
    match fuel with
    | O => None
    | S fuel' => cons i <$> for_values fuel' cond step (i + step)
    end
  else Some [].

Fixpoint number_from (n : Z) (base : Z) (ioffs : list Z) : list slot :=
  match ioffs with
  | [] => []
  | ioff :: rest => mk_slot n (base + ioff) :: number_from (n + 1) base rest
  end.

Section ProcessMeta.
(** [sizeof(clean_disk_entry)]: the structure is declared in a header of
    the engine. *)
Variable sizeof_clean_disk_entry : Z.

(** The condition of the inner [for]: [ioff <= meta_block_size -
    clean_entry_size] with bitmaps, [ioff < ...] without; the subtraction is
    in [uint64_t]. *)
Definition ioff_cond (legacy : bool) (t : disk_tool_t) (ioff : Z) : bool :=
  let bound := wrap64 (meta_block_size t - clean_entry_size t) in
  if legacy then ioff <? bound else ioff <=? bound.

(** The entry offsets of one metadata block. *)
Definition block_ioffs (legacy : bool) (t : disk_tool_t) : option (list Z) :=
  for_values (Z.to_nat (meta_block_size t) + 1) (ioff_cond legacy t)
             (clean_entry_size t) 0.

(** The [for] over the blocks of the buffer, whose first byte is byte
    [buf_base] of the device. *)
Fixpoint scan_blocks (legacy : bool) (t : disk_tool_t) (buf_base : Z)
    (blks : list Z) (n : Z) : option (list slot * Z) :=
  match blks with
  | [] => Some ([], n)
  | blk :: blks' =>
      ioffs ← block_ioffs legacy t;
      '(rest, n') ← scan_blocks legacy t buf_base blks'
                                (n + Z.of_nat (length ioffs));
      Some (number_from n (buf_base + blk) ioffs ++ rest, n')
  end.

(** The [while (meta_pos < dsk.meta_len)].  [fpos] is the position of the
    file descriptor, [n] is [block_num]. *)
Fixpoint read_loop (fuel : nat) (legacy : bool) (buf_size : Z)
    (t : disk_tool_t) (fpos : Z) (n : Z)
  : option (list slot * disk_tool_t) :=
  if meta_pos t <? meta_len t then
    match fuel with
    | O => None
    | S fuel' =>
        let rest_len := wrap64 (meta_len t - meta_pos t) in
        let read_len := if buf_size <? rest_len then buf_size else rest_len in
        let t1 := mk_tool (meta_block_size t) (meta_len t)
                          (bitmap_granularity t) (clean_entry_bitmap_size t)
                          (clean_entry_size t) (meta_pos t + read_len) in
        blks ← for_values (Z.to_nat read_len + 1) (fun blk => blk <? read_len)
                          (meta_block_size t) 0;
        '(here, n1) ← scan_blocks legacy t1 fpos blks n;
        '(later, t2) ← read_loop fuel' legacy buf_size t1 (fpos + read_len) n1;
        Some (here ++ later, t2)
    end
  else Some ([], t).

(** The test of [entry->oid.inode] on the visited slots, and the calls of
    [record_fn].  A slot stands for the bytes of the device at its offset:
    these are what the buffer holds at the place of the slot when the read
    before the scan covers the block of the slot. *)
Definition record_calls (dev : meta_device) (with_bitmap : bool)
    (slots : list slot) : list meta_call :=
  (fun s => RecordFn s with_bitmap)
    <$> List.filter (fun s => negb (inode_at dev (dev_offset s) =? 0)) slots.

(** The conversion of a [uint64_t] to [int], as in [int buf_size =
    8*dsk.meta_block_size]. *)
Definition to_int (x : Z) : Z := (x + 2 ^ 31) mod 2 ^ 32 - 2 ^ 31.

(** The size of the buffer and of the first read.  [buf_size] is an [int]:
    it is converted to [uint64_t] where it meets one, and what is assigned
    to it is narrowed. *)
Definition probe_size (t : disk_tool_t) : Z :=
  let buf_size := 1024 * 1024 in
  let buf_size := if negb (buf_size mod meta_block_size t =? 0)
                  then to_int (wrap64 (8 * meta_block_size t))
                  else buf_size in
  if meta_len t <? wrap64 buf_size then to_int (meta_len t) else buf_size.

(** [process_meta]: the return value, the tool, the slots visited and the
    calls made.  [Undef] for a division by zero, for a buffer of no bytes
    (or of a negative size, which no allocation gives), for the superblock
    read through the buffer that was freed to make room for larger blocks,
    and for loops that do not end. *)
Definition process_meta (dev : meta_device) (t : disk_tool_t)
  : outcome (Z * disk_tool_t * list slot * list meta_call) :=
  if negb (meta_block_size t mod DIRECT_IO_ALIGNMENT =? 0) then
    Ok (1, t, [], [])
  else if negb (can_open dev) then Ok (1, t, [], [])
  else if meta_block_size t =? 0 then Undef "modulo by zero"
  else
    let buf_size := probe_size t in
    if buf_size <=? 0 then Undef "no buffer to read the superblock from"
    else
      let fpos := buf_size in
      let hdr := first_block dev in
      let fuel := (Z.to_nat (meta_len t) + 1)%nat in
      if (zero hdr =? 0) && (magic hdr =? BLOCKSTORE_META_MAGIC_V1)
         && (hdr_version hdr =? BLOCKSTORE_META_VERSION_V1) then
        let mbs := hdr_meta_block_size hdr in
        if mbs =? 0 then Undef "modulo by zero"
        else if negb (mbs =? meta_block_size t)
                && negb (buf_size mod mbs =? 0) then
          Undef "the superblock is read after its buffer is freed"
        else if (hdr_bitmap_granularity hdr =? 0) then
          Undef "division by zero"
        else
          let bitmap_size :=
            hdr_data_block_size hdr / hdr_bitmap_granularity hdr / 8 in
          let t1 := mk_tool mbs (meta_len t) (hdr_bitmap_granularity hdr)
                            bitmap_size
                            (sizeof_clean_disk_entry + 2 * bitmap_size) mbs in
          match read_loop fuel false buf_size t1 mbs 0 with
          | None => Undef "the loops do not end"
          | Some (slots, t2) =>
              Ok (0, t2, slots, HdrFn (Some hdr) :: record_calls dev true slots)
          end
      else
        let t1 := mk_tool (meta_block_size t) (meta_len t)
                          (bitmap_granularity t) 0 sizeof_clean_disk_entry
                          (meta_pos t) in
        match read_loop fuel true buf_size t1 fpos 0 with
        | None => Undef "the loops do not end"
        | Some (slots, t2) =>
            Ok (0, t2, slots, HdrFn None :: record_calls dev false slots)
        end.
End ProcessMeta.

End DiskTool.

(** ** Concrete engines and devices used in the examples below *)
Module Inputs.

(** Two syncs in flight, [1] submitted before [2].  Sync [2] captured small
    writes only and its journal fsync is already done; sync [1] still waits
    for its last request. *)
Definition c1_sync_a : Sync.blockstore_operation :=
  Sync.mk_op Sync.SYNC_JOURNAL_SYNC_SENT [mk_ov (mk_oid 1 0) 1] [] 0 1 0 0 0 0.
Definition c1_sync_b : Sync.blockstore_operation :=
  Sync.mk_op Sync.SYNC_DONE [] [mk_ov (mk_oid 2 0) 1] 1 0 0 0 0 0.
Definition c1_engine : Sync.blockstore :=
  Sync.mk_bs (<[2%nat := c1_sync_b]> (<[1%nat := c1_sync_a]> ∅)) [] []
             [1%nat; 2%nat] ∅ (Sync.mk_journal [0; 0; 0; 0] 0 4 0 []) 8%nat [].

(** A SYNC that was never dispatched, in an engine without unsynced writes;
    journal helpers that always find room. *)
Definition c2_sync : Sync.blockstore_operation :=
  Sync.mk_op 0 [] [] 0 0 0 0 0 0.
Definition c2_engine : Sync.blockstore :=
  Sync.mk_bs (<[1%nat := c2_sync]> ∅) [] [] [] ∅
             (Sync.mk_journal [0; 0; 0; 0] 0 4 0 []) 8%nat [].
Definition room_for_all : Sync.blockstore -> Z -> Z + Z := fun _ _ => inr 1.
Definition same_sector : Sync.journal_t -> Sync.journal_t := fun j => j.
Definition no_crc : Sync.journal_entry_big_write -> Z := fun _ => 0.

(** A sync whose big-write entries went to the journal sectors 0 and 1
    ([min_used_journal_sector = 1], [max_used_journal_sector = 2]), each of
    them used once, and which waits for its last request. *)
Definition c3_big : obj_ver_id := mk_ov (mk_oid 1 0) 1.
Definition c3_small : obj_ver_id := mk_ov (mk_oid 2 0) 1.
Definition c3_sync : Sync.blockstore_operation :=
  Sync.mk_op Sync.SYNC_JOURNAL_SYNC_SENT [c3_big] [c3_small] 0 1 1 2 0 0.
Definition c3_engine : Sync.blockstore :=
  Sync.mk_bs (<[1%nat := c3_sync]> ∅) [] [] [1%nat]
    (<[c3_small := Sync.mk_dirty Sync.ST_J_WRITTEN 0]>
       (<[c3_big := Sync.mk_dirty Sync.ST_D_SYNCED 7]> ∅))
    (Sync.mk_journal [1; 1; 0; 0] 1 4 0 []) 8%nat [].

(** An idle engine with blocks of 128 KiB and an alignment of 512 bytes; a
    write path that accepts every write. *)
Definition idle_journal : Impl.journal_t :=
  Impl.mk_journal 0 0 4 [Impl.mk_sector 0 false; Impl.mk_sector 0 false;
                         Impl.mk_sector 0 false; Impl.mk_sector 0 false].
Definition idle_engine : Impl.blockstore_impl_t :=
  Impl.mk_bs 10 false 131072 512 [] [] [] false [] [] idle_journal 1024 false 0
             512 false 0 false false [].
Definition accept_write : Impl.blockstore_op_t -> Impl.blockstore_impl_t ->
    bool * Impl.blockstore_op_t * Impl.blockstore_impl_t :=
  fun op b => (true, op, b).
Definition client_op (code : Z) (off ln : Z) : Impl.blockstore_op_t :=
  Impl.mk_op code (Impl.CbClient 0) (mk_oid 1 0) 1 off ln None 0 0 0 0 0.

(** A READ of 512 bytes at offset 1, and a READ of 100 bytes at offset 0. *)
Definition c4_read : Impl.blockstore_op_t := client_op Impl.BS_OP_READ 1 512.
Definition c4_bad_len : Impl.blockstore_op_t := client_op Impl.BS_OP_READ 0 100.

(** Engines with one unsynced small write: with a READ still in the queue,
    with an empty queue, readonly with an empty queue; and the last one once
    the write is synced. *)
Definition with_unsynced (q : list Impl.blockstore_op_t) (ro : bool)
  : Impl.blockstore_impl_t :=
  Impl.mk_bs 10 ro 131072 512 q [] [mk_ov (mk_oid 1 0) 1] false [] []
             idle_journal 1024 false 0 512 false 0 false false [].
Definition c6_busy : Impl.blockstore_impl_t :=
  with_unsynced [client_op Impl.BS_OP_READ 0 512] false.
Definition c6_quiet : Impl.blockstore_impl_t := with_unsynced [] false.
Definition c10_readonly : Impl.blockstore_impl_t := with_unsynced [] true.

(** A queue of two writes and a sync, and handlers of a full journal: no
    write can be submitted. *)
Definition c5_write1 : Impl.blockstore_op_t := client_op Impl.BS_OP_WRITE 0 512.
Definition c5_write2 : Impl.blockstore_op_t := client_op Impl.BS_OP_WRITE 512 512.
Definition c5_sync : Impl.blockstore_op_t := client_op Impl.BS_OP_SYNC 0 0.
Definition c5_engine : Impl.blockstore_impl_t :=
  Impl.set_submit_queue [c5_write1; c5_write2; c5_sync] idle_engine.
Definition journal_full : Impl.handler :=
  fun op b => (0, Impl.set_wait_for Impl.WAIT_JOURNAL op, b).
Definition full_journal_handlers : Impl.handlers :=
  Impl.mk_handlers journal_full journal_full journal_full
    (fun _ => journal_full) journal_full journal_full
    (fun b => b) (fun b => (0, b)) (fun b => (0, b)) (fun b => (0, b)).
Definition always_room : Z -> bool := fun _ => true.

(** A metadata device in the layout without superblock: one metadata block
    of 1536 bytes that holds 64 entries of 24 bytes, all in use; the tool is
    configured with that block size and starts at [meta_pos = 0]. *)
Definition legacy_first_block : DiskTool.blockstore_meta_header_v1_t :=
  DiskTool.mk_hdr 7 0 1 0 0 0.
Definition c8_legacy_device : DiskTool.meta_device :=
  DiskTool.mk_dev true legacy_first_block (fun off => if off <? 1536 then 7 else 0).
Definition c8_legacy_tool : DiskTool.disk_tool_t :=
  DiskTool.mk_tool 1536 1536 0 0 0 0.

(** The same layout with two blocks of 512 bytes. *)
Definition c8_legacy_small_tool : DiskTool.disk_tool_t :=
  DiskTool.mk_tool 512 1024 0 0 0 0.

(** A metadata device with a superblock: blocks of 4096 bytes, data blocks of
    128 KiB with a bitmap granularity of 4096, two blocks of entries. *)
Definition c8_superblock : DiskTool.blockstore_meta_header_v1_t :=
  DiskTool.mk_hdr 0 DiskTool.BLOCKSTORE_META_MAGIC_V1
                  DiskTool.BLOCKSTORE_META_VERSION_V1 4096 131072 4096.
Definition c8_device : DiskTool.meta_device :=
  DiskTool.mk_dev true c8_superblock (fun off => if off <? 8192 then 7 else 0).
Definition c8_tool : DiskTool.disk_tool_t := DiskTool.mk_tool 4096 12288 0 0 0 0.

(** LIST operations: of everything; of placement group 5 out of 2. *)
Definition list_op (min_ino stripe_size max_ino pg pgs : Z)
  : Impl.blockstore_op_t :=
  Impl.mk_op Impl.BS_OP_LIST (Impl.CbClient 0) (mk_oid min_ino stripe_size)
             max_ino pg pgs None 0 0 0 0 0.
Definition list_all : Impl.blockstore_op_t := list_op 0 0 0 0 0.

(** An engine with three clean objects; object 1 has a newer stable write,
    object 2 a delete, object 3 a write that is not stable, object 4 only a
    stable write. *)
Definition stable_write : Impl.dirty_entry :=
  Impl.mk_dirty (Impl.mk_state Impl.BIG_WRITE Impl.STABLE) 0.
Definition synced_write : Impl.dirty_entry :=
  Impl.mk_dirty (Impl.mk_state Impl.BIG_WRITE Impl.SYNCED) 0.
Definition synced_delete : Impl.dirty_entry :=
  Impl.mk_dirty (Impl.mk_state Impl.DELETE Impl.SYNCED) 0.
Definition with_dbs (c : list (object_id * Impl.clean_entry))
    (d : list (obj_ver_id * Impl.dirty_entry)) : Impl.blockstore_impl_t :=
  Impl.mk_bs 10 false 131072 512 [] [] [] false c d idle_journal 1024 false 0
             512 false 0 false false [].
Definition c7_engine : Impl.blockstore_impl_t :=
  with_dbs [(mk_oid 1 0, Impl.mk_clean 5 0); (mk_oid 2 0, Impl.mk_clean 3 1);
            (mk_oid 3 0, Impl.mk_clean 1 2)]
           [(mk_ov (mk_oid 1 0) 6, stable_write);
            (mk_ov (mk_oid 2 0) 4, synced_delete);
            (mk_ov (mk_oid 3 0) 2, synced_write);
            (mk_ov (mk_oid 4 0) 1, stable_write)].

(** An object that was deleted at version 6 and written again, stable, at
    version 7. *)
Definition c9_engine : Impl.blockstore_impl_t :=
  with_dbs [(mk_oid 1 0, Impl.mk_clean 5 0)]
           [(mk_ov (mk_oid 1 0) 6, synced_delete);
            (mk_ov (mk_oid 1 0) 7, stable_write)].

End Inputs.

(** ** Notions and inputs for further properties of the sync chain *)
Module SyncNotions.
Import Sync.
(** The journal entry that [continue_sync] writes for a captured big write:
    its object and version, the location recorded in the dirty DB, and the
    crc of the entry computed while its crc field is still empty. *)
Definition big_write_entry (compute_je_crc32 : journal_entry_big_write -> Z)
    (db : gmap obj_ver_id dirty_entry) (it : obj_ver_id)
  : journal_entry_big_write :=
  let je0 := mk_je (oid it) (version it) (location (dirty_at db it)) 0 in
  mk_je (oid it) (version it) (location (dirty_at db it)) (compute_je_crc32 je0).

(** No sync of [rest] becomes ready when one predecessor is acknowledged:
    none is DONE with [prev_sync_count] 1. *)
Definition none_ready (b : blockstore) (rest : list nat) : Prop :=
  Forall (fun n => exists o, ops b !! n = Some o
                    /\ ~ (prev_sync_count o = 1 /\ sync_state o = SYNC_DONE))
         rest.
(** A sync with one predecessor less. *)
Definition released (o : blockstore_operation) : blockstore_operation :=
  set_prev_sync_count (prev_sync_count o - 1) o.
End SyncNotions.

Module SyncInputs.
(** Two syncs in flight: [1] is DONE and has no predecessor left, [2] still
    waits for its journal fsync and counts [1]. *)
Definition done_sync (prev : Z) : Sync.blockstore_operation :=
  Sync.mk_op Sync.SYNC_DONE [] [mk_ov (mk_oid 2 0) 1] prev 0 0 0 0 0.
Definition waiting_sync : Sync.blockstore_operation :=
  Sync.mk_op Sync.SYNC_JOURNAL_SYNC_SENT [] [mk_ov (mk_oid 2 0) 1] 1 1 0 0 0 0.
Definition waiting_chain : Sync.blockstore :=
  Sync.mk_bs (<[2%nat := waiting_sync]> (<[1%nat := done_sync 0]> ∅)) [] []
             [1%nat; 2%nat] ∅ (Sync.mk_journal [0; 0; 0; 0] 0 4 0 []) 8%nat [].

(** A SYNC that was never dispatched, in an engine with one unsynced small
    write and [slots] free submission slots. *)
Definition fresh_sync : Sync.blockstore_operation :=
  Sync.mk_op 0 [] [] 0 0 0 0 0 0.
Definition small_pending (slots : nat) : Sync.blockstore :=
  Sync.mk_bs (<[1%nat := fresh_sync]> ∅) [] [mk_ov (mk_oid 2 0) 1] [] ∅
             (Sync.mk_journal [0; 0; 0; 0] 0 4 0 []) slots [].

(** A sync that waits for three requests. *)
Definition three_pending : Sync.blockstore :=
  Sync.mk_bs
    (<[1%nat := Sync.mk_op Sync.SYNC_JOURNAL_SYNC_SENT
                  [mk_ov (mk_oid 1 0) 1] [] 0 3 0 0 0 0]> ∅)
    [] [] [1%nat] ∅ (Sync.mk_journal [0; 0; 0; 0] 0 4 0 []) 8%nat [].

(** A sync whose entries went to the sectors 2 and 0 of a journal of four
    sectors: [min_used_journal_sector = 3], [max_used_journal_sector = 1]. *)
Definition wrapped_sync : Sync.blockstore_operation :=
  Sync.mk_op Sync.SYNC_JOURNAL_SYNC_SENT [mk_ov (mk_oid 1 0) 1] [] 0 1 3 1 0 0.
Definition wrapped_engine : Sync.blockstore :=
  Sync.mk_bs (<[1%nat := wrapped_sync]> ∅) [] [] [1%nat] ∅
             (Sync.mk_journal [1; 0; 1; 0] 0 4 0 []) 8%nat [].

(** A sync over one big write whose data fsync is in flight. *)
Definition data_sync_sent : Sync.blockstore_operation :=
  Sync.mk_op Sync.SYNC_DATA_SYNC_SENT [mk_ov (mk_oid 1 0) 1] [] 0 1 0 0 0 0.
Definition data_sync_engine : Sync.blockstore :=
  Sync.mk_bs (<[1%nat := data_sync_sent]> ∅) [] [] [1%nat]
             (<[mk_ov (mk_oid 1 0) 1 := Sync.mk_dirty Sync.ST_D_WRITTEN 7]> ∅)
             (Sync.mk_journal [0; 0; 0; 0] 0 4 0 []) 8%nat [].
End SyncInputs.

(** ** Notions and inputs for further properties of LIST *)
Module ListNotions.
(** An allocator that never fails. *)
Definition unlimited : Z -> bool := fun _ => true.
End ListNotions.

Module ListInputs.
(** Three stable entries in the order of their objects. *)
Definition three_entries : list obj_ver_id :=
  [mk_ov (mk_oid 1 0) 5; mk_ov (mk_oid 2 0) 3; mk_ov (mk_oid 3 0) 1].
End ListInputs.

(** ** Notions for the exact content of the stable part of a LIST *)
Module ListDecided.
Import Impl.

(** A dirty entry that decides how LIST reports its object: a delete or a
    stable write. *)
Definition decides (d : obj_ver_id * dirty_entry) : bool :=
  IS_DELETE (state (snd d)) || IS_STABLE (state (snd d)).

(** The deciding entries of an object among dirty entries, in their order:
    in the dirty DB that is oldest first. *)
Definition deciding (o : object_id) (ds : list (obj_ver_id * dirty_entry))
  : list (obj_ver_id * dirty_entry) :=
  List.filter (fun d => bool_decide (oid (fst d) = o) && decides d) ds.

(** The version that a deciding entry gives its object: 0 for a delete. *)
Definition decided_version (d : obj_ver_id * dirty_entry) : Z :=
  if IS_DELETE (state (snd d)) then 0 else version (fst d).

(** [x] is what the engine holds as the stable version of its object: the
    key of the newest deciding entry of the object in the dirty DB when that
    is a stable write; nothing when it is a delete; the entry of the clean DB
    when the dirty DB has no deciding entry of the object. *)
Definition reported (b : blockstore_impl_t) (x : obj_ver_id) : Prop :=
  match last (deciding (oid x) (dirty_db b)) with
  | Some d => IS_DELETE (state (snd d)) = false /\ fst d = x
  | None => from_clean b x
  end.

(** The invariant of the loop over the dirty DB, after the entries [seen]:
    [stable] has an entry for the objects that the clean part [clean] has
    and for those with a stable write among [seen], and its version is the
    one that the newest deciding entry among [seen] gives. *)
Definition has_entry (op : blockstore_op_t) (clean : list obj_ver_id)
    (seen : list (obj_ver_id * dirty_entry)) (o : object_id) : Prop :=
  o ∈ (oid <$> clean)
  \/ exists d, d ∈ seen /\ oid (fst d) = o /\ is_stable_write d = true.
Definition merged_as (clean : list obj_ver_id)
    (seen : list (obj_ver_id * dirty_entry)) (x : obj_ver_id) : Prop :=
  match last (deciding (oid x) seen) with
  | Some d => version x = decided_version d
  | None => x ∈ clean
  end.
Definition merge_inv (op : blockstore_op_t) (clean : list obj_ver_id)
    (seen : list (obj_ver_id * dirty_entry)) (l : list obj_ver_id) : Prop :=
  forall x, x ∈ l <->
    in_pg op (oid x) = true /\ has_entry op clean seen (oid x)
    /\ merged_as clean seen x.

(** What one round of the loop over the dirty DB does to [stable], exactly:
    a deciding entry of the placement group sets the version of the entry of
    its object; when there is none, a stable write is appended and a delete
    does nothing; any other dirty entry does nothing. *)
Definition exact_effect (op : blockstore_op_t) (d : obj_ver_id * dirty_entry)
    (l l' : list obj_ver_id) : Prop :=
  if in_pg op (oid (fst d)) && decides d then
    (forall pos x, l !! pos = Some x -> oid x = oid (fst d) ->
       l' = <[pos := mk_ov (oid (fst d)) (decided_version d)]> l)
    /\ ((forall x, x ∈ l -> oid x <> oid (fst d)) ->
        l' = if IS_DELETE (state (snd d)) then l else l ++ [fst d])
  else l' = l.
End ListDecided.

(** ** Notions and inputs for further properties of the queue and the loop *)
Module LoopNotions.
Import Impl.

(** The engine at the end of the pass of [loop()] over the queue of [b], and
    the operations the pass did not reach. *)
Definition pass_engine (alloc_ok : Z -> bool) (H : handlers)
    (b : blockstore_impl_t) : blockstore_impl_t :=
  engine (fst (fst (queue_pass alloc_ok H b))).
Definition pass_rest (alloc_ok : Z -> bool) (H : handlers)
    (b : blockstore_impl_t) : list blockstore_op_t :=
  snd (fst (queue_pass alloc_ok H b)).

(** An event after which the operation is erased from the queue:
    [dequeue_op] was true. *)
Definition dequeued (e : event) : bool :=
  match e with
  | Called CRead _ r => negb (r =? 0)
  | Called CList _ _ => true
  | Called _ _ r => r =? 2
  | _ => false
  end.

(** An event that leaves the submission ring as it was: the operation was
    not dispatched, or it was a LIST, or its handler returned 0. *)
Definition nothing_submitted (e : event) : bool :=
  match e with
  | Called CList _ _ => true
  | Called _ _ r => r =? 0
  | _ => true
  end.

(** An opcode that has a branch in the loop: every valid opcode but
    SYNC_STAB_ALL. *)
Definition dispatched_opcode (code : Z) : Prop :=
  BS_OP_MIN <= code <= BS_OP_MAX /\ code <> BS_OP_SYNC_STAB_ALL.

(** The write path neither renames the operation nor touches the queue. *)
Definition write_path_frames
    (enqueue_write : blockstore_op_t -> blockstore_impl_t ->
                     bool * blockstore_op_t * blockstore_impl_t) : Prop :=
  forall op b, opcode (snd (fst (enqueue_write op b))) = opcode op
               /\ submit_queue (snd (enqueue_write op b)) = submit_queue b.

(** The loop variables with which a round ends. *)
Definition state_of (r : round) : pass_state :=
  match r with Next s | Break s | Abort s _ => s end.

(** What one round of the loop does to the loop variables: at most one
    event; the operation is kept or its event is one that erases it; and the
    ring is as before unless a handler submitted something. *)
Definition round_ok (s s' : pass_state) : Prop :=
  exists new keep,
    events s' = events s ++ new
    /\ kept s' = keep ++ kept s
    /\ (length new <= 1)%nat
    /\ (length keep + length (List.filter dequeued new) = 1)%nat
    /\ (Forall (fun e => nothing_submitted e = true) new ->
        ring_space (engine s') = ring_space (engine s)).
End LoopNotions.

Module LoopInputs.
(** A handler that takes two submission slots and then gives up. *)
Definition gives_up : Impl.handler :=
  fun op b => (0, Impl.set_wait_for Impl.WAIT_JOURNAL op,
               Impl.set_ring_space (Impl.ring_space b - 2) b).
Definition giving_up_handlers : Impl.handlers :=
  Impl.mk_handlers gives_up gives_up gives_up (fun _ => gives_up) gives_up
    gives_up (fun b => b) (fun b => (0, b)) (fun b => (0, b)) (fun b => (0, b)).
(** A queue of a read, a write and a LIST. *)
Definition mixed_queue : Impl.blockstore_impl_t :=
  Impl.set_submit_queue
    [Inputs.client_op Impl.BS_OP_READ 0 512; Inputs.c5_write1; Inputs.list_all]
    Inputs.idle_engine.
(** A SYNC_STAB_ALL of a client. *)
Definition sync_stab_all : Impl.blockstore_op_t :=
  Inputs.client_op Impl.BS_OP_SYNC_STAB_ALL 0 0.
End LoopInputs.

(** ** Notions for further properties of the metadata reader *)
Module DiskNotions.
Import DiskTool.
(** The superblock test of [process_meta]. *)
Definition has_superblock (dev : meta_device) : bool :=
  (zero (first_block dev) =? 0)
  && (magic (first_block dev) =? BLOCKSTORE_META_MAGIC_V1)
  && (hdr_version (first_block dev) =? BLOCKSTORE_META_VERSION_V1).

(** The block size that the loops of [process_meta] work with: the one of
    the superblock if there is one, the configured one if not. *)
Definition scan_block_size (dev : meta_device) (t : disk_tool_t) : Z :=
  if has_superblock dev then hdr_meta_block_size (first_block dev)
  else meta_block_size t.

(** The reads of [process_meta] cover whole blocks: eight blocks fit the
    [int] that holds the size of the buffer, the metadata area is a positive
    number of blocks, and without a superblock the tool starts at a block
    boundary.  Every block that the loops scan is then one that the read
    before the scan has filled. *)
Definition whole_blocks (dev : meta_device) (t : disk_tool_t) : Prop :=
  0 < meta_block_size t /\ 8 * meta_block_size t < 2 ^ 31
  /\ 0 < scan_block_size dev t
  /\ 0 < meta_len t <= UINT64_MAX
  /\ meta_len t mod scan_block_size dev t = 0
  /\ (has_superblock dev = false ->
      0 <= meta_pos t /\ meta_pos t mod meta_block_size t = 0).

(** The slots of an array of entries that starts at byte [base] of the
    device: slot [k] of the list has number [n + k] and is entry
    [k mod per_block] of block [k / per_block]. *)
Definition laid_out (per_block block_size entry_size n base : Z)
    (slots : list slot) : Prop :=
  forall k s, slots !! k = Some s ->
    block_num s = n + Z.of_nat k
    /\ dev_offset s = base + (Z.of_nat k / per_block) * block_size
                      + (Z.of_nat k mod per_block) * entry_size.
End DiskNotions.

(** ** disk_tool_meta.cpp: the dump of the metadata *)
Module DumpMeta.
Import DiskTool.

(** The characters that the format strings escape. *)
Definition quote : string := String (Ascii.ascii_of_nat 34) EmptyString.
Definition newline : string := String (Ascii.ascii_of_nat 10) EmptyString.

(** [printf] of ["key":] *)
Definition key (k : string) : string := quote +:+ k +:+ quote +:+ ":".

(** [%lu] and [%u] of an unsigned value. *)
Definition dec (v : Z) : string := pretty (Z.to_N v).

(** [%02x] of a [uint8_t]. *)
Definition hex_digit (d : Z) : string :=
  match d with
  | 0 => "0" | 1 => "1" | 2 => "2" | 3 => "3" | 4 => "4" | 5 => "5"
  | 6 => "6" | 7 => "7" | 8 => "8" | 9 => "9" | 10 => "a" | 11 => "b"
  | 12 => "c" | 13 => "d" | 14 => "e" | _ => "f"
  end.
Definition hex2 (b : Z) : string := hex_digit (b / 16) +:+ hex_digit (b mod 16).

(** What is printed so far, and the member [first]. *)
Record printer := mk_printer { printed : string; first : bool }.

Section Dump.
Variable sizeof_clean_disk_entry : Z.
(** The macros of the absent header that split an inode number into the pool
    and the number within the pool. *)
Variable INODE_POOL : Z -> Z.
Variable INODE_NO_POOL : Z -> Z.
(** The other fields of the [clean_disk_entry] that starts at a byte offset
    of the device, and the bytes of the bitmaps that follow it. *)
Variable stripe_at : Z -> Z.
Variable version_at : Z -> Z.
Variable bitmap_at : Z -> Z -> Z.

(** What [dump_meta_header] prints. *)
Definition header_text (hdr : option blockstore_meta_header_v1_t)
    (t : disk_tool_t) : string :=
  match hdr with
  | Some h =>
      "{" +:+ key "version" +:+ quote +:+ "0.6" +:+ quote
      +:+ "," +:+ key "meta_block_size" +:+ dec (hdr_meta_block_size h)
      +:+ "," +:+ key "data_block_size" +:+ dec (hdr_data_block_size h)
      +:+ "," +:+ key "bitmap_granularity" +:+ dec (hdr_bitmap_granularity h)
      +:+ "," +:+ key "entries" +:+ "[" +:+ newline
  | None =>
      "{" +:+ key "version" +:+ quote +:+ "0.5" +:+ quote
      +:+ "," +:+ key "meta_block_size" +:+ dec (meta_block_size t)
      +:+ "," +:+ key "entries" +:+ "[" +:+ newline
  end.

Definition dump_meta_header (hdr : option blockstore_meta_header_v1_t)
    (t : disk_tool_t) (p : printer) : printer :=
  mk_printer (printed p +:+ header_text hdr t) true.

(** [for (i = 0; i < clean_entry_bitmap_size; i++) printf("%02x", bitmap[from + i])] *)
Definition bitmap_text (t : disk_tool_t) (off from : Z) : string :=
  String.concat ""
    ((fun i => hex2 (bitmap_at off (from + i)))
       <$> seqZ 0 (clean_entry_bitmap_size t)).

(** What [dump_meta_entry] prints after the separator: [ENTRY_FMT] and the
    rest of the object. *)
Definition entry_text (dev : meta_device) (t : disk_tool_t) (s : slot)
    (with_bitmap : bool) : string :=
  let off := dev_offset s in
  "{" +:+ key "block" +:+ dec (block_num s)
  +:+ "," +:+ key "pool" +:+ dec (INODE_POOL (inode_at dev off))
  +:+ "," +:+ key "inode" +:+ dec (INODE_NO_POOL (inode_at dev off))
  +:+ "," +:+ key "stripe" +:+ dec (stripe_at off)
  +:+ "," +:+ key "version" +:+ dec (version_at off)
  +:+ (if with_bitmap then
         "," +:+ key "bitmap" +:+ quote +:+ bitmap_text t off 0
         +:+ quote +:+ "," +:+ key "ext_bitmap" +:+ quote
         +:+ bitmap_text t off (clean_entry_bitmap_size t)
         +:+ quote +:+ "}"
       else "}").

Definition dump_meta_entry (dev : meta_device) (t : disk_tool_t) (s : slot)
    (with_bitmap : bool) (p : printer) : printer :=
  mk_printer
    (printed p +:+ (if first p then "" else "," +:+ newline)
     +:+ entry_text dev t s with_bitmap)
    false.

(** The two function arguments that [dump_meta] gives to [process_meta]. *)
Definition dump_call (dev : meta_device) (t : disk_tool_t) (p : printer)
    (c : meta_call) : printer :=
  match c with
  | HdrFn hdr => dump_meta_header hdr t p
  | RecordFn s with_bitmap => dump_meta_entry dev t s with_bitmap p
  end.

(** [dump_meta]: the return value and the printer; [dsk] has the entry and
    bitmap sizes before the first call is made. *)
Definition dump_meta (dev : meta_device) (t : disk_tool_t) (p : printer)
  : outcome (Z * printer) :=
  '(r, t', _, calls) ← process_meta sizeof_clean_disk_entry dev t;
  let p1 := fold_left (dump_call dev t') calls p in
  Ok (r, mk_printer (printed p1 +:+ newline +:+ "]}" +:+ newline) (first p1)).
End Dump.
End DumpMeta.

Module DumpInputs.
(** What the entries of the device of the example hold besides the inode. *)
Definition pool_of (ino : Z) : Z := ino / 2 ^ 48.
Definition number_in_pool (ino : Z) : Z := ino mod 2 ^ 48.
Definition no_stripe : Z -> Z := fun _ => 0.
Definition version_one : Z -> Z := fun _ => 1.
Definition no_bits : Z -> Z -> Z := fun _ _ => 0.
(** A device with a superblock and one block of entries, of which the first
    two are in use. *)
Definition two_entries : DiskTool.meta_device :=
  DiskTool.mk_dev true Inputs.c8_superblock
    (fun off => if (4096 <=? off) && (off <? 4160) then 7 else 0).
Definition one_block_tool : DiskTool.disk_tool_t :=
  DiskTool.mk_tool 4096 8192 0 0 0 0.
Definition blank : DumpMeta.printer := DumpMeta.mk_printer "" false.
End DumpInputs.

(** ** cli.cpp: the parsing of the command line *)
Module Cli.

(** The JSON values that [parse_args] builds: strings, and the array of the
    command words. *)
Inductive json :=
| JString (s : string)
| JArray (l : list string).

(** How [parse_args] ends: it returns the configuration; [help()] prints the
    usage and calls [exit(0)]; [substr] throws [std::out_of_range]; the code
    reads [args[narg]], which is not an argument; or it makes a
    [std::string] of a null [exe_name]. *)
Inductive parse_result :=
| Parsed (cfg : gmap string json)
| HelpExit
| OutOfRange
| ReadsPastEnd
| NullExeName.

(** How the loop over the arguments can end before the last argument. *)
Inductive loop_stop := StopHelp | StopPastEnd.

(** [args[i][0] == '-' && args[i][1] == c], for a character [c]: the
    argument starts with a dash and [c]. *)
Definition opt_char (c : string) (a : string) : bool :=
  String.prefix ("-" +:+ c) a.

(** [args[i]+2] *)
Definition after_dashes (a : string) : string :=
  String.substring 2 (String.length a - 2) a.

(** The options for which the [?:] gives ["1"] without looking at the next
    argument. *)
Definition is_flag (opt : string) : bool :=
  bool_decide (opt = "json") || bool_decide (opt = "wait-list")
  || bool_decide (opt = "long").

(** The [for] over [args[i]], [1 <= i < narg], on the arguments not yet
    read; it yields [cfg] and [cmd]. *)
Fixpoint parse_loop (rest : list string) (cfg : gmap string json)
    (cmd : list string) : loop_stop + gmap string json * list string :=
  match rest with
  | [] => inr (cfg, cmd)
  | a :: rest' =>
      if bool_decide (a = "-h") || bool_decide (a = "--help") then inl StopHelp
      else if opt_char "l" a then
        parse_loop rest' (<["long" := JString "1"]> cfg) cmd
      else if opt_char "n" a then
        match rest' with
        | [] => inl StopPastEnd
        | v :: rest'' => parse_loop rest'' (<["count" := JString v]> cfg) cmd
        end
      else if opt_char "i" a then
        parse_loop rest' (<["interactive" := JString "1"]> cfg) cmd
      else if opt_char "p" a then
        match rest' with
        | [] => inl StopPastEnd
        | v :: rest'' => parse_loop rest'' (<["pool" := JString v]> cfg) cmd
        end
      else if opt_char "s" a then
        match rest' with
        | [] => inl StopPastEnd
        | v :: rest'' => parse_loop rest'' (<["size" := JString v]> cfg) cmd
        end
      else if opt_char "-" a then
        let opt := after_dashes a in
        match rest' with
        | [] => parse_loop rest' (<[opt := JString "1"]> cfg) cmd
        | v :: rest'' =>
            if is_flag opt
               || (bool_decide (opt = "writers-stopped")
                   && negb (bool_decide (v = "1")))
            then parse_loop rest' (<[opt := JString "1"]> cfg) cmd
            else parse_loop rest'' (<[opt := JString v]> cfg) cmd
        end
      else parse_loop rest' cfg (cmd ++ [a])
  end.

(** [exe.substr(exe.size()-11)]: the position is a [size_t], so for a name
    of fewer than 11 characters it is past the end and [substr] throws. *)
Definition last_11 (exe : string) : option string :=
  if (String.length exe <? 11)%nat then None
  else Some (String.substring (String.length exe - 11) 11 exe).

(** [parse_args]; [exe_name] is the static variable that [main] sets to
    [args[0]], [None] when it is null. *)
Definition parse_args (exe_name : option string) (args : list string)
  : parse_result :=
  match parse_loop (tail args) (<["progress" := JString "1"]> ∅) [] with
  | inl StopHelp => HelpExit
  | inl StopPastEnd => ReadsPastEnd
  | inr (cfg, cmd) =>
      match cmd with
      | [] =>
          match exe_name with
          | None => NullExeName
          | Some exe =>
              match last_11 exe with
              | None => OutOfRange
              | Some suffix =>
                  let cmd' := if bool_decide (suffix = "vitastor-rm")
                              then ["rm-data"] else [] in
                  Parsed (<["command" := JArray cmd']> cfg)
              end
          end
      | _ => Parsed (<["command" := JArray cmd]> cfg)
      end
  end.
End Cli.

Module CliNotions.
Import Cli.
(** The options that take the next argument as their value, whatever it
    is. *)
Definition takes_value (a : string) : bool :=
  opt_char "n" a || opt_char "p" a || opt_char "s" a.
(** The arguments that the loop does not take for a command word. *)
Definition is_option (a : string) : bool :=
  bool_decide (a = "-h") || bool_decide (a = "--help")
  || opt_char "l" a || opt_char "n" a || opt_char "i" a || opt_char "p" a
  || opt_char "s" a || opt_char "-" a.
(** The flags that take no value: an argument that starts with [-l] or
    [-i]. *)
Definition is_short_flag (a : string) : bool :=
  opt_char "l" a || opt_char "i" a.
(** The dash, as a character. *)
Definition dash : Ascii.ascii := Ascii.ascii_of_nat 45.
End CliNotions.

(** ** nfs_kv_create.cpp: inode numbers and the creation of an entry *)
Module NfsCreate.

Definition ENOENT : Z := 2.
Definition EAGAIN : Z := 11.
Definition EEXIST : Z := 17.
Definition EINVAL : Z := 22.
Definition ENOSPC : Z := 28.

(** The fields of [self->parent] and of [self->parent->kvfs] that the file
    uses. *)
Record kvfs_t := mk_kvfs {
  fs_next_id : Z;
  fs_allocated_id : Z;
  unallocated_ids : list Z
}.
Record nfs_proxy_t := mk_proxy {
  fs_inode_count : Z;
  id_alloc_batch_size : Z;
  kvfs : kvfs_t
}.

Definition set_kvfs (k : kvfs_t) (p : nfs_proxy_t) : nfs_proxy_t :=
  mk_proxy (fs_inode_count p) (id_alloc_batch_size p) k.

Definition push_unallocated (id : Z) (p : nfs_proxy_t) : nfs_proxy_t :=
  set_kvfs (mk_kvfs (fs_next_id (kvfs p)) (fs_allocated_id (kvfs p))
                    (unallocated_ids (kvfs p) ++ [id])) p.

(** The database is another component: what it answers is given.  One round
    of [allocate_new_id] reads the counter and, if it goes that far, writes
    it back under a compare: [get_res] and [prev_str] are what the callback
    of [get] receives, [set_res] what the callback of [set] receives. *)
Record db_round := mk_round { get_res : Z; prev_str : string; set_res : Z }.

(** The requests made to the database.  A write of the counter carries the
    value its compare expects, a write of an inode is always made under the
    compare [res == -ENOENT], a deletion of a directory entry carries the
    text its compare expects. *)
Inductive db_request :=
| GetNextId
| SetNextId (new_val : Z) (expected : Z)
| SetDirentry (dir : Z) (name : string) (text : string)
| SetInode (ino : Z) (text : string)
| DelDirentry (dir : Z) (name : string) (expected_text : string).

(** The values of a JSON object that the file builds or reads. *)
Inductive jv :=
| JNull
| JNum (n : Z)
| JStr (s : string)
| JBool (b : bool).

Record kv_create_state := mk_create_state {
  exclusive : bool;
  verf : Z;
  dir_ino : Z;
  filename : string;
  new_id : Z;
  attrobj : gmap string jv;
  attrs : option (gmap string jv);
  direntry_text : string;
  dup_ino : Z
}.

Definition set_new_id (v : Z) (st : kv_create_state) : kv_create_state :=
  mk_create_state (exclusive st) (verf st) (dir_ino st) (filename st) v
    (attrobj st) (attrs st) (direntry_text st) (dup_ino st).
Definition set_dup_ino (v : Z) (st : kv_create_state) : kv_create_state :=
  mk_create_state (exclusive st) (verf st) (dir_ino st) (filename st)
    (new_id st) (attrobj st) (attrs st) (direntry_text st) v.
Definition set_texts (obj moved : gmap string jv) (text : string)
    (st : kv_create_state) : kv_create_state :=
  mk_create_state (exclusive st) (verf st) (dir_ino st) (filename st)
    (new_id st) moved (Some obj) text (dup_ino st).

(** What the database answers during one [kv_do_create]: the rounds of the
    allocation, the calls it makes of the compare of the directory entry
    (each with the [res] and [value] it passes), and what the callbacks of
    the three writes receive. *)
Record create_answers := mk_answers {
  id_answers : list db_round;
  direntry_seen : list (Z * string);
  direntry_res : Z;
  inode_res : Z;
  del_res : Z
}.

(** [filename.find("/") != std::string::npos] *)
Definition has_slash (s : string) : bool :=
  match String.index 0 "/" s with Some _ => true | None => false end.

(** [obj[key]] on a [std::map]: a missing key is inserted with the default
    value, the null of JSON. *)
Definition touch (key : string) (obj : gmap string jv) : gmap string jv :=
  match obj !! key with
  | Some _ => obj
  | None => <[key := JNull]> obj
  end.
Definition at_key (key : string) (obj : gmap string jv) : jv :=
  default JNull (obj !! key).

Section Allocate.
(** [stoull_full] of the string utilities. *)
Variable stoull_full : string -> Z.

(** The compare that goes with the write of the counter. *)
Definition next_id_compare (prev_val res : Z) (value : string) : bool :=
  (res <? 0) || (stoull_full value =? prev_val).

(** [allocate_new_id]: the arguments of the call of [cb], [None] while the
    database has not answered; the proxy; the requests made. *)
Fixpoint allocate_new_id (answers : list db_round) (p : nfs_proxy_t)
  : option (Z * Z) * nfs_proxy_t * list db_request :=
  let k := kvfs p in
  if fs_next_id k <=? fs_allocated_id k then
    (Some (0, fs_next_id k),
     set_kvfs (mk_kvfs (wrap64 (fs_next_id k + 1)) (fs_allocated_id k)
                       (unallocated_ids k)) p,
     [])
  else if fs_inode_count p <? fs_next_id k then (Some (- ENOSPC, 0), p, [])
  else
    match answers with
    | [] => (None, p, [GetNextId])
    | a :: answers' =>
        if (get_res a <? 0) && negb (get_res a =? - ENOENT) then
          (Some (get_res a, 0), p, [GetNextId])
        else
          let prev_val := stoull_full (prev_str a) in
          if fs_inode_count p <=? prev_val then
            (Some (- ENOSPC, 0), p, [GetNextId])
          else
            let prev_val := if prev_val <? 1 then 1 else prev_val in
            let new_val := wrap64 (prev_val + id_alloc_batch_size p) in
            let new_val := if fs_inode_count p <=? new_val
                           then fs_inode_count p else new_val in
            if set_res a =? - EAGAIN then
              let '(r, p', reqs) := allocate_new_id answers' p in
              (r, p', GetNextId :: SetNextId new_val prev_val :: reqs)
            else if set_res a <? 0 then
              (Some (set_res a, 0), p, [GetNextId; SetNextId new_val prev_val])
            else
              (Some (0, wrap64 (prev_val + 1)),
               set_kvfs (mk_kvfs (wrap64 (prev_val + 2)) new_val
                                 (unallocated_ids k)) p,
               [GetNextId; SetNextId new_val prev_val])
    end.
End Allocate.

Section Create.
Variable stoull_full : string -> Z.
(** Of the JSON library: [dump], [parse] ([None] when it reports an error),
    [string_value] and [uint64_value]. *)
Variable dump : gmap string jv -> string.
Variable parse : string -> option (gmap string jv).
Variable string_value : jv -> string.
Variable uint64_value : jv -> Z.

(** The compare that goes with the write of the directory entry: what it
    returns, and the state it leaves. *)
Definition direntry_compare (st : kv_create_state) (res : Z) (value : string)
  : bool * kv_create_state :=
  if res =? 0 then
    match parse value with
    | None => (true, st)
    | Some direntry =>
        if exclusive st && (uint64_value (at_key "verf" direntry) =? verf st)
        then (false, set_dup_ino (uint64_value (at_key "ino" direntry)) st)
        else (false, st)
    end
  else (true, st).

(** [kv_do_create]: the argument of the call of [st->cb], [None] while the
    database has not answered; the state; the proxy; the requests made. *)
Definition kv_do_create (a : create_answers) (st : kv_create_state)
    (p : nfs_proxy_t)
  : option Z * kv_create_state * nfs_proxy_t * list db_request :=
  if String.eqb (filename st) "" || has_slash (filename st) then
    (Some (- EINVAL), st, p, [])
  else
    let '(r, p, reqs) := allocate_new_id stoull_full (id_answers a) p in
    match r with
    | None => (None, st, p, reqs)
    | Some (res, id) =>
        if res <? 0 then (Some res, st, p, reqs)
        else
          let st := set_new_id id st in
          let direntry : gmap string jv := {[ "ino" := JNum (new_id st) ]} in
          let obj := touch "type" (attrobj st) in
          let direntry :=
            if String.eqb (string_value (at_key "type" obj)) "dir"
            then <["type" := JStr "dir"]> direntry else direntry in
          (* the object is moved into [st->attrs] *)
          let st := set_texts obj ∅ (dump direntry) st in
          let set_direntry :=
            SetDirentry (dir_ino st) (filename st) (direntry_text st) in
          let st :=
            foldl (fun s c => snd (direntry_compare s (fst c) (snd c)))
                  st (direntry_seen a) in
          let res := direntry_res a in
          if res <? 0 then
            let p := push_unallocated (new_id st) p in
            if res =? - EAGAIN then
              if negb (dup_ino st =? 0)
              then (Some 0, set_new_id (dup_ino st) st, p,
                    reqs ++ [set_direntry])
              else (Some (- EEXIST), st, p, reqs ++ [set_direntry])
            else (Some res, st, p, reqs ++ [set_direntry])
          else
            let set_inode := SetInode (new_id st) (dump (default ∅ (attrs st))) in
            let res := inode_res a in
            let res := if res =? - EAGAIN then - EEXIST else res in
            if res <? 0 then
              let del :=
                DelDirentry (dir_ino st) (filename st) (direntry_text st) in
              let p := if del_res a =? 0
                       then push_unallocated (new_id st) p else p in
              (Some res, st, p, reqs ++ [set_direntry; set_inode; del])
            else (Some 0, st, p, reqs ++ [set_direntry; set_inode])
    end.
End Create.
End NfsCreate.

Module NfsNotions.
Import NfsCreate.

(** [count] allocations in a row, none of which gets an answer from the
    database: the results in order, the proxy, the requests. *)
Fixpoint allocate_in_a_row (stoull_full : string -> Z) (count : nat)
    (p : nfs_proxy_t) : list (option (Z * Z)) * nfs_proxy_t * list db_request :=
  match count with
  | O => ([], p, [])
  | S count' =>
      let '(r, p1, reqs) := allocate_new_id stoull_full [] p in
      let '(rs, p2, reqs') := allocate_in_a_row stoull_full count' p1 in
      (r :: rs, p2, reqs ++ reqs')
  end.

(** The identifiers [first], [first + 1], ... as successful results. *)
Definition handed_out (first : Z) (count : nat) : list (option (Z * Z)) :=
  map (fun i => Some (0, first + Z.of_nat i)) (seq 0 count).

(** The state of the counters that [allocate_new_id] keeps. *)
Definition counters_ok (p : nfs_proxy_t) : Prop :=
  1 <= fs_next_id (kvfs p) /\
  0 <= fs_allocated_id (kvfs p) <= fs_inode_count p /\
  1 < fs_inode_count p /\
  fs_inode_count p + 1 < 2 ^ 64.

(** A round that reaches the write of the counter and loses it. *)
Definition lost_round (stoull_full : string -> Z) (p : nfs_proxy_t)
    (a : db_round) : Prop :=
  (0 <= get_res a \/ get_res a = - ENOENT) /\
  stoull_full (prev_str a) < fs_inode_count p /\
  set_res a = - EAGAIN.

(** The state after the database has made the given calls of the compare
    of the directory entry. *)
Definition seen (parse : string -> option (gmap string jv))
    (uint64_value : jv -> Z) (st : kv_create_state)
    (calls : list (Z * string)) : kv_create_state :=
  foldl (fun s c => snd (direntry_compare parse uint64_value s (fst c) (snd c)))
        st calls.

(** The object that [kv_do_create] stores for the inode, and the directory
    entry it writes for identifier [id]. *)
Definition stored_object (st : kv_create_state) : gmap string jv :=
  touch "type" (attrobj st).
Definition written_entry (string_value : jv -> string)
    (st : kv_create_state) (id : Z) : gmap string jv :=
  if String.eqb (string_value (at_key "type" (stored_object st))) "dir"
  then <["type" := JStr "dir"]> {[ "ino" := JNum id ]}
  else {[ "ino" := JNum id ]}.

(** The requests of a round that reaches the write of the counter. *)
Definition round_requests (stoull_full : string -> Z) (p : nfs_proxy_t)
    (a : db_round) : list db_request :=
  let prev_val := Z.max 1 (stoull_full (prev_str a)) in
  [GetNextId;
   SetNextId (Z.min (wrap64 (prev_val + id_alloc_batch_size p))
                    (fs_inode_count p))
             prev_val].
End NfsNotions.

(** ** nfs_kv_create.cpp: CREATE, MKDIR, SYMLINK and MKNOD *)
Module NfsProcs.
Import NfsCreate.

(** Of the protocol (RFC 1813): the ways of creation, the types of special
    files and two statuses. *)
Definition NFS_UNCHECKED : Z := 0.
Definition NFS_GUARDED : Z := 1.
Definition NFS_EXCLUSIVE : Z := 2.
Definition NF3BLK : Z := 3.
Definition NF3CHR : Z := 4.
Definition NF3SOCK : Z := 6.
Definition NF3FIFO : Z := 7.
Definition NFS3_OK : Z := 0.
Definition NFS3ERR_INVAL : Z := 22.

(** [sattr3]: each attribute with its [set_it]. *)
Record sattr3 := mk_sattr3 {
  mode_set_it : bool; mode : Z;
  uid_set_it : bool; uid : Z;
  gid_set_it : bool; gid : Z;
  size_set_it : bool; size : Z;
  atime_set_it : bool; atime : Z * Z;
  mtime_set_it : bool; mtime : Z * Z
}.

Record CREATE3args := mk_create_args {
  create_dir : string;
  create_name : string;
  how_mode : Z;
  how_obj_attributes : sattr3;
  how_verf : Z
}.
Record MKDIR3args := mk_mkdir_args {
  mkdir_dir : string;
  mkdir_name : string;
  mkdir_attributes : sattr3
}.
Record SYMLINK3args := mk_symlink_args {
  symlink_dir : string;
  symlink_name : string;
  symlink_attributes : sattr3;
  symlink_data : string
}.
Record MKNOD3args := mk_mknod_args {
  mknod_dir : string;
  mknod_name : string;
  what_type : Z;
  chr_device_attributes : sattr3;
  specdata1 : Z;
  specdata2 : Z;
  sock_attributes : sattr3
}.

(** What is put in [rop->reply]: a bare status; the status that
    [vitastor_nfs_map_err] gives for an error; or success, with the inode
    that the handle and the attributes are made from. *)
Inductive reply :=
| Status (status : Z)
| MappedError (err : Z)
| Created (ino : Z) (attributes : option (gmap string jv)).

(** A new [kv_create_state]. *)
Definition fresh_state : kv_create_state :=
  mk_create_state false 0 0 "" 0 ∅ None "" 0.

Definition set_request (excl : bool) (v dir : Z) (name : string)
    (obj : gmap string jv) (st : kv_create_state) : kv_create_state :=
  mk_create_state excl v dir name (new_id st) obj (attrs st)
    (direntry_text st) (dup_ino st).

Section Procs.
Variable stoull_full : string -> Z.
Variable dump : gmap string jv -> string.
Variable parse : string -> option (gmap string jv).
Variable string_value : jv -> string.
Variable uint64_value : jv -> Z.
(** [kv_fh_inode] and [nfstime_to_str] of the proxy. *)
Variable kv_fh_inode : string -> Z.
Variable nfstime_to_str : Z * Z -> string.

Definition kv_create_setattr (attrobj : gmap string jv) (sattr : sattr3)
  : gmap string jv :=
  let attrobj := if mode_set_it sattr
                 then <["mode" := JNum (mode sattr)]> attrobj else attrobj in
  let attrobj := if uid_set_it sattr
                 then <["uid" := JNum (uid sattr)]> attrobj else attrobj in
  let attrobj := if gid_set_it sattr
                 then <["gid" := JNum (gid sattr)]> attrobj else attrobj in
  let attrobj := if atime_set_it sattr
                 then <["atime" := JStr (nfstime_to_str (atime sattr))]> attrobj
                 else attrobj in
  if mtime_set_it sattr
  then <["mtime" := JStr (nfstime_to_str (mtime sattr))]> attrobj
  else attrobj.

Definition kv_create_reply (st : kv_create_state) (res : Z) : reply :=
  if res <? 0 then MappedError (- res)
  else Created (new_id st) (attrs st).

(** [kv_do_create] with [st->cb] set to the reply: the reply if it has been
    made, the proxy, the requests. *)
Definition create_and_reply (a : create_answers) (st : kv_create_state)
    (p : nfs_proxy_t) : option reply * nfs_proxy_t * list db_request :=
  let '(r, st', p', reqs) :=
    kv_do_create stoull_full dump parse string_value uint64_value a st p in
  (option_map (kv_create_reply st') r, p', reqs).

Definition create_state (args : CREATE3args) : kv_create_state :=
  let excl := how_mode args =? NFS_EXCLUSIVE in
  let attrobj : gmap string jv :=
    if how_mode args =? NFS_EXCLUSIVE then {[ "verf" := JNum (how_verf args) ]}
    else if how_mode args =? NFS_UNCHECKED then
      let attrobj := kv_create_setattr ∅ (how_obj_attributes args) in
      if size_set_it (how_obj_attributes args)
      then <["empty" := JBool true]>
             (<["size" := JNum (size (how_obj_attributes args))]> attrobj)
      else attrobj
    else ∅ in
  set_request excl (if excl then how_verf args else 0)
    (kv_fh_inode (create_dir args)) (create_name args) attrobj fresh_state.

Definition kv_nfs3_create_proc (a : create_answers) (args : CREATE3args)
    (p : nfs_proxy_t) : Z * (option reply * nfs_proxy_t * list db_request) :=
  (1, create_and_reply a (create_state args) p).

Definition mkdir_state (args : MKDIR3args) : kv_create_state :=
  let dir := kv_fh_inode (mkdir_dir args) in
  let attrobj : gmap string jv :=
    <["parent_ino" := JNum dir]> (<["type" := JStr "dir"]> ∅) in
  set_request false 0 dir (mkdir_name args)
    (kv_create_setattr attrobj (mkdir_attributes args)) fresh_state.

Definition kv_nfs3_mkdir_proc (a : create_answers) (args : MKDIR3args)
    (p : nfs_proxy_t) : Z * (option reply * nfs_proxy_t * list db_request) :=
  (1, create_and_reply a (mkdir_state args) p).

Definition symlink_state (args : SYMLINK3args) : kv_create_state :=
  let attrobj : gmap string jv :=
    <["symlink" := JStr (symlink_data args)]> (<["type" := JStr "link"]> ∅) in
  set_request false 0 (kv_fh_inode (symlink_dir args)) (symlink_name args)
    (kv_create_setattr attrobj (symlink_attributes args)) fresh_state.

Definition kv_nfs3_symlink_proc (a : create_answers) (args : SYMLINK3args)
    (p : nfs_proxy_t) : Z * (option reply * nfs_proxy_t * list db_request) :=
  (1, create_and_reply a (symlink_state args) p).

(** The state that MKNOD builds, [None] for a type it refuses. *)
Definition mknod_state (args : MKNOD3args) : option kv_create_state :=
  let dir := kv_fh_inode (mknod_dir args) in
  if (what_type args =? NF3CHR) || (what_type args =? NF3BLK) then
    let attrobj : gmap string jv :=
      <["minor" := JNum (specdata2 args)]>
        (<["major" := JNum (specdata1 args)]>
           (<["type" := JStr (if what_type args =? NF3CHR
                              then "chr" else "blk")]> ∅)) in
    Some (set_request false 0 dir (mknod_name args)
            (kv_create_setattr attrobj (chr_device_attributes args))
            fresh_state)
  else if (what_type args =? NF3SOCK) || (what_type args =? NF3FIFO) then
    let attrobj : gmap string jv :=
      <["type" := JStr (if what_type args =? NF3SOCK
                        then "sock" else "fifo")]> ∅ in
    Some (set_request false 0 dir (mknod_name args)
            (kv_create_setattr attrobj (sock_attributes args)) fresh_state)
  else None.

Definition kv_nfs3_mknod_proc (a : create_answers) (args : MKNOD3args)
    (p : nfs_proxy_t) : Z * (option reply * nfs_proxy_t * list db_request) :=
  match mknod_state args with
  | Some st => (1, create_and_reply a st p)
  | None => (0, (Some (Status NFS3ERR_INVAL), p, []))
  end.
End Procs.
End NfsProcs.

Module NfsInputs.
Import NfsCreate NfsNotions.

(** A reading of the stored counter that gives [v] whatever the string. *)
Definition reads_as (v : Z) : string -> Z := fun _ => v.

Definition proxy (next allocated : Z) : nfs_proxy_t :=
  mk_proxy 1000 10 (mk_kvfs next allocated []).

(** Stand-ins for the JSON library. *)
Definition braces : gmap string jv -> string := fun _ => "{}".
Definition text_of (v : jv) : string :=
  match v with JStr s => s | _ => "" end.
Definition number_of (v : jv) : Z :=
  match v with JNum n => n | _ => 0 end.
Definition entry_nine : string -> option (gmap string jv) :=
  fun _ => Some {[ "ino" := JNum 9; "verf" := JNum 77 ]}.

(** An exclusive creation of [f] in directory 1 with verifier 77. *)
Definition exclusive_f : kv_create_state :=
  mk_create_state true 77 1 "f" 0 {[ "verf" := JNum 77 ]} None "" 0.
Definition slash_name : kv_create_state :=
  mk_create_state false 0 1 "a/b" 0 ∅ None "" 0.

(** The database accepts both writes; the database shows an entry and
    refuses the write. *)
Definition all_written : create_answers := mk_answers [] [] 0 0 0.
Definition entry_exists : create_answers :=
  mk_answers [] [(0, "e")] (- EAGAIN) 0 0.

(** A MKDIR of [d] with no attribute set, under the handle of inode 1. *)
Definition no_attributes : NfsProcs.sattr3 :=
  NfsProcs.mk_sattr3 false 0 false 0 false 0 false 0 false (0, 0) false (0, 0).
Definition mkdir_d : NfsProcs.MKDIR3args :=
  NfsProcs.mk_mkdir_args "h" "d" no_attributes.
Definition handle_one : string -> Z := fun _ => 1.
Definition time_text : Z * Z -> string := fun _ => "t".
End NfsInputs.

(** * Properties *)

Lemma bind_Ok {A B} (m : outcome A) (f : A -> outcome B) (y : B) :
  m ≫= f = Ok y -> exists x, m = Ok x /\ f x = Ok y.
Proof. destruct m; simpl; intros E; try discriminate. eauto. Qed.

Ltac inv_bind H :=
  let x := fresh "x" in
  let E := fresh "E" in
  apply bind_Ok in H; destruct H as (x & E & H).

(** ** The sync chain *)
Module SyncProps.
Import Sync.

Lemma fire_acks p r b b' :
  fire p r b = Ok b' ->
  exists o, ops b !! p = Some o /\ acks b' = acks b ++ [(p, set_retval r o)]
            /\ dirty_db b' = dirty_db b /\ journal b' = journal b.
Proof.
  unfold fire, deref. destruct (ops b !! p) as [o|] eqn:E; simpl; [|discriminate].
  intros [= <-]. exists o. auto.
Qed.

Lemma fire_ops p r b b' n :
  fire p r b = Ok b' -> n <> p -> ops b' !! n = ops b !! n.
Proof.
  unfold fire, deref. destruct (ops b !! p) as [o|]; simpl; [|discriminate].
  intros [= <-] Hn. simpl. by rewrite lookup_insert_ne.
Qed.

(** The cascade: the callbacks it fires see a sync that is DONE with no
    predecessor left and [retval] 0, and they fire in the order of the list. *)
Lemma ack_successors_acks rest : forall d b d' b',
  ack_successors rest d b = Ok (d', b') ->
  exists new, acks b' = acks b ++ new
    /\ Forall acked_ok new
    /\ sublist (fst <$> new) rest
    /\ d' = d + Z.of_nat (length new)
    /\ dirty_db b' = dirty_db b /\ journal b' = journal b.
Proof.
  induction rest as [|n rest IH]; intros d b d' b' Hrun; simpl in Hrun.
  - injection Hrun as <- <-. exists []. rewrite app_nil_r. simpl.
    split_and!; try done; lia.
  - inv_bind Hrun. unfold deref in E.
    destruct (ops b !! n) as [o|] eqn:Eo; [|discriminate]. injection E as <-.
    case_decide as Hc.
    + inv_bind Hrun. apply fire_acks in E as (o' & Ho' & Hacks & Hdb & Hj).
      apply IH in Hrun as (new & Hnew & Hall & Hsub & -> & Hdb' & Hj').
      simpl in Ho'. rewrite lookup_insert_eq in Ho'. injection Ho' as <-.
      exists ((n, set_retval 0 (set_prev_sync_count (prev_sync_count o - d) o)) :: new).
      rewrite Hnew, Hacks. simpl. rewrite <- app_assoc. simpl.
      split_and!; try done.
      * constructor; [|done]. destruct Hc as [Hc1 Hc2]. split_and!; done.
      * by constructor.
      * lia.
      * by rewrite Hdb', Hdb.
      * by rewrite Hj', Hj.
    + apply IH in Hrun as (new & Hnew & Hall & Hsub & -> & Hdb' & Hj').
      exists new. simpl in Hnew. split_and!; try done.
      by apply sublist_cons.
Qed.

Lemma ack_successors_frame rest : forall d b d' b' n,
  ack_successors rest d b = Ok (d', b') -> n ∉ rest ->
  ops b' !! n = ops b !! n.
Proof.
  induction rest as [|m rest IH]; intros d b d' b' n Hrun Hn; simpl in Hrun.
  - by injection Hrun as <- <-.
  - apply not_elem_of_cons in Hn as [Hnm Hn].
    inv_bind Hrun. case_decide.
    + inv_bind Hrun. rewrite (IH _ _ _ _ _ Hrun Hn).
      rewrite (fire_ops _ _ _ _ _ E0 Hnm). simpl. by rewrite lookup_insert_ne.
    + rewrite (IH _ _ _ _ _ Hrun Hn). simpl. by rewrite lookup_insert_ne.
Qed.

Lemma nodes_after_elem p l rest :
  nodes_after p l = Some rest ->
  exists before, l = before ++ p :: rest /\ p ∉ before.
Proof.
  revert rest. induction l as [|n l IH]; intros rest; simpl; [discriminate|].
  case_decide as Hn.
  - intros [= <-]. subst. exists []. split; [done|]. apply not_elem_of_nil.
  - intros Hr. destruct (IH _ Hr) as (bf & -> & Hnot). exists (n :: bf).
    split; [done|]. rewrite elem_of_cons. intros [?|?]; congruence.
Qed.

Lemma nodes_after_NoDup p l rest :
  NoDup l -> nodes_after p l = Some rest -> p ∉ rest.
Proof.
  intros Hnd Hr. destruct (nodes_after_elem _ _ _ Hr) as (bf & -> & _).
  apply NoDup_app in Hnd as (_ & _ & Hnd). by apply NoDup_cons in Hnd as [? _].
Qed.

(** [ack_sync] either does nothing, or fires the callbacks of the successors
    that are ready, in list order, and the callback of the sync itself after
    them. *)
Lemma ack_sync_acks p b r b' :
  NoDup (in_progress_syncs b) ->
  ack_sync p b = Ok (r, b') ->
  (r = 0 /\ b' = b) \/
  (r = 1 /\ exists rest new o,
      nodes_after p (in_progress_syncs b) = Some rest
      /\ acks b' = acks b ++ new ++ [(p, o)]
      /\ Forall acked_ok new /\ acked_ok (p, o)
      /\ sublist (fst <$> new) rest).
Proof.
  unfold ack_sync. intros Hnd Hrun. inv_bind Hrun. unfold deref in E.
  destruct (ops b !! p) as [o|] eqn:Eo; [|discriminate]. injection E as <-.
  case_decide as Hc; [|left; by injection Hrun as <- <-].
  destruct (nodes_after p (in_progress_syncs b)) as [rest|] eqn:En; [|discriminate].
  inv_bind Hrun. destruct x as [d b1]. inv_bind Hrun. injection Hrun as <- <-.
  pose proof (ack_successors_frame _ _ _ _ _ p E (nodes_after_NoDup _ _ _ Hnd En)) as Hp.
  apply ack_successors_acks in E as (new & Hnew & Hall & Hsub & _).
  apply fire_acks in E0 as (o' & Ho' & Hacks & _). simpl in *.
  rewrite Hp, Eo in Ho'. injection Ho' as <-.
  right. split; [done|]. exists rest, new, (set_retval 0 o).
  rewrite Hacks, Hnew, <- app_assoc. split_and!; try done.
  destruct Hc. split_and!; done.
Qed.

Lemma ack_sync_frame p b r b' :
  ack_sync p b = Ok (r, b') ->
  dirty_db b' = dirty_db b /\ journal b' = journal b.
Proof.
  unfold ack_sync. intros Hrun. inv_bind Hrun.
  case_decide; [|by injection Hrun as <- <-].
  destruct (nodes_after p (in_progress_syncs b)); [|discriminate].
  inv_bind Hrun. destruct x0 as [d b1]. inv_bind Hrun. injection Hrun as <- <-.
  apply ack_successors_acks in E0 as (_ & _ & _ & _ & _ & Hdb & Hj).
  apply fire_acks in E1 as (_ & _ & _ & Hdb' & Hj'). simpl in *.
  by rewrite Hdb', Hj', Hdb, Hj.
Qed.

(** C1 (the code departs from the claim).  Sync 1 was submitted before sync 2
    and both are in [in_progress_syncs] in that order.  When the last request
    of sync 1 completes, the callback of sync 2 fires first and the callback
    of sync 1 after it: the acknowledgments are not delivered in submission
    order. *)
Theorem ack_order_reversed :
  in_progress_syncs Inputs.c1_engine = [1%nat; 2%nat]
  /\ exists b', handle_sync_event 0 1%nat Inputs.c1_engine = Ok b'
       /\ fst <$> acks b' = [2%nat; 1%nat]
       /\ Forall acked_ok (acks b')
       /\ in_progress_syncs b' = [].
Proof.
  split; [reflexivity|]. eexists. split; [vm_compute; reflexivity|].
  split_and!; try reflexivity.
  repeat constructor.
Qed.

Section Dispatch.
Variable check_available : blockstore -> Z -> Z + Z.
Variable prefill : journal_t -> journal_t.
Variable crc : journal_entry_big_write -> Z.
Variable prepare : journal_t -> journal_t.

(** The capture of [dequeue_sync]: the operation gets the two unsynced lists,
    the engine's lists are left empty, and the state is HAS-BIG, else
    HAS-SMALL, else DONE. *)
Lemma capture_lists p o b :
  unsynced_big_writes (capture p o b) = []
  /\ unsynced_small_writes (capture p o b) = []
  /\ exists o', ops (capture p o b) !! p = Some o'
      /\ sync_big_writes o' = unsynced_big_writes b
      /\ sync_small_writes o' = unsynced_small_writes b
      /\ sync_state o' =
           (if decide (unsynced_big_writes b <> []) then SYNC_HAS_BIG
            else if decide (unsynced_small_writes b <> []) then SYNC_HAS_SMALL
            else SYNC_DONE).
Proof.
  unfold capture. simpl. split_and!; try done.
  eexists. rewrite lookup_insert_eq. split; [done|]. simpl. split_and!; try done.
  destruct (unsynced_big_writes b), (unsynced_small_writes b); reflexivity.
Qed.

Lemma continue_sync_done p b o :
  ops b !! p = Some o -> sync_state o = SYNC_DONE ->
  continue_sync check_available prefill crc prepare p b = Ok (0, b).
Proof.
  intros Ho Hs. unfold continue_sync, deref. rewrite Ho. simpl.
  rewrite Hs. reflexivity.
Qed.

(** C2 (the code departs from the claim).  A SYNC dispatched for the first
    time while both unsynced lists are empty gets the state DONE, but
    [continue_sync] returns 0 for that state, so [dequeue_sync] neither calls
    [ack_sync] nor queues the sync: no callback fires, the handler returns 0,
    and dispatching the operation again changes nothing. *)
Theorem empty_sync_never_acknowledged p b o :
  ops b !! p = Some o -> sync_state o = 0 ->
  unsynced_big_writes b = [] -> unsynced_small_writes b = [] ->
  exists b1,
    dequeue_sync check_available prefill crc prepare p b = Ok (0, b1)
    /\ acks b1 = acks b
    /\ in_progress_syncs b1 = in_progress_syncs b
    /\ sync_state <$> ops b1 !! p = Some SYNC_DONE
    /\ dequeue_sync check_available prefill crc prepare p b1 = Ok (0, b1).
Proof.
  intros Ho Hs Hb Hsm.
  assert (Hcap : exists o', ops (capture p o b) !! p = Some o'
                            /\ sync_state o' = SYNC_DONE).
  { destruct (capture_lists p o b) as (_ & _ & o' & Ho' & _ & _ & Hst).
    exists o'. split; [done|]. rewrite Hst, Hb, Hsm. reflexivity. }
  destruct Hcap as (o' & Ho' & Hst').
  exists (capture p o b).
  assert (Hfirst : dequeue_sync check_available prefill crc prepare p b
                   = Ok (0, capture p o b)).
  { unfold dequeue_sync, deref. rewrite Ho. simpl. rewrite Hs. simpl.
    rewrite (continue_sync_done _ _ _ Ho' Hst'). reflexivity. }
  split_and!; try done.
  - by rewrite Ho'; simpl; rewrite Hst'.
  - unfold dequeue_sync, deref. rewrite Ho'. simpl. rewrite Hst'. simpl.
    rewrite (continue_sync_done _ _ _ Ho' Hst'). reflexivity.
Qed.
End Dispatch.

Lemma empty_sync_never_acknowledged_witness :
  (ops Inputs.c2_engine !! 1%nat = Some Inputs.c2_sync
   /\ sync_state Inputs.c2_sync = 0
   /\ unsynced_big_writes Inputs.c2_engine = []
   /\ unsynced_small_writes Inputs.c2_engine = [])
  /\ exists b1,
    dequeue_sync Inputs.room_for_all Inputs.same_sector Inputs.no_crc
                 Inputs.same_sector 1%nat Inputs.c2_engine = Ok (0, b1)
    /\ acks b1 = acks Inputs.c2_engine
    /\ in_progress_syncs b1 = in_progress_syncs Inputs.c2_engine
    /\ sync_state <$> ops b1 !! 1%nat = Some SYNC_DONE
    /\ dequeue_sync Inputs.room_for_all Inputs.same_sector Inputs.no_crc
                    Inputs.same_sector 1%nat b1 = Ok (0, b1).
Proof.
  split; [repeat split|].
  apply (empty_sync_never_acknowledged Inputs.room_for_all Inputs.same_sector
           Inputs.no_crc Inputs.same_sector 1%nat Inputs.c2_engine
           Inputs.c2_sync); reflexivity.
Defined.

Lemma mark_all_other st ks : forall db k,
  k ∉ ks -> mark_all st ks db !! k = db !! k.
Proof.
  unfold mark_all. induction ks as [|x ks IH]; intros db k Hk; simpl; [done|].
  apply not_elem_of_cons in Hk as [Hkx Hk].
  rewrite IH by done. by rewrite lookup_insert_ne.
Qed.

Lemma mark_all_state st ks : forall db k,
  k ∈ ks -> state <$> mark_all st ks db !! k = Some st.
Proof.
  unfold mark_all. induction ks as [|x ks IH]; intros db k Hk; simpl.
  - by apply elem_of_nil in Hk.
  - destruct (decide (k ∈ ks)) as [Hin|Hnin]; [by apply IH|].
    apply elem_of_cons in Hk as [->|?]; [|done].
    pose proof (mark_all_other st ks
                  (<[x:=set_state st (dirty_at db x)]> db) x Hnin) as E.
    unfold mark_all in E. rewrite E, lookup_insert_eq. reflexivity.
Qed.

Lemma release_sector_spec i j u :
  0 <= i -> usage_count j !! Z.to_nat i = Some u ->
  release_sector i j
  = Ok (set_usage_count (<[Z.to_nat i := wrap32 (u - 1)]> (usage_count j)) j).
Proof.
  intros Hi Hu. unfold release_sector. rewrite decide_True by done.
  by rewrite Hu.
Qed.

(** The release loop, when the range does not wrap and ends below the last
    sector: the sectors [min-1 .. max-2] are released once, nothing else is
    touched. *)
Lemma release_loop_range fuel : forall lo hi j,
  1 <= lo <= hi -> hi < sector_count j ->
  hi <= Z.of_nat (length (usage_count j)) ->
  (Z.to_nat (hi - lo) <= fuel)%nat ->
  exists j', release_loop fuel lo hi j = Ok j'
    /\ sector_count j' = sector_count j
    /\ cur_sector j' = cur_sector j
    /\ length (usage_count j') = length (usage_count j)
    /\ forall (i : nat) u, usage_count j !! i = Some u ->
         usage_count j' !! i
         = Some (if decide (lo - 1 <= Z.of_nat i < hi - 1)
                 then wrap32 (u - 1) else u).
Proof.
  induction fuel as [|fuel IH]; intros lo hi j Hlo Hhi Hlen Hfuel.
  - assert (lo = hi) as -> by lia. exists j. simpl.
    rewrite decide_True by done. split_and!; try done.
    intros i u Hu. rewrite decide_False by lia. done.
  - simpl. case_decide as Heq.
    + subst. exists j. split_and!; try done.
      intros i u Hu. rewrite decide_False by lia. done.
    + destruct (lookup_lt_is_Some_2 (usage_count j) (Z.to_nat (lo - 1)))
        as [u0 Hu0]; [lia|].
      rewrite (release_sector_spec _ _ u0) by (done || lia). simpl.
      rewrite decide_False by lia.
      replace ((lo + 1) mod sector_count j) with (lo + 1)
        by (symmetry; apply Z.mod_small; lia).
      set (j1 := set_usage_count _ j).
      destruct (IH (lo + 1) hi j1) as (j' & Hrun & Hsc & Hcs & Hl & Hu);
        [lia|done| |lia|].
      { unfold j1. simpl. rewrite length_insert. lia. }
      exists j'. rewrite Hrun. split_and!; try done.
      { rewrite Hl. unfold j1. simpl. by rewrite length_insert. }
      intros i u Hi.
      destruct (decide (i = Z.to_nat (lo - 1))) as [->|Hne].
      * rewrite Hi in Hu0. injection Hu0 as <-.
        rewrite (Hu _ (wrap32 (u - 1))).
        2:{ unfold j1. simpl. apply list_lookup_insert_eq.
            by eapply lookup_lt_Some. }
        rewrite decide_False by lia. rewrite decide_True by lia. done.
      * rewrite (Hu _ u).
        2:{ unfold j1. simpl. by rewrite list_lookup_insert_ne. }
        repeat case_decide; try done; lia.
Qed.

(** In particular the sector [max_used_journal_sector] itself keeps its
    count, and a sync that used one sector ([min = max]) releases none. *)
Corollary release_loop_keeps_max fuel lo hi j u :
  1 <= lo <= hi -> hi < sector_count j ->
  hi <= Z.of_nat (length (usage_count j)) ->
  (Z.to_nat (hi - lo) <= fuel)%nat ->
  usage_count j !! Z.to_nat (hi - 1) = Some u ->
  exists j', release_loop fuel lo hi j = Ok j'
    /\ usage_count j' !! Z.to_nat (hi - 1) = Some u.
Proof.
  intros H1 H2 H3 H4 Hu.
  destruct (release_loop_range fuel lo hi j H1 H2 H3 H4)
    as (j' & Hrun & _ & _ & _ & Hall).
  exists j'. split; [done|]. rewrite (Hall _ _ Hu).
  rewrite decide_False by lia. done.
Qed.

#[local] Arguments release_loop : simpl never.

(** The part of C3 that holds: when the last request of a sync in state
    JOURNAL-SYNC-SENT completes, its small writes become J_SYNCED and its big
    writes META_SYNCED, and the sync is DONE. *)
Lemma journal_sync_completion_marks res p b o b' :
  0 <= res -> ops b !! p = Some o ->
  sync_state o = SYNC_JOURNAL_SYNC_SENT -> pending_ops o = 1 ->
  handle_sync_event res p b = Ok b' ->
  (forall k, k ∈ sync_small_writes o ->
     state <$> dirty_db b' !! k = Some ST_J_SYNCED)
  /\ (forall k, k ∈ sync_big_writes o -> k ∉ sync_small_writes o ->
     state <$> dirty_db b' !! k = Some ST_D_META_SYNCED).
Proof.
  intros Hres Ho Hst Hpend. unfold handle_sync_event.
  rewrite decide_False by lia. unfold deref. rewrite Ho. simpl.
  rewrite Hpend. simpl. intros Hrun. inv_bind Hrun. destruct x as [o2 j].
  assert (Hsame : sync_state o2 = SYNC_JOURNAL_SYNC_SENT
                  /\ sync_big_writes o2 = sync_big_writes o
                  /\ sync_small_writes o2 = sync_small_writes o).
  { destruct (decide (0 < min_used_journal_sector o)).
    - inv_bind E. injection E as <- <-. simpl. done.
    - injection E as <- <-. simpl. done. }
  destruct Hsame as (Hst2 & Hbig & Hsmall).
  rewrite Hst2 in Hrun. simpl in Hrun.
  inv_bind Hrun. destruct x as [r b2]. injection Hrun as <-.
  apply ack_sync_frame in E0 as [Hdb _]. simpl in Hdb. rewrite Hdb.
  rewrite Hbig, Hsmall. split.
  - intros k Hk. by apply mark_all_state.
  - intros k Hk Hnk. rewrite <- (mark_all_state ST_D_META_SYNCED _ (dirty_db b) k Hk).
    f_equal. by apply mark_all_other.
Qed.

(** C3 (the code departs from the claim).  The sync used the journal sectors
    0 and 1, so its range is [min_used_journal_sector = 1],
    [max_used_journal_sector = 2].  When its last request completes, the big
    write is META_SYNCED, the small write J_SYNCED and the range is reset,
    but only sector 0 was released: the loop stops at [s == max] before it
    releases the sector [max_used_journal_sector]. *)
Theorem last_used_sector_not_released :
  exists b', handle_sync_event 0 1%nat Inputs.c3_engine = Ok b'
    /\ state <$> dirty_db b' !! Inputs.c3_big = Some ST_D_META_SYNCED
    /\ state <$> dirty_db b' !! Inputs.c3_small = Some ST_J_SYNCED
    /\ usage_count (journal Inputs.c3_engine) = [1; 1; 0; 0]
    /\ usage_count (journal b') = [0; 1; 0; 0]
    /\ (min_used_journal_sector <$> ops b' !! 1%nat) = Some 0
    /\ (max_used_journal_sector <$> ops b' !! 1%nat) = Some 0.
Proof. eexists. split; [vm_compute; reflexivity|]. vm_compute. done. Qed.

End SyncProps.

(** ** The engine: enqueueing, shutdown, the submit loop *)
Module ImplProps.
Import Impl.

Lemma invalid_arguments_fails b op :
  invalid_arguments b op -> basic_verification_fails b op = true.
Proof.
  unfold invalid_arguments, basic_verification_fails.
  intros [Hlo|[Hhi|[[Hrw Hb]|(Hro & Hr & Hl)]]].
  - apply Z.ltb_lt in Hlo. rewrite Hlo. reflexivity.
  - apply Z.ltb_lt in Hhi. rewrite Hhi. by rewrite orb_true_r.
  - rewrite Hrw. simpl.
    assert ((block_size b <=? offset op) || (block_size b - offset op <? len op)
            || negb (len op mod disk_alignment b =? 0) = true) as ->.
    { destruct Hb as [Hb|[Hb|Hb]].
      - apply Z.leb_le in Hb. by rewrite Hb.
      - apply Z.ltb_lt in Hb. rewrite Hb. by rewrite orb_true_r.
      - apply Z.eqb_neq in Hb. rewrite Hb. simpl. by rewrite orb_true_r. }
    by rewrite orb_true_r.
  - rewrite Hro. apply Z.eqb_neq in Hr, Hl. rewrite Hr, Hl. simpl.
    by rewrite orb_true_r.
Qed.

(** C4, amended.  An operation whose opcode is outside the valid range, or
    which is a READ, WRITE or WRITE_STABLE with an offset at or past
    [block_size], a length above [block_size - offset] or a length that is not
    a multiple of [disk_alignment], or which is neither READ nor LIST on a
    readonly engine, gets its callback called with [-EINVAL]; it is not put
    in the submit queue and nothing else of the engine changes. *)
Theorem invalid_arguments_rejected ew b op :
  invalid_arguments b op ->
  enqueue_op ew op b = call_callback (set_retval (- EINVAL) op) b
  /\ submit_queue (enqueue_op ew op b) = submit_queue b
  /\ fired (enqueue_op ew op b) = fired b ++ [set_retval (- EINVAL) op].
Proof.
  intros Hinv. unfold enqueue_op.
  rewrite (invalid_arguments_fails _ _ Hinv). done.
Qed.

Lemma invalid_arguments_rejected_witness :
  invalid_arguments Inputs.idle_engine Inputs.c4_bad_len
  /\ (enqueue_op Inputs.accept_write Inputs.c4_bad_len Inputs.idle_engine
      = call_callback (set_retval (- EINVAL) Inputs.c4_bad_len) Inputs.idle_engine
      /\ submit_queue (enqueue_op Inputs.accept_write Inputs.c4_bad_len Inputs.idle_engine)
         = submit_queue Inputs.idle_engine
      /\ fired (enqueue_op Inputs.accept_write Inputs.c4_bad_len Inputs.idle_engine)
         = fired Inputs.idle_engine ++ [set_retval (- EINVAL) Inputs.c4_bad_len]).
Proof.
  assert (Hinv : invalid_arguments Inputs.idle_engine Inputs.c4_bad_len).
  { right. right. left. split; [reflexivity|]. right. right. vm_compute. discriminate. }
  split; [exact Hinv|].
  apply (invalid_arguments_rejected Inputs.accept_write Inputs.idle_engine Inputs.c4_bad_len Hinv).
Defined.

(** C4 as stated fails: a READ of 512 bytes at offset 1 has an offset that is
    not a multiple of [disk_alignment = 512], yet [enqueue_op] puts it in the
    submit queue and calls no callback.  The check tests the length only. *)
Lemma misaligned_offset_enqueued :
  invalid_as_specified Inputs.idle_engine Inputs.c4_read
  /\ submit_queue (enqueue_op Inputs.accept_write Inputs.c4_read Inputs.idle_engine)
     = [Inputs.c4_read]
  /\ fired (enqueue_op Inputs.accept_write Inputs.c4_read Inputs.idle_engine) = [].
Proof.
  split; [|split; reflexivity].
  right. right. left. split; [reflexivity|]. right. right. left.
  vm_compute. discriminate.
Qed.

Lemma length_pos_nil {A} (l : list A) :
  (0 <? Z.of_nat (length l)) = false <-> l = [].
Proof. destruct l; simpl; split; try done; lia. Qed.

Lemma length_pos_cons {A} (l : list A) :
  (0 <? Z.of_nat (length l)) = true <-> l <> [].
Proof. destruct l; simpl; split; try done; lia. Qed.

Ltac stop_cases b :=
  unfold is_safe_to_stop;
  destruct (0 <? Z.of_nat (length (submit_queue b))) eqn:Hq;
  destruct (readonly b) eqn:Hro;
  destruct (flusher_active b) eqn:Hfl;
  destruct (0 <? Z.of_nat (length (unsynced_big_writes b))) eqn:Hbig;
  destruct (0 <? Z.of_nat (length (unsynced_small_writes b))) eqn:Hsm;
  destruct (stop_sync_submitted b) eqn:Hss;
  simpl;
  repeat match goal with
         | H : (0 <? Z.of_nat (length _)) = false |- _ =>
             apply length_pos_nil in H
         | H : (0 <? Z.of_nat (length _)) = true |- _ =>
             apply length_pos_cons in H
         end.

Lemma enqueue_stop_sync ew b :
  readonly b = false ->
  enqueue_op ew stop_sync_op b
  = ring_wakeup (set_submit_queue (submit_queue b ++ [stop_sync_op]) b).
Proof.
  intros Hro. unfold enqueue_op, basic_verification_fails. rewrite Hro.
  reflexivity.
Qed.

(** C6, amended.  [is_safe_to_stop] returns true only when the queue is
    empty, the flusher idle (when not readonly) and both unsynced lists
    empty, and then changes nothing; with unsynced writes it returns false;
    when it gets past its first check (queue empty, flusher idle) on an engine
    that is not readonly, has unsynced writes and has not injected yet, it
    enqueues exactly the internal SYNC and sets [stop_sync_submitted]; once
    that flag is set it never changes the engine again; and once the queue
    and the unsynced lists are empty it returns true. *)
Theorem safe_to_stop ew b :
  (forall b', is_safe_to_stop ew b = (true, b') ->
     b' = b /\ submit_queue b = []
     /\ (readonly b = false -> flusher_active b = false)
     /\ unsynced_big_writes b = [] /\ unsynced_small_writes b = [])
  /\ (unsynced_big_writes b <> [] \/ unsynced_small_writes b <> [] ->
      fst (is_safe_to_stop ew b) = false)
  /\ (readonly b = false -> submit_queue b = [] -> flusher_active b = false ->
      unsynced_big_writes b <> [] \/ unsynced_small_writes b <> [] ->
      stop_sync_submitted b = false ->
      exists b1, is_safe_to_stop ew b = (false, b1)
        /\ submit_queue b1 = [stop_sync_op]
        /\ stop_sync_submitted b1 = true
        /\ unsynced_big_writes b1 = unsynced_big_writes b
        /\ unsynced_small_writes b1 = unsynced_small_writes b)
  /\ (stop_sync_submitted b = true ->
      snd (is_safe_to_stop ew b) = b)
  /\ (submit_queue b = [] -> (readonly b = false -> flusher_active b = false) ->
      unsynced_big_writes b = [] -> unsynced_small_writes b = [] ->
      is_safe_to_stop ew b = (true, b)).
Proof.
  split_and!.
  - intros b'. stop_cases b; intros [= <-]; split_and!; try done.
  - intros Hu. stop_cases b; try done; destruct Hu; done.
  - intros Hro Hq Hfl Hu Hss. unfold is_safe_to_stop.
    rewrite Hq, Hro, Hfl, Hss. simpl.
    assert ((0 <? Z.of_nat (length (unsynced_big_writes b)))
            || (0 <? Z.of_nat (length (unsynced_small_writes b))) = true) as ->.
    { destruct Hu as [Hu|Hu]; apply length_pos_cons in Hu; rewrite Hu; [done|].
      by rewrite orb_true_r. }
    eexists. split; [reflexivity|]. rewrite enqueue_stop_sync by done.
    simpl. rewrite Hq. done.
  - intros Hflag. stop_cases b; try done.
  - intros Hq Hfl Hb Hs. unfold is_safe_to_stop. rewrite Hq, Hb, Hs. simpl.
    destruct (readonly b); simpl; [done|]. by rewrite Hfl.
Qed.

Lemma safe_to_stop_witness :
  (exists b1, is_safe_to_stop Inputs.accept_write Inputs.c6_quiet = (false, b1)
     /\ submit_queue b1 = [stop_sync_op]
     /\ stop_sync_submitted b1 = true
     /\ unsynced_big_writes b1 = unsynced_big_writes Inputs.c6_quiet
     /\ unsynced_small_writes b1 = unsynced_small_writes Inputs.c6_quiet)
  /\ is_safe_to_stop Inputs.accept_write Inputs.idle_engine
     = (true, Inputs.idle_engine).
Proof.
  split.
  - apply (proj1 (proj2 (proj2
             (safe_to_stop Inputs.accept_write Inputs.c6_quiet))));
      try reflexivity.
    right. discriminate.
  - apply (proj2 (proj2 (proj2 (proj2
             (safe_to_stop Inputs.accept_write Inputs.idle_engine)))));
      reflexivity.
Defined.

(** C6 as stated fails: with unsynced writes on an engine that is not
    readonly, a first call made while an operation is still in the queue
    returns false at the first check and injects no SYNC. *)
Lemma busy_queue_no_injection :
  readonly Inputs.c6_busy = false
  /\ unsynced_small_writes Inputs.c6_busy <> []
  /\ stop_sync_submitted Inputs.c6_busy = false
  /\ is_safe_to_stop Inputs.accept_write Inputs.c6_busy = (false, Inputs.c6_busy).
Proof. split_and!; done. Qed.

(** C10.  On a readonly engine [is_safe_to_stop] leaves the engine as it is,
    so neither the submit queue nor [stop_sync_submitted] changes, however
    often it is called; it returns false when an unsynced list is not empty;
    and its answer does not depend on the flusher being active. *)
Theorem readonly_stop_is_pure ew b :
  readonly b = true ->
  snd (is_safe_to_stop ew b) = b
  /\ (unsynced_big_writes b <> [] \/ unsynced_small_writes b <> [] ->
      fst (is_safe_to_stop ew b) = false)
  /\ (forall a, fst (is_safe_to_stop ew (set_flusher_active a b))
                = fst (is_safe_to_stop ew b))
  /\ (forall n, Nat.iter n (fun x => snd (is_safe_to_stop ew x)) b = b).
Proof.
  intros Hreadonly.
  assert (Hsnd : snd (is_safe_to_stop ew b) = b).
  { stop_cases b; done. }
  split_and!; try done.
  - intros Hu. stop_cases b; try done; destruct Hu; done.
  - intros a. unfold is_safe_to_stop. simpl. rewrite Hreadonly. simpl.
    rewrite !orb_false_r.
    destruct (0 <? Z.of_nat (length (submit_queue b))); [done|].
    destruct ((0 <? Z.of_nat (length (unsynced_big_writes b)))
              || (0 <? Z.of_nat (length (unsynced_small_writes b)))); done.
  - induction n as [|n IH]; simpl; [done|]. by rewrite IH.
Qed.
Lemma readonly_stop_is_pure_witness :
  readonly Inputs.c10_readonly = true
  /\ snd (is_safe_to_stop Inputs.accept_write Inputs.c10_readonly)
     = Inputs.c10_readonly
  /\ fst (is_safe_to_stop Inputs.accept_write Inputs.c10_readonly) = false.
Proof.
  split; [reflexivity|].
  pose proof (readonly_stop_is_pure Inputs.accept_write Inputs.c10_readonly
                eq_refl) as (Hsnd & Hfst & _).
  split; [exact Hsnd|]. apply Hfst. right. discriminate.
Defined.

Lemma split_snoc {A} (t1 : list A) e t2 l x :
  t1 ++ e :: t2 = l ++ [x] ->
  (t2 = [] /\ e = x /\ t1 = l)
  \/ exists t2', t2 = t2' ++ [x] /\ l = t1 ++ e :: t2'.
Proof.
  destruct t2 as [|y t2 _] using rev_ind.
  - intros Heq. apply app_inj_tail in Heq as [-> ->]. by left.
  - intros Heq. right. exists t2.
    rewrite app_comm_cons, app_assoc in Heq.
    apply app_inj_tail in Heq as [<- ->]. done.
Qed.

Lemma pass_props_append s e hw' kept' b' :
  pass_inv s ->
  (is_write_call e = true -> has_writes s <> 2) ->
  (is_sync_call e = true -> has_writes s = 0) ->
  (forall op, e = PassedOver op ->
     op ∈ kept' /\ (is_write_or_delete op = true \/ opcode op = BS_OP_SYNC)) ->
  (forall op, op ∈ kept s -> op ∈ kept') ->
  pass_props (mk_pass b' kept' hw' (events s ++ [e])).
Proof.
  intros (Hf & Hs & H1 & H2 & Hk) Hw Hy Hpo Hmono.
  unfold pass_props. simpl. split_and!.
  - intros t1 e0 t2 Heq Hfe. symmetry in Heq.
    apply split_snoc in Heq as [(-> & _ & _)|(t2' & -> & Heq)]; [constructor|].
    apply Forall_app. split; [by eapply H1|].
    constructor; [|constructor].
    destruct (is_write_call e) eqn:Hc; [|done]. exfalso.
    apply (Hw eq_refl), Hf. rewrite Heq, Exists_app, Exists_cons. auto.
  - intros t1 e0 t2 Heq Hse. symmetry in Heq.
    apply split_snoc in Heq as [(-> & _ & _)|(t2' & -> & Heq)]; [constructor|].
    apply Forall_app. split; [by eapply H2|].
    constructor; [|constructor].
    destruct (is_sync_call e) eqn:Hc; [|done]. exfalso.
    apply Hs; [|by apply Hy]. rewrite Heq, Exists_app, Exists_cons. auto.
  - intros op. rewrite elem_of_app, list_elem_of_singleton.
    intros [Hin|Heq]; [|by apply Hpo].
    destruct (Hk _ Hin) as [Hin' Hkind]. split; [by apply Hmono|done].
Qed.

Lemma pass_inv_append s e hw' kept' b' :
  pass_inv s ->
  (is_write_call e = true -> has_writes s <> 2) ->
  (is_sync_call e = true -> has_writes s = 0) ->
  (write_failed e = true -> hw' = 2) ->
  (write_seen e = true -> hw' <> 0) ->
  (has_writes s = 2 -> hw' = 2) ->
  (has_writes s <> 0 -> hw' <> 0) ->
  (forall op, e = PassedOver op ->
     op ∈ kept' /\ (is_write_or_delete op = true \/ opcode op = BS_OP_SYNC)) ->
  (forall op, op ∈ kept s -> op ∈ kept') ->
  pass_inv (mk_pass b' kept' hw' (events s ++ [e])).
Proof.
  intros Hinv Hw Hy Hfail Hseen H22 H00 Hpo Hmono.
  pose proof Hinv as (Hf & Hs & _).
  unfold pass_inv. split_and!.
  - simpl. rewrite Exists_app, Exists_cons, Exists_nil.
    intros [Hex|[He|[]]]; [by apply H22, Hf|by apply Hfail].
  - simpl. rewrite Exists_app, Exists_cons, Exists_nil.
    intros [Hex|[He|[]]]; [by apply H00, Hs|by apply Hseen].
  - by apply pass_props_append.
Qed.

Lemma pass_inv_quiet s b' kept' :
  pass_inv s -> (forall op, op ∈ kept s -> op ∈ kept') ->
  pass_inv (mk_pass b' kept' (has_writes s) (events s)).
Proof.
  intros (Hf & Hs & H1 & H2 & Hk) Hmono. unfold pass_inv, pass_props. simpl.
  split_and!; try done.
  intros op Hin. destruct (Hk _ Hin). split; [by apply Hmono|done].
Qed.

Lemma pass_inv_props s : pass_inv s -> pass_props s.
Proof. by intros (_ & _ & ?). Qed.

Lemma after_handler_inv s c r dq cancel op b hw' rs pos :
  pass_inv s ->
  (is_write_call (Called c op r) = true ->
     has_writes s <> 2 /\ hw' = if 0 <? r then 1 else 2) ->
  (is_write_call (Called c op r) = false -> hw' = has_writes s) ->
  (is_sync_call (Called c op r) = true -> has_writes s = 0) ->
  round_inv (after_handler s c r dq cancel op b hw' rs pos).
Proof.
  intros Hinv Hw Hnw Hsync.
  assert (Happ : forall b' kept',
    (forall o, o ∈ kept s -> o ∈ kept') ->
    pass_inv (mk_pass b' kept' hw' (events s ++ [Called c op r]))).
  { intros b' kept' Hmono. apply pass_inv_append; try done.
    - intros Hc. by apply Hw.
    - destruct (is_write_call (Called c op r)) eqn:Hc.
      + destruct (Hw eq_refl) as [_ ->]. intros Hfail.
        destruct c; simpl in *; try done;
          destruct (0 <? r) eqn:E; try done; lia.
      + destruct c; simpl in *; done.
    - destruct (is_write_call (Called c op r)) eqn:Hc.
      + destruct (Hw eq_refl) as [_ ->]. intros _. destruct (0 <? r); done.
      + destruct c; simpl in *; done.
    - destruct (is_write_call (Called c op r)) eqn:Hc.
      + destruct (Hw eq_refl) as [Hne _]. done.
      + by rewrite (Hnw eq_refl).
    - destruct (is_write_call (Called c op r)) eqn:Hc.
      + destruct (Hw eq_refl) as [_ ->]. intros _. destruct (0 <? r); done.
      + by rewrite (Hnw eq_refl). }
  unfold after_handler.
  destruct cancel; [destruct (wait_for op =? WAIT_SQE)|]; simpl;
    try apply pass_inv_props;
    apply Happ; intros o Ho; destruct dq; try done;
    rewrite elem_of_cons; auto.
Qed.

Lemma dispatch_inv alloc H s op b :
  pass_inv s -> round_inv (dispatch alloc H s op b).
Proof.
  intros Hinv. unfold dispatch.
  assert (Hskip : is_write_or_delete op = true \/ opcode op = BS_OP_SYNC ->
            pass_inv (mk_pass b (op :: kept s) (has_writes s)
                              (events s ++ [PassedOver op]))).
  { intros Hkind. apply pass_inv_append; try done.
    - intros o [= <-]. split; [apply elem_of_cons; auto|done].
    - intros o Ho. apply elem_of_cons; auto. }
  destruct (opcode op =? BS_OP_READ) eqn:E1.
  { destruct (dequeue_read H op b) as [[r op1] b1].
    apply after_handler_inv; done. }
  destruct ((opcode op =? BS_OP_WRITE) || (opcode op =? BS_OP_WRITE_STABLE)) eqn:E2.
  { destruct (has_writes s =? 2) eqn:Ehw.
    - simpl. apply Hskip. left. unfold is_write_or_delete.
      by rewrite E2.
    - destruct (dequeue_write H op b) as [[r op1] b1].
      apply after_handler_inv; try done. intros _. split; [|done].
      by apply Z.eqb_neq. }
  destruct (opcode op =? BS_OP_DELETE) eqn:E3.
  { destruct (has_writes s =? 2) eqn:Ehw.
    - simpl. apply Hskip. left. unfold is_write_or_delete.
      rewrite E3. by rewrite orb_true_r.
    - destruct (dequeue_del H op b) as [[r op1] b1].
      apply after_handler_inv; try done. intros _. split; [|done].
      by apply Z.eqb_neq. }
  destruct (opcode op =? BS_OP_SYNC) eqn:E4.
  { destruct (has_writes s =? 0) eqn:Ehw; simpl.
    - destruct (continue_sync H false op b) as [[r op1] b1].
      apply after_handler_inv; try done. intros _. by apply Z.eqb_eq.
    - apply Hskip. right. by apply Z.eqb_eq. }
  destruct (opcode op =? BS_OP_STABLE) eqn:E5.
  { destruct (dequeue_stable H op b) as [[r op1] b1].
    apply after_handler_inv; done. }
  destruct (opcode op =? BS_OP_ROLLBACK) eqn:E6.
  { destruct (dequeue_rollback H op b) as [[r op1] b1].
    apply after_handler_inv; done. }
  destruct (opcode op =? BS_OP_LIST) eqn:E7.
  { destruct (process_list alloc op b) as [[op1 b1]|?|?]; cbn [failure round_inv].
    - apply after_handler_inv; done.
    - apply pass_inv_props, pass_inv_quiet; [done|].
      intros o Ho. apply elem_of_cons; auto.
    - apply pass_inv_props, pass_inv_quiet; [done|].
      intros o Ho. apply elem_of_cons; auto. }
  simpl. apply pass_inv_quiet; [done|]. intros o Ho. apply elem_of_cons; auto.
Qed.

Lemma loop_body_inv alloc H s op :
  pass_inv s -> round_inv (loop_body alloc H s op).
Proof.
  intros Hinv. unfold loop_body.
  destruct (negb (wait_for op =? 0)); [|by apply dispatch_inv].
  destruct (check_wait op (engine s)) as [[op1 b1]|?|?]; simpl.
  - destruct (wait_for op1 =? WAIT_SQE).
    + simpl. apply pass_props_append; try done.
      intros o Ho. apply elem_of_cons; auto.
    + destruct (negb (wait_for op1 =? 0)); [|by apply dispatch_inv].
      simpl. apply pass_inv_append; try done.
      * simpl. intros ->. done.
      * simpl. intros ->. done.
      * destruct (is_write_or_delete op1); done.
      * destruct (is_write_or_delete op1); done.
      * intros o Ho. apply elem_of_cons; auto.
  - apply pass_inv_props, pass_inv_quiet; [done|].
    intros o Ho. apply elem_of_cons; auto.
  - apply pass_inv_props, pass_inv_quiet; [done|].
    intros o Ho. apply elem_of_cons; auto.
Qed.

Lemma submit_pass_props alloc H queue : forall s,
  pass_inv s -> pass_props (fst (fst (submit_pass alloc H queue s))).
Proof.
  induction queue as [|op queue IH]; intros s Hinv; simpl.
  - by apply pass_inv_props.
  - pose proof (loop_body_inv alloc H s op Hinv) as Hr.
    destruct (loop_body alloc H s op); simpl in *; [by apply IH|done|done].
Qed.

Lemma pass_inv_start b : pass_inv (mk_pass b [] 0 []).
Proof.
  unfold pass_inv, pass_props. simpl. split_and!.
  - by intros ?%Exists_nil.
  - by intros ?%Exists_nil.
  - intros t1 e t2 Heq. by destruct t1.
  - intros t1 e t2 Heq. by destruct t1.
  - intros op Hin. by apply elem_of_nil in Hin.
Qed.

(** C5.  In one pass of the loop over the submit queue: after a write or
    delete that could not be submitted (its handler returned 0, or it stayed
    parked), no later write or delete is attempted; after any write or delete
    was met ([has_writes != 0]), no sync is advanced; and what the pass skips
    for these reasons stays in the queue for a later pass. *)
Theorem pass_keeps_write_order alloc H b :
  (forall t1 e t2, pass_events alloc H b = t1 ++ e :: t2 ->
     write_failed e = true -> Forall (fun e' => is_write_call e' = false) t2)
  /\ (forall t1 e t2, pass_events alloc H b = t1 ++ e :: t2 ->
     write_seen e = true -> Forall (fun e' => is_sync_call e' = false) t2)
  /\ (forall op, PassedOver op ∈ pass_events alloc H b ->
     op ∈ pass_kept alloc H b
     /\ (is_write_or_delete op = true \/ opcode op = BS_OP_SYNC)).
Proof.
  unfold pass_events, pass_kept, queue_pass.
  apply (submit_pass_props alloc H (submit_queue b)), pass_inv_start.
Qed.

Lemma pass_keeps_write_order_witness :
  pass_events Inputs.always_room Inputs.full_journal_handlers Inputs.c5_engine
  = [] ++ Called CWrite (set_wait_for WAIT_JOURNAL Inputs.c5_write1) 0
       :: [PassedOver Inputs.c5_write2; PassedOver Inputs.c5_sync]
  /\ Forall (fun e' => is_write_call e' = false)
            [PassedOver Inputs.c5_write2; PassedOver Inputs.c5_sync]
  /\ Forall (fun e' => is_sync_call e' = false)
            [PassedOver Inputs.c5_write2; PassedOver Inputs.c5_sync].
Proof.
  split; [reflexivity|]. split.
  - apply (proj1 (pass_keeps_write_order Inputs.always_room
                    Inputs.full_journal_handlers Inputs.c5_engine)
             [] (Called CWrite (set_wait_for WAIT_JOURNAL Inputs.c5_write1) 0));
      reflexivity.
  - apply (proj1 (proj2 (pass_keeps_write_order Inputs.always_room
                    Inputs.full_journal_handlers Inputs.c5_engine))
             [] (Called CWrite (set_wait_for WAIT_JOURNAL Inputs.c5_write1) 0));
      reflexivity.
Defined.
End ImplProps.

(** ** LIST *)
Module ListProps.
Import Impl.

(** *** The orders *)

Lemma oid_lt_irrefl a : oid_lt a a = false.
Proof. unfold oid_lt. lia. Qed.

Lemma oid_lt_trans a b c :
  oid_lt a b = true -> oid_lt b c = true -> oid_lt a c = true.
Proof. unfold oid_lt. lia. Qed.

Lemma oid_lt_asym a b : oid_lt a b = true -> oid_lt b a = false.
Proof. unfold oid_lt. lia. Qed.

Lemma oid_lt_total a b : oid_lt a b = false -> oid_lt b a = false -> a = b.
Proof.
  destruct a as [ia sa], b as [ib sb]. unfold oid_lt. simpl. intros H1 H2.
  f_equal; lia.
Qed.

Lemma ov_lt_cases a b :
  ov_lt a b = true <->
  oid_lt (oid a) (oid b) = true \/ (oid a = oid b /\ version a < version b).
Proof.
  unfold ov_lt. rewrite orb_true_iff, andb_true_iff, bool_decide_eq_true.
  rewrite Z.ltb_lt. done.
Qed.

Lemma ov_lt_trans a b c :
  ov_lt a b = true -> ov_lt b c = true -> ov_lt a c = true.
Proof.
  rewrite !ov_lt_cases. intros [H1|[E1 L1]] [H2|[E2 L2]].
  - left. by eapply oid_lt_trans.
  - left. by rewrite <- E2.
  - left. by rewrite E1.
  - right. split; [congruence|lia].
Qed.

Lemma ov_lt_oid a b : ov_lt a b = true -> oid_lt (oid b) (oid a) = false.
Proof.
  rewrite ov_lt_cases. intros [H|[E _]]; [by apply oid_lt_asym|].
  rewrite E. apply oid_lt_irrefl.
Qed.

Lemma ov_lt_same_oid a b :
  ov_lt a b = true -> oid a = oid b -> version a < version b.
Proof.
  rewrite ov_lt_cases. intros [H|[_ L]] Heq; [|done].
  by rewrite Heq, oid_lt_irrefl in H.
Qed.

(** *** Ranges of an ordered map are filters *)

Lemma drop_while_sorted {A} (R : A -> A -> Prop) (f : A -> bool) l :
  StronglySorted R l ->
  (forall x y, R x y -> f x = false -> f y = false) ->
  drop_while f l = List.filter (fun x => negb (f x)) l.
Proof.
  intros Hs Hmono. induction Hs as [|x l Hs IH Hall]; simpl; [done|].
  destruct (f x) eqn:Hx; simpl; [done|].
  f_equal. clear IH. induction Hall as [|y l Hy Hall IH]; simpl; [done|].
  rewrite (Hmono _ _ Hy Hx). simpl. f_equal. apply IH.
  by apply StronglySorted_inv in Hs as [? _].
Qed.

Lemma take_while_sorted {A} (R : A -> A -> Prop) (f : A -> bool) l :
  StronglySorted R l ->
  (forall x y, R x y -> f x = false -> f y = false) ->
  take_while f l = List.filter f l.
Proof.
  intros Hs Hmono. induction Hs as [|x l Hs IH Hall]; simpl; [done|].
  destruct (f x) eqn:Hx; simpl; [by rewrite IH|].
  clear IH. induction Hall as [|y l Hy Hall IH]; simpl; [done|].
  rewrite (Hmono _ _ Hy Hx). apply IH.
  by apply StronglySorted_inv in Hs as [? _].
Qed.

Lemma filter_sorted {A} (R : A -> A -> Prop) (f : A -> bool) l :
  StronglySorted R l -> StronglySorted R (List.filter f l).
Proof.
  induction 1 as [|x l Hs IH Hall]; simpl; [constructor|].
  destruct (f x); [|done]. constructor; [done|].
  apply Forall_forall. intros y Hy%list_elem_of_In%filter_In.
  destruct Hy as [Hy _]. rewrite Forall_forall in Hall. apply Hall.
  by apply list_elem_of_In.
Qed.

Lemma sorted_fmap_inv {A B} (R : B -> B -> Prop) (g : A -> B) l :
  StronglySorted R (g <$> l) -> StronglySorted (fun x y => R (g x) (g y)) l.
Proof.
  induction l as [|x l IH]; csimpl; [constructor|].
  intros [Hs Hall]%StronglySorted_inv. constructor; [by apply IH|].
  rewrite Forall_fmap in Hall. eapply Forall_impl; [exact Hall|].
  intros y Hy. exact Hy.
Qed.

Lemma sorted_fmap {A B} (R : B -> B -> Prop) (g : A -> B) l :
  StronglySorted (fun x y => R (g x) (g y)) l -> StronglySorted R (g <$> l).
Proof.
  induction 1 as [|x l Hs IH Hall]; csimpl; [constructor|].
  constructor; [done|]. rewrite Forall_fmap.
  eapply Forall_impl; [exact Hall|]. intros y Hy. exact Hy.
Qed.

Lemma map_range_sorted {K V} (lt : K -> K -> bool) lo hi (m : list (K * V)) :
  (forall a b c, lt a b = true -> lt b c = true -> lt a c = true) ->
  StronglySorted (fun x y => lt x y = true) (fst <$> m) ->
  map_range lt lo hi m
  = List.filter (fun kv => negb (lt (fst kv) lo) && negb (lt hi (fst kv))) m.
Proof.
  intros Htrans Hs%sorted_fmap_inv. unfold map_range.
  rewrite (drop_while_sorted _ _ _ Hs).
  2:{ intros x y Hxy Hx. destruct (lt y.1 lo) eqn:Hy; [|done].
      by rewrite (Htrans _ _ _ Hxy Hy) in Hx. }
  rewrite (take_while_sorted (fun x y => lt x.1 y.1 = true)).
  - induction m as [|x m IH]; simpl; [done|].
    apply StronglySorted_inv in Hs as [Hs _].
    destruct (lt x.1 lo); simpl; [by apply IH|].
    destruct (lt hi x.1); simpl; [by apply IH|]. f_equal. by apply IH.
  - by apply filter_sorted.
  - intros x y Hxy Hx. apply negb_false_iff in Hx. apply negb_false_iff.
    by apply (Htrans _ _ _ Hx Hxy).
Qed.

(** *** The binary search *)

Lemma half_lt (s e : nat) : (s < e)%nat -> (s + (e - s) / 2 < e)%nat.
Proof.
  intros Hlt. assert ((e - s) / 2 < e - s)%nat; [|lia].
  apply Nat.div_lt; lia.
Qed.

Lemma replace_stable_loop_S fuel o v s e l :
  replace_stable_loop (S fuel) o v s e l
  = if (s <? e)%nat then
      match l !! (s + (e - s) / 2)%nat with
      | None => None
      | Some x =>
          if oid_lt o (oid x) then
            replace_stable_loop fuel o v s (s + (e - s) / 2)%nat l
          else if oid_lt (oid x) o then
            replace_stable_loop fuel o v (s + (e - s) / 2 + 1)%nat e l
          else Some (true, <[(s + (e - s) / 2)%nat := mk_ov (oid x) v]> l)
      end
    else Some (false, l).
Proof. reflexivity. Qed.

(** What [replace_stable] does to the list: nothing, or it sets the version
    of an entry of that object within the searched range. *)
Lemma replace_stable_loop_effect fuel o v : forall s e l r l',
  replace_stable_loop fuel o v s e l = Some (r, l') ->
  (r = false /\ l' = l)
  \/ (r = true /\ exists pos x, (s <= pos < e)%nat /\ l !! pos = Some x
                   /\ oid x = o /\ l' = <[pos := mk_ov o v]> l).
Proof.
  induction fuel as [|fuel IH]; intros s e l r l'; [simpl|rewrite replace_stable_loop_S].
  - destruct (s <? e)%nat; [done|]. intros [= <- <-]. by left.
  - destruct (s <? e)%nat eqn:Hse; [|intros [= <- <-]; by left].
    apply Nat.ltb_lt in Hse. pose proof (half_lt s e Hse) as Hpos.
    set (pos := (s + (e - s) / 2)%nat) in *.
    destruct (l !! pos) as [x|] eqn:Hx; [|done].
    destruct (oid_lt o (oid x)) eqn:H1.
    { intros Hrun. destruct (IH _ _ _ _ _ Hrun) as [?|(-> & p & y & Hp & ?)];
        [by left|]. right. split; [done|]. exists p, y. split; [lia|done]. }
    destruct (oid_lt (oid x) o) eqn:H2.
    { intros Hrun. destruct (IH _ _ _ _ _ Hrun) as [?|(-> & p & y & Hp & ?)];
        [by left|]. right. split; [done|]. exists p, y. split; [lia|done]. }
    intros [= <- <-]. right. split; [done|]. exists pos, x.
    assert (oid x = o) as Heq by (symmetry; by apply oid_lt_total).
    split; [lia|]. split; [done|]. split; [done|]. by rewrite Heq.
Qed.

(** Within the list and with [search_end - search_start] rounds it always
    ends with an answer. *)
Lemma replace_stable_loop_total fuel o v : forall s e l,
  (e <= length l)%nat -> (e - s <= fuel)%nat ->
  is_Some (replace_stable_loop fuel o v s e l).
Proof.
  induction fuel as [|fuel IH]; intros s e l Hlen Hfuel; [simpl|rewrite replace_stable_loop_S].
  - assert ((s <? e)%nat = false) as -> by (apply Nat.ltb_ge; lia). done.
  - destruct (s <? e)%nat eqn:Hse; [|done].
    apply Nat.ltb_lt in Hse. pose proof (half_lt s e Hse) as Hpos.
    set (pos := (s + (e - s) / 2)%nat) in *.
    destruct (lookup_lt_is_Some_2 l pos) as [x Hx]; [lia|]. rewrite Hx.
    assert (s <= pos)%nat by (unfold pos; lia).
    destruct (oid_lt o (oid x)); [apply IH; lia|].
    destruct (oid_lt (oid x) o); [apply IH; lia|]. done.
Qed.

(** On a range ordered by object it finds the object when it is there. *)
Lemma replace_stable_loop_complete fuel o v : forall s e l l',
  sorted_range l s e ->
  replace_stable_loop fuel o v s e l = Some (false, l') ->
  forall i x, (s <= i < e)%nat -> l !! i = Some x -> oid x <> o.
Proof.
  induction fuel as [|fuel IH]; intros s e l l' Hsorted; [simpl|rewrite replace_stable_loop_S].
  - destruct (s <? e)%nat eqn:Hse; [done|]. apply Nat.ltb_ge in Hse.
    intros _ i x Hi. lia.
  - destruct (s <? e)%nat eqn:Hse.
    2:{ apply Nat.ltb_ge in Hse. intros _ i x Hi. lia. }
    apply Nat.ltb_lt in Hse. pose proof (half_lt s e Hse) as Hpos.
    set (pos := (s + (e - s) / 2)%nat) in *.
    assert (s <= pos)%nat by (unfold pos; lia).
    destruct (l !! pos) as [x|] eqn:Hx; [|done].
    destruct (oid_lt o (oid x)) eqn:H1.
    { intros Hrun i y Hi Hy.
      destruct (decide (i < pos)%nat) as [Hlt|Hge].
      - eapply (IH s pos l l'); [|done| |done]; [|lia].
        intros a b' xa xb ? ? ? ? ?. eapply (Hsorted a b'); [done|done|lia|done|done].
      - intros <-. destruct (decide (i = pos)) as [->|Hne].
        + rewrite Hx in Hy. injection Hy as <-. by rewrite oid_lt_irrefl in H1.
        + assert (oid_lt (oid x) (oid y) = true) as Hxy
            by (eapply (Hsorted pos i); [done|lia|lia|done|done]).
          by rewrite (oid_lt_asym _ _ Hxy) in H1. }
    destruct (oid_lt (oid x) o) eqn:H2; [|done].
    intros Hrun i y Hi Hy.
    destruct (decide (pos < i)%nat) as [Hlt|Hge].
    + eapply (IH (pos + 1)%nat e l l'); [|done| |done]; [|lia].
      intros a b' xa xb ? ? ? ? ?. eapply (Hsorted a b'); [lia|done|done|done|done].
    + intros <-. destruct (decide (i = pos)) as [->|Hne].
      * rewrite Hx in Hy. injection Hy as <-. by rewrite oid_lt_irrefl in H2.
      * assert (oid_lt (oid y) (oid x) = true) as Hxy
          by (eapply (Hsorted i pos); [lia|lia|lia|done|done]).
        by rewrite (oid_lt_asym _ _ Hxy) in H2.
Qed.

Lemma replace_stable_effect o v s e l r l' :
  replace_stable o v s e l = Some (r, l') ->
  (r = false /\ l' = l)
  \/ (r = true /\ exists pos x, (s <= pos < e)%nat /\ l !! pos = Some x
                   /\ oid x = o /\ l' = <[pos := mk_ov o v]> l).
Proof. apply replace_stable_loop_effect. Qed.

Lemma replace_stable_total o v s e l :
  (e <= length l)%nat -> is_Some (replace_stable o v s e l).
Proof. intros Hlen. by apply replace_stable_loop_total. Qed.

Lemma replace_stable_complete o v s e l l' :
  sorted_range l s e -> replace_stable o v s e l = Some (false, l') ->
  forall i x, (s <= i < e)%nat -> l !! i = Some x -> oid x <> o.
Proof. apply replace_stable_loop_complete. Qed.

(** *** The invariant of the list of stable entries *)

Lemma ov_eta k : mk_ov (oid k) (version k) = k.
Proof. by destruct k. Qed.

Lemma fmap_oid_insert (l : list obj_ver_id) pos x o v :
  l !! pos = Some x -> oid x = o ->
  oid <$> <[pos := mk_ov o v]> l = oid <$> l.
Proof.
  intros Hx Ho. rewrite list_fmap_insert. simpl. apply list_insert_id.
  rewrite list_lookup_fmap, Hx. simpl. by rewrite Ho.
Qed.

Lemma sorted_lookup {A} (R : A -> A -> Prop) (l : list A) : forall i j x y,
  StronglySorted R l -> (i < j)%nat -> l !! i = Some x -> l !! j = Some y ->
  R x y.
Proof.
  induction l as [|a l IH]; intros i j x y Hs Hij Hx Hy; [done|].
  apply StronglySorted_inv in Hs as [Hs Hall].
  destruct j as [|j]; [lia|]. simpl in Hy. destruct i as [|i]; simpl in Hx.
  - injection Hx as <-. rewrite Forall_forall in Hall. apply Hall.
    by eapply list_elem_of_lookup_2.
  - eapply (IH i j); [done|lia|done|done].
Qed.

Lemma chain_inv_tail csc d rest O :
  chain_inv csc (d :: rest) O -> chain_inv csc rest O.
Proof.
  intros (H1 & H2 & H3 & H4 & H5 & H6). split_and!; try done.
  - intros y d' Hy Hd'. apply H5; [done|]. apply elem_of_cons; auto.
  - rewrite fmap_cons in H6. by apply StronglySorted_inv in H6 as [? _].
Qed.

Section Chain.
Variable csc : nat.
Variable rest : list (obj_ver_id * dirty_entry).
Variable l : list obj_ver_id.
Hypothesis Hinv : chain_inv csc rest (oid <$> l).

Lemma chain_csc : (csc <= length l)%nat.
Proof. destruct Hinv as (H & _). by rewrite length_fmap in H. Qed.

Lemma chain_sorted_clean : sorted_range l 0 csc.
Proof.
  destruct Hinv as (_ & Hs & _). intros i j x y _ Hij Hj Hx Hy.
  eapply (sorted_lookup Rlt _ i j); [exact Hs|done| |].
  - rewrite lookup_take_lt by lia. by rewrite list_lookup_fmap, Hx.
  - rewrite lookup_take_lt by lia. by rewrite list_lookup_fmap, Hy.
Qed.

Lemma chain_sorted_dirty : sorted_range l csc (length l).
Proof.
  destruct Hinv as (_ & _ & Hs & _). intros i j x y Hi Hij Hj Hx Hy.
  eapply (sorted_lookup Rlt _ (i - csc) (j - csc)); [exact Hs|lia| |].
  - rewrite lookup_drop. replace (csc + (i - csc))%nat with i by lia.
    by rewrite list_lookup_fmap, Hx.
  - rewrite lookup_drop. replace (csc + (j - csc))%nat with j by lia.
    by rewrite list_lookup_fmap, Hy.
Qed.

Lemma chain_unique i j x y :
  l !! i = Some x -> l !! j = Some y -> oid x = oid y -> i = j.
Proof.
  intros Hx Hy Heq.
  assert (Hone : forall a b xa xb, (a < b)%nat -> l !! a = Some xa ->
            l !! b = Some xb -> oid xa <> oid xb).
  { intros a b xa xb Hab Ha Hb Hoid.
    pose proof (lookup_lt_Some _ _ _ Hb) as Hlen.
    destruct (decide (b < csc)%nat) as [Hbc|Hbc].
    - pose proof (chain_sorted_clean a b xa xb) as Hlt.
      rewrite Hoid, oid_lt_irrefl in Hlt.
      assert (false = true) by (apply Hlt; (done || lia)). done.
    - destruct (decide (csc <= a)%nat) as [Hac|Hac].
      + pose proof (chain_sorted_dirty a b xa xb) as Hlt.
        rewrite Hoid, oid_lt_irrefl in Hlt.
        assert (false = true) by (apply Hlt; (done || lia)). done.
      + destruct Hinv as (_ & _ & _ & Hdis & _).
        apply (Hdis (oid xb)).
        * apply list_elem_of_lookup. exists (b - csc)%nat.
          rewrite lookup_drop. replace (csc + (b - csc))%nat with b by lia.
          by rewrite list_lookup_fmap, Hb.
        * rewrite <- Hoid. apply list_elem_of_lookup. exists a.
          rewrite lookup_take_lt by lia. by rewrite list_lookup_fmap, Ha. }
  destruct (Nat.lt_trichotomy i j) as [Hlt|[Heq'|Hgt]]; [|done|].
  - by destruct (Hone _ _ _ _ Hlt Hx Hy).
  - by destruct (Hone _ _ _ _ Hgt Hy Hx).
Qed.

(** Setting the version of the one entry of an object: afterwards every
    entry of that object has that version. *)
Lemma chain_insert_only pos x o v x' :
  l !! pos = Some x -> oid x = o ->
  x' ∈ <[pos := mk_ov o v]> l -> oid x' = o -> version x' = v.
Proof.
  intros Hx Ho [i Hi]%list_elem_of_lookup Ho'.
  destruct (decide (i = pos)) as [->|Hne].
  - rewrite list_lookup_insert_eq in Hi by (by eapply lookup_lt_Some).
    by injection Hi as <-.
  - rewrite list_lookup_insert_ne in Hi by done.
    destruct Hne. eapply chain_unique; [done|done|congruence].
Qed.
End Chain.

Lemma chain_inv_append csc k e rest (l : list obj_ver_id) :
  chain_inv csc ((k, e) :: rest) (oid <$> l) ->
  (forall i x, (i < csc)%nat -> l !! i = Some x -> oid x <> oid k) ->
  ((0 <? length l)%nat && bool_decide (oid <$> last l = Some (oid k)) = false) ->
  chain_inv csc rest (oid <$> (l ++ [k])).
Proof.
  intros Hinv Hnotclean Hlast.
  pose proof Hinv as (Hlen & Hsc & Hsd & Hdis & Hbound & Hsrest).
  rewrite fmap_app. simpl.
  assert (Hdrop : drop csc ((oid <$> l) ++ [oid k])
                  = drop csc (oid <$> l) ++ [oid k])
    by (by rewrite drop_app_le).
  assert (Htake : take csc ((oid <$> l) ++ [oid k]) = take csc (oid <$> l))
    by (by rewrite take_app_le).
  assert (Hlt : forall y, y ∈ drop csc (oid <$> l) -> Rlt y (oid k)).
  { intros y Hy. unfold Rlt.
    assert (Hle : oid_lt (oid k) y = false).
    { apply (Hbound y (k, e)); [done|]. apply elem_of_cons; auto. }
    destruct (oid_lt y (oid k)) eqn:Hyk; [done|]. exfalso.
    assert (y = oid k) as -> by (by apply oid_lt_total).
    apply list_elem_of_lookup in Hy as [i Hi].
    pose proof (lookup_lt_Some _ _ _ Hi) as Hilen.
    rewrite length_drop, length_fmap in Hilen.
    set (n := (length l - csc)%nat) in *.
    destruct (lookup_lt_is_Some_2 (drop csc (oid <$> l)) (n - 1)) as [z Hz].
    { rewrite length_drop, length_fmap. lia. }
    assert (Hzl : oid <$> last l = Some z).
    { rewrite last_lookup, <- list_lookup_fmap.
      rewrite lookup_drop in Hz. rewrite <- Hz. f_equal. lia. }
    destruct (decide (i = (n - 1)%nat)) as [->|Hne].
    - rewrite Hi in Hz. injection Hz as <-.
      rewrite Hzl in Hlast. rewrite bool_decide_eq_true_2 in Hlast by done.
      assert ((0 <? length l)%nat = true) by (apply Nat.ltb_lt; lia).
      by rewrite H in Hlast.
    - assert (Rlt (oid k) z) as Hkz
        by (eapply (sorted_lookup Rlt _ i (n - 1)); [exact Hsd|lia|done|done]).
      unfold Rlt in Hkz.
      assert (oid_lt (oid k) z = false) as Hzk.
      { apply (Hbound z (k, e)); [|apply elem_of_cons; auto].
        by eapply list_elem_of_lookup_2. }
      by rewrite Hzk in Hkz. }
  split_and!.
  - rewrite length_app. simpl. lia.
  - by rewrite Htake.
  - rewrite Hdrop. apply StronglySorted_app. split_and!; [|done|].
    + intros x1 x2 Hx1 ->%list_elem_of_singleton. by apply Hlt.
    + repeat constructor.
  - rewrite Hdrop, Htake. intros y [Hy| ->%list_elem_of_singleton]%elem_of_app.
    + by apply Hdis.
    + intros [i Hi]%list_elem_of_lookup.
      pose proof (lookup_lt_Some _ _ _ Hi) as Hilen.
      rewrite length_take in Hilen.
      rewrite lookup_take_lt in Hi by lia.
      rewrite list_lookup_fmap in Hi.
      destruct (l !! i) as [x|] eqn:Hx; [|done]. simpl in Hi.
      injection Hi as Hi. by apply (Hnotclean i x); [lia|done|].
  - rewrite Hdrop. intros y d [Hy| ->%list_elem_of_singleton]%elem_of_app Hd.
    + apply Hbound; [done|]. apply elem_of_cons; auto.
    + rewrite fmap_cons in Hsrest.
      apply StronglySorted_inv in Hsrest as [_ Hall]. simpl in Hall.
      rewrite Forall_forall in Hall. apply ov_lt_oid, Hall.
      by apply list_elem_of_fmap_2.
  - rewrite fmap_cons in Hsrest. by apply StronglySorted_inv in Hsrest as [? _].
Qed.

Section Steps.
Variable alloc_ok : Z -> bool.
Hypothesis Halloc : forall n, alloc_ok n = true.
Variable op : blockstore_op_t.

Lemma chain_inv_same csc rest (l l' : list obj_ver_id) :
  oid <$> l' = oid <$> l ->
  chain_inv csc rest (oid <$> l) -> chain_inv csc rest (oid <$> l').
Proof. by intros ->. Qed.

(** One round of the loop over the dirty DB. *)
Lemma dirty_step_ok csc d rest st :
  chain_inv csc (d :: rest) (oid <$> stable st) ->
  exists st', dirty_step alloc_ok op csc st d = Continue st'
    /\ chain_inv csc rest (oid <$> stable st')
    /\ stable_effect op d (stable st) (stable st')
    /\ unstable st'
       = unstable st ++ (if in_pg op (oid (fst d)) && is_unstable d
                         then [fst d] else [])
    /\ (in_pg op (oid (fst d)) = true -> IS_DELETE (state (snd d)) = true ->
        zeroed (oid (fst d)) (stable st')).
Proof.
  intros Hinv. pose proof (chain_inv_tail _ _ _ _ Hinv) as Htail.
  pose proof (chain_csc _ _ _ Hinv) as Hcsc.
  pose proof (chain_sorted_clean _ _ _ Hinv) as Hsc.
  pose proof (chain_sorted_dirty _ _ _ Hinv) as Hsd.
  destruct d as [k e]. unfold dirty_step, is_unstable. simpl fst. simpl snd.
  destruct (in_pg op (oid k)) eqn:Hpg.
  2:{ exists st. rewrite app_nil_r. split_and!; try done. by left. }
  destruct (IS_DELETE (state e)) eqn:Hdel.
  { (* a delete *)
    destruct (replace_stable_total (oid k) 0 0 csc (stable st) Hcsc)
      as [[r1 l1] Hr1]. rewrite Hr1.
    destruct (replace_stable_effect _ _ _ _ _ _ _ Hr1)
      as [[-> ->]|(-> & pos & x & Hpos & Hx & Hox & ->)].
    - destruct (replace_stable_total (oid k) 0 csc (length (stable st))
                  (stable st)) as [[r2 l2] Hr2]; [lia|]. rewrite Hr2.
      destruct (replace_stable_effect _ _ _ _ _ _ _ Hr2)
        as [[-> ->]|(-> & pos & x & Hpos & Hx & Hox & ->)].
      + eexists. split; [reflexivity|]. simpl. rewrite app_nil_r.
        split_and!; try done; [by left|].
        intros _ _ y [i Hi]%list_elem_of_lookup Hy. exfalso.
        pose proof (lookup_lt_Some _ _ _ Hi) as Hilen.
        destruct (decide (i < csc)%nat).
        * by apply (replace_stable_complete _ _ _ _ _ _ Hsc Hr1 i y); [lia|done|].
        * by apply (replace_stable_complete _ _ _ _ _ _ Hsd Hr2 i y); [lia|done|].
      + eexists. split; [reflexivity|]. simpl. rewrite app_nil_r.
        split_and!; try done.
        * eapply chain_inv_same; [|exact Htail]. by eapply fmap_oid_insert.
        * right. left. split; [done|]. exists pos, x. split_and!; try done.
          by left.
        * intros _ _ y Hy Hoy. by eapply (chain_insert_only _ _ _ Hinv).
    - eexists. split; [reflexivity|]. simpl. rewrite app_nil_r.
      split_and!; try done.
      + eapply chain_inv_same; [|exact Htail]. by eapply fmap_oid_insert.
      + right. left. split; [done|]. exists pos, x. split_and!; try done.
        by left.
      + intros _ _ y Hy Hoy. by eapply (chain_insert_only _ _ _ Hinv). }
  destruct (IS_STABLE (state e)) eqn:Hst.
  { (* a stable write *)
    assert (Hsw : is_stable_write (k, e) = true)
      by (unfold is_stable_write; simpl; by rewrite Hdel, Hst).
    destruct (replace_stable_total (oid k) (version k) 0 csc (stable st) Hcsc)
      as [[r1 l1] Hr1]. rewrite Hr1.
    destruct (replace_stable_effect _ _ _ _ _ _ _ Hr1)
      as [[-> ->]|(-> & pos & x & Hpos & Hx & Hox & ->)].
    - destruct ((0 <? length (stable st))%nat
                && bool_decide (oid <$> last (stable st) = Some (oid k)))
        eqn:Hlast.
      + (* the last entry is of this object *)
        apply andb_true_iff in Hlast as [Hpos Hl].
        apply Nat.ltb_lt in Hpos. apply bool_decide_eq_true in Hl.
        destruct (last (stable st)) as [x|] eqn:Hx; [|done].
        simpl in Hl. injection Hl as Hox.
        assert (Hset : set_last_version (version k) (stable st)
                       = <[(length (stable st) - 1)%nat :=
                             mk_ov (oid k) (version k)]> (stable st)).
        { unfold set_last_version. rewrite Hx. simpl. by rewrite Hox. }
        rewrite last_lookup in Hx.
        replace (Init.Nat.pred (length (stable st)))
          with (length (stable st) - 1)%nat in Hx by lia.
        eexists. split; [reflexivity|]. simpl. rewrite app_nil_r, Hset.
        split_and!; try done.
        * eapply chain_inv_same; [|exact Htail]. by eapply fmap_oid_insert.
        * right. left. split; [done|]. eexists _, x. split_and!; try done.
          right. by rewrite ov_eta.
      + (* a new entry *)
        assert (Hgoal : exists st',
          (if stable_alloc st <=? Z.of_nat (length (stable st))
           then if alloc_ok (stable_alloc st + 32768)
                then Continue (mk_ls (stable st ++ [k]) (stable_alloc st + 32768)
                                     (unstable st) (unstable_alloc st))
                else NoMemory
           else Continue (mk_ls (stable st ++ [k]) (stable_alloc st)
                                (unstable st) (unstable_alloc st)))
          = Continue st'
          /\ stable st' = stable st ++ [k] /\ unstable st' = unstable st).
        { rewrite Halloc. destruct (stable_alloc st <=? _); eexists; done. }
        destruct Hgoal as (st' & -> & Hs' & Hu').
        exists st'. split; [done|]. rewrite Hs', Hu', app_nil_r.
        split_and!; try done.
        * eapply chain_inv_append; [exact Hinv| |done].
          intros i y Hi Hy.
          by apply (replace_stable_complete _ _ _ _ _ _ Hsc Hr1 i y); [lia|].
        * right. right. done.
    - eexists. split; [reflexivity|]. simpl. rewrite app_nil_r.
      split_and!; try done.
      + eapply chain_inv_same; [|exact Htail]. by eapply fmap_oid_insert.
      + right. left. split; [done|]. exists pos, x. split_and!; try done.
        right. by rewrite ov_eta. }
  (* an unstable write *)
  assert (Hgoal : exists st',
    (if unstable_alloc st <=? Z.of_nat (length (unstable st))
     then if alloc_ok (unstable_alloc st + 32768)
          then Continue (mk_ls (stable st) (stable_alloc st)
                               (unstable st ++ [k]) (unstable_alloc st + 32768))
          else NoMemory
     else Continue (mk_ls (stable st) (stable_alloc st)
                          (unstable st ++ [k]) (unstable_alloc st)))
    = Continue st'
    /\ stable st' = stable st /\ unstable st' = unstable st ++ [k]).
  { rewrite Halloc. destruct (unstable_alloc st <=? _); eexists; done. }
  destruct Hgoal as (st' & -> & Hs' & Hu').
  exists st'. split; [done|]. rewrite Hs', Hu'. split_and!; try done.
  by left.
Qed.
End Steps.

Lemma elem_of_insert_inv {A} (l : list A) i y x :
  x ∈ <[i := y]> l -> x = y \/ x ∈ l.
Proof.
  intros [j Hj]%list_elem_of_lookup.
  destruct (decide (j = i)) as [->|Hne].
  - destruct (decide (i < length l)%nat).
    + rewrite list_lookup_insert_eq in Hj by done. left. congruence.
    + rewrite list_insert_ge in Hj by lia. right. by eapply list_elem_of_lookup_2.
  - rewrite list_lookup_insert_ne in Hj by done. right.
    by eapply list_elem_of_lookup_2.
Qed.

Lemma effect_Forall op (P : obj_ver_id -> Prop) d l l' :
  stable_effect op d l l' -> Forall P l ->
  (forall x, P x -> P (mk_ov (oid x) 0)) ->
  (in_pg op (oid (fst d)) = true -> is_stable_write d = true -> P (fst d)) ->
  Forall P l'.
Proof.
  intros Heff Hall Hzero Hnew. rewrite Forall_forall in Hall.
  destruct Heff as [->|[(Hpg & pos & x & Hx & Hox & Hcase)|(Hpg & Hsw & ->)]].
  - by apply Forall_forall.
  - apply Forall_forall. intros y Hy.
    destruct Hcase as [[_ ->]|[Hsw ->]];
      apply elem_of_insert_inv in Hy as [->|Hy]; auto.
    rewrite <- Hox. apply Hzero, Hall. by eapply list_elem_of_lookup_2.
  - apply Forall_forall. intros y [Hy| ->%list_elem_of_singleton]%elem_of_app; auto.
Qed.

Lemma effects_Forall op (P : obj_ver_id -> Prop) its l l' :
  effects op its l l' -> Forall P l ->
  (forall x, P x -> P (mk_ov (oid x) 0)) ->
  (forall d, d ∈ its -> in_pg op (oid (fst d)) = true ->
     is_stable_write d = true -> P (fst d)) ->
  Forall P l'.
Proof.
  induction 1 as [|d its l l1 l2 Heff _ _ IH]; intros Hall Hzero Hnew; [done|].
  apply IH; [|done|].
  - eapply effect_Forall; [done|done|done|]. apply Hnew, elem_of_cons; auto.
  - intros d' Hd'. apply Hnew, elem_of_cons; auto.
Qed.

Section Loops.
Variable alloc_ok : Z -> bool.
Hypothesis Halloc : forall n, alloc_ok n = true.
Variable op : blockstore_op_t.

Lemma clean_loop_ok its : forall st,
  exists st', scan_loop (clean_step alloc_ok op) its st = Continue st'
    /\ stable st'
       = stable st ++ (clean_entry_of <$> List.filter (fun c => in_pg op (fst c)) its)
    /\ unstable st' = unstable st.
Proof.
  induction its as [|c its IH]; intros st; simpl.
  - exists st. by rewrite app_nil_r.
  - unfold clean_step at 1. destruct (in_pg op c.1) eqn:Hpg.
    + rewrite Halloc.
      assert (Hgo : forall a, exists st',
        scan_loop (clean_step alloc_ok op) its
          (mk_ls (stable st ++ [mk_ov c.1 (clean_version c.2)]) a
                 (unstable st) (unstable_alloc st)) = Continue st'
        /\ stable st' = stable st ++ (clean_entry_of <$> c :: List.filter (fun c => in_pg op (fst c)) its)
        /\ unstable st' = unstable st).
      { intros a. destruct (IH (mk_ls (stable st ++ [mk_ov c.1 (clean_version c.2)]) a
                 (unstable st) (unstable_alloc st))) as (st' & Hrun & Hs & Hu).
        exists st'. split; [done|]. simpl in *. rewrite Hs, <- app_assoc. done. }
      destruct (stable_alloc st <=? _); apply Hgo.
    + apply IH.
Qed.

Lemma dirty_loop_ok csc its : forall st,
  chain_inv csc its (oid <$> stable st) ->
  exists st', scan_loop (dirty_step alloc_ok op csc) its st = Continue st'
    /\ effects op its (stable st) (stable st')
    /\ unstable st'
       = unstable st
         ++ (fst <$> List.filter
                       (fun d => in_pg op (oid (fst d)) && is_unstable d) its).
Proof.
  induction its as [|d its IH]; intros st Hinv; simpl.
  - exists st. rewrite app_nil_r. split_and!; try done. constructor.
  - destruct (dirty_step_ok alloc_ok Halloc op csc d its st Hinv)
      as (st1 & -> & Hinv1 & Heff & Hun & Hz).
    destruct (IH st1 Hinv1) as (st' & Hrun & Heffs & Hun').
    exists st'. split; [done|]. split; [by econstructor|].
    rewrite Hun', Hun, <- app_assoc. f_equal.
    by destruct (in_pg op (oid d.1) && is_unstable d).
Qed.
End Loops.

Lemma filter_all {A} (f : A -> bool) (l : list A) :
  (forall x, x ∈ l -> f x = true) -> List.filter f l = l.
Proof.
  induction l as [|x l IH]; intros Hall; simpl; [done|].
  rewrite (Hall x) by (apply elem_of_cons; auto). f_equal. apply IH.
  intros y Hy. apply Hall, elem_of_cons; auto.
Qed.

Lemma filter_same {A} (f g : A -> bool) (l : list A) :
  (forall x, x ∈ l -> f x = g x) -> List.filter f l = List.filter g l.
Proof.
  intros Hext. apply filter_ext_in. intros x Hx. by apply Hext, list_elem_of_In.
Qed.

Lemma elem_of_filter {A} (f : A -> bool) (l : list A) x :
  x ∈ List.filter f l <-> x ∈ l /\ f x = true.
Proof. rewrite !list_elem_of_In. apply filter_In. Qed.

Section Scans.
Variable op : blockstore_op_t.
Variable b : blockstore_impl_t.
Hypothesis Hdbs : ordered_dbs b.

Lemma clean_scan_filter :
  clean_scan op (clean_db b)
  = List.filter (fun c => in_inode_range op (fst c)) (clean_db b).
Proof.
  destruct Hdbs as (Hsc & _ & Hu & _). unfold clean_scan, in_inode_range.
  destruct (inode_range_given op); simpl.
  - rewrite map_range_sorted; [|apply oid_lt_trans|done].
    apply filter_same. intros c Hc. rewrite Forall_forall in Hu.
    destruct (Hu c Hc) as [Hi Hs]. unfold oid_lt, u64, UINT64_MAX in *. simpl.
    lia.
  - symmetry. by apply filter_all.
Qed.

Lemma dirty_scan_filter :
  dirty_scan op (dirty_db b)
  = List.filter (fun d => in_inode_range op (oid (fst d))) (dirty_db b).
Proof.
  destruct Hdbs as (_ & Hsd & _ & Hu). unfold dirty_scan, in_inode_range.
  destruct (inode_range_given op); simpl.
  - rewrite map_range_sorted; [|apply ov_lt_trans|done].
    apply filter_same. intros d Hd. rewrite Forall_forall in Hu.
    destruct (Hu d Hd) as [[Hi Hs] Hv]. unfold ov_lt. simpl.
    assert ((version d.1 <? 0) = false) as -> by (unfold u64 in *; lia).
    assert ((UINT64_MAX <? version d.1) = false) as ->
      by (unfold u64 in *; lia).
    rewrite !andb_false_r, !orb_false_r.
    unfold oid_lt, u64, UINT64_MAX in *. simpl. lia.
  - symmetry. by apply filter_all.
Qed.

Lemma sorted_filter_keys {K V} (R : K -> K -> Prop) (f : K * V -> bool)
    (m : list (K * V)) :
  StronglySorted R (fst <$> m) -> StronglySorted R (fst <$> List.filter f m).
Proof. intros Hs%sorted_fmap_inv. by apply sorted_fmap, filter_sorted. Qed.

Lemma dirty_scan_sorted : StronglySorted Rov (fst <$> dirty_scan op (dirty_db b)).
Proof.
  rewrite dirty_scan_filter. apply sorted_filter_keys. by destruct Hdbs as (_ & ? & _).
Qed.

(** The invariant holds when the loop over the dirty DB starts. *)
Lemma chain_inv_start :
  let l := clean_entry_of
             <$> List.filter (fun c => in_pg op (fst c))
                             (clean_scan op (clean_db b)) in
  chain_inv (length l) (dirty_scan op (dirty_db b)) (oid <$> l).
Proof.
  intros l.
  assert (Hoid : oid <$> l
                 = fst <$> List.filter (fun c => in_pg op (fst c))
                                       (clean_scan op (clean_db b))).
  { unfold l. rewrite <- list_fmap_compose. done. }
  assert (Hlen : length (oid <$> l) = length l) by apply length_fmap.
  unfold chain_inv. rewrite <- Hlen.
  rewrite firstn_all, drop_all. split_and!.
  - lia.
  - rewrite Hoid, clean_scan_filter. do 2 apply sorted_filter_keys.
    by destruct Hdbs as (? & _).
  - constructor.
  - by intros y ?%elem_of_nil.
  - by intros y d ?%elem_of_nil.
  - apply dirty_scan_sorted.
Qed.
End Scans.

Lemma filter_filter {A} (f g : A -> bool) (l : list A) :
  List.filter f (List.filter g l) = List.filter (fun x => g x && f x) l.
Proof.
  induction l as [|x l IH]; simpl; [done|].
  destruct (g x); simpl; [|done]. destruct (f x); by rewrite IH.
Qed.

Section Results.
Variable alloc_ok : Z -> bool.
Hypothesis Halloc : forall n, alloc_ok n = true.
Variable op : blockstore_op_t.
Variable b : blockstore_impl_t.
Hypothesis Hdbs : ordered_dbs b.

Lemma list_scan_ok :
  exists csc st,
    list_scan alloc_ok op b = Continue (csc, st)
    /\ effects op (dirty_scan op (dirty_db b))
         (clean_entry_of <$> List.filter (fun c => in_pg op (fst c))
                                         (clean_scan op (clean_db b)))
         (stable st)
    /\ unstable st
       = fst <$> List.filter (fun d => listed op (oid (fst d)) && is_unstable d)
                             (dirty_db b).
Proof.
  unfold list_scan. rewrite Halloc.
  match goal with
  | |- context [scan_loop (clean_step alloc_ok op) ?its ?st0] =>
      destruct (clean_loop_ok alloc_ok Halloc op its st0)
        as (st1 & -> & Hs1 & Hu1)
  end.
  simpl in Hs1, Hu1.
  destruct (dirty_loop_ok alloc_ok Halloc op (length (stable st1))
              (dirty_scan op (dirty_db b)) st1) as (st2 & -> & Heff & Hun).
  { rewrite Hs1. by apply chain_inv_start. }
  exists (length (stable st1)), st2. split; [done|]. rewrite <- Hs1.
  split; [done|]. rewrite Hun, Hu1. simpl.
  rewrite (dirty_scan_filter op b Hdbs), filter_filter. f_equal.
  apply filter_same. intros d _. unfold listed. by rewrite andb_assoc.
Qed.

Lemma clean_part_listed :
  Forall (fun x => listed op (oid x) = true
                   /\ (version x = 0 \/ from_clean b x \/ from_stable_write b x))
    (clean_entry_of <$> List.filter (fun c => in_pg op (fst c))
                                    (clean_scan op (clean_db b))).
Proof.
  rewrite (clean_scan_filter op b Hdbs), filter_filter. apply Forall_fmap.
  apply Forall_forall. intros c [Hc Hf]%elem_of_filter. simpl.
  split; [done|]. right. left. by exists c.
Qed.

(** The stable entries after the loops: of listed objects, and either zeroed,
    or as the clean DB has them, or the key of a stable write. *)
Lemma stable_entries_listed csc st :
  list_scan alloc_ok op b = Continue (csc, st) ->
  Forall (fun x => listed op (oid x) = true
                   /\ (version x = 0 \/ from_clean b x \/ from_stable_write b x))
         (stable st).
Proof.
  intros Hscan. destruct list_scan_ok as (csc' & st' & Hscan' & Heff & _).
  rewrite Hscan in Hscan'. injection Hscan' as <- <-.
  eapply effects_Forall; [exact Heff|apply clean_part_listed| |].
  - intros x (Hl & _). split; [done|]. by left.
  - intros d Hd Hpg Hsw. rewrite (dirty_scan_filter op b Hdbs) in Hd.
    apply elem_of_filter in Hd as [Hd Hr]. unfold listed. rewrite Hr, Hpg.
    split; [done|]. right. right. exists d.2. by destruct d.
Qed.

Lemma remove_zeroed_spec (l : list obj_ver_id) x :
  x ∈ remove_zeroed l <-> x ∈ l /\ version x <> 0.
Proof.
  unfold remove_zeroed. rewrite elem_of_filter. rewrite negb_true_iff.
  rewrite Z.eqb_neq. done.
Qed.
End Results.

Lemma inputs_ordered :
  ordered_dbs Inputs.c7_engine.
Proof.
  unfold ordered_dbs, u64, oid_u64. simpl.
  split_and!; repeat constructor; simpl; done.
Qed.


(** C9 as stated fails: object (1, 0) has a delete at version 6 among the
    listed dirty entries and a stable write at version 7 after it; the stable
    part of the result holds the object, at version 7. *)
Lemma rewritten_object_listed :
  (mk_ov (mk_oid 1 0) 6, Inputs.synced_delete) ∈ dirty_db Inputs.c9_engine
  /\ IS_DELETE (state Inputs.synced_delete) = true
  /\ listed Inputs.list_all (mk_oid 1 0) = true
  /\ exists op',
    list_result Inputs.always_room Inputs.list_all Inputs.c9_engine = Ok op'
    /\ buf op' = Some [mk_ov (mk_oid 1 0) 7]
    /\ op_version op' = 1.
Proof.
  split; [apply list_elem_of_In; simpl; auto|].
  split; [done|]. split; [done|]. eexists. split; [reflexivity|]. done.
Qed.

End ListProps.

(** ** The metadata reader of the disk tool *)
Module DiskToolProps.
Import DiskTool.

Lemma for_values_ext fuel c1 c2 step : forall i,
  (forall x, c1 x = c2 x) ->
  for_values fuel c1 step i = for_values fuel c2 step i.
Proof.
  induction fuel as [|fuel IH]; intros i Hext; simpl; rewrite Hext; [done|].
  destruct (c2 i); [|done]. by rewrite IH.
Qed.

(** A counting loop [for (i = start; i < bound; i += step)] with enough fuel:
    it runs [ceil((bound - start) / step)] times, over [start + k * step]. *)
Lemma for_values_lt fuel bound step : forall start,
  0 < step -> bound - start <= Z.of_nat fuel * step ->
  exists l, for_values fuel (fun i => i <? bound) step start = Some l
    /\ Z.of_nat (length l) = Z.max 0 ((bound - start + step - 1) / step)
    /\ forall k x, l !! k = Some x -> x = start + Z.of_nat k * step.
Proof.
  induction fuel as [|fuel IH]; intros start Hstep Hfuel.
  - simpl. assert ((start <? bound) = false) as -> by lia.
    exists []. split; [done|]. split; [|done]. simpl.
    assert ((bound - start + step - 1) / step < 1); [|lia].
    apply Z.div_lt_upper_bound; lia.
  - simpl. destruct (start <? bound) eqn:Hc.
    + destruct (IH (start + step)) as (l & -> & Hlen & Hval); [done|lia|].
      exists (start :: l). split; [done|]. split.
      * simpl length. rewrite Nat2Z.inj_succ, Hlen.
        replace (bound - start + step - 1) with ((bound - start - 1) + 1 * step) by lia.
        rewrite Z.div_add by lia.
        replace (bound - (start + step) + step - 1) with (bound - start - 1) by lia.
        assert (0 <= (bound - start - 1) / step) by (apply Z.div_pos; lia).
        lia.
      * intros [|k] x; simpl.
        { intros [= <-]. lia. }
        { intros Hk. rewrite (Hval _ _ Hk). lia. }
    + exists []. split; [done|]. split; [|done]. simpl.
      assert ((bound - start + step - 1) / step < 1); [|lia].
      apply Z.div_lt_upper_bound; lia.
Qed.

Section EntriesPerBlock.
Variable t : disk_tool_t.
Hypothesis Hces : 0 < clean_entry_size t.
Hypothesis Hfit : clean_entry_size t <= meta_block_size t.
Hypothesis Hmbs : meta_block_size t <= UINT64_MAX.

Lemma bound_no_wrap :
  wrap64 (meta_block_size t - clean_entry_size t)
  = meta_block_size t - clean_entry_size t.
Proof. unfold wrap64, UINT64_MAX in *. apply Z.mod_small. lia. Qed.

(** With bitmaps the inner loop visits [floor(meta_block_size /
    clean_entry_size)] entries of a block, at consecutive offsets. *)
Lemma entries_per_block_with_bitmaps :
  exists l, block_ioffs false t = Some l
    /\ Z.of_nat (length l) = meta_block_size t / clean_entry_size t
    /\ forall k x, l !! k = Some x -> x = Z.of_nat k * clean_entry_size t.
Proof.
  unfold block_ioffs.
  rewrite (for_values_ext _ _
             (fun i => i <? meta_block_size t - clean_entry_size t + 1)).
  2:{ intros x. unfold ioff_cond. rewrite bound_no_wrap. lia. }
  destruct (for_values_lt (Z.to_nat (meta_block_size t) + 1)
              (meta_block_size t - clean_entry_size t + 1)
              (clean_entry_size t) 0) as (l & Hl & Hlen & Hval); [done|nia|].
  exists l. split; [done|]. split.
  - rewrite Hlen.
    replace (meta_block_size t - clean_entry_size t + 1 - 0
             + clean_entry_size t - 1) with (meta_block_size t) by lia.
    assert (0 <= meta_block_size t / clean_entry_size t)
      by (apply Z.div_pos; lia). lia.
  - intros k x Hk. rewrite (Hval _ _ Hk). lia.
Qed.

(** Without bitmaps the condition is strict: the loop visits
    [floor((meta_block_size - 1) / clean_entry_size)] entries, one less than
    [floor(meta_block_size / clean_entry_size)] when the entry size divides
    the block size. *)
Lemma entries_per_block_legacy :
  exists l, block_ioffs true t = Some l
    /\ Z.of_nat (length l) = (meta_block_size t - 1) / clean_entry_size t
    /\ (meta_block_size t mod clean_entry_size t = 0 ->
        Z.of_nat (length l) = meta_block_size t / clean_entry_size t - 1).
Proof.
  unfold block_ioffs.
  rewrite (for_values_ext _ _
             (fun i => i <? meta_block_size t - clean_entry_size t)).
  2:{ intros x. unfold ioff_cond. rewrite bound_no_wrap. lia. }
  destruct (for_values_lt (Z.to_nat (meta_block_size t) + 1)
              (meta_block_size t - clean_entry_size t)
              (clean_entry_size t) 0) as (l & Hl & Hlen & Hval); [done|nia|].
  exists l. split; [done|].
  assert (Hn : Z.of_nat (length l) = (meta_block_size t - 1) / clean_entry_size t).
  { rewrite Hlen.
    replace (meta_block_size t - clean_entry_size t - 0
             + clean_entry_size t - 1) with (meta_block_size t - 1) by lia.
    assert (0 <= (meta_block_size t - 1) / clean_entry_size t)
      by (apply Z.div_pos; lia). lia. }
  split; [done|]. intros Hdiv. rewrite Hn.
  pose proof (Z.div_mod (meta_block_size t) (clean_entry_size t)) as Hdm.
  rewrite Hdiv in Hdm.
  set (q := meta_block_size t / clean_entry_size t) in *.
  assert (Hq : meta_block_size t = clean_entry_size t * q) by lia.
  rewrite Hq.
  replace (clean_entry_size t * q - 1)
    with ((clean_entry_size t - 1) + (q - 1) * clean_entry_size t) by lia.
  rewrite Z.div_add by lia. rewrite Z.div_small by lia. lia.
Qed.
End EntriesPerBlock.

(** C8 (the code departs from the claim).  A device in the layout without
    superblock, with one metadata block of 1536 bytes (a multiple of
    [DIRECT_IO_ALIGNMENT]) that holds [floor(1536 / 24) = 64] entries.  The
    tool visits 63 slots, not 64: the inner loop of this branch tests
    [ioff < meta_block_size - clean_entry_size] where the branch with bitmaps
    tests [<=].  The first slot it visits is at byte 1536, past the block:
    the branch reads on from where the probe of the superblock left the file
    position.  None of the entries of the device is reported. *)
Theorem legacy_layout_misread :
  1536 mod DIRECT_IO_ALIGNMENT = 0
  /\ 1536 / 24 = 64
  /\ exists t' slots calls,
       process_meta 24 Inputs.c8_legacy_device Inputs.c8_legacy_tool
       = Ok (0, t', slots, calls)
       /\ length slots = 63%nat
       /\ head slots = Some (mk_slot 0 1536)
       /\ calls = [HdrFn None].
Proof.
  split; [reflexivity|]. split; [reflexivity|].
  eexists _, _, _. split; [vm_compute; reflexivity|]. split_and!; reflexivity.
Qed.

(** The same branch on two blocks of 512 bytes: [floor(512 / 24) = 21]
    entries per block are visited, but from byte 1024 on, where the probe of
    the superblock stopped reading; the entries of the device, which are at
    the bytes 0 to 1023, are not visited. *)
Lemma legacy_layout_reads_past_probe :
  exists t' slots calls,
    process_meta 24 Inputs.c8_legacy_device Inputs.c8_legacy_small_tool
    = Ok (0, t', slots, calls)
    /\ length slots = (2 * 21)%nat
    /\ Forall (fun s => 1024 <= dev_offset s) slots.
Proof.
  eexists _, _, _. split; [vm_compute; reflexivity|]. split; [reflexivity|].
  repeat constructor; simpl; lia.
Qed.

(** The layout with a superblock, on a device of two blocks of entries: records
    of [24 + 2 * 4] bytes, 128 per block of 4096 bytes, numbered on from one
    block to the next, read from the block after the superblock. *)
Lemma superblock_layout_read :
  exists t' slots calls,
    process_meta 24 Inputs.c8_device Inputs.c8_tool = Ok (0, t', slots, calls)
    /\ clean_entry_size t' = 24 + 2 * 4
    /\ length slots = (2 * 128)%nat
    /\ head slots = Some (mk_slot 0 4096)
    /\ slots !! 128%nat = Some (mk_slot 128 8192)
    /\ head calls = Some (HdrFn (Some Inputs.c8_superblock)).
Proof.
  eexists _, _, _. split; [vm_compute; reflexivity|]. split_and!; reflexivity.
Qed.
End DiskToolProps.

(** ** Further properties of the sync chain *)
Module SyncChain.
Import Sync SyncProps SyncNotions.

Lemma nodes_after_split p before rest :
  p ∉ before -> nodes_after p (before ++ p :: rest) = Some rest.
Proof.
  induction before as [|n before IH]; intros Hnot; simpl.
  - by rewrite decide_True.
  - apply not_elem_of_cons in Hnot as [Hne Hnot].
    rewrite decide_False by done. by apply IH.
Qed.

Lemma erase_node_split p before rest :
  p ∉ before -> erase_node p (before ++ p :: rest) = before ++ rest.
Proof.
  induction before as [|n before IH]; intros Hnot; simpl.
  - by rewrite decide_True.
  - apply not_elem_of_cons in Hnot as [Hne Hnot].
    rewrite decide_False by done. f_equal. by apply IH.
Qed.

(** The loop of [ack_sync] when no successor becomes ready: every successor
    has one predecessor less, and nothing else changes. *)
Lemma ack_successors_none_ready rest : forall b,
  NoDup rest -> none_ready b rest ->
  exists b1,
    ack_successors rest 1 b = Ok (1, b1)
    /\ acks b1 = acks b
    /\ in_progress_syncs b1 = in_progress_syncs b
    /\ unsynced_big_writes b1 = unsynced_big_writes b
    /\ unsynced_small_writes b1 = unsynced_small_writes b
    /\ dirty_db b1 = dirty_db b
    /\ journal b1 = journal b
    /\ ring_space b1 = ring_space b
    /\ (forall n o, n ∈ rest -> ops b !! n = Some o ->
          ops b1 !! n = Some (released o))
    /\ (forall n, n ∉ rest -> ops b1 !! n = ops b !! n).
Proof.
  induction rest as [|n rest IH]; intros b Hnd Hnone; simpl.
  - exists b. split_and!; try done. by intros n o ?%elem_of_nil.
  - apply NoDup_cons in Hnd as [Hn Hnd].
    apply Forall_cons in Hnone as [(o & Ho & Hnot) Hnone].
    unfold deref. rewrite Ho. simpl.
    rewrite decide_False by (intros [? ?]; apply Hnot; split; [lia|done]).
    destruct (IH (store n (set_prev_sync_count (prev_sync_count o - 1) o) b))
      as (b1 & Hrun & Ha & Hl & Hb & Hs & Hd & Hj & Hr & Hin & Hout);
      [done| |].
    { apply Forall_forall. intros m Hm. rewrite Forall_forall in Hnone.
      destruct (Hnone m Hm) as (om & Hom & Hnm). exists om. split; [|done].
      unfold store. simpl. rewrite lookup_insert_ne; [done|].
      intros ->. done. }
    exists b1. split; [done|]. simpl in *. split_and!; try done.
    + intros m om [->|Hm]%elem_of_cons Hom.
      * rewrite Hout by done. rewrite lookup_insert_eq.
        rewrite Ho in Hom. by injection Hom as <-.
      * apply Hin; [done|]. rewrite lookup_insert_ne; [done|].
        intros ->. done.
    + intros m [Hne Hm]%not_elem_of_cons. rewrite Hout by done.
      by rewrite lookup_insert_ne.
Qed.

(** X1.  [ack_sync] on a sync that is DONE and has no predecessor left, when
    no later sync of [in_progress_syncs] becomes ready by it (none is DONE
    with [prev_sync_count] 1): it returns 1, calls the callback of this sync
    alone, with [retval] 0, removes this sync alone from [in_progress_syncs],
    leaves every later sync with one predecessor less, and touches nothing
    else.  The hypothesis marks the path on which the loop erases no node:
    when a later sync is ready, the loop erases its node and goes on through
    a reference into that node. *)
Theorem ack_sync_releases_successors p o b before rest :
  NoDup (in_progress_syncs b) ->
  in_progress_syncs b = before ++ p :: rest ->
  ops b !! p = Some o -> sync_state o = SYNC_DONE -> prev_sync_count o = 0 ->
  none_ready b rest ->
  exists b',
    ack_sync p b = Ok (1, b')
    /\ acks b' = acks b ++ [(p, set_retval 0 o)]
    /\ in_progress_syncs b' = before ++ rest
    /\ ops b' !! p = Some (set_retval 0 o)
    /\ (forall n on, n ∈ rest -> ops b !! n = Some on ->
          ops b' !! n = Some (released on))
    /\ (forall n, n <> p -> n ∉ rest -> ops b' !! n = ops b !! n)
    /\ unsynced_big_writes b' = unsynced_big_writes b
    /\ unsynced_small_writes b' = unsynced_small_writes b
    /\ dirty_db b' = dirty_db b
    /\ journal b' = journal b
    /\ ring_space b' = ring_space b.
Proof.
  intros Hnd Hl Ho Hst Hprev Hnone.
  assert (Hparts : (p ∉ before) /\ (p ∉ rest) /\ NoDup rest).
  { rewrite Hl in Hnd. apply NoDup_app in Hnd as (_ & Hdis & Hnd).
    apply NoDup_cons in Hnd as [? ?]. split_and!; try done.
    intros Hin. apply (Hdis p Hin). apply elem_of_cons. by left. }
  destruct Hparts as (Hpb & Hpr & Hndr).
  destruct (ack_successors_none_ready rest b Hndr Hnone)
    as (b1 & Hrun & Ha & Hl1 & Hb & Hs & Hd & Hj & Hr & Hin & Hout).
  unfold ack_sync, deref. rewrite Ho. simpl.
  rewrite decide_True by done.
  rewrite Hl, (nodes_after_split _ _ _ Hpb), Hrun. simpl.
  unfold fire, deref. simpl. rewrite (Hout p Hpr), Ho. simpl.
  eexists. split; [reflexivity|]. simpl.
  rewrite Hl1, Hl, (erase_node_split _ _ _ Hpb), Ha.
  split_and!; try done.
  - by rewrite lookup_insert_eq.
  - intros n on Hn Hon. rewrite lookup_insert_ne by (intros ->; done).
    by apply Hin.
  - intros n Hne Hn. rewrite lookup_insert_ne by done. by apply Hout.
Qed.

Lemma ack_sync_releases_successors_witness :
  exists b',
    ack_sync 1%nat SyncInputs.waiting_chain = Ok (1, b')
    /\ acks b' = acks SyncInputs.waiting_chain
                 ++ [(1%nat, set_retval 0 (SyncInputs.done_sync 0))]
    /\ in_progress_syncs b' = [] ++ [2%nat]
    /\ ops b' !! 1%nat = Some (set_retval 0 (SyncInputs.done_sync 0))
    /\ (forall n on, n ∈ [2%nat] -> ops SyncInputs.waiting_chain !! n = Some on ->
          ops b' !! n = Some (released on))
    /\ (forall n, n <> 1%nat -> n ∉ [2%nat] ->
          ops b' !! n = ops SyncInputs.waiting_chain !! n)
    /\ unsynced_big_writes b' = unsynced_big_writes SyncInputs.waiting_chain
    /\ unsynced_small_writes b' = unsynced_small_writes SyncInputs.waiting_chain
    /\ dirty_db b' = dirty_db SyncInputs.waiting_chain
    /\ journal b' = journal SyncInputs.waiting_chain
    /\ ring_space b' = ring_space SyncInputs.waiting_chain.
Proof.
  apply (ack_sync_releases_successors 1%nat (SyncInputs.done_sync 0)
           SyncInputs.waiting_chain [] [2%nat]); try reflexivity.
  - simpl. apply NoDup_cons. split; [|apply NoDup_singleton].
    intros Hin. apply list_elem_of_singleton in Hin. discriminate.
  - constructor; [|constructor]. exists SyncInputs.waiting_sync.
    split; [reflexivity|]. intros [_ Hst]. discriminate Hst.
Defined.

Section Dispatching.
Variable check_available : blockstore -> Z -> Z + Z.
Variable prefill : journal_t -> journal_t.
Variable crc : journal_entry_big_write -> Z.
Variable prepare : journal_t -> journal_t.


(** X2.  A SYNC dispatched for the first time over small writes only, with a
    free submission slot: it takes the unsynced small writes, uses one slot
    for the journal fsync and joins [in_progress_syncs] behind the syncs
    already there, without any callback.  When its request completes, the
    small writes are J_SYNCED; the callback fires, once and with [retval] 0,
    if no sync was in progress before it, and otherwise the sync stays in
    the list unacknowledged. *)
Theorem small_sync_lifecycle p b o res :
  ops b !! p = Some o -> sync_state o = 0 -> min_used_journal_sector o = 0 ->
  unsynced_big_writes b = [] -> unsynced_small_writes b <> [] ->
  (0 < ring_space b)%nat -> 0 <= res ->
  exists b1 b2 o2,
    dequeue_sync check_available prefill crc prepare p b = Ok (1, b1)
    /\ acks b1 = acks b
    /\ in_progress_syncs b1 = in_progress_syncs b ++ [p]
    /\ unsynced_small_writes b1 = []
    /\ S (ring_space b1) = ring_space b
    /\ handle_sync_event res p b1 = Ok b2
    /\ ops b2 !! p = Some o2
    /\ sync_state o2 = SYNC_DONE
    /\ sync_small_writes o2 = unsynced_small_writes b
    /\ (forall k, k ∈ unsynced_small_writes b ->
          state <$> dirty_db b2 !! k = Some ST_J_SYNCED)
    /\ (in_progress_syncs b = [] ->
          acks b2 = acks b ++ [(p, o2)] /\ acked_ok (p, o2)
          /\ in_progress_syncs b2 = [])
    /\ (in_progress_syncs b <> [] ->
          acks b2 = acks b
          /\ in_progress_syncs b2 = in_progress_syncs b ++ [p]).
Proof.
  intros Ho Hst Hmin Hbig Hsmall Hring Hres.
  destruct (ring_space b) as [|n] eqn:Hn; [lia|].
  destruct (unsynced_small_writes b) as [|w ws] eqn:Hws; [done|].
  set (o1 := set_prev_sync_count (Z.of_nat (length (in_progress_syncs b)))
               (set_sync_state SYNC_JOURNAL_SYNC_SENT
                  (set_pending_ops 1
                     (set_sync_state SYNC_HAS_SMALL
                        (set_sync_lists [] (w :: ws) o))))).
  set (b1 := set_in_progress_syncs (in_progress_syncs b ++ [p])
               (store p o1 (set_ring_space n (set_unsynced [] [] b)))).
  assert (Hfirst : dequeue_sync check_available prefill crc prepare p b = Ok (1, b1)).
  { unfold dequeue_sync, deref. rewrite Ho. simpl. rewrite Hst. simpl.
    unfold continue_sync, deref, capture. simpl.
    rewrite Hbig, Hws. simpl. rewrite lookup_insert_eq. simpl.
    unfold get_sqe. simpl. rewrite Hn. simpl.
    unfold ack_sync, deref. simpl. rewrite lookup_insert_eq. simpl.
    unfold store. simpl. rewrite lookup_insert_eq. simpl.
    unfold b1, o1, store. simpl. rewrite !insert_insert_eq. reflexivity. }
  set (o2 := set_sync_state SYNC_DONE (set_pending_ops 0 o1)).
  set (db := mark_all ST_J_SYNCED (w :: ws) (dirty_db b)).
  destruct (in_progress_syncs b) as [|q qs] eqn:Hq.
  - exists b1. eexists. exists (set_retval 0 o2).
    split_and!; try done.
    + unfold handle_sync_event. rewrite decide_False by lia.
      unfold deref, b1. simpl. rewrite lookup_insert_eq. simpl.
      rewrite Hmin. simpl.
      unfold ack_sync, deref. simpl. rewrite lookup_insert_eq. simpl.
      rewrite decide_True by done. simpl.
      unfold fire, deref. simpl. rewrite lookup_insert_eq. simpl. reflexivity.
    + simpl. by rewrite lookup_insert_eq.
    + intros k Hk.
      eapply (journal_sync_completion_marks res p b1 o1); try done.
      * unfold b1. simpl. by rewrite lookup_insert_eq.
      * unfold handle_sync_event. rewrite decide_False by lia.
        unfold deref, b1. simpl. rewrite lookup_insert_eq. simpl.
        rewrite Hmin. simpl.
        unfold ack_sync, deref. simpl. rewrite lookup_insert_eq. simpl.
        rewrite decide_True by done. simpl.
        unfold fire, deref. simpl. rewrite lookup_insert_eq. simpl. reflexivity.
    + intros _. simpl. split_and!; try done.
      by rewrite decide_True.
  - exists b1. eexists. exists o2.
    split_and!; try done.
    + unfold handle_sync_event. rewrite decide_False by lia.
      unfold deref, b1. simpl. rewrite lookup_insert_eq. simpl.
      rewrite Hmin. simpl.
      unfold ack_sync, deref. simpl. rewrite lookup_insert_eq. simpl.
      reflexivity.
    + simpl. by rewrite lookup_insert_eq.
    + intros k Hk.
      eapply (journal_sync_completion_marks res p b1 o1); try done.
      * unfold b1. simpl. by rewrite lookup_insert_eq.
      * unfold handle_sync_event. rewrite decide_False by lia.
        unfold deref, b1. simpl. rewrite lookup_insert_eq. simpl.
        rewrite Hmin. simpl.
        unfold ack_sync, deref. simpl. rewrite lookup_insert_eq. simpl.
        reflexivity.
    + done.
Qed.

(** X3.  A SYNC dispatched for the first time while the ring is full: the
    handler returns 0 and the operation waits for a submission slot, but the
    unsynced writes were already moved to the operation.  When it is
    dispatched again it goes on with those writes and does not take the
    writes that became unsynced in between: they stay for the next SYNC. *)
Theorem capture_happens_once p b o :
  ops b !! p = Some o -> sync_state o = 0 ->
  unsynced_big_writes b <> [] \/ unsynced_small_writes b <> [] ->
  ring_space b = 0%nat ->
  exists b1 o1,
    dequeue_sync check_available prefill crc prepare p b = Ok (0, b1)
    /\ ops b1 !! p = Some o1
    /\ wait_for o1 = WAIT_SQE
    /\ sync_big_writes o1 = unsynced_big_writes b
    /\ sync_small_writes o1 = unsynced_small_writes b
    /\ unsynced_big_writes b1 = [] /\ unsynced_small_writes b1 = []
    /\ in_progress_syncs b1 = in_progress_syncs b
    /\ acks b1 = acks b
    /\ forall big' small' n,
         exists b2 o2,
           dequeue_sync check_available prefill crc prepare p
             (set_ring_space (S n) (set_unsynced big' small' b1)) = Ok (1, b2)
           /\ ops b2 !! p = Some o2
           /\ sync_big_writes o2 = unsynced_big_writes b
           /\ sync_small_writes o2 = unsynced_small_writes b
           /\ pending_ops o2 = 1
           /\ unsynced_big_writes b2 = big'
           /\ unsynced_small_writes b2 = small'
           /\ in_progress_syncs b2 = in_progress_syncs b ++ [p]
           /\ acks b2 = acks b.
Proof.
  intros Ho Hst Hsome Hring.
  assert (Hcases : exists st,
             (if decide (0 < Z.of_nat (length (unsynced_big_writes b)))
              then SYNC_HAS_BIG
              else if decide (0 < Z.of_nat (length (unsynced_small_writes b)))
                   then SYNC_HAS_SMALL else SYNC_DONE) = st
             /\ (st = SYNC_HAS_BIG \/ st = SYNC_HAS_SMALL)).
  { destruct (unsynced_big_writes b) as [|x xs]; simpl.
    - destruct (unsynced_small_writes b) as [|y ys]; simpl.
      + destruct Hsome; done.
      + eexists. split; [reflexivity|]. by right.
    - eexists. split; [reflexivity|]. by left. }
  destruct Hcases as (st & Est & Hcase).
  set (oc := set_sync_state st
               (set_sync_lists (unsynced_big_writes b)
                               (unsynced_small_writes b) o)).
  assert (Hfirst : dequeue_sync check_available prefill crc prepare p b
                   = Ok (0, store p (set_wait_for WAIT_SQE oc)
                              (store p oc (set_unsynced [] [] b)))).
  { unfold dequeue_sync, deref. rewrite Ho. simpl. rewrite Hst. simpl.
    unfold capture. rewrite Est. fold oc.
    unfold continue_sync, deref. simpl. rewrite lookup_insert_eq. simpl.
    unfold get_sqe. simpl. rewrite Hring.
    destruct Hcase as [-> | ->]; reflexivity. }
  eexists _, _. split; [exact Hfirst|].
  split; [simpl; by rewrite lookup_insert_eq|].
  split_and!; try done.
  intros big' small' n.
  unfold dequeue_sync, deref. simpl. rewrite lookup_insert_eq. simpl.
  assert (st <> 0) as Hne by (destruct Hcase as [-> | ->]; done).
  rewrite decide_False by done.
  unfold continue_sync, deref. simpl. rewrite lookup_insert_eq. simpl.
  unfold get_sqe. simpl.
  destruct Hcase as [-> | ->]; simpl.
  - unfold ack_sync, deref. simpl. rewrite lookup_insert_eq. simpl.
    rewrite lookup_insert_eq. eexists _, _. split; [reflexivity|].
    simpl. rewrite lookup_insert_eq. split_and!; done.
  - unfold ack_sync, deref. simpl. rewrite lookup_insert_eq. simpl.
    rewrite lookup_insert_eq. eexists _, _. split; [reflexivity|].
    simpl. rewrite lookup_insert_eq. split_and!; done.
Qed.


Lemma dirty_at_touch db k k' :
  dirty_at (<[k := dirty_at db k]> db) k' = dirty_at db k'.
Proof.
  unfold dirty_at. destruct (decide (k = k')) as [->|Hne].
  - by rewrite lookup_insert_eq.
  - by rewrite lookup_insert_ne.
Qed.

Lemma mark_all_location st ks : forall db k,
  location (dirty_at (mark_all st ks db) k) = location (dirty_at db k).
Proof.
  unfold mark_all. induction ks as [|x ks IH]; intros db k; simpl; [done|].
  rewrite IH. unfold dirty_at at 1.
  destruct (decide (x = k)) as [->|Hne].
  - by rewrite lookup_insert_eq.
  - by rewrite lookup_insert_ne.
Qed.

Lemma get_sqes_enough n : forall b,
  (n <= ring_space b)%nat ->
  get_sqes n b = Some (set_ring_space (ring_space b - n) b).
Proof.
  induction n as [|n IH]; intros b Hn; simpl.
  - rewrite Nat.sub_0_r. by destruct b.
  - unfold get_sqe. destruct (ring_space b) as [|m] eqn:Hm; [lia|].
    rewrite IH by (simpl; lia). reflexivity.
Qed.

Hypothesis Hprefill : forall j, written (prefill j) = written j.
Hypothesis Hprepare : forall j, written (prepare j) = written j.

(** The loop of [continue_sync] over the big writes appends one entry per
    write, in order, and submits at most one sector write per entry. *)
Lemma write_big_entries_log its : forall db j o s cur db' j' o' s',
  write_big_entries prefill crc prepare its db j o s cur = (db', j', o', s') ->
  written j' = written j ++ (big_write_entry crc db <$> its)
  /\ s <= s' <= s + Z.of_nat (length its)
  /\ (forall k, dirty_at db' k = dirty_at db k)
  /\ sync_big_writes o' = sync_big_writes o
  /\ sync_small_writes o' = sync_small_writes o
  /\ prev_sync_count o' = prev_sync_count o
  /\ retval o' = retval o /\ wait_for o' = wait_for o.
Proof.
  induction its as [|it its IH]; intros db j o s cur db' j' o' s' Hrun;
    simpl in Hrun.
  - injection Hrun as <- <- <- <-. rewrite app_nil_r. split_and!; try done; lia.
  - case_decide as Hcur.
    + apply IH in Hrun as (Hw & Hs & Hdb & Hb & Hsm & Hp & Hr & Hwf).
      split_and!.
      * rewrite Hw, Hprepare. simpl. rewrite Hprefill, <- app_assoc. simpl.
        do 2 f_equal. apply list_fmap_ext. intros _ x _.
        unfold big_write_entry. by rewrite !dirty_at_touch.
      * simpl. lia.
      * simpl. lia.
      * intros k. by rewrite Hdb, dirty_at_touch.
      * rewrite Hb. by case_decide.
      * rewrite Hsm. by case_decide.
      * rewrite Hp. by case_decide.
      * rewrite Hr. by case_decide.
      * rewrite Hwf. by case_decide.
    + apply IH in Hrun as (Hw & Hs & Hdb & Hb & Hsm & Hp & Hr & Hwf).
      split_and!; try done.
      * rewrite Hw. simpl. rewrite Hprefill, <- app_assoc. simpl.
        do 2 f_equal. apply list_fmap_ext. intros _ x _.
        unfold big_write_entry. by rewrite !dirty_at_touch.
      * simpl. lia.
      * simpl. lia.
      * intros k. by rewrite Hdb, dirty_at_touch.
Qed.

(** X6.  The two steps of a SYNC over big writes between its fsyncs.  When
    the data fsync completes, the captured big writes are D_SYNCED, the sync
    is in state DATA-SYNC-DONE and nothing is acknowledged.  When
    [continue_sync] then finds journal space and submission slots, it appends
    to the journal one BIG_WRITE entry per captured write, in the order of
    the capture, each with the object, the version and the location of the
    write; it waits for one fsync and at most one sector write per entry, and
    [max_used_journal_sector] is the current sector plus one. *)
Theorem big_sync_journal_entries res p b o :
  0 <= res -> ops b !! p = Some o ->
  sync_state o = SYNC_DATA_SYNC_SENT -> pending_ops o = 1 ->
  min_used_journal_sector o = 0 ->
  exists b1 o1,
    handle_sync_event res p b = Ok b1
    /\ ops b1 !! p = Some o1
    /\ sync_state o1 = SYNC_DATA_SYNC_DONE
    /\ acks b1 = acks b
    /\ in_progress_syncs b1 = in_progress_syncs b
    /\ (forall k, k ∈ sync_big_writes o ->
          state <$> dirty_db b1 !! k = Some ST_D_SYNCED)
    /\ forall sectors,
         check_available b1 (Z.of_nat (length (sync_big_writes o)))
           = inr sectors ->
         0 <= sectors -> sectors + 1 <= Z.of_nat (ring_space b) ->
         exists b2 o2,
           continue_sync check_available prefill crc prepare p b1 = Ok (1, b2)
           /\ ops b2 !! p = Some o2
           /\ sync_state o2 = SYNC_JOURNAL_SYNC_SENT
           /\ sync_big_writes o2 = sync_big_writes o
           /\ written (journal b2)
              = written (journal b)
                ++ (big_write_entry crc (dirty_db b) <$> sync_big_writes o)
           /\ 1 <= pending_ops o2 <= 1 + Z.of_nat (length (sync_big_writes o))
           /\ max_used_journal_sector o2 = 1 + cur_sector (journal b2)
           /\ Z.of_nat (ring_space b2) + sectors + 1 = Z.of_nat (ring_space b)
           /\ acks b2 = acks b.
Proof.
  intros Hres Ho Hst Hpend Hmin.
  set (o1 := set_sync_state SYNC_DATA_SYNC_DONE (set_pending_ops 0 o)).
  set (db1 := mark_all ST_D_SYNCED (sync_big_writes o) (dirty_db b)).
  set (b1 := store p o1 (set_dirty_db db1 (set_journal (journal b) b))).
  assert (Hev : handle_sync_event res p b = Ok b1).
  { unfold handle_sync_event. rewrite decide_False by lia.
    unfold deref. rewrite Ho. simpl. rewrite Hpend. simpl.
    rewrite Hmin. simpl. rewrite Hst. simpl.
    unfold ack_sync, deref. simpl. rewrite lookup_insert_eq. simpl.
    reflexivity. }
  exists b1, o1. split; [done|].
  split; [simpl; by rewrite lookup_insert_eq|].
  split_and!; try done.
  { intros k Hk. simpl. by apply mark_all_state. }
  intros sectors Hca Hsec Hroom.
  unfold continue_sync, deref. simpl. rewrite lookup_insert_eq. simpl.
  fold db1 o1. fold b1. rewrite Hca.
  rewrite get_sqes_enough by (simpl; lia).
  cbn [dirty_db journal set_ring_space b1 store set_ops set_dirty_db set_journal].
  destruct (write_big_entries prefill crc prepare (sync_big_writes o)
              db1 (journal b) o1 0 (-1)) as [[[db' j'] o'] s'] eqn:Hw.
  apply write_big_entries_log in Hw as (Hlog & Hs & Hdb & Hb & _).
  eexists _, _. split; [reflexivity|].
  split; [simpl; by rewrite lookup_insert_eq|].
  simpl. split_and!; try done; try lia.
  rewrite Hlog. f_equal. apply list_fmap_ext. intros _ x _.
  unfold big_write_entry, db1. by rewrite !mark_all_location.
Qed.

End Dispatching.

Lemma small_sync_lifecycle_witness :
  exists b1 b2 o2,
    dequeue_sync Inputs.room_for_all Inputs.same_sector Inputs.no_crc
                 Inputs.same_sector 1%nat (SyncInputs.small_pending 8)
    = Ok (1, b1)
    /\ acks b1 = []
    /\ in_progress_syncs b1 = [1%nat]
    /\ unsynced_small_writes b1 = []
    /\ S (ring_space b1) = 8%nat
    /\ handle_sync_event 0 1%nat b1 = Ok b2
    /\ ops b2 !! 1%nat = Some o2
    /\ sync_state o2 = SYNC_DONE
    /\ acks b2 = [(1%nat, o2)] /\ acked_ok (1%nat, o2)
    /\ in_progress_syncs b2 = [].
Proof.
  destruct (small_sync_lifecycle Inputs.room_for_all Inputs.same_sector
              Inputs.no_crc Inputs.same_sector 1%nat
              (SyncInputs.small_pending 8) SyncInputs.fresh_sync 0)
    as (b1 & b2 & o2 & H1 & H2 & H3 & H4 & H5 & H6 & H7 & H8 & _ & _ & H9 & _);
    try reflexivity; try done; try (simpl; lia).
  destruct (H9 eq_refl) as (Ha & Hb & Hc).
  exists b1, b2, o2. split_and!; done.
Defined.

Lemma capture_happens_once_witness :
  exists b1 o1,
    dequeue_sync Inputs.room_for_all Inputs.same_sector Inputs.no_crc
                 Inputs.same_sector 1%nat (SyncInputs.small_pending 0)
    = Ok (0, b1)
    /\ ops b1 !! 1%nat = Some o1
    /\ wait_for o1 = WAIT_SQE
    /\ sync_small_writes o1 = [mk_ov (mk_oid 2 0) 1]
    /\ unsynced_small_writes b1 = []
    /\ exists b2 o2,
         dequeue_sync Inputs.room_for_all Inputs.same_sector Inputs.no_crc
           Inputs.same_sector 1%nat
           (set_ring_space 1 (set_unsynced [] [mk_ov (mk_oid 3 0) 1] b1))
         = Ok (1, b2)
         /\ ops b2 !! 1%nat = Some o2
         /\ sync_small_writes o2 = [mk_ov (mk_oid 2 0) 1]
         /\ unsynced_small_writes b2 = [mk_ov (mk_oid 3 0) 1].
Proof.
  destruct (capture_happens_once Inputs.room_for_all Inputs.same_sector
              Inputs.no_crc Inputs.same_sector 1%nat
              (SyncInputs.small_pending 0) SyncInputs.fresh_sync)
    as (b1 & o1 & H1 & H2 & H3 & _ & H5 & _ & H7 & _ & _ & Hretry);
    try reflexivity; [right; done|].
  destruct (Hretry [] [mk_ov (mk_oid 3 0) 1] 0%nat)
    as (b2 & o2 & R1 & R2 & _ & R4 & _ & _ & R7 & _).
  exists b1, o1. split_and!; try done.
  exists b2, o2. split_and!; done.
Defined.

Lemma big_sync_journal_entries_witness :
  exists b1 o1,
    handle_sync_event 0 1%nat SyncInputs.data_sync_engine = Ok b1
    /\ ops b1 !! 1%nat = Some o1
    /\ sync_state o1 = SYNC_DATA_SYNC_DONE
    /\ acks b1 = []
    /\ state <$> dirty_db b1 !! mk_ov (mk_oid 1 0) 1 = Some ST_D_SYNCED
    /\ exists b2 o2,
         continue_sync Inputs.room_for_all Inputs.same_sector Inputs.no_crc
                       Inputs.same_sector 1%nat b1 = Ok (1, b2)
         /\ ops b2 !! 1%nat = Some o2
         /\ sync_state o2 = SYNC_JOURNAL_SYNC_SENT
         /\ written (journal b2) = [mk_je (mk_oid 1 0) 1 7 0].
Proof.
  destruct (big_sync_journal_entries Inputs.room_for_all Inputs.same_sector
              Inputs.no_crc Inputs.same_sector (fun j => eq_refl)
              (fun j => eq_refl) 0 1%nat SyncInputs.data_sync_engine
              SyncInputs.data_sync_sent)
    as (b1 & o1 & H1 & H2 & H3 & H4 & _ & H6 & Hnext);
    try reflexivity; try lia.
  destruct (Hnext 1) as (b2 & o2 & N1 & N2 & N3 & _ & N5 & _);
    [reflexivity|lia|simpl; lia|].
  exists b1, o1. split_and!; try done.
  - apply H6. simpl. left.
  - exists b2, o2. split_and!; done.
Defined.

Lemma set_pending_same o : set_pending_ops (pending_ops o) o = o.
Proof. by destruct o. Qed.

Lemma store_same p o b : ops b !! p = Some o -> store p o b = b.
Proof. intros Ho. unfold store. rewrite insert_id by done. by destruct b. Qed.

Lemma store_store p o o' b : store p o (store p o' b) = store p o b.
Proof. unfold store. simpl. by rewrite insert_insert_eq. Qed.

(** X4.  A sync is acknowledged only by the completion of the last of its
    pending requests: as long as fewer completions arrived than
    [pending_ops], each of them only counts [pending_ops] down; no callback
    fires, no dirty entry changes state, no journal sector is released and
    [in_progress_syncs] keeps its contents. *)
Theorem sync_counts_completions (rs : list Z) : forall p b o,
  ops b !! p = Some o ->
  Forall (fun r => 0 <= r) rs ->
  Z.of_nat (length rs) < pending_ops o ->
  foldl (fun acc r => acc ≫= handle_sync_event r p) (Ok b) rs
  = Ok (store p (set_pending_ops (pending_ops o - Z.of_nat (length rs)) o) b).
Proof.
  induction rs as [|r rs IH]; intros p b o Ho Hrs Hlen.
  - simpl. rewrite Z.sub_0_r, set_pending_same. by rewrite store_same.
  - apply Forall_cons in Hrs as [Hr Hrs]. simpl in Hlen.
    cbn [foldl]. 
    assert (Hstep : Ok b ≫= handle_sync_event r p
                    = Ok (store p (set_pending_ops (pending_ops o - 1) o) b)).
    { simpl. unfold handle_sync_event. rewrite decide_False by lia.
      unfold deref. rewrite Ho. simpl. rewrite decide_False by lia. done. }
    rewrite Hstep.
    rewrite (IH p _ (set_pending_ops (pending_ops o - 1) o)); try done.
    + rewrite store_store. do 2 f_equal.
      unfold set_pending_ops. cbn [pending_ops sync_state sync_big_writes
        sync_small_writes prev_sync_count min_used_journal_sector
        max_used_journal_sector retval wait_for length].
      f_equal. lia.
    + simpl. by rewrite lookup_insert_eq.
    + simpl. lia.
Qed.


Lemma release_sector_count i j j' :
  release_sector i j = Ok j' -> sector_count j' = sector_count j.
Proof.
  unfold release_sector. case_decide; [|done].
  destruct (usage_count j !! Z.to_nat i); [|done]. by intros [= <-].
Qed.

(** Once the loop variable is past [hi] it can only reach [hi] again through
    0, and at 0 the loop reads [sector_info[-1]]. *)
Lemma release_loop_wrapped fuel : forall s hi j,
  1 <= hi -> (hi < s < sector_count j \/ s = 0) ->
  exists w, release_loop fuel s hi j = Undef w.
Proof.
  induction fuel as [|fuel IH]; intros s hi j Hhi Hs; simpl.
  - rewrite decide_False by lia. eauto.
  - rewrite decide_False by lia.
    destruct (release_sector (s - 1) j) as [j1|w|w] eqn:E; simpl; eauto.
    + destruct Hs as [Hs| ->].
      * rewrite decide_False by lia.
        pose proof (release_sector_count _ _ _ E) as Hsc. rewrite <- Hsc.
        apply IH; [done|]. rewrite Hsc.
        destruct (decide (s + 1 = sector_count j)) as [Heq|Hne].
        -- right. rewrite Heq. apply Z.mod_same. lia.
        -- left. rewrite Z.mod_small by lia. lia.
      * unfold release_sector in E. rewrite decide_False in E by lia. done.
    + unfold release_sector in E. case_decide; [|done].
      by destruct (usage_count j !! Z.to_nat (s - 1)).
Qed.

Lemma sync_counts_completions_witness :
  foldl (fun acc r => acc ≫= handle_sync_event r 1%nat)
        (Ok SyncInputs.three_pending) [0; 0]
  = Ok (store 1%nat
          (Sync.mk_op Sync.SYNC_JOURNAL_SYNC_SENT [mk_ov (mk_oid 1 0) 1] []
                      0 1 0 0 0 0)
          SyncInputs.three_pending).
Proof.
  apply (sync_counts_completions [0; 0] 1%nat SyncInputs.three_pending
           (Sync.mk_op Sync.SYNC_JOURNAL_SYNC_SENT [mk_ov (mk_oid 1 0) 1] []
                       0 3 0 0 0 0)).
  - reflexivity.
  - repeat constructor; lia.
  - simpl. lia.
Defined.

#[local] Arguments release_loop : simpl never.

(** X5.  When the journal sectors of a sync wrapped around the end of the
    journal ([max_used_journal_sector] below [min_used_journal_sector]), the
    completion of its last request does not release them: the release loop
    steps from [sector_count - 1] to 0 and reads [sector_info[-1]], outside the
    array, before it can reach [max_used_journal_sector]. *)
Theorem wrapped_sector_range_out_of_bounds res p b o :
  0 <= res -> ops b !! p = Some o -> pending_ops o = 1 ->
  1 <= max_used_journal_sector o ->
  max_used_journal_sector o < min_used_journal_sector o ->
  min_used_journal_sector o < sector_count (journal b) ->
  exists w, handle_sync_event res p b = Undef w.
Proof.
  intros Hres Ho Hpend Hmax Hlt Hmin.
  unfold handle_sync_event. rewrite decide_False by lia.
  unfold deref. rewrite Ho. simpl. rewrite Hpend. simpl.
  rewrite decide_True by lia.
  destruct (release_loop_wrapped (release_fuel (journal b))
              (min_used_journal_sector o) (max_used_journal_sector o)
              (journal b)) as [w Hw]; [done|lia|].
  rewrite Hw. simpl. eauto.
Qed.

Lemma wrapped_sector_range_out_of_bounds_witness :
  exists w, handle_sync_event 0 1%nat SyncInputs.wrapped_engine = Undef w.
Proof.
  apply (wrapped_sector_range_out_of_bounds 0 1%nat SyncInputs.wrapped_engine
           SyncInputs.wrapped_sync); try reflexivity; simpl; lia.
Defined.

End SyncChain.

(** ** Further properties of LIST *)
Module ListMore.
Import Impl ListProps ListNotions.

(** X7.  [replace_stable] on a part of the list that is strictly ordered by
    object and lies within the list: it never reads outside the list, it
    returns true exactly when the part holds an entry of the object, and it
    then sets the version of that entry and changes nothing else; otherwise
    the list is unchanged. *)
Theorem replace_stable_search o v s e l :
  sorted_range l s e -> (e <= length l)%nat ->
  exists r l',
    replace_stable o v s e l = Some (r, l')
    /\ (r = true <-> exists i x, (s <= i < e)%nat /\ l !! i = Some x /\ oid x = o)
    /\ (r = false -> l' = l)
    /\ (r = true -> exists pos x, (s <= pos < e)%nat /\ l !! pos = Some x
                      /\ oid x = o /\ l' = <[pos := mk_ov o v]> l
                      /\ forall i y, (s <= i < e)%nat -> l !! i = Some y ->
                           oid y = o -> i = pos).
Proof.
  intros Hsorted Hlen.
  destruct (replace_stable_total o v s e l Hlen) as [[r l'] Hrun].
  exists r, l'. split; [done|].
  destruct (replace_stable_effect _ _ _ _ _ _ _ Hrun)
    as [[-> ->]|(-> & pos & x & Hpos & Hx & Hox & ->)].
  - split; [|done]. split; [done|].
    intros (i & x & Hi & Hx & Hox). exfalso.
    by apply (replace_stable_complete _ _ _ _ _ _ Hsorted Hrun i x).
  - split; [|split; [done|]].
    + split; [|done]. intros _. by exists pos, x.
    + intros _. exists pos, x. split_and!; try done; try lia.
      intros i y Hi Hy Hoy.
      destruct (decide (i = pos)) as [|Hne]; [done|]. exfalso.
      assert (oid_lt (oid y) (oid x) = true \/ oid_lt (oid x) (oid y) = true)
        as Hlt.
      { destruct (decide (i < pos)%nat).
        - left. apply (Hsorted i pos); try done; lia.
        - right. apply (Hsorted pos i); try done; lia. }
      rewrite Hoy, Hox, oid_lt_irrefl in Hlt. by destruct Hlt.
Qed.

Lemma replace_stable_search_witness :
  exists r l',
    replace_stable (mk_oid 2 0) 9 0 3 ListInputs.three_entries = Some (r, l')
    /\ (r = true <-> exists i x, (0 <= i < 3)%nat
                      /\ ListInputs.three_entries !! i = Some x
                      /\ oid x = mk_oid 2 0)
    /\ (r = false -> l' = ListInputs.three_entries)
    /\ (r = true -> exists pos x, (0 <= pos < 3)%nat
                      /\ ListInputs.three_entries !! pos = Some x
                      /\ oid x = mk_oid 2 0
                      /\ l' = <[pos := mk_ov (mk_oid 2 0) 9]> ListInputs.three_entries
                      /\ forall i y, (0 <= i < 3)%nat ->
                           ListInputs.three_entries !! i = Some y ->
                           oid y = mk_oid 2 0 -> i = pos).
Proof.
  apply (replace_stable_search (mk_oid 2 0) 9 0 3 ListInputs.three_entries).
  - intros i j x y Hs Hij Hje Hx Hy.
    destruct i as [|[|[|i]]], j as [|[|[|j]]]; simpl in Hx, Hy; try lia;
      injection Hx as <-; injection Hy as <-; reflexivity.
  - simpl. lia.
Defined.


Lemma sorted_oid_NoDup (l : list object_id) : StronglySorted Rlt l -> NoDup l.
Proof.
  induction 1 as [|x l Hs IH Hall]; [constructor|].
  constructor; [|done]. intros Hin. rewrite Forall_forall in Hall.
  specialize (Hall x Hin). unfold Rlt in Hall. by rewrite oid_lt_irrefl in Hall.
Qed.

Lemma chain_inv_NoDup csc rest O : chain_inv csc rest O -> NoDup O.
Proof.
  intros (_ & Hs1 & Hs2 & Hdis & _). rewrite <- (take_drop csc O).
  apply NoDup_app. split_and!.
  - by apply sorted_oid_NoDup.
  - intros x Hx Hx'. by apply (Hdis x Hx').
  - by apply sorted_oid_NoDup.
Qed.

Lemma filter_sublist {A} (f : A -> bool) (l : list A) :
  sublist (List.filter f l) l.
Proof.
  induction l as [|x l IH]; simpl; [constructor|].
  destruct (f x); by constructor.
Qed.

Section Order.
Variable alloc_ok : Z -> bool.
Hypothesis Halloc : forall n, alloc_ok n = true.
Variable op : blockstore_op_t.
Variable b : blockstore_impl_t.
Hypothesis Hdbs : ordered_dbs b.

Lemma dirty_loop_chain csc its : forall st,
  chain_inv csc its (oid <$> stable st) ->
  exists st', scan_loop (dirty_step alloc_ok op csc) its st = Continue st'
    /\ chain_inv csc [] (oid <$> stable st').
Proof.
  induction its as [|d its IH]; intros st Hinv; simpl.
  - by exists st.
  - destruct (dirty_step_ok alloc_ok Halloc op csc d its st Hinv)
      as (st1 & -> & Hinv1 & _).
    by apply IH.
Qed.

(** X8.  The order of the result of a LIST that passes the placement-group
    check, when memory can be had: no object has two entries in the stable
    part, and the unstable part is in strictly ascending order of (object,
    version). *)
Theorem list_result_order :
  pg_check_fails op = false ->
  exists op' l,
    list_result alloc_ok op b = Ok op' /\ buf op' = Some l
    /\ 0 <= op_version op'
    /\ NoDup (oid <$> take (Z.to_nat (op_version op')) l)
    /\ StronglySorted Rov (drop (Z.to_nat (op_version op')) l).
Proof.
  intros Hpg.
  destruct (list_scan_ok alloc_ok Halloc op b Hdbs)
    as (csc & st & Hscan & _ & Hun).
  assert (Hnd : NoDup (oid <$> stable st)).
  { revert Hscan. unfold list_scan. rewrite Halloc.
    match goal with
    | |- context [scan_loop (clean_step alloc_ok op) ?its ?st0] =>
        destruct (clean_loop_ok alloc_ok Halloc op its st0)
          as (st1 & -> & Hs1 & _)
    end.
    simpl in Hs1.
    destruct (dirty_loop_chain (length (stable st1))
                (dirty_scan op (dirty_db b)) st1) as (st2 & -> & Hinv).
    { rewrite Hs1. by apply chain_inv_start. }
    intros [= <- <-]. by eapply chain_inv_NoDup. }
  unfold list_result. rewrite Hpg, Hscan, Halloc. simpl.
  rewrite andb_false_r. eexists _, _. split; [reflexivity|]. simpl.
  split; [done|]. split; [lia|]. rewrite Nat2Z.id.
  rewrite take_app_length, drop_app_length. split.
  - eapply sublist_NoDup; [exact Hnd|]. apply fmap_sublist, filter_sublist.
  - rewrite Hun. apply sorted_filter_keys. by destruct Hdbs as (_ & ? & _).
Qed.
End Order.

Lemma list_result_order_witness :
  exists op' l,
    list_result Inputs.always_room Inputs.list_all Inputs.c7_engine = Ok op'
    /\ buf op' = Some l
    /\ 0 <= op_version op'
    /\ NoDup (oid <$> take (Z.to_nat (op_version op')) l)
    /\ StronglySorted Rov (drop (Z.to_nat (op_version op')) l).
Proof.
  apply (list_result_order Inputs.always_room (fun _ => eq_refl)
           Inputs.list_all Inputs.c7_engine inputs_ordered).
  reflexivity.
Defined.


Section Memory.
Variable alloc_ok : Z -> bool.
Variable op : blockstore_op_t.

Lemma clean_step_memory st c :
  clean_step alloc_ok op st c = NoMemory
  \/ clean_step alloc_ok op st c = clean_step unlimited op st c.
Proof.
  unfold clean_step, unlimited. destruct (in_pg op c.1); [|by right].
  destruct (stable_alloc st <=? _); [|by right].
  destruct (alloc_ok _); auto.
Qed.

Lemma dirty_step_memory csc st d :
  dirty_step alloc_ok op csc st d = NoMemory
  \/ dirty_step alloc_ok op csc st d = dirty_step unlimited op csc st d.
Proof.
  unfold dirty_step, unlimited. destruct (in_pg op (oid d.1)); [|by right].
  destruct (IS_DELETE _); [by right|].
  destruct (IS_STABLE _).
  - destruct (replace_stable _ _ _ _ _) as [[[] ?]|]; try by right.
    destruct (_ && _); [by right|].
    destruct (stable_alloc st <=? _); [|by right].
    destruct (alloc_ok _); auto.
  - destruct (unstable_alloc st <=? _); [|by right].
    destruct (alloc_ok _); auto.
Qed.

Lemma scan_loop_memory {A} (step step' : list_state -> A -> scan list_state) its :
  (forall st x, step st x = NoMemory \/ step st x = step' st x) ->
  forall st, scan_loop step its st = NoMemory
             \/ scan_loop step its st = scan_loop step' its st.
Proof.
  intros Hstep. induction its as [|x its IH]; intros st; simpl; [by right|].
  destruct (Hstep st x) as [-> | ->]; [by left|].
  destruct (step' st x); auto.
Qed.

Lemma list_scan_memory b :
  list_scan alloc_ok op b = NoMemory
  \/ list_scan alloc_ok op b = list_scan unlimited op b.
Proof.
  unfold list_scan. destruct (alloc_ok _); [|by left].
  unfold unlimited at 1.
  match goal with
  | |- context [scan_loop (clean_step alloc_ok op) ?its ?st0] =>
      destruct (scan_loop_memory (clean_step alloc_ok op)
                  (clean_step unlimited op) its clean_step_memory st0)
        as [-> | ->]; [by left|]
  end.
  destruct (scan_loop (clean_step unlimited op) _ _) as [st1| |]; auto.
  destruct (scan_loop_memory (dirty_step alloc_ok op (length (stable st1)))
              (dirty_step unlimited op (length (stable st1)))
              (dirty_scan op (dirty_db b))
              (dirty_step_memory (length (stable st1))) st1)
    as [-> | ->]; auto.
Qed.

(** X9.  Running out of memory can only make a LIST fail as a whole: for
    every behaviour of [malloc] and [realloc], the operation either ends with
    [retval = -ENOMEM] and its other fields untouched, or ends exactly as it
    does when no allocation fails.  It never returns a shortened or
    different listing. *)
Theorem list_fails_whole_on_no_memory b :
  list_result alloc_ok op b = Ok (set_retval (- ENOMEM) op)
  \/ list_result alloc_ok op b = list_result unlimited op b.
Proof.
  unfold list_result. destruct (pg_check_fails op); [by right|].
  destruct (list_scan_memory b) as [-> | ->]; [by left|].
  destruct (list_scan unlimited op b) as [[csc st]| |]; auto.
  unfold unlimited at 1. rewrite andb_false_r.
  destruct (stable_alloc st <? _); simpl; [|by right].
  destruct (alloc_ok _); simpl; auto.
Qed.
End Memory.


(** X10.  LIST by placement group partitions the objects: for a number of
    placement groups other than 0 and a stripe size that passes the check,
    every object belongs to exactly one placement group, and its number is
    below the number of groups, so that the LIST of that group, and no
    other, passes the check and selects the object. *)
Theorem placement_groups_partition (o : object_id) min_ino stripe_size max_ino pgs :
  0 < pgs -> MIN_BLOCK_SIZE <= stripe_size ->
  exists pg, 0 <= pg < pgs
    /\ pg_check_fails (Inputs.list_op min_ino stripe_size max_ino pg pgs) = false
    /\ forall pg',
         in_pg (Inputs.list_op min_ino stripe_size max_ino pg' pgs) o = true
         <-> pg' = pg.
Proof.
  intros Hpgs Hss.
  exists (wrap64 (inode o + stripe o / stripe_size) mod pgs).
  pose proof (Z.mod_pos_bound (wrap64 (inode o + stripe o / stripe_size)) pgs Hpgs).
  split; [done|]. split.
  - unfold pg_check_fails, Inputs.list_op, pg_count, pg_stripe_size, list_pg.
    simpl. lia.
  - intros pg'. unfold in_pg, Inputs.list_op, pg_count, pg_stripe_size, list_pg.
    simpl. split; [|intros ->]; lia.
Qed.

Lemma placement_groups_partition_witness :
  exists pg, 0 <= pg < 3
    /\ pg_check_fails (Inputs.list_op 0 4096 0 pg 3) = false
    /\ forall pg',
         in_pg (Inputs.list_op 0 4096 0 pg' 3) (mk_oid 7 8192) = true
         <-> pg' = pg.
Proof.
  apply (placement_groups_partition (mk_oid 7 8192) 0 4096 0 3);
    [lia | unfold MIN_BLOCK_SIZE; lia].
Defined.

End ListMore.

(** ** The exact content of a LIST *)
Module ListExact.
Import Impl ListProps ListNotions ListMore ListDecided.

Lemma deciding_app o ds1 ds2 :
  deciding o (ds1 ++ ds2) = deciding o ds1 ++ deciding o ds2.
Proof. unfold deciding. apply List.filter_app. Qed.

Lemma last_deciding_snoc o ds d :
  last (deciding o (ds ++ [d]))
  = if bool_decide (oid (fst d) = o) && decides d then Some d
    else last (deciding o ds).
Proof.
  rewrite deciding_app. unfold deciding at 2. simpl.
  destruct (bool_decide (oid d.1 = o) && decides d).
  - by rewrite last_snoc.
  - by rewrite app_nil_r.
Qed.

Lemma is_stable_write_decides d :
  is_stable_write d = true -> decides d = true /\ IS_DELETE (state (snd d)) = false.
Proof.
  unfold is_stable_write, decides.
  destruct (IS_DELETE _), (IS_STABLE _); simpl; done.
Qed.

Lemma decides_cases d :
  decides d = true ->
  IS_DELETE (state (snd d)) = true
  \/ (IS_DELETE (state (snd d)) = false /\ is_stable_write d = true).
Proof.
  unfold is_stable_write, decides.
  destruct (IS_DELETE _), (IS_STABLE _); simpl; auto.
Qed.

Lemma insert_unique (l : list obj_ver_id) pos x0 y :
  (forall i j x x', l !! i = Some x -> l !! j = Some x' -> oid x = oid x' ->
     i = j) ->
  l !! pos = Some x0 ->
  forall x, x ∈ <[pos := y]> l <-> x = y \/ (x ∈ l /\ oid x <> oid x0).
Proof.
  intros Huniq Hx0 x. pose proof (lookup_lt_Some _ _ _ Hx0) as Hlen. split.
  - intros [j Hj]%list_elem_of_lookup.
    destruct (decide (j = pos)) as [->|Hne].
    + rewrite list_lookup_insert_eq in Hj by done. left. congruence.
    + rewrite list_lookup_insert_ne in Hj by done. right.
      split; [by eapply list_elem_of_lookup_2|].
      intros Heq. apply Hne. by eapply Huniq.
  - intros [->|[[j Hj]%list_elem_of_lookup Hne]].
    + apply list_elem_of_lookup. exists pos. by apply list_lookup_insert_eq.
    + apply list_elem_of_lookup. exists j.
      rewrite list_lookup_insert_ne; [done|]. intros ->. congruence.
Qed.

Lemma has_entry_mono op clean seen d o :
  has_entry op clean seen o -> has_entry op clean (seen ++ [d]) o.
Proof.
  intros [?|(d0 & Hd0 & ?)]; [by left|]. right. exists d0.
  split; [|done]. apply elem_of_app. by left.
Qed.

(** The invariant gives an entry to every object that is to have one. *)
Lemma merge_inv_entry op clean seen l o :
  merge_inv op clean seen l -> in_pg op o = true ->
  has_entry op clean seen o -> exists y, y ∈ l /\ oid y = o.
Proof.
  intros Hinv Hpg He.
  destruct (last (deciding o seen)) as [d0|] eqn:Hlast.
  - exists (mk_ov o (decided_version d0)). split; [|done].
    apply Hinv. simpl. split; [done|]. split; [done|].
    unfold merged_as. simpl. by rewrite Hlast.
  - destruct He as [Hc|(d0 & Hd0 & Ho & Hsw)].
    + apply list_elem_of_fmap in Hc as (y & -> & Hy). exists y. split; [|done].
      apply Hinv. split; [done|]. split; [left; by apply list_elem_of_fmap_2|].
      unfold merged_as. by rewrite Hlast.
    + exfalso. apply last_None in Hlast.
      assert (d0 ∈ deciding o seen) as Hin.
      { unfold deciding. apply elem_of_filter. split; [done|].
        apply is_stable_write_decides in Hsw as [-> _].
        by rewrite bool_decide_eq_true_2. }
      rewrite Hlast in Hin. by apply elem_of_nil in Hin.
Qed.

Lemma merge_inv_step op clean seen d l l' :
  (forall i j x x', l !! i = Some x -> l !! j = Some x' -> oid x = oid x' ->
     i = j) ->
  exact_effect op d l l' ->
  merge_inv op clean seen l -> merge_inv op clean (seen ++ [d]) l'.
Proof.
  intros Huniq Heff Hinv x. unfold merged_as. rewrite last_deciding_snoc.
  unfold exact_effect in Heff.
  destruct (in_pg op (oid d.1) && decides d) eqn:Hact.
  2:{ (* the entry changes nothing *)
    subst l'. rewrite (Hinv x). unfold merged_as.
    assert (Hoff : in_pg op (oid x) = true ->
                   bool_decide (oid d.1 = oid x) && decides d = false).
    { intros Hpg. destruct (bool_decide (oid d.1 = oid x)) eqn:Hb; [|done].
      apply bool_decide_eq_true in Hb. rewrite Hb, Hpg in Hact. done. }
    split; intros (Hpg & He & Hm); rewrite (Hoff Hpg) in *;
      (split; [done|]); (split; [|done]).
    - by apply has_entry_mono.
    - destruct He as [?|(d0 & [Hd0| ->%list_elem_of_singleton]%elem_of_app & Ho & Hsw)];
        [by left|right; by exists d0|].
      apply is_stable_write_decides in Hsw as [Hdec _].
      rewrite Ho, Hpg, Hdec in Hact. done. }
  apply andb_true_iff in Hact as [Hpg Hdec].
  destruct Heff as [Hfound Hnone].
  destruct (decide (oid x = oid d.1)) as [Hox|Hox].
  - (* entries of the object of [d] *)
    rewrite bool_decide_eq_true_2 by done. rewrite Hdec. simpl.
    destruct (decide (Exists (fun y => oid y = oid d.1) l)) as [Hex|Hnex].
    + apply Exists_exists in Hex as (x0 & [pos Hx0]%list_elem_of_lookup & Hox0).
      rewrite (Hfound pos x0 Hx0 Hox0).
      rewrite (insert_unique l pos x0 _ Huniq Hx0). split.
      * intros [->|[_ Hne]]; [|congruence]. simpl.
        split; [done|]. split; [|done]. apply has_entry_mono.
        rewrite <- Hox0. apply (Hinv x0). by eapply list_elem_of_lookup_2.
      * intros (_ & _ & Hv). left. destruct x as [ox vx]. simpl in *.
        by subst.
    + assert (Hno : forall y, y ∈ l -> oid y <> oid d.1).
      { intros y Hy Hoy. apply Hnex. apply Exists_exists. by exists y. }
      assert (Hnoentry : ~ has_entry op clean seen (oid d.1)).
      { intros He.
        destruct (merge_inv_entry _ _ _ _ _ Hinv Hpg He) as (y & Hy & Hoy).
        by apply (Hno y). }
      rewrite (Hnone Hno).
      destruct (decides_cases d Hdec) as [Hdel|[Hdel Hsw]]; rewrite Hdel.
      * split; [intros Hx; by destruct (Hno x)|].
        intros (_ & He & _). exfalso. rewrite Hox in He.
        destruct He as [?|(d0 & [Hd0| ->%list_elem_of_singleton]%elem_of_app & Ho & Hsw)].
        { apply Hnoentry. by left. }
        { apply Hnoentry. right. by exists d0. }
        { unfold is_stable_write in Hsw. by rewrite Hdel in Hsw. }
      * rewrite elem_of_app, list_elem_of_singleton. split.
        { intros [Hx| ->]; [by destruct (Hno x)|].
          split; [done|]. split.
          - right. exists d. split; [|done]. apply elem_of_app. right.
            by apply list_elem_of_singleton.
          - unfold decided_version. by rewrite Hdel. }
        { intros (_ & _ & Hv). right. unfold decided_version in Hv.
          rewrite Hdel in Hv. destruct x as [ox vx], d as [[od vd] e].
          simpl in *. by subst. }
  - (* entries of other objects *)
    rewrite bool_decide_eq_false_2 by congruence. simpl.
    assert (Hmem : x ∈ l' <-> x ∈ l).
    { destruct (decide (Exists (fun y => oid y = oid d.1) l)) as [Hex|Hnex].
      - apply Exists_exists in Hex as (x0 & [pos Hx0]%list_elem_of_lookup & Hox0).
        rewrite (Hfound pos x0 Hx0 Hox0).
        rewrite (insert_unique l pos x0 _ Huniq Hx0). split.
        + intros [->|[? _]]; [simpl in Hox; done|done].
        + intros Hx. right. split; [done|congruence].
      - assert (Hno : forall y, y ∈ l -> oid y <> oid d.1).
        { intros y Hy Hoy. apply Hnex. apply Exists_exists. by exists y. }
        rewrite (Hnone Hno). destruct (IS_DELETE _); [done|].
        rewrite elem_of_app, list_elem_of_singleton. split; [|by left].
        intros [?| ->]; done. }
    rewrite Hmem, (Hinv x). unfold merged_as.
    split; intros (Hpgx & He & Hm); (split; [done|]); (split; [|done]).
    + by apply has_entry_mono.
    + destruct He as [?|(d0 & [Hd0| ->%list_elem_of_singleton]%elem_of_app & Ho & Hsw)];
        [by left|right; by exists d0|congruence].
Qed.

Section Exact.
Variable alloc_ok : Z -> bool.
Hypothesis Halloc : forall n, alloc_ok n = true.
Variable op : blockstore_op_t.

(** A stable write of the placement group leaves its key in [stable]. *)
Lemma stable_write_recorded csc st d st' :
  dirty_step alloc_ok op csc st d = Continue st' ->
  in_pg op (oid (fst d)) = true -> is_stable_write d = true ->
  fst d ∈ stable st'.
Proof.
  destruct d as [k e]. unfold dirty_step, is_stable_write. simpl fst. simpl snd.
  intros Hrun Hpg Hsw. rewrite Hpg in Hrun.
  destruct (IS_DELETE (state e)); [done|]. simpl in Hsw. rewrite Hsw in Hrun.
  destruct (replace_stable (oid k) (version k) 0 csc (stable st))
    as [[[] l1]|] eqn:Hr1; [| |done].
  - injection Hrun as <-. simpl.
    destruct (replace_stable_effect _ _ _ _ _ _ _ Hr1)
      as [[? _]|(_ & pos & x & Hpos & Hx & Hox & ->)]; [done|].
    rewrite ov_eta. apply list_elem_of_lookup. exists pos.
    apply list_lookup_insert_eq. by eapply lookup_lt_Some.
  - destruct ((0 <? length (stable st))%nat
              && bool_decide (oid <$> last (stable st) = Some (oid k)))
      eqn:Hlast.
    + injection Hrun as <-. simpl.
      apply andb_true_iff in Hlast as [Hpos Hl].
      apply Nat.ltb_lt in Hpos. apply bool_decide_eq_true in Hl.
      destruct (last (stable st)) as [x|] eqn:Hx; [|done].
      simpl in Hl. injection Hl as Hox.
      unfold set_last_version. rewrite Hx. simpl. rewrite Hox, ov_eta.
      apply list_elem_of_lookup. exists (length (stable st) - 1)%nat.
      apply list_lookup_insert_eq. lia.
    + destruct (stable_alloc st <=? _); [rewrite Halloc in Hrun|];
        injection Hrun as <-; simpl; apply elem_of_app; right;
        by apply list_elem_of_singleton.
Qed.

Lemma dirty_step_exact csc d rest st :
  chain_inv csc (d :: rest) (oid <$> stable st) ->
  exists st', dirty_step alloc_ok op csc st d = Continue st'
    /\ chain_inv csc rest (oid <$> stable st')
    /\ exact_effect op d (stable st) (stable st').
Proof.
  intros Hinv.
  destruct (dirty_step_ok alloc_ok Halloc op csc d rest st Hinv)
    as (st' & Hrun & Hinv' & Heff & _ & Hz).
  exists st'. split; [done|]. split; [done|].
  pose proof (chain_unique _ _ _ (chain_inv_tail _ _ _ _ Hinv)) as Huniq.
  pose proof (chain_unique _ _ _ Hinv') as Huniq'.
  unfold exact_effect.
  destruct (in_pg op (oid d.1)) eqn:Hpg; simpl.
  2:{ destruct Heff as [?|[(? & _)|(? & _)]]; [done|congruence..]. }
  destruct (decides d) eqn:Hdec.
  2:{ unfold decides in Hdec. apply orb_false_iff in Hdec as [Hd Hs].
      destruct Heff as [?|[(_ & pos & x & _ & _ & [[? _]|[Hsw _]])|(_ & Hsw & _)]];
        [done|congruence|..];
        unfold is_stable_write in Hsw; rewrite Hs, andb_false_r in Hsw; done. }
  destruct (decides_cases d Hdec) as [Hdel|[Hdel Hsw]].
  - (* a delete *)
    specialize (Hz eq_refl Hdel). unfold decided_version. rewrite Hdel.
    assert (Hnsw : is_stable_write d = false)
      by (unfold is_stable_write; by rewrite Hdel).
    split.
    + intros pos x Hx Hox.
      destruct Heff as [Hsame|[(_ & pos' & x' & Hx' & Hox' & [[_ ->]|[Hsw _]])|(_ & Hsw & _)]];
        [|..|congruence|congruence].
      * rewrite Hsame in *. symmetry. apply list_insert_id. rewrite Hx. f_equal.
        destruct x as [ox vx]. simpl in *. subst ox. f_equal.
        apply (Hz (mk_ov (oid d.1) vx)); [|done].
        by eapply list_elem_of_lookup_2.
      * f_equal. eapply Huniq; [done|done|congruence].
    + intros Hnone.
      destruct Heff as [Hsame|[(_ & pos' & x' & Hx' & Hox' & _)|(_ & Hsw & _)]];
        [done| |congruence].
      destruct (Hnone x'); [by eapply list_elem_of_lookup_2|done].
  - (* a stable write *)
    pose proof (stable_write_recorded _ _ _ _ Hrun Hpg Hsw) as Hrec.
    unfold decided_version. rewrite Hdel, ov_eta.
    split.
    + intros pos x Hx Hox.
      destruct Heff as [Hsame|[(_ & pos' & x' & Hx' & Hox' & [[? _]|[_ ->]])|(_ & _ & Happ)]];
        [| congruence | |].
      * rewrite Hsame in *. symmetry. apply list_insert_id. rewrite Hx. f_equal.
        apply list_elem_of_lookup in Hrec as [i Hi].
        assert (i = pos) as -> by (eapply Huniq; [done|done|congruence]).
        congruence.
      * f_equal. eapply Huniq; [done|done|congruence].
      * exfalso. rewrite Happ in Huniq'.
        assert (pos = length (stable st)); [|apply lookup_lt_Some in Hx; lia].
        eapply (Huniq' pos (length (stable st)) x d.1); [|by rewrite list_lookup_middle|done].
        rewrite lookup_app_l; [done|]. by eapply lookup_lt_Some.
    + intros Hnone.
      destruct Heff as [Hsame|[(_ & pos' & x' & Hx' & Hox' & _)|(_ & _ & Happ)]];
        [| |done].
      * rewrite Hsame in Hrec. by destruct (Hnone _ Hrec).
      * destruct (Hnone x'); [by eapply list_elem_of_lookup_2|done].
Qed.

Lemma dirty_loop_exact csc clean its : forall seen st,
  chain_inv csc its (oid <$> stable st) ->
  merge_inv op clean seen (stable st) ->
  exists st', scan_loop (dirty_step alloc_ok op csc) its st = Continue st'
    /\ chain_inv csc [] (oid <$> stable st')
    /\ merge_inv op clean (seen ++ its) (stable st').
Proof.
  induction its as [|d its IH]; intros seen st Hinv Hm; simpl.
  - exists st. by rewrite app_nil_r.
  - destruct (dirty_step_exact csc d its st Hinv) as (st1 & -> & Hinv1 & Heff).
    destruct (IH (seen ++ [d]) st1 Hinv1) as (st' & Hrun & Hinv' & Hm').
    { eapply merge_inv_step; [|exact Heff|exact Hm].
      exact (chain_unique _ _ _ (chain_inv_tail _ _ _ _ Hinv)). }
    exists st'. by rewrite <- app_assoc in Hm'.
Qed.

Variable b : blockstore_impl_t.
Hypothesis Hdbs : ordered_dbs b.

Lemma clean_part_spec x :
  x ∈ clean_entry_of <$> List.filter (fun c => in_pg op (fst c))
                           (clean_scan op (clean_db b))
  <-> from_clean b x /\ listed op (oid x) = true.
Proof.
  rewrite (clean_scan_filter op b Hdbs), filter_filter. unfold from_clean, listed.
  rewrite list_elem_of_fmap. split.
  - intros (c & -> & [Hc Hf]%elem_of_filter). split; [by exists c|done].
  - intros [(c & Hc & <-) Hl]. exists c. split; [done|].
    apply elem_of_filter. done.
Qed.

Lemma deciding_scan o :
  in_inode_range op o = true ->
  deciding o (dirty_scan op (dirty_db b)) = deciding o (dirty_db b).
Proof.
  intros Hr. rewrite (dirty_scan_filter op b Hdbs). unfold deciding.
  rewrite filter_filter. apply filter_same. intros d _.
  destruct (bool_decide (oid d.1 = o)) eqn:Hb; [|by rewrite andb_false_r].
  apply bool_decide_eq_true in Hb. by rewrite Hb, Hr.
Qed.

Lemma deciding_elem o ds d :
  d ∈ deciding o ds <-> d ∈ ds /\ oid (fst d) = o /\ decides d = true.
Proof.
  unfold deciding. rewrite elem_of_filter, andb_true_iff, bool_decide_eq_true.
  done.
Qed.

(** The two loops, when memory can be had: the stable entries before the
    compaction. *)
Lemma list_scan_exact :
  exists csc st,
    list_scan alloc_ok op b = Continue (csc, st)
    /\ NoDup (oid <$> stable st)
    /\ (forall x d, x ∈ stable st ->
          last (deciding (oid x) (dirty_db b)) = Some d ->
          version x = decided_version d)
    /\ (forall x, x ∈ remove_zeroed (stable st) <->
          listed op (oid x) = true /\ version x <> 0 /\ reported b x)
    /\ unstable st
       = fst <$> List.filter (fun d => listed op (oid (fst d)) && is_unstable d)
                             (dirty_db b).
Proof.
  destruct (list_scan_ok alloc_ok Halloc op b Hdbs) as (csc & st & Hscan & _ & Hun).
  exists csc, st. split; [done|].
  pose proof (stable_entries_listed alloc_ok Halloc op b Hdbs csc st Hscan)
    as Hlisted.
  rewrite Forall_forall in Hlisted.
  revert Hscan. unfold list_scan. rewrite Halloc.
  match goal with
  | |- context [scan_loop (clean_step alloc_ok op) ?its ?st0] =>
      destruct (clean_loop_ok alloc_ok Halloc op its st0)
        as (st1 & -> & Hs1 & _)
  end.
  simpl in Hs1.
  destruct (dirty_loop_exact (length (stable st1)) (stable st1)
              (dirty_scan op (dirty_db b)) [] st1) as (st2 & -> & Hinv & Hm).
  { rewrite Hs1. by apply chain_inv_start. }
  { intros x. unfold merged_as, has_entry. simpl. split.
    - intros Hx. split_and!; [|left; by apply list_elem_of_fmap_2|done].
      rewrite Hs1 in Hx. apply clean_part_spec in Hx as [_ Hl].
      by apply andb_true_iff in Hl as [_ ?].
    - by intros (_ & _ & ?). }
  intros [= <- <-]. split; [by eapply chain_inv_NoDup|].
  simpl in Hm. split.
  { intros x d Hx Hlast.
    pose proof (Hlisted x Hx) as [[Hr _]%andb_true_iff _].
    apply Hm in Hx as (_ & _ & Hma). unfold merged_as in Hma.
    by rewrite (deciding_scan _ Hr), Hlast in Hma. }
  split; [|done].
  intros x. rewrite remove_zeroed_spec, (Hm x).
  unfold merged_as, reported. split.
  - intros [(Hpg & He & Hma) Hv].
    assert (Hl : listed op (oid x) = true).
    { apply Hlisted. by apply Hm. }
    split; [done|]. split; [done|].
    pose proof Hl as [Hr _]%andb_true_iff.
    rewrite (deciding_scan _ Hr) in Hma.
    destruct (last (deciding (oid x) (dirty_db b))) as [d|] eqn:Hlast.
    + assert (d ∈ deciding (oid x) (dirty_db b)) as [_ [Ho _]]%deciding_elem.
      { apply last_Some in Hlast as [l' ->]. apply elem_of_app. right.
        by apply list_elem_of_singleton. }
      unfold decided_version in Hma.
      destruct (IS_DELETE (state d.2)); [done|]. split; [done|].
      destruct x as [ox vx], d as [[od vd] e]. simpl in *. by subst.
    + rewrite Hs1 in Hma. by apply clean_part_spec in Hma as [? _].
  - intros (Hl & Hv & Hrep). split; [|done].
    pose proof Hl as [Hr Hpg]%andb_true_iff. split; [done|].
    rewrite (deciding_scan _ Hr).
    destruct (last (deciding (oid x) (dirty_db b))) as [d|] eqn:Hlast.
    + destruct Hrep as [Hdel <-].
      assert (d ∈ deciding (oid d.1) (dirty_scan op (dirty_db b)))
        as [Hd [_ Hdec]]%deciding_elem.
      { rewrite (deciding_scan _ Hr).
        apply last_Some in Hlast as [l' ->]. apply elem_of_app. right.
        by apply list_elem_of_singleton. }
      split.
      * right. exists d. split; [done|]. split; [done|].
        destruct (decides_cases d Hdec) as [?|[_ ?]]; [congruence|done].
      * unfold decided_version. by rewrite Hdel.
    + assert (x ∈ stable st1) as Hx
        by (rewrite Hs1; by apply clean_part_spec).
      split; [|done]. left. by apply list_elem_of_fmap_2.
Qed.

(** The deciding entries of an object are in ascending order of version:
    the last one is the newest. *)
Lemma deciding_last o d :
  last (deciding o (dirty_db b)) = Some d ->
  forall d', d' ∈ deciding o (dirty_db b) ->
    d' = d \/ version (fst d') < version (fst d).
Proof.
  intros Hlast d' Hd'.
  assert (Hsorted : StronglySorted Rov (fst <$> deciding o (dirty_db b))).
  { apply sorted_filter_keys. by destruct Hdbs as (_ & ? & _). }
  apply last_Some in Hlast as [l' Hl']. rewrite Hl' in Hsorted, Hd'.
  apply elem_of_app in Hd' as [Hd'| ->%list_elem_of_singleton]; [|by left].
  right. rewrite fmap_app in Hsorted.
  apply StronglySorted_app in Hsorted as (Hlt & _ & _).
  assert (Hin : d ∈ deciding o (dirty_db b)).
  { rewrite Hl'. apply elem_of_app. right. by apply list_elem_of_singleton. }
  assert (Hin' : d' ∈ deciding o (dirty_db b)).
  { rewrite Hl'. apply elem_of_app. by left. }
  apply deciding_elem in Hin as (_ & Ho & _).
  apply deciding_elem in Hin' as (_ & Ho' & _).
  apply ov_lt_same_oid; [|congruence].
  apply (Hlt d'.1 d.1); [by apply list_elem_of_fmap_2|].
  simpl. by apply list_elem_of_singleton.
Qed.

(** C9, amended.  A LIST that passes the placement-group check and gets its
    memory, and a listed object with a delete in the dirty DB.  The stable
    part of the result is what the loops leave in [stable] without the
    entries of version 0, and [op->version] is its length.  If the delete is
    newer than every stable write of the object, the loops leave version 0
    in every entry of the object in [stable], so the object is not in the
    stable part.  Whenever the object is in the stable part, its entry is the
    key of a stable write that is newer than the delete.  And a stable write
    of the object that is newer than the delete, and that no newer delete or
    stable write of the object follows, is in the stable part, with its
    version, as the only entry of the object. *)
Theorem delete_hides_until_rewritten k e :
  pg_check_fails op = false ->
  (k, e) ∈ dirty_db b -> IS_DELETE (state e) = true ->
  listed op (oid k) = true ->
  exists csc st op',
    list_scan alloc_ok op b = Continue (csc, st)
    /\ list_result alloc_ok op b = Ok op'
    /\ buf op' = Some (remove_zeroed (stable st) ++ unstable st)
    /\ op_version op' = Z.of_nat (length (remove_zeroed (stable st)))
    /\ ((forall d, d ∈ dirty_db b -> oid (fst d) = oid k ->
           is_stable_write d = true -> version (fst d) < version k) ->
        zeroed (oid k) (stable st)
        /\ forall x, x ∈ remove_zeroed (stable st) -> oid x <> oid k)
    /\ (forall x, x ∈ remove_zeroed (stable st) -> oid x = oid k ->
          version k < version x /\ from_stable_write b x)
    /\ (forall k' e',
          (k', e') ∈ dirty_db b -> oid k' = oid k ->
          is_stable_write (k', e') = true -> version k < version k' ->
          (forall d, d ∈ dirty_db b -> oid (fst d) = oid k ->
             decides d = true -> version (fst d) <= version k') ->
          k' ∈ remove_zeroed (stable st)
          /\ forall x, x ∈ remove_zeroed (stable st) ->
               oid x = oid k -> x = k').
Proof.
  intros Hpg Hin Hdel Hlisted.
  destruct list_scan_exact as (csc & st & Hscan & _ & Hver & Hstable & _).
  exists csc, st. unfold list_result. rewrite Hpg, Hscan, Halloc. simpl.
  rewrite andb_false_r. eexists. split; [done|]. split; [reflexivity|]. simpl.
  split; [done|]. split; [done|].
  assert (Hke : (k, e) ∈ deciding (oid k) (dirty_db b)).
  { apply deciding_elem. split; [done|]. split; [done|].
    unfold decides. simpl. by rewrite Hdel. }
  assert (Hsome : exists d, last (deciding (oid k) (dirty_db b)) = Some d).
  { destruct (last (deciding (oid k) (dirty_db b))) as [d|] eqn:Hlast;
      [by exists d|].
    apply last_None in Hlast. rewrite Hlast in Hke.
    by apply elem_of_nil in Hke. }
  destruct Hsome as [dl Hlast].
  assert (Hdl : dl ∈ dirty_db b /\ oid dl.1 = oid k /\ decides dl = true).
  { apply deciding_elem. apply last_Some in Hlast as [l' ->].
    apply elem_of_app. right. by apply list_elem_of_singleton. }
  destruct Hdl as (Hdlin & Hdlo & Hdldec).
  assert (Hdlnew : dl = (k, e) \/ version k < version dl.1).
  { destruct (deciding_last _ _ Hlast _ Hke) as [?|?]; auto. }
  (* what an entry of the object in the stable part is *)
  assert (Hentry : forall x, x ∈ remove_zeroed (stable st) -> oid x = oid k ->
            fst dl = x /\ is_stable_write dl = true /\ version k < version x).
  { intros x Hx Hox. apply Hstable in Hx as (_ & _ & Hrep).
    unfold reported in Hrep. rewrite Hox, Hlast in Hrep.
    destruct Hrep as [Hnd <-]. split; [done|].
    split.
    - destruct (decides_cases _ Hdldec) as [?|[_ ?]]; [congruence|done].
    - destruct Hdlnew as [->|?]; [simpl in Hnd; congruence|done]. }
  split_and!.
  - intros Hnewer.
    assert (Hisdel : IS_DELETE (state dl.2) = true).
    { destruct (decides_cases _ Hdldec) as [?|[_ Hsw]]; [done|]. exfalso.
      specialize (Hnewer dl Hdlin Hdlo Hsw).
      destruct Hdlnew as [->|?]; [|lia].
      unfold is_stable_write in Hsw. simpl in Hsw. by rewrite Hdel in Hsw. }
    split.
    + intros x Hx Hox. rewrite <- Hox in Hlast.
      rewrite (Hver x dl Hx Hlast). unfold decided_version. by rewrite Hisdel.
    + intros x Hx Hox. destruct (Hentry x Hx Hox) as (_ & Hsw & _).
      unfold is_stable_write in Hsw. by rewrite Hisdel in Hsw.
  - intros x Hx Hox. destruct (Hentry x Hx Hox) as (<- & Hsw & Hlt).
    split; [done|]. exists dl.2. by destruct dl.
  - intros k' e' Hin' Hok' Hsw' Hlt' Hnewest.
    assert (Hk'e : (k', e') ∈ deciding (oid k) (dirty_db b)).
    { apply deciding_elem. split; [done|]. split; [done|].
      by apply is_stable_write_decides in Hsw' as [? _]. }
    assert (dl = (k', e')) as ->.
    { destruct (deciding_last _ _ Hlast _ Hk'e) as [?|Hlt]; [done|].
      specialize (Hnewest dl Hdlin Hdlo Hdldec). simpl in Hlt. lia. }
    split.
    + apply Hstable. rewrite Hok'. split; [done|].
      assert (0 <= version k).
      { destruct Hdbs as (_ & _ & _ & Hu). rewrite Forall_forall in Hu.
        destruct (Hu _ Hin) as [_ [? _]]. done. }
      split; [lia|].
      unfold reported. rewrite Hok', Hlast. simpl. split; [|done].
      by apply is_stable_write_decides in Hsw' as [_ ?].
    + intros x Hx Hox. by destruct (Hentry x Hx Hox) as (<- & _).
Qed.
End Exact.


Lemma rewritten_ordered : ordered_dbs Inputs.c9_engine.
Proof.
  unfold ordered_dbs, u64, oid_u64. simpl.
  split_and!; repeat constructor; simpl; done.
Qed.


Lemma delete_hides_until_rewritten_witness :
  ((mk_ov (mk_oid 1 0) 6, Inputs.synced_delete) ∈ dirty_db Inputs.c9_engine
   /\ IS_DELETE (state Inputs.synced_delete) = true
   /\ listed Inputs.list_all (mk_oid 1 0) = true)
  /\ exists csc st op',
    list_scan Inputs.always_room Inputs.list_all Inputs.c9_engine
    = Continue (csc, st)
    /\ list_result Inputs.always_room Inputs.list_all Inputs.c9_engine = Ok op'
    /\ buf op' = Some (remove_zeroed (stable st) ++ unstable st)
    /\ op_version op' = Z.of_nat (length (remove_zeroed (stable st)))
    /\ ((forall d, d ∈ dirty_db Inputs.c9_engine ->
           oid (fst d) = mk_oid 1 0 -> is_stable_write d = true ->
           version (fst d) < 6) ->
        zeroed (mk_oid 1 0) (stable st)
        /\ forall x, x ∈ remove_zeroed (stable st) -> oid x <> mk_oid 1 0)
    /\ (forall x, x ∈ remove_zeroed (stable st) -> oid x = mk_oid 1 0 ->
          6 < version x /\ from_stable_write Inputs.c9_engine x)
    /\ (forall k' e',
          (k', e') ∈ dirty_db Inputs.c9_engine -> oid k' = mk_oid 1 0 ->
          is_stable_write (k', e') = true -> 6 < version k' ->
          (forall d, d ∈ dirty_db Inputs.c9_engine ->
             oid (fst d) = mk_oid 1 0 -> decides d = true ->
             version (fst d) <= version k') ->
          k' ∈ remove_zeroed (stable st)
          /\ forall x, x ∈ remove_zeroed (stable st) ->
               oid x = mk_oid 1 0 -> x = k').
Proof.
  assert (Hin : (mk_ov (mk_oid 1 0) 6, Inputs.synced_delete)
                ∈ dirty_db Inputs.c9_engine).
  { apply list_elem_of_In. simpl. auto. }
  split; [done|].
  apply (delete_hides_until_rewritten Inputs.always_room (fun _ => eq_refl)
           Inputs.list_all Inputs.c9_engine rewritten_ordered
           (mk_ov (mk_oid 1 0) 6) Inputs.synced_delete eq_refl Hin eq_refl
           eq_refl).
Defined.
End ListExact.

(** ** Further properties of the queue and the loop *)
Module LoopMore.
Import Impl ImplProps LoopNotions.

Lemma check_wait_ring op b op1 b1 :
  check_wait op b = Ok (op1, b1) -> ring_space b1 = ring_space b.
Proof.
  unfold check_wait. intros Hc.
  repeat match type of Hc with
         | (if ?c then _ else _) = _ => destruct c
         | match ?x with _ => _ end = _ => destruct x
         end; try discriminate; by injection Hc as <- <-.
Qed.

Section Rounds.
Variable alloc_ok : Z -> bool.
Variable H : handlers.

Lemma after_handler_round s c r dq cancel op b1 hw b0 :
  engine s = b0 -> dequeued (Called c op r) = dq ->
  (cancel = true -> dq = false) ->
  (c <> CList -> cancel = (r =? 0)) ->
  (c = CList -> ring_space b1 = ring_space b0) ->
  round_ok s (state_of (after_handler s c r dq cancel op b1 hw
                          (ring_space b0) (ring_space b0))).
Proof.
  intros Hb Hdq Hcd Hcancel Hlist. unfold after_handler.
  assert (Hring : forall b', ring_space b' = ring_space b0 \/
                             (b' = b1 /\ cancel = false) ->
            Forall (fun e => nothing_submitted e = true) [Called c op r] ->
            ring_space b' = ring_space (engine s)).
  { intros b' [Hb'|[-> Hnc]] Hq; [by rewrite Hb|]. rewrite Hb.
    apply Forall_cons in Hq as [Hq _].
    destruct c; try (by apply Hlist);
      rewrite Hcancel in Hnc by done; simpl in Hq; congruence. }
  destruct cancel.
  - rewrite (Hcd eq_refl) in *.
    destruct (wait_for op =? WAIT_SQE); simpl.
    + exists [Called c op r], [set_wait_detail (1 + ring_space b0) op].
      split_and!; try done.
      * cbn [List.filter]. by rewrite Hdq.
      * apply Hring. by left.
    + exists [Called c op r], [op]. split_and!; try done.
      * cbn [List.filter]. by rewrite Hdq.
      * apply Hring. by left.
  - simpl. destruct dq.
    + exists [Called c op r], []. split_and!; try done.
      * cbn [List.filter]. by rewrite Hdq.
      * apply Hring. by right.
    + exists [Called c op r], [op]. split_and!; try done.
      * cbn [List.filter]. by rewrite Hdq.
      * apply Hring. by right.
Qed.

Lemma dispatch_round s op b :
  ring_space b = ring_space (engine s) ->
  round_ok s (state_of (dispatch alloc_ok H s op b)).
Proof.
  intros Hb. unfold dispatch.
  assert (Hskip : round_ok s (mk_pass b (op :: kept s) (has_writes s)
                                      (events s ++ [PassedOver op]))).
  { exists [PassedOver op], [op]. split_and!; done. }
  assert (Hquiet : round_ok s (mk_pass b (op :: kept s) (has_writes s)
                                       (events s))).
  { exists [], [op]. simpl. rewrite app_nil_r. split_and!; try done; lia. }
  assert (Hgen : forall c r op1 b1 dq hw,
            c <> CList -> dequeued (Called c op1 r) = dq ->
            ((r =? 0) = true -> dq = false) ->
            round_ok s (state_of (after_handler s c r dq (r =? 0) op1 b1 hw
                                    (ring_space b) (ring_space b)))).
  { intros c r op1 b1 dq hw Hc Hdq Hz. rewrite Hb.
    apply after_handler_round; try done. }
  destruct (opcode op =? BS_OP_READ).
  { destruct (dequeue_read H op b) as [[r op1] b1].
    apply Hgen; try done. simpl. intros ->. done. }
  destruct ((opcode op =? BS_OP_WRITE) || (opcode op =? BS_OP_WRITE_STABLE)).
  { destruct (has_writes s =? 2); [done|].
    destruct (dequeue_write H op b) as [[r op1] b1].
    apply Hgen; try done. simpl. lia. }
  destruct (opcode op =? BS_OP_DELETE).
  { destruct (has_writes s =? 2); [done|].
    destruct (dequeue_del H op b) as [[r op1] b1].
    apply Hgen; try done. simpl. lia. }
  destruct (opcode op =? BS_OP_SYNC).
  { destruct (negb (has_writes s =? 0)); [done|].
    destruct (continue_sync H false op b) as [[r op1] b1].
    apply Hgen; try done. simpl. lia. }
  destruct (opcode op =? BS_OP_STABLE).
  { destruct (dequeue_stable H op b) as [[r op1] b1].
    apply Hgen; try done. simpl. lia. }
  destruct (opcode op =? BS_OP_ROLLBACK).
  { destruct (dequeue_rollback H op b) as [[r op1] b1].
    apply Hgen; try done. simpl. lia. }
  destruct (opcode op =? BS_OP_LIST); [|done].
  destruct (process_list alloc_ok op b) as [[op1 b1]|?|?] eqn:Hpl;
    cbn [state_of]; try done.
  rewrite Hb. apply after_handler_round; try done.
  unfold process_list in Hpl. destruct (list_result alloc_ok op b); try done.
  simpl in Hpl. injection Hpl as _ <-. simpl. by rewrite Hb.
Qed.

Lemma loop_body_round s op :
  round_ok s (state_of (loop_body alloc_ok H s op)).
Proof.
  unfold loop_body.
  destruct (negb (wait_for op =? 0)); [|by apply dispatch_round].
  destruct (check_wait op (engine s)) as [[op1 b1]|?|?] eqn:Hc; cbn [state_of].
  - pose proof (check_wait_ring _ _ _ _ Hc) as Hring.
    destruct (wait_for op1 =? WAIT_SQE); cbn [state_of].
    + exists [Parked op1], [op1]. split_and!; done.
    + destruct (negb (wait_for op1 =? 0)); [|by apply dispatch_round].
      exists [Parked op1], [op1]. split_and!; done.
  - exists [], [op]. simpl. rewrite app_nil_r. split_and!; try done; lia.
  - exists [], [op]. simpl. rewrite app_nil_r. split_and!; try done; lia.
Qed.

Lemma submit_pass_rounds queue : forall s,
  exists new keep,
    let '(s', rest, _) := submit_pass alloc_ok H queue s in
    events s' = events s ++ new
    /\ kept s' = keep ++ kept s
    /\ (length new + length rest <= length queue)%nat
    /\ (length keep + length (List.filter dequeued new) + length rest
        = length queue)%nat
    /\ (Forall (fun e => nothing_submitted e = true) new ->
        ring_space (engine s') = ring_space (engine s)).
Proof.
  induction queue as [|op queue IH]; intros s; simpl.
  - exists [], []. rewrite app_nil_r. split_and!; done.
  - destruct (loop_body_round s op)
      as (new & keep & Hev & Hk & Hn & Hacc & Hring).
    destruct (loop_body alloc_ok H s op) as [s1|s1|s1 why]; cbn [state_of] in *.
    + destruct (IH s1) as (new' & keep' & IH').
      destruct (submit_pass alloc_ok H queue s1) as [[s' rest] ending].
      destruct IH' as (Hev' & Hk' & Hn' & Hacc' & Hring').
      exists (new ++ new'), (keep' ++ keep).
      rewrite Hev', Hev, Hk', Hk, !app_assoc, List.filter_app, !length_app.
      split_and!; try done; try lia.
      intros [Hq Hq']%Forall_app. rewrite Hring', Hring; done.
    + exists new, keep. split_and!; try done; lia.
    + exists new, keep. split_and!; try done; lia.
Qed.
End Rounds.

(** X11.  A pass of the loop accounts for every operation of the queue: an
    operation is either not reached, or left in the queue, or erased from it
    after its handler asked for that (a read that was submitted, a LIST, or
    a handler that returned 2); no operation is dropped or queued twice, and
    each operation gives rise to at most one event. *)
Theorem pass_accounts_for_queue alloc_ok H b :
  (length (pass_kept alloc_ok H b) + length (pass_rest alloc_ok H b)
   + length (List.filter dequeued (pass_events alloc_ok H b))
   = length (submit_queue b))%nat
  /\ (length (pass_events alloc_ok H b) + length (pass_rest alloc_ok H b)
      <= length (submit_queue b))%nat.
Proof.
  unfold pass_kept, pass_rest, pass_events, queue_pass.
  destruct (submit_pass_rounds alloc_ok H (submit_queue b) (mk_pass b [] 0 []))
    as (new & keep & Hrun).
  destruct (submit_pass alloc_ok H (submit_queue b) (mk_pass b [] 0 []))
    as [[s' rest] ending].
  destruct Hrun as (Hev & Hk & Hn & Hacc & _). simpl in *.
  rewrite Hev, Hk, app_nil_r. lia.
Qed.

(** X12.  A handler that cannot submit leaves no trace in the submission
    ring: if in a pass every handler that was called returned 0 (LIST
    apart, which uses no slot), the ring has as many free slots after the
    pass as before it. *)
Theorem cancelled_submissions_restore_ring alloc_ok H b :
  Forall (fun e => nothing_submitted e = true) (pass_events alloc_ok H b) ->
  ring_space (pass_engine alloc_ok H b) = ring_space b.
Proof.
  unfold pass_engine, pass_events, queue_pass.
  destruct (submit_pass_rounds alloc_ok H (submit_queue b) (mk_pass b [] 0 []))
    as (new & keep & Hrun).
  destruct (submit_pass alloc_ok H (submit_queue b) (mk_pass b [] 0 []))
    as [[s' rest] ending].
  destruct Hrun as (Hev & _ & _ & _ & Hring). simpl in *.
  rewrite Hev. apply Hring.
Qed.

Lemma cancelled_submissions_restore_ring_witness :
  pass_events Inputs.always_room LoopInputs.giving_up_handlers
              LoopInputs.mixed_queue
  = [Called CRead (set_wait_for WAIT_JOURNAL
                     (Inputs.client_op BS_OP_READ 0 512)) 0;
     Called CWrite (set_wait_for WAIT_JOURNAL Inputs.c5_write1) 0;
     Called CList (set_list_result 0 0 (Some []) Inputs.list_all) 0]
  /\ ring_space (pass_engine Inputs.always_room LoopInputs.giving_up_handlers
                             LoopInputs.mixed_queue)
     = ring_space LoopInputs.mixed_queue.
Proof.
  split; [reflexivity|].
  apply (cancelled_submissions_restore_ring Inputs.always_room
           LoopInputs.giving_up_handlers LoopInputs.mixed_queue).
  repeat constructor.
Defined.

(** X13.  What [enqueue_op] does to the queue, for a write path that
    neither renames the operation nor touches the queue: the queue is left
    as it is, or the operation is appended at its end, not waiting for
    anything and with its opcode, SYNC for a SYNC_STAB_ALL.  So if every
    queued operation has an opcode that the loop dispatches, this still holds
    afterwards: SYNC_STAB_ALL and invalid opcodes never reach the queue. *)
Theorem enqueue_appends_dispatchable ew op b :
  write_path_frames ew ->
  (submit_queue (enqueue_op ew op b) = submit_queue b
   \/ exists op',
        submit_queue (enqueue_op ew op b) = submit_queue b ++ [op']
        /\ wait_for op' = 0 /\ op_state op' = 0 /\ pending_ops op' = 0
        /\ opcode op' = (if opcode op =? BS_OP_SYNC_STAB_ALL
                         then BS_OP_SYNC else opcode op))
  /\ (Forall (fun o => dispatched_opcode (opcode o)) (submit_queue b) ->
      Forall (fun o => dispatched_opcode (opcode o))
             (submit_queue (enqueue_op ew op b))).
Proof.
  intros Hew.
  assert (Hcases :
    submit_queue (enqueue_op ew op b) = submit_queue b
    \/ (basic_verification_fails b op = false
        /\ exists op',
          submit_queue (enqueue_op ew op b) = submit_queue b ++ [op']
          /\ wait_for op' = 0 /\ op_state op' = 0 /\ pending_ops op' = 0
          /\ opcode op' = (if opcode op =? BS_OP_SYNC_STAB_ALL
                           then BS_OP_SYNC else opcode op))).
  { unfold enqueue_op. destruct (basic_verification_fails b op) eqn:Hv;
      [by left|].
    set (op1 := if opcode op =? BS_OP_SYNC_STAB_ALL
                then set_opcode_cb BS_OP_SYNC (CbSyncStabAll (callback op)) op
                else op).
    assert (Hop1 : opcode op1 = (if opcode op =? BS_OP_SYNC_STAB_ALL
                                 then BS_OP_SYNC else opcode op)).
    { unfold op1. by destruct (opcode op =? BS_OP_SYNC_STAB_ALL). }
    destruct (is_write_or_delete op1).
    - destruct (Hew op1 b) as [Hcode Hq].
      destruct (ew op1 b) as [[ok op2] b1]. simpl in Hcode, Hq.
      destruct ok; [|left; simpl; done].
      right. split; [done|]. exists (init_private op2). simpl.
      rewrite Hq, Hcode. split_and!; done.
    - right. split; [done|]. exists (init_private op1). simpl.
      split_and!; done. }
  split.
  - destruct Hcases as [?|(_ & ?)]; auto.
  - intros Hall. destruct Hcases as [->|(Hv & op' & -> & _ & _ & _ & Hcode)];
      [done|].
    apply Forall_app. split; [done|]. constructor; [|done].
    rewrite Hcode. unfold basic_verification_fails in Hv.
    unfold dispatched_opcode, BS_OP_MIN, BS_OP_MAX, BS_OP_SYNC_STAB_ALL,
      BS_OP_SYNC in *.
    destruct (opcode op =? 9) eqn:E; lia.
Qed.

Lemma enqueue_appends_dispatchable_witness :
  write_path_frames Inputs.accept_write
  /\ submit_queue (enqueue_op Inputs.accept_write LoopInputs.sync_stab_all
                              Inputs.c5_engine)
     = submit_queue Inputs.c5_engine
       ++ [set_opcode_cb BS_OP_SYNC (CbSyncStabAll (CbClient 0))
                         LoopInputs.sync_stab_all]
  /\ Forall (fun o => dispatched_opcode (opcode o))
            (submit_queue (enqueue_op Inputs.accept_write
                             LoopInputs.sync_stab_all Inputs.c5_engine)).
Proof.
  assert (Hew : write_path_frames Inputs.accept_write) by (intros op b; done).
  split; [done|]. split; [reflexivity|].
  apply (enqueue_appends_dispatchable Inputs.accept_write
           LoopInputs.sync_stab_all Inputs.c5_engine Hew).
  simpl.
  repeat (apply List.Forall_cons;
          [unfold dispatched_opcode, BS_OP_MIN, BS_OP_MAX, BS_OP_SYNC_STAB_ALL,
             Inputs.c5_write1, Inputs.c5_write2, Inputs.c5_sync,
             Inputs.client_op, BS_OP_WRITE, BS_OP_SYNC;
           simpl; lia|]).
  apply List.Forall_nil.
Defined.

End LoopMore.

(** ** Further properties of the metadata reader *)
Module DiskToolMore.
Import DiskTool DiskToolProps DiskNotions.

Lemma number_from_lookup ioffs : forall n base k s,
  number_from n base ioffs !! k = Some s ->
  block_num s = n + Z.of_nat k
  /\ exists ioff, ioffs !! k = Some ioff /\ dev_offset s = base + ioff.
Proof.
  induction ioffs as [|i ioffs IH]; intros n base k s; simpl; [done|].
  destruct k as [|k]; simpl.
  - intros [= <-]. simpl. split; [lia|]. by exists i.
  - intros Hk. destruct (IH _ _ _ _ Hk) as (Hn & ioff & Hi & Hoff).
    split; [lia|]. by exists ioff.
Qed.

Lemma number_from_length ioffs : forall n base,
  length (number_from n base ioffs) = length ioffs.
Proof. induction ioffs as [|i ioffs IH]; intros n base; simpl; [done|]. by rewrite IH. Qed.

Lemma scan_blocks_numbers legacy t base blks : forall n slots n',
  scan_blocks legacy t base blks n = Some (slots, n') ->
  n' = n + Z.of_nat (length slots)
  /\ forall k s, slots !! k = Some s -> block_num s = n + Z.of_nat k.
Proof.
  induction blks as [|blk blks IH]; intros n slots n'; simpl.
  - intros [= <- <-]. split; [simpl; lia|done].
  - destruct (block_ioffs legacy t) as [ioffs|]; [|done]. simpl.
    destruct (scan_blocks legacy t base blks (n + Z.of_nat (length ioffs)))
      as [[rest n1]|] eqn:Hrest; [|done]. simpl.
    intros [= <- <-]. destruct (IH _ _ _ Hrest) as [-> Hnum].
    rewrite length_app, number_from_length. split; [lia|].
    intros k s Hk. apply lookup_app_Some in Hk as [Hk|[Hge Hk]].
    + by destruct (number_from_lookup _ _ _ _ _ Hk) as [? _].
    + rewrite number_from_length in Hge, Hk. rewrite (Hnum _ _ Hk). lia.
Qed.

Lemma read_loop_numbers fuel legacy buf_size : forall t fpos n slots t',
  read_loop fuel legacy buf_size t fpos n = Some (slots, t') ->
  forall k s, slots !! k = Some s -> block_num s = n + Z.of_nat k.
Proof.
  induction fuel as [|fuel IH]; intros t fpos n slots t'; simpl.
  - destruct (meta_pos t <? meta_len t); [done|]. by intros [= <- <-].
  - destruct (meta_pos t <? meta_len t); [|by intros [= <- <-]].
    destruct (for_values _ _ _ _) as [blks|]; [|done]. simpl.
    destruct (scan_blocks _ _ _ _ _) as [[here n1]|] eqn:Hhere; [|done]. simpl.
    destruct (read_loop _ _ _ _ _ _) as [[later t2]|] eqn:Hlater; [|done]. simpl.
    intros [= <- <-] k s Hk.
    destruct (scan_blocks_numbers _ _ _ _ _ _ _ Hhere) as [-> Hnum].
    apply lookup_app_Some in Hk as [Hk|[Hge Hk]]; [by apply Hnum|].
    rewrite (IH _ _ _ _ _ Hlater _ _ Hk). lia.
Qed.

Lemma record_calls_spec dev bm slots c :
  c ∈ record_calls dev bm slots <->
  exists s, c = RecordFn s bm /\ s ∈ slots /\ inode_at dev (dev_offset s) <> 0.
Proof.
  unfold record_calls. rewrite list_elem_of_fmap. split.
  - intros (s & -> & Hs). exists s. split; [done|].
    apply list_elem_of_In, filter_In in Hs as [Hs Hi].
    split; [by apply list_elem_of_In|]. lia.
  - intros (s & -> & Hs & Hi). exists s. split; [done|].
    apply list_elem_of_In, filter_In. split; [by apply list_elem_of_In|]. lia.
Qed.

Section Protocol.
Variable sizeof_clean_disk_entry : Z.

(** How [process_meta] can return. *)
Lemma process_meta_shape dev t r t' slots calls :
  process_meta sizeof_clean_disk_entry dev t = Ok (r, t', slots, calls) ->
  (r = 1 /\ calls = [] /\ slots = [] /\ t' = t
   /\ (meta_block_size t mod DIRECT_IO_ALIGNMENT <> 0 \/ can_open dev = false))
  \/ (r = 0 /\ meta_block_size t mod DIRECT_IO_ALIGNMENT = 0
      /\ can_open dev = true
      /\ calls = HdrFn (if has_superblock dev then Some (first_block dev)
                        else None)
                 :: record_calls dev (has_superblock dev) slots
      /\ forall k s, slots !! k = Some s -> block_num s = Z.of_nat k).
Proof.
  unfold process_meta, has_superblock.
  destruct (meta_block_size t mod DIRECT_IO_ALIGNMENT =? 0) eqn:Hal; simpl.
  2:{ intros [= <- <- <- <-]. left. split_and!; try done. left. lia. }
  destruct (can_open dev) eqn:Hopen; simpl.
  2:{ intros [= <- <- <- <-]. left. split_and!; try done. by right. }
  destruct (meta_block_size t =? 0); [done|].
  destruct (probe_size t <=? 0); [done|].
  destruct ((zero (first_block dev) =? 0)
            && (magic (first_block dev) =? BLOCKSTORE_META_MAGIC_V1)
            && (hdr_version (first_block dev) =? BLOCKSTORE_META_VERSION_V1)).
  - destruct (hdr_meta_block_size (first_block dev) =? 0); [done|].
    match goal with |- context [negb ?a && negb ?b] =>
      destruct (negb a && negb b) end; [done|].
    destruct (hdr_bitmap_granularity (first_block dev) =? 0); [done|].
    destruct (read_loop _ _ _ _ _ _) as [[sl t2]|] eqn:Hrun; [|done].
    intros [= <- <- <- <-]. right. split_and!; try done; [lia|].
    intros k s Hk. by rewrite (read_loop_numbers _ _ _ _ _ _ _ _ Hrun k s Hk).
  - destruct (read_loop _ _ _ _ _ _) as [[sl t2]|] eqn:Hrun; [|done].
    intros [= <- <- <- <-]. right. split_and!; try done; [lia|].
    intros k s Hk. by rewrite (read_loop_numbers _ _ _ _ _ _ _ _ Hrun k s Hk).
Qed.

(** X14.  The calls that [process_meta] makes on a metadata area of whole
    blocks ([whole_blocks]: the size of the buffer does not overflow, the
    area is a positive number of blocks, without superblock the tool starts
    at a block boundary), whenever it returns.  It returns 1 without a call
    exactly when the block size is not a multiple of 512 or the device
    cannot be opened.  Otherwise it returns 0; the header function is called
    once, before anything else, with the superblock if the device starts
    with one and with a null pointer if not; every later call is of the
    record function, with bitmaps exactly in the first case, for the
    visited slots whose entry has an inode other than 0, in the order of the
    visit; and the slots are numbered from 0 in that order. *)
Theorem process_meta_calls dev t r t' slots calls :
  whole_blocks dev t ->
  process_meta sizeof_clean_disk_entry dev t = Ok (r, t', slots, calls) ->
  (r = 1 <-> (meta_block_size t mod DIRECT_IO_ALIGNMENT <> 0
              \/ can_open dev = false))
  /\ (r = 1 -> calls = [] /\ slots = [] /\ t' = t)
  /\ (r <> 1 ->
      r = 0
      /\ calls = HdrFn (if has_superblock dev then Some (first_block dev)
                        else None)
                 :: record_calls dev (has_superblock dev) slots
      /\ (forall k s, slots !! k = Some s -> block_num s = Z.of_nat k)
      /\ (forall c, c ∈ record_calls dev (has_superblock dev) slots <->
            exists s, c = RecordFn s (has_superblock dev) /\ s ∈ slots
                      /\ inode_at dev (dev_offset s) <> 0)).
Proof.
  intros _ Hrun.
  destruct (process_meta_shape _ _ _ _ _ _ Hrun)
    as [(-> & -> & -> & -> & Hwhy)|(-> & Hal & Hopen & -> & Hnum)].
  - split_and!; try done.
  - split_and!; try done.
    + split; [done|]. intros [?|?]; [done|congruence].
    + intros _. split_and!; try done. apply record_calls_spec.
Qed.
End Protocol.

Lemma process_meta_calls_witness :
  whole_blocks Inputs.c8_device Inputs.c8_tool
  /\ exists t' slots calls,
    process_meta 24 Inputs.c8_device Inputs.c8_tool = Ok (0, t', slots, calls)
    /\ calls = HdrFn (Some Inputs.c8_superblock)
               :: record_calls Inputs.c8_device true slots
    /\ (forall k s, slots !! k = Some s -> block_num s = Z.of_nat k).
Proof.
  assert (Hwhole : whole_blocks Inputs.c8_device Inputs.c8_tool)
    by (vm_compute; intuition congruence).
  split; [exact Hwhole|].
  eexists _, _, _. split; [vm_compute; reflexivity|].
  match goal with
  | |- ?calls = _ /\ (forall k s, ?slots !! k = Some s -> _) =>
      destruct (process_meta_calls 24 Inputs.c8_device Inputs.c8_tool 0
                  (DiskTool.mk_tool 4096 12288 4096 4 32 12288) slots calls)
        as (_ & _ & Hok)
  end.
  - exact Hwhole.
  - vm_compute. reflexivity.
  - destruct Hok as (_ & Hcalls & Hnum & _); [done|]. split; [|exact Hnum].
    exact Hcalls.
Defined.

Lemma to_int_fits x : 0 <= x < 2 ^ 31 -> to_int x = x.
Proof. intros Hx. unfold to_int. rewrite Z.mod_small; lia. Qed.

Lemma wrap64_fits x : 0 <= x < 2 ^ 64 -> wrap64 x = x.
Proof. intros Hx. unfold wrap64. by rewrite Z.mod_small. Qed.

(** On an area of whole blocks the buffer holds a whole number of blocks, at
    least one. *)
Lemma probe_size_blocks t :
  0 < meta_block_size t -> 8 * meta_block_size t < 2 ^ 31 ->
  0 < meta_len t -> meta_len t mod meta_block_size t = 0 ->
  exists q, probe_size t = q * meta_block_size t /\ 1 <= q.
Proof.
  intros Hmbs Hint Hlen Hdiv. unfold probe_size.
  set (buf0 := if negb (1024 * 1024 mod meta_block_size t =? 0)
               then to_int (wrap64 (8 * meta_block_size t)) else 1024 * 1024).
  assert (Hb0 : exists q0, buf0 = q0 * meta_block_size t /\ 1 <= q0
                           /\ buf0 < 2 ^ 31).
  { unfold buf0. destruct (1024 * 1024 mod meta_block_size t =? 0) eqn:E;
      cbn [negb].
    - exists (1024 * 1024 / meta_block_size t).
      pose proof (Z.div_mod (1024 * 1024) (meta_block_size t)) as Hdm.
      assert (0 < 1024 * 1024 / meta_block_size t); [|lia].
      apply Z.div_str_pos. split; [lia|].
      destruct (Z_lt_le_dec (1024 * 1024) (meta_block_size t)) as [Hbig|?];
        [|lia].
      rewrite Z.mod_small in E by lia. lia.
    - exists 8. rewrite wrap64_fits, to_int_fits by lia. lia. }
  destruct Hb0 as (q0 & Hq0 & Hq0pos & Hsmall).
  rewrite wrap64_fits by nia.
  destruct (meta_len t <? buf0) eqn:E.
  - exists (meta_len t / meta_block_size t).
    rewrite to_int_fits by lia.
    pose proof (Z.div_mod (meta_len t) (meta_block_size t)) as Hdm.
    rewrite Hdiv in Hdm. split; [lia|]. nia.
  - by exists q0.
Qed.

Lemma laid_out_app epb mbs ces n base m l1 l2 :
  0 < epb -> 0 <= m -> Z.of_nat (length l1) = m * epb ->
  laid_out epb mbs ces n base l1 ->
  laid_out epb mbs ces (n + m * epb) (base + m * mbs) l2 ->
  laid_out epb mbs ces n base (l1 ++ l2).
Proof.
  intros Hepb Hm Hlen H1 H2 k s Hk.
  apply lookup_app_Some in Hk as [Hk|[Hge Hk]]; [by apply H1|].
  destruct (H2 _ _ Hk) as [Hn Hoff].
  assert (Hk' : Z.of_nat k = m * epb + Z.of_nat (k - length l1)) by lia.
  split; [lia|]. rewrite Hoff, Hk'.
  rewrite Z.div_add_l by lia.
  rewrite (Z.add_comm (m * epb)), Z_mod_plus_full. lia.
Qed.

Section Addresses.
Variable mbs ces : Z.
Hypothesis Hces : 0 < ces.
Hypothesis Hfit : ces <= mbs.
Hypothesis Hmbs : mbs <= UINT64_MAX.

Lemma per_block_pos : 0 < mbs / ces.
Proof. apply Z.div_str_pos. lia. Qed.

Lemma one_block_laid_out n base ioffs :
  Z.of_nat (length ioffs) = mbs / ces ->
  (forall k x, ioffs !! k = Some x -> x = Z.of_nat k * ces) ->
  laid_out (mbs / ces) mbs ces n base (number_from n base ioffs).
Proof.
  intros Hlen Hval k s Hk.
  destruct (number_from_lookup _ _ _ _ _ Hk) as (Hn & ioff & Hi & Hoff).
  split; [done|]. rewrite Hoff, (Hval _ _ Hi).
  pose proof (lookup_lt_Some _ _ _ Hi) as Hlt.
  rewrite Z.div_small, Z.mod_small by lia. lia.
Qed.

Lemma scan_blocks_laid_out t base blks : forall n b0,
  meta_block_size t = mbs -> clean_entry_size t = ces ->
  (forall i x, blks !! i = Some x -> x = b0 + Z.of_nat i * mbs) ->
  exists slots,
    scan_blocks false t base blks n
    = Some (slots, n + Z.of_nat (length blks) * (mbs / ces))
    /\ Z.of_nat (length slots) = Z.of_nat (length blks) * (mbs / ces)
    /\ laid_out (mbs / ces) mbs ces n (base + b0) slots.
Proof.
  intros n b0 Ht1 Ht2. revert n b0.
  assert (Hio : exists l, block_ioffs false t = Some l
                /\ Z.of_nat (length l) = mbs / ces
                /\ forall k x, l !! k = Some x -> x = Z.of_nat k * ces).
  { rewrite <- Ht1, <- Ht2. apply entries_per_block_with_bitmaps; lia. }
  destruct Hio as (ioffs & Hio & Hlen & Hval).
  pose proof per_block_pos as Hepb.
  induction blks as [|blk blks IH]; intros n b0 Hblks; simpl.
  - exists []. split_and!; try done. f_equal. f_equal. lia.
  - rewrite Hio. simpl.
    destruct (IH (n + Z.of_nat (length ioffs)) (b0 + mbs))
      as (rest & Hrest & Hrlen & Hlaid).
    { intros i x Hi. rewrite (Hblks (S i) x Hi). lia. }
    rewrite Hrest. simpl. eexists. split; [|split].
    + do 2 f_equal. lia.
    + rewrite length_app, number_from_length. lia.
    + assert (blk = b0) as -> by (rewrite (Hblks 0%nat blk eq_refl); lia).
      apply (laid_out_app _ _ _ _ _ 1); try lia.
      * rewrite number_from_length. lia.
      * by apply one_block_laid_out.
      * replace (n + 1 * (mbs / ces)) with (n + Z.of_nat (length ioffs)) by lia.
        replace (base + b0 + 1 * mbs) with (base + (b0 + mbs)) by lia.
        done.
Qed.

Lemma read_loop_laid_out fuel buf_size q nb : forall t p n,
  meta_block_size t = mbs -> clean_entry_size t = ces ->
  meta_len t = (nb + 1) * mbs -> meta_len t <= UINT64_MAX ->
  buf_size = q * mbs -> 1 <= q ->
  meta_pos t = p * mbs -> 1 <= p <= nb + 1 -> nb + 1 - p <= Z.of_nat fuel ->
  exists slots t',
    read_loop fuel false buf_size t (p * mbs) n = Some (slots, t')
    /\ meta_pos t' = meta_len t
    /\ clean_entry_size t' = ces
    /\ Z.of_nat (length slots) = (nb + 1 - p) * (mbs / ces)
    /\ laid_out (mbs / ces) mbs ces n (p * mbs) slots.
Proof.
  pose proof per_block_pos as Hepb.
  assert (Hmpos : 0 < mbs) by lia.
  induction fuel as [|fuel IH]; intros t p n Ht1 Ht2 Hlen Hmax Hbuf Hq Hpos Hp Hfuel.
  - assert (p = nb + 1) as -> by lia. simpl.
    assert ((meta_pos t <? meta_len t) = false) as -> by lia.
    exists [], t. split_and!; try done; try lia.
    simpl. replace (nb + 1 - (nb + 1)) with 0 by lia. lia.
  - simpl. destruct (meta_pos t <? meta_len t) eqn:Hlt.
    2:{ assert (p = nb + 1) as -> by nia.
        exists [], t. split_and!; try done; try lia.
        simpl. replace (nb + 1 - (nb + 1)) with 0 by lia. lia. }
    assert (Hp' : p < nb + 1) by nia.
    assert (Hrest : wrap64 (meta_len t - meta_pos t) = (nb + 1 - p) * mbs).
    { unfold wrap64. rewrite Z.mod_small; [lia|]. unfold UINT64_MAX in *. nia. }
    rewrite Hrest.
    set (m := Z.min q (nb + 1 - p)).
    assert (Hm : 1 <= m <= nb + 1 - p) by lia.
    assert (Hread : (if buf_size <? (nb + 1 - p) * mbs then buf_size
                     else (nb + 1 - p) * mbs) = m * mbs).
    { rewrite Hbuf. unfold m. destruct (q * mbs <? (nb + 1 - p) * mbs) eqn:E.
      - rewrite Z.min_l; [done|]. nia.
      - rewrite Z.min_r; [done|]. nia. }
    rewrite Hread.
    destruct (for_values_lt (Z.to_nat (m * mbs) + 1) (m * mbs)
                (meta_block_size t) 0)
      as (blks & Hblks & Hblen & Hbval); [lia|rewrite Ht1; nia|].
    rewrite Ht1 in Hblen, Hbval.
    rewrite Hblks. simpl.
    assert (Hblen' : Z.of_nat (length blks) = m).
    { rewrite Hblen.
      replace (m * mbs - 0 + mbs - 1) with ((mbs - 1) + m * mbs) by lia.
      rewrite Z.div_add by lia. rewrite Z.div_small by lia. lia. }
    set (t1 := mk_tool (meta_block_size t) (meta_len t) (bitmap_granularity t)
                       (clean_entry_bitmap_size t) (clean_entry_size t)
                       (meta_pos t + m * mbs)).
    destruct (scan_blocks_laid_out t1 (p * mbs) blks n 0)
      as (here & Hhere & Hhlen & Hhlaid); try done.
    rewrite Hhere. simpl.
    destruct (IH t1 (p + m) (n + Z.of_nat (length blks) * (mbs / ces)))
      as (later & t2 & Hlater & Hpos2 & Hces2 & Hllen & Hllaid); try done.
    { simpl. lia. }
    { lia. }
    { lia. }
    replace (p * mbs + m * mbs) with ((p + m) * mbs) by lia.
    rewrite Hlater. simpl. exists (here ++ later), t2.
    split_and!; try done.
    + rewrite length_app. lia.
    + apply (laid_out_app _ _ _ _ _ m); try lia.
      * by rewrite Z.add_0_r in Hhlaid.
      * rewrite Hblen' in Hllaid.
        by replace (p * mbs + m * mbs) with ((p + m) * mbs) by lia.
Qed.
End Addresses.

Section Superblock.
Variable sizeof_clean_disk_entry : Z.

(** X15.  The layout with a superblock, read in full.  When the device
    starts with a superblock whose block size is the configured one, eight
    blocks fit the [int] that holds the size of the buffer, and the metadata
    area is the superblock's block followed by [blocks] blocks,
    [process_meta] returns 0 and visits, in order and without a gap,
    [floor(block size / entry size)] entries of every block after the first:
    slot number [k] is entry [k mod per_block] of block [1 + k / per_block],
    where the entry size is [sizeof(clean_disk_entry)] plus twice the bitmap
    size that the superblock implies.  It ends with [meta_pos] at the end of
    the area. *)
Theorem superblock_layout_addresses dev t (blocks : nat) :
  can_open dev = true -> has_superblock dev = true ->
  hdr_meta_block_size (first_block dev) = meta_block_size t ->
  0 < meta_block_size t ->
  8 * meta_block_size t < 2 ^ 31 ->
  meta_block_size t mod DIRECT_IO_ALIGNMENT = 0 ->
  hdr_bitmap_granularity (first_block dev) <> 0 ->
  meta_len t = (Z.of_nat blocks + 1) * meta_block_size t ->
  meta_len t <= UINT64_MAX ->
  let entry_size :=
    sizeof_clean_disk_entry
    + 2 * (hdr_data_block_size (first_block dev)
           / hdr_bitmap_granularity (first_block dev) / 8) in
  let per_block := meta_block_size t / entry_size in
  0 < entry_size <= meta_block_size t ->
  exists t' slots calls,
    process_meta sizeof_clean_disk_entry dev t = Ok (0, t', slots, calls)
    /\ clean_entry_size t' = entry_size
    /\ meta_pos t' = meta_len t
    /\ Z.of_nat (length slots) = Z.of_nat blocks * per_block
    /\ forall k s, slots !! k = Some s ->
         block_num s = Z.of_nat k
         /\ dev_offset s
            = (1 + Z.of_nat k / per_block) * meta_block_size t
              + (Z.of_nat k mod per_block) * entry_size.
Proof.
  intros Hopen Hsb Hsame Hmbs Hint Hal Hgran Hlen Hmax entry_size per_block Hes.
  destruct (probe_size_blocks t) as (q & Hq & Hqpos); try done; try lia.
  { rewrite Hlen. apply Z_mod_mult. }
  unfold process_meta. rewrite Hal, Hopen. cbn [negb Z.eqb].
  assert ((meta_block_size t =? 0) = false) as -> by lia.
  cbv zeta.
  assert ((probe_size t <=? 0) = false) as -> by nia.
  unfold has_superblock in Hsb. rewrite Hsb.
  rewrite Hsame.
  assert ((meta_block_size t =? 0) = false) as -> by lia.
  rewrite Z.eqb_refl. cbn [negb andb].
  assert ((hdr_bitmap_granularity (first_block dev) =? 0) = false) as -> by lia.
  set (t1 := mk_tool _ _ _ _ _ _).
  destruct (read_loop_laid_out (meta_block_size t) entry_size
              ltac:(lia) ltac:(lia) ltac:(unfold UINT64_MAX in *; nia)
              (Z.to_nat (meta_len t) + 1) (probe_size t) q (Z.of_nat blocks)
              t1 1 0)
    as (slots & t2 & Hrun & Hpos & Hces & Hslen & Hlaid); try done; try lia.
  { simpl. lia. }
  { nia. }
  rewrite Z.mul_1_l in Hrun. rewrite Hrun.
  eexists _, _, _. split; [reflexivity|].
  split_and!; try done.
  - rewrite Hslen. unfold per_block. lia.
  - intros k s Hk. destruct (Hlaid _ _ Hk) as [Hn Hoff].
    split; [lia|]. rewrite Hoff. unfold per_block. lia.
Qed.
End Superblock.

Lemma superblock_layout_addresses_witness :
  exists t' slots calls,
    process_meta 24 Inputs.c8_device Inputs.c8_tool = Ok (0, t', slots, calls)
    /\ clean_entry_size t' = 32
    /\ meta_pos t' = 12288
    /\ Z.of_nat (length slots) = 2 * 128
    /\ forall k s, slots !! k = Some s ->
         block_num s = Z.of_nat k
         /\ dev_offset s
            = (1 + Z.of_nat k / 128) * 4096 + (Z.of_nat k mod 128) * 32.
Proof.
  apply (superblock_layout_addresses 24 Inputs.c8_device Inputs.c8_tool 2);
    try reflexivity; try done.
Defined.

End DiskToolMore.

(** ** The dump of the metadata *)
Module DumpMore.
Import DiskTool DiskToolProps DiskNotions DiskToolMore DumpMeta.

Lemma append_nil_r (s : string) : s +:+ "" = s.
Proof.
  induction s as [|c s IH]; [done|].
  change (String c (s +:+ "") = String c s). by rewrite IH.
Qed.

Lemma append_assoc (s1 s2 s3 : string) :
  (s1 +:+ s2) +:+ s3 = s1 +:+ (s2 +:+ s3).
Proof.
  induction s1 as [|c s1 IH]; [done|].
  change (String c ((s1 +:+ s2) +:+ s3) = String c (s1 +:+ (s2 +:+ s3))).
  by rewrite IH.
Qed.

Lemma concat_empty_cons a (l : list string) :
  String.concat "" (a :: l) = a +:+ String.concat "" l.
Proof. destruct l; [symmetry; apply append_nil_r|reflexivity]. Qed.

Lemma concat_separated sep x (l : list string) :
  x +:+ String.concat "" ((fun y => sep +:+ y) <$> l)
  = String.concat sep (x :: l).
Proof.
  revert x. induction l as [|y l IH]; intros x.
  - apply append_nil_r.
  - rewrite fmap_cons, concat_empty_cons, append_assoc, IH. reflexivity.
Qed.

Section Output.
Variable sizeof_clean_disk_entry : Z.
Variable INODE_POOL : Z -> Z.
Variable INODE_NO_POOL : Z -> Z.
Variable stripe_at : Z -> Z.
Variable version_at : Z -> Z.
Variable bitmap_at : Z -> Z -> Z.

(** The entries after the first one: each is printed after a separator. *)
Lemma dump_later_entries dev t bm (l : list slot) : forall p,
  first p = false ->
  fold_left (dump_call INODE_POOL INODE_NO_POOL stripe_at version_at bitmap_at
                       dev t)
            ((fun s => RecordFn s bm) <$> l) p
  = mk_printer
      (printed p
       +:+ String.concat ""
             ((fun s => ("," +:+ newline)
                        +:+ entry_text INODE_POOL INODE_NO_POOL stripe_at
                              version_at bitmap_at dev t s bm) <$> l))
      false.
Proof.
  induction l as [|s l IH]; intros p Hp.
  - simpl. rewrite append_nil_r. destruct p. simpl in Hp. by subst.
  - rewrite !fmap_cons. cbn [fold_left dump_call]. rewrite IH by done.
    unfold dump_meta_entry. cbn [printed first]. rewrite Hp.
    by rewrite concat_empty_cons, !append_assoc.
Qed.

(** X16.  What [dump_meta] prints for a metadata area of whole blocks
    ([whole_blocks]) on which [process_meta] returns.  When [process_meta]
    fails (returns 1) only the closing line is printed, without any opening.
    Otherwise the output is the header line, then the entries of the slots
    in use separated by a comma and a newline, with no separator before the
    first or after the last, then the closing line; the return value is that
    of [process_meta]. *)
Theorem dump_meta_output dev t p r t' slots calls :
  whole_blocks dev t ->
  process_meta sizeof_clean_disk_entry dev t = Ok (r, t', slots, calls) ->
  exists p',
    dump_meta sizeof_clean_disk_entry INODE_POOL INODE_NO_POOL stripe_at
              version_at bitmap_at dev t p = Ok (r, p')
    /\ (r = 1 ->
        printed p' = printed p +:+ newline +:+ "]}" +:+ newline)
    /\ (r <> 1 ->
        printed p'
        = printed p
          +:+ header_text (if has_superblock dev then Some (first_block dev)
                           else None) t'
          +:+ String.concat ("," +:+ newline)
                ((fun s => entry_text INODE_POOL INODE_NO_POOL stripe_at
                             version_at bitmap_at dev t' s (has_superblock dev))
                   <$> List.filter
                         (fun s => negb (inode_at dev (dev_offset s) =? 0))
                         slots)
          +:+ newline +:+ "]}" +:+ newline).
Proof.
  intros _ Hrun. unfold dump_meta. rewrite Hrun. cbn [mbind outcome_bind].
  eexists. split; [reflexivity|]. cbn [printed].
  destruct (process_meta_shape _ _ _ _ _ _ _ Hrun)
    as [(-> & -> & -> & -> & _)|(-> & _ & _ & -> & _)].
  - split; [done|]. intros Hne. done.
  - split; [done|]. intros _. unfold record_calls.
    cbn [fold_left dump_call].
    destruct (List.filter _ slots) as [|s l].
    + cbn [fmap list_fmap fold_left dump_meta_header printed].
      rewrite !append_assoc. reflexivity.
    + rewrite !fmap_cons. cbn [fold_left dump_call].
      rewrite dump_later_entries by done.
      unfold dump_meta_entry, dump_meta_header. cbn [printed first].
      rewrite <- (concat_separated ("," +:+ newline)).
      rewrite <- list_fmap_compose. unfold compose.
      rewrite !append_assoc. reflexivity.
Qed.
End Output.

Lemma dump_meta_output_witness :
  whole_blocks DumpInputs.two_entries DumpInputs.one_block_tool
  /\ exists p',
    dump_meta 24 DumpInputs.pool_of DumpInputs.number_in_pool
      DumpInputs.no_stripe DumpInputs.version_one DumpInputs.no_bits
      DumpInputs.two_entries DumpInputs.one_block_tool DumpInputs.blank
    = Ok (0, p')
    /\ (exists t' slots,
          printed p'
          = printed DumpInputs.blank
            +:+ header_text (Some Inputs.c8_superblock) t'
            +:+ String.concat ("," +:+ newline)
                  ((fun s => entry_text DumpInputs.pool_of
                               DumpInputs.number_in_pool DumpInputs.no_stripe
                               DumpInputs.version_one DumpInputs.no_bits
                               DumpInputs.two_entries t' s true)
                     <$> List.filter
                           (fun s => negb (inode_at DumpInputs.two_entries
                                             (dev_offset s) =? 0))
                           slots)
            +:+ newline +:+ "]}" +:+ newline
          /\ length (List.filter
                       (fun s => negb (inode_at DumpInputs.two_entries
                                         (dev_offset s) =? 0))
                       slots) = 2%nat).
Proof.
  assert (Hwhole : whole_blocks DumpInputs.two_entries DumpInputs.one_block_tool)
    by (vm_compute; intuition congruence).
  split; [exact Hwhole|].
  destruct (process_meta 24 DumpInputs.two_entries DumpInputs.one_block_tool)
    as [[[[r t'] slots] calls]| |] eqn:Hrun; try (vm_compute in Hrun; discriminate).
  assert (r = 0) as -> by (vm_compute in Hrun; by injection Hrun as <- _ _ _).
  destruct (dump_meta_output 24 DumpInputs.pool_of DumpInputs.number_in_pool
              DumpInputs.no_stripe DumpInputs.version_one DumpInputs.no_bits
              DumpInputs.two_entries DumpInputs.one_block_tool
              DumpInputs.blank 0 t' slots calls Hwhole Hrun)
    as (p' & Hp' & _ & Hout).
  exists p'. split; [done|]. exists t', slots.
  split; [by apply Hout|].
  vm_compute in Hrun. injection Hrun as _ <- _. reflexivity.
Defined.

End DumpMore.

(** ** The parsing of the command line *)
Module CliProps.
Import Cli CliNotions.

Lemma prefix_first_two c c' a :
  String.length c = 1%nat -> String.length c' = 1%nat -> c <> c' ->
  opt_char c a = true -> opt_char c' a = false.
Proof.
  unfold opt_char. intros Hc Hc' Hne Ha.
  destruct (String.prefix ("-" +:+ c') a) eqn:Ha'; [|done]. exfalso.
  apply String.prefix_correct in Ha, Ha'.
  assert (Hl : String.length ("-" +:+ c) = String.length ("-" +:+ c')).
  { change (S (String.length c) = S (String.length c')). by rewrite Hc, Hc'. }
  rewrite Hl, Ha' in Ha. apply Hne. by injection Ha.
Qed.

Lemma help_is_not_value a :
  takes_value a = true ->
  bool_decide (a = "-h") || bool_decide (a = "--help") = false.
Proof.
  intros Ht. apply orb_false_intro; apply bool_decide_eq_false; intros ->;
    vm_compute in Ht; done.
Qed.

(** The loop on an option that takes a value and is the last argument. *)
Lemma parse_loop_trailing_value a cfg cmd :
  takes_value a = true -> parse_loop [a] cfg cmd = inl StopPastEnd.
Proof.
  intros Ht. simpl. rewrite (help_is_not_value a Ht).
  unfold takes_value in Ht.
  destruct (opt_char "n" a) eqn:Hn.
  { rewrite (prefix_first_two "n" "l" a); done. }
  destruct (opt_char "p" a) eqn:Hp.
  { rewrite (prefix_first_two "p" "l" a), (prefix_first_two "p" "i" a); done. }
  simpl in Ht.
  rewrite (prefix_first_two "s" "l" a), (prefix_first_two "s" "i" a); try done.
  by rewrite Ht.
Qed.

Lemma parse_loop_safe n : forall rest cfg cmd,
  (length rest <= n)%nat ->
  (forall a, last rest = Some a -> takes_value a = false) ->
  parse_loop rest cfg cmd <> inl StopPastEnd.
Proof.
  induction n as [|n IH]; intros rest cfg cmd Hlen Hlast.
  - destruct rest; [done|simpl in Hlen; lia].
  - destruct rest as [|a rest']; [done|]. simpl in Hlen.
    assert (Hnext : forall cfg' cmd',
              parse_loop rest' cfg' cmd' <> inl StopPastEnd).
    { intros cfg' cmd'. apply IH; [lia|].
      intros x Hx. apply Hlast. destruct rest'; [done|]. done. }
    assert (Hskip : forall v rest'' cfg' cmd', rest' = v :: rest'' ->
              parse_loop rest'' cfg' cmd' <> inl StopPastEnd).
    { intros v rest'' cfg' cmd' ->. apply IH; [simpl in Hlen; lia|].
      intros x Hx. apply Hlast. destruct rest''; [done|]. done. }
    assert (Hval : rest' = [] -> takes_value a = false).
    { intros ->. by apply Hlast. }
    simpl.
    destruct (bool_decide (a = "-h") || bool_decide (a = "--help")); [done|].
    destruct (opt_char "l" a); [apply Hnext|].
    destruct (opt_char "n" a) eqn:Hn.
    { destruct rest' as [|v rest'']; [|by eapply Hskip].
      unfold takes_value in Hval. rewrite Hn in Hval. by specialize (Hval eq_refl). }
    destruct (opt_char "i" a); [apply Hnext|].
    destruct (opt_char "p" a) eqn:Hp.
    { destruct rest' as [|v rest'']; [|by eapply Hskip].
      unfold takes_value in Hval. rewrite Hn, Hp in Hval.
      by specialize (Hval eq_refl). }
    destruct (opt_char "s" a) eqn:Hs.
    { destruct rest' as [|v rest'']; [|by eapply Hskip].
      unfold takes_value in Hval. rewrite Hn, Hp, Hs in Hval.
      by specialize (Hval eq_refl). }
    destruct (opt_char "-" a).
    { destruct rest' as [|v rest'']; [done|].
      destruct (_ || _); [apply Hnext|by eapply Hskip]. }
    apply Hnext.
Qed.

Lemma substring_all (s : string) : String.substring 0 (String.length s) s = s.
Proof.
  induction s as [|c s IH]; [done|].
  change (String c (String.substring 0 (String.length s) s) = String c s).
  by rewrite IH.
Qed.

Lemma after_dashes_name name : after_dashes ("--" +:+ name) = name.
Proof.
  unfold after_dashes.
  change ("--" +:+ name) with (String dash (String dash name)).
  change (String.length (String dash (String dash name)))
    with (S (S (String.length name))).
  replace (S (S (String.length name)) - 2)%nat with (String.length name) by lia.
  change (String.substring 0 (String.length name) name = name).
  apply substring_all.
Qed.

Lemma double_dash name : opt_char "-" ("--" +:+ name) = true.
Proof.
  unfold opt_char. apply String.prefix_correct.
  change ("--" +:+ name) with (String dash (String dash name)).
  by destruct name.
Qed.

(** The loop on a trailing [--name]. *)
Lemma parse_loop_trailing_name name cfg cmd :
  name <> "help" ->
  parse_loop ["--" +:+ name] cfg cmd
  = inr (<[name := JString "1"]> cfg, cmd).
Proof.
  intros Hname. pose proof (double_dash name) as Hd. cbn [parse_loop].
  rewrite (prefix_first_two "-" "l"), (prefix_first_two "-" "n"),
    (prefix_first_two "-" "i"), (prefix_first_two "-" "p"),
    (prefix_first_two "-" "s"), Hd, after_dashes_name; try done.
  assert (bool_decide ("--" +:+ name = "-h")
          || bool_decide ("--" +:+ name = "--help") = false) as ->; [|done].
  apply orb_false_intro; apply bool_decide_eq_false.
  - change ("--" +:+ name) with (String dash (String dash name)). done.
  - change ("--" +:+ name) with (String dash (String dash name)).
    intros [= ->]. done.
Qed.

(** X17.  [parse_args] reads [args[narg]] only for an option that takes a
    value ([-n], [-p], [-s], or any argument that starts like one) in the
    last position: when the last argument is not such an option the code
    never reads past the arguments, and when such an option is the only
    argument it does.  A trailing [--name], in contrast, is given the value
    ["1"]. *)
Theorem value_option_in_last_position exe prog :
  (forall args, (forall a, last (tail args) = Some a -> takes_value a = false) ->
     parse_args exe args <> ReadsPastEnd)
  /\ (forall a, takes_value a = true ->
        parse_args exe [prog; a] = ReadsPastEnd)
  /\ (forall name cfg cmd, name <> "help" ->
        parse_loop ["--" +:+ name] cfg cmd
        = inr (<[name := JString "1"]> cfg, cmd)).
Proof.
  split_and!.
  - intros args Hlast. unfold parse_args.
    pose proof (parse_loop_safe (length (tail args)) (tail args)
                  (<["progress" := JString "1"]> ∅) [] (le_n _) Hlast) as Hsafe.
    destruct (parse_loop _ _ _) as [[]|[cfg cmd]]; try done.
    destruct cmd; [|done]. destruct exe as [exe|]; [|done].
    by destruct (last_11 exe).
  - intros a Ht. unfold parse_args. simpl tail.
    by rewrite parse_loop_trailing_value.
  - apply parse_loop_trailing_name.
Qed.


Lemma parse_loop_command n : forall rest cfg cmd cfg' cmd',
  (length rest <= n)%nat ->
  parse_loop rest cfg cmd = inr (cfg', cmd') ->
  exists words, cmd' = cmd ++ words
    /\ sublist words rest
    /\ Forall (fun w => is_option w = false) words
    /\ (forall k, is_Some (cfg !! k) -> is_Some (cfg' !! k)).
Proof.
  induction n as [|n IH]; intros rest cfg cmd cfg' cmd' Hlen Hrun.
  - destruct rest; [|simpl in Hlen; lia]. injection Hrun as <- <-.
    exists []. rewrite app_nil_r. split_and!; done.
  - destruct rest as [|a rest'].
    { injection Hrun as <- <-. exists []. rewrite app_nil_r. split_and!; done. }
    simpl in Hlen.
    assert (Hkeep : forall k v c, is_Some (cfg !! k) ->
              is_Some (<[c := v]> cfg !! k)).
    { intros k v c Hk. destruct (decide (c = k)) as [->|Hne].
      - rewrite lookup_insert_eq. by eexists.
      - by rewrite lookup_insert_ne. }
    assert (Hnext : forall c v,
              parse_loop rest' (<[c := v]> cfg) cmd = inr (cfg', cmd') ->
              exists words, cmd' = cmd ++ words
                /\ sublist words (a :: rest')
                /\ Forall (fun w => is_option w = false) words
                /\ (forall k, is_Some (cfg !! k) -> is_Some (cfg' !! k))).
    { intros c v Hr. apply IH in Hr as (words & -> & Hsub & Hall & Hk); [|lia].
      exists words. split_and!; try done; [by apply sublist_cons|].
      intros k Hin. by apply Hk, Hkeep. }
    assert (Hskip : forall c v x rest'', rest' = x :: rest'' ->
              parse_loop rest'' (<[c := v]> cfg) cmd = inr (cfg', cmd') ->
              exists words, cmd' = cmd ++ words
                /\ sublist words (a :: rest')
                /\ Forall (fun w => is_option w = false) words
                /\ (forall k, is_Some (cfg !! k) -> is_Some (cfg' !! k))).
    { intros c v x rest'' -> Hr. simpl in Hlen.
      apply IH in Hr as (words & -> & Hsub & Hall & Hk); [|lia].
      exists words. split_and!; try done; [by do 2 apply sublist_cons|].
      intros k Hin. by apply Hk, Hkeep. }
    simpl in Hrun. unfold is_option.
    destruct (bool_decide (a = "-h") || bool_decide (a = "--help")) eqn:Hh;
      [done|].
    destruct (opt_char "l" a) eqn:Hl; [by eapply Hnext|].
    destruct (opt_char "n" a) eqn:Hn.
    { destruct rest' as [|v rest'']; [done|]. by eapply Hskip. }
    destruct (opt_char "i" a) eqn:Hi; [by eapply Hnext|].
    destruct (opt_char "p" a) eqn:Hp.
    { destruct rest' as [|v rest'']; [done|]. by eapply Hskip. }
    destruct (opt_char "s" a) eqn:Hs.
    { destruct rest' as [|v rest'']; [done|]. by eapply Hskip. }
    destruct (opt_char "-" a) eqn:Hd.
    { destruct rest' as [|v rest'']; [by eapply Hnext|].
      match type of Hrun with
      | (if ?c then _ else _) = _ => destruct c
      end; [by eapply Hnext|by eapply Hskip]. }
    apply IH in Hrun as (words & -> & Hsub & Hall & Hk); [|lia].
    exists (a :: words). rewrite <- app_assoc. split_and!; try done.
    + by apply sublist_skip.
    + constructor; [|done]. unfold is_option.
      by rewrite Hh, Hl, Hn, Hi, Hp, Hs, Hd.
Qed.

(** X18.  The configuration that [parse_args] returns.  Its [command] is
    always the array of the command words, whatever [--command] said; the
    words are arguments after [args[0]], in their order, none of them an
    option, or the array is the single word [rm-data], or it is empty; and
    [progress] is set, to ["1"] unless an argument gave it a value. *)
Theorem command_is_positional exe args cfg :
  parse_args exe args = Parsed cfg ->
  exists cmd,
    cfg !! "command" = Some (JArray cmd)
    /\ Forall (fun w => is_option w = false) cmd
    /\ (sublist cmd (tail args) \/ cmd = ["rm-data"])
    /\ is_Some (cfg !! "progress").
Proof.
  unfold parse_args.
  destruct (parse_loop _ _ _) as [[]|[cfg' cmd]] eqn:Hrun; try done.
  apply (parse_loop_command (length (tail args))) in Hrun
    as (words & -> & Hsub & Hall & Hkeep); [|done].
  assert (Hprog : forall c v, is_Some (<[c := v]> cfg' !! "progress")).
  { intros c v. destruct (decide (c = "progress")) as [->|Hne].
    - rewrite lookup_insert_eq. by eexists.
    - rewrite lookup_insert_ne by done. apply Hkeep.
      rewrite lookup_insert_eq. by eexists. }
  simpl app. destruct words as [|w words].
  - destruct exe as [exe|]; [|done]. destruct (last_11 exe); [|done].
    intros [= <-]. eexists. rewrite lookup_insert_eq. split; [done|].
    case_bool_decide; split_and!; try done.
    + by repeat constructor.
    + by right.
    + left. apply sublist_nil_l.
  - intros [= <-]. exists (w :: words). rewrite lookup_insert_eq.
    split_and!; try done. by left.
Qed.

Lemma command_is_positional_witness :
  exists cfg cmd,
    parse_args (Some "vitastor-cli")
      ["vitastor-cli"; "rm"; "-n"; "-x"; "img"; "--writers-stopped"; "snap"]
    = Parsed cfg
    /\ cfg !! "command" = Some (JArray cmd)
    /\ cmd = ["rm"; "img"; "snap"]
    /\ cfg !! "count" = Some (JString "-x")
    /\ Forall (fun w => is_option w = false) cmd
    /\ (sublist cmd (tail ["vitastor-cli"; "rm"; "-n"; "-x"; "img";
                           "--writers-stopped"; "snap"])
        \/ cmd = ["rm-data"])
    /\ is_Some (cfg !! "progress").
Proof.
  destruct (parse_args (Some "vitastor-cli")
              ["vitastor-cli"; "rm"; "-n"; "-x"; "img"; "--writers-stopped";
               "snap"]) as [cfg| | | |] eqn:Hp;
    try (vm_compute in Hp; discriminate).
  destruct (command_is_positional _ _ _ Hp) as (cmd & Hc & Hall & Hsub & Hprog).
  exists cfg, cmd. split_and!; try done.
  - vm_compute in Hp. injection Hp as <-. vm_compute in Hc. by injection Hc.
  - vm_compute in Hp. by injection Hp as <-.
Defined.

Lemma parse_loop_flags rest : forall cfg cmd,
  Forall (fun a => is_short_flag a = true) rest ->
  exists cfg', parse_loop rest cfg cmd = inr (cfg', cmd).
Proof.
  induction rest as [|a rest IH]; intros cfg cmd Hall; [by eexists|].
  apply Forall_cons in Hall as [Ha Hall]. cbn [parse_loop].
  assert (bool_decide (a = "-h") || bool_decide (a = "--help") = false) as ->.
  { apply orb_false_intro; apply bool_decide_eq_false; intros ->;
      vm_compute in Ha; done. }
  unfold is_short_flag in Ha. destruct (opt_char "l" a) eqn:Hl; [by apply IH|].
  simpl in Ha. rewrite (prefix_first_two "i" "n" a) by done.
  rewrite Ha. by apply IH.
Qed.

(** X19.  Without a command word the program name decides.  When every
    argument after [args[0]] is a flag that starts with [-l] or [-i], a
    program name of fewer than 11 characters makes [parse_args] throw
    [std::out_of_range] from [substr]; with a longer name it returns, and the
    command is [rm-data] if the name ends in [vitastor-rm] and empty if
    not. *)
Theorem no_command_word_uses_exe_name exe args :
  Forall (fun a => is_short_flag a = true) (tail args) ->
  ((String.length exe < 11)%nat -> parse_args (Some exe) args = OutOfRange)
  /\ ((11 <= String.length exe)%nat ->
      exists cfg, parse_args (Some exe) args = Parsed cfg
        /\ cfg !! "command"
           = Some (JArray
                     (if bool_decide
                           (String.substring (String.length exe - 11) 11 exe
                            = "vitastor-rm")
                      then ["rm-data"] else []))).
Proof.
  intros Hall. unfold parse_args.
  destruct (parse_loop_flags (tail args) (<["progress" := JString "1"]> ∅) []
              Hall) as [cfg' ->].
  unfold last_11. split.
  - intros Hshort. by rewrite (proj2 (Nat.ltb_lt _ _) Hshort).
  - intros Hlong. rewrite (proj2 (Nat.ltb_ge _ _) Hlong).
    eexists. split; [reflexivity|]. by rewrite lookup_insert_eq.
Qed.

Lemma no_command_word_uses_exe_name_witness :
  parse_args (Some "./cli") ["./cli"; "-l"] = OutOfRange
  /\ exists cfg,
       parse_args (Some "/usr/bin/vitastor-rm") ["/usr/bin/vitastor-rm"; "-i"]
       = Parsed cfg
       /\ cfg !! "command" = Some (JArray ["rm-data"]).
Proof.
  split.
  - apply (no_command_word_uses_exe_name "./cli" ["./cli"; "-l"]).
    + repeat constructor.
    + simpl. lia.
  - destruct (no_command_word_uses_exe_name "/usr/bin/vitastor-rm"
                ["/usr/bin/vitastor-rm"; "-i"]) as [_ Hlong].
    + repeat constructor.
    + destruct Hlong as (cfg & Hp & Hc); [simpl; lia|]. by exists cfg.
Defined.

End CliProps.

(** ** Inode numbers and creation in the NFS proxy *)
Module NfsProps.
Import NfsCreate NfsNotions.

Lemma handed_out_S first count :
  handed_out first (S count) = Some (0, first) :: handed_out (first + 1) count.
Proof.
  unfold handed_out. cbn [seq map]. f_equal; [do 2 f_equal; lia|].
  rewrite <- seq_shift, map_map. apply map_ext. intros i. do 2 f_equal. lia.
Qed.

Lemma wrap64_small x : 0 <= x < 2 ^ 64 -> wrap64 x = x.
Proof. intros H. unfold wrap64. by apply Z.mod_small. Qed.

Lemma wrap64_range x : 0 <= wrap64 x < 2 ^ 64.
Proof. unfold wrap64. apply Z.mod_pos_bound. lia. Qed.

Section Allocation.
Variable stoull_full : string -> Z.

(** X20: while the reserved range is not used up, allocations hand out its
    identifiers one after the other, in increasing order and without asking
    the database. *)
Lemma batch_is_handed_out_in_order (count : nat) (p : nfs_proxy_t) :
  0 <= fs_next_id (kvfs p) ->
  fs_allocated_id (kvfs p) + 1 < 2 ^ 64 ->
  fs_next_id (kvfs p) + Z.of_nat count <= fs_allocated_id (kvfs p) + 1 ->
  allocate_in_a_row stoull_full count p =
    (handed_out (fs_next_id (kvfs p)) count,
     set_kvfs (mk_kvfs (fs_next_id (kvfs p) + Z.of_nat count)
                       (fs_allocated_id (kvfs p))
                       (unallocated_ids (kvfs p))) p,
     []).
Proof.
  revert p. induction count as [|count IH]; intros p Hpos Hmax Hcount.
  - cbn [allocate_in_a_row]. destruct p as [ic bs [n al un]]; cbn.
    unfold handed_out, set_kvfs; cbn. by rewrite Z.add_0_r.
  - cbn [allocate_in_a_row allocate_new_id].
    destruct (fs_next_id (kvfs p) <=? fs_allocated_id (kvfs p)) eqn:Hfast;
      [|lia].
    rewrite wrap64_small by lia.
    rewrite IH; cbn [kvfs set_kvfs fs_next_id fs_allocated_id unallocated_ids];
      try lia.
    rewrite handed_out_S. unfold set_kvfs; cbn. do 4 f_equal. lia.
Qed.

(** X21: a round that wins the write of the counter returns the identifier
    after the value read, has written the top of the range it reserves
    under a compare on the value read, and keeps the rest of the range for
    the next calls; the identifier returned lies in the range written. *)
Lemma reservation_matches_database_write (a : db_round)
    (answers : list db_round) (p : nfs_proxy_t) :
  let prev := Z.max 1 (stoull_full (prev_str a)) in
  let top := Z.min (prev + id_alloc_batch_size p) (fs_inode_count p) in
  fs_allocated_id (kvfs p) < fs_next_id (kvfs p) <= fs_inode_count p ->
  0 <= get_res a \/ get_res a = - ENOENT ->
  stoull_full (prev_str a) < fs_inode_count p ->
  1 < fs_inode_count p ->
  0 <= set_res a ->
  1 <= id_alloc_batch_size p ->
  fs_inode_count p + id_alloc_batch_size p < 2 ^ 64 ->
  allocate_new_id stoull_full (a :: answers) p =
    (Some (0, prev + 1),
     set_kvfs (mk_kvfs (prev + 2) top (unallocated_ids (kvfs p))) p,
     [GetNextId; SetNextId top prev]) /\
  prev < prev + 1 <= top.
Proof.
  intros prev top Hslow Hget Hprev Hcount Hset Hbatch Hmax.
  cbn [allocate_new_id].
  destruct (fs_next_id (kvfs p) <=? fs_allocated_id (kvfs p)) eqn:E1; [lia|].
  destruct (fs_inode_count p <? fs_next_id (kvfs p)) eqn:E2; [lia|].
  destruct ((get_res a <? 0) && negb (get_res a =? - ENOENT)) eqn:E3;
    [unfold ENOENT in *; lia|].
  destruct (fs_inode_count p <=? stoull_full (prev_str a)) eqn:E4; [lia|].
  assert (Hpv : (if stoull_full (prev_str a) <? 1 then 1
                 else stoull_full (prev_str a)) = prev).
  { subst prev. destruct (stoull_full (prev_str a) <? 1) eqn:E; lia. }
  rewrite Hpv.
  assert (1 <= prev < fs_inode_count p) by (subst prev; lia).
  rewrite !wrap64_small by lia.
  assert (Htop : (if fs_inode_count p <=? prev + id_alloc_batch_size p
                  then fs_inode_count p
                  else prev + id_alloc_batch_size p) = top).
  { subst top.
    destruct (fs_inode_count p <=? prev + id_alloc_batch_size p) eqn:E; lia. }
  rewrite Htop.
  destruct (set_res a =? - EAGAIN) eqn:E5; [unfold EAGAIN in *; lia|].
  destruct (set_res a <? 0) eqn:E6; [lia|].
  split; [done|]. subst top. lia.
Qed.

(** X22: rounds that lose the write of the counter are played again: the
    result and the proxy are those of the rounds that follow, and each lost
    round has cost one read and one write. *)
Lemma lost_races_are_retried (lost answers : list db_round) (p : nfs_proxy_t) :
  fs_allocated_id (kvfs p) < fs_next_id (kvfs p) <= fs_inode_count p ->
  Forall (lost_round stoull_full p) lost ->
  allocate_new_id stoull_full (lost ++ answers) p =
    (let '(r, p', reqs) := allocate_new_id stoull_full answers p in
     (r, p', flat_map (round_requests stoull_full p) lost ++ reqs)).
Proof.
  intros Hslow Hlost. induction Hlost as [|a lost [Hget [Hprev Hset]] _ IH].
  - cbn [app flat_map]. by destruct (allocate_new_id _ _ _) as [[r p'] reqs].
  - cbn [app flat_map allocate_new_id]. rewrite IH.
    destruct (allocate_new_id stoull_full answers p) as [[r p'] reqs].
    destruct (fs_next_id (kvfs p) <=? fs_allocated_id (kvfs p)) eqn:E1; [lia|].
    destruct (fs_inode_count p <? fs_next_id (kvfs p)) eqn:E2; [lia|].
    destruct ((get_res a <? 0) && negb (get_res a =? - ENOENT)) eqn:E3;
      [unfold ENOENT in *; lia|].
    destruct (fs_inode_count p <=? stoull_full (prev_str a)) eqn:E4; [lia|].
    rewrite Hset, Z.eqb_refl. unfold round_requests. cbn [app].
    do 4 f_equal.
    + set (prev := if stoull_full (prev_str a) <? 1 then 1
                   else stoull_full (prev_str a)).
      assert (Hp : prev = Z.max 1 (stoull_full (prev_str a))).
      { subst prev. destruct (stoull_full (prev_str a) <? 1) eqn:E; lia. }
      rewrite <- Hp.
      destruct (fs_inode_count p <=? wrap64 (prev + id_alloc_batch_size p))
        eqn:E; lia.
    + destruct (stoull_full (prev_str a) <? 1) eqn:E; lia.
Qed.

(** X23: with the counters in order, an allocation either returns an
    identifier between 1 and the number of inodes and leaves the counters
    in order, or reports an error with identifier 0 and changes nothing. *)
Lemma allocation_respects_inode_count (answers : list db_round)
    (p p' : nfs_proxy_t) (res id : Z) (reqs : list db_request) :
  counters_ok p ->
  allocate_new_id stoull_full answers p = (Some (res, id), p', reqs) ->
  (res = 0 /\ 1 <= id <= fs_inode_count p /\ counters_ok p' /\
   fs_inode_count p' = fs_inode_count p) \/
  (res < 0 /\ id = 0 /\ p' = p).
Proof.
  intros (Hnext & Halloc & Hcount & Hmax). revert reqs.
  induction answers as [|a answers IH]; intros reqs; cbn [allocate_new_id].
  - destruct (fs_next_id (kvfs p) <=? fs_allocated_id (kvfs p)) eqn:E1.
    + intros [= <- <- <- <-]. left.
      rewrite wrap64_small by lia.
      unfold counters_ok; cbn. lia.
    + destruct (fs_inode_count p <? fs_next_id (kvfs p)) eqn:E2; [|done].
      intros [= <- <- <- <-]. right. unfold ENOSPC. done.
  - destruct (fs_next_id (kvfs p) <=? fs_allocated_id (kvfs p)) eqn:E1.
    { intros [= <- <- <- <-]. left.
      rewrite wrap64_small by lia.
      unfold counters_ok; cbn. lia. }
    destruct (fs_inode_count p <? fs_next_id (kvfs p)) eqn:E2.
    { intros [= <- <- <- <-]. right. unfold ENOSPC. done. }
    destruct ((get_res a <? 0) && negb (get_res a =? - ENOENT)) eqn:E3.
    { intros [= <- <- <- <-]. right. split_and!; [lia|done|done]. }
    destruct (fs_inode_count p <=? stoull_full (prev_str a)) eqn:E4.
    { intros [= <- <- <- <-]. right. unfold ENOSPC. done. }
    set (prev := if stoull_full (prev_str a) <? 1 then 1
                 else stoull_full (prev_str a)).
    assert (1 <= prev < fs_inode_count p).
    { subst prev. destruct (stoull_full (prev_str a) <? 1) eqn:E; lia. }
    set (top := if fs_inode_count p <=? wrap64 (prev + id_alloc_batch_size p)
                then fs_inode_count p
                else wrap64 (prev + id_alloc_batch_size p)).
    assert (0 <= top <= fs_inode_count p).
    { subst top. pose proof (wrap64_range (prev + id_alloc_batch_size p)).
      destruct (fs_inode_count p <=? wrap64 (prev + id_alloc_batch_size p))
        eqn:E; lia. }
    destruct (set_res a =? - EAGAIN) eqn:E5.
    { destruct (allocate_new_id stoull_full answers p) as [[r q] rq] eqn:Hrest.
      intros [= -> -> <-]. by eapply IH. }
    destruct (set_res a <? 0) eqn:E6.
    { intros [= <- <- <- <-]. right. split_and!; [lia|done|done]. }
    intros [= <- <- <- <-]. left.
    rewrite !wrap64_small by lia.
    unfold counters_ok; cbn. lia.
Qed.
End Allocation.

Lemma batch_is_handed_out_in_order_witness :
  allocate_in_a_row (NfsInputs.reads_as 0) 3 (NfsInputs.proxy 5 7) =
    ([Some (0, 5); Some (0, 6); Some (0, 7)], NfsInputs.proxy 8 7, []).
Proof.
  apply (batch_is_handed_out_in_order (NfsInputs.reads_as 0) 3
           (NfsInputs.proxy 5 7)); vm_compute; congruence.
Defined.

Lemma reservation_matches_database_write_witness :
  allocate_new_id (NfsInputs.reads_as 40) [mk_round 0 "40" 0]
      (NfsInputs.proxy 8 7) =
    (Some (0, 41), NfsInputs.proxy 42 50, [GetNextId; SetNextId 50 40]) /\
  40 < 41 <= 50.
Proof.
  apply (reservation_matches_database_write (NfsInputs.reads_as 40)
           (mk_round 0 "40" 0) [] (NfsInputs.proxy 8 7));
    vm_compute; intuition congruence.
Defined.

Lemma lost_races_are_retried_witness :
  allocate_new_id (NfsInputs.reads_as 40)
      ([mk_round 0 "40" (- EAGAIN)] ++ [mk_round 0 "40" 0])
      (NfsInputs.proxy 8 7) =
    (Some (0, 41), NfsInputs.proxy 42 50,
     [GetNextId; SetNextId 50 40; GetNextId; SetNextId 50 40]).
Proof.
  apply (lost_races_are_retried (NfsInputs.reads_as 40)
           [mk_round 0 "40" (- EAGAIN)] [mk_round 0 "40" 0]
           (NfsInputs.proxy 8 7)).
  - vm_compute. intuition congruence.
  - constructor; [|constructor].
    unfold lost_round. vm_compute. intuition congruence.
Defined.

Lemma allocation_respects_inode_count_witness :
  (0 = 0 /\ 1 <= 41 <= fs_inode_count (NfsInputs.proxy 8 7) /\
   counters_ok (NfsInputs.proxy 42 50) /\
   fs_inode_count (NfsInputs.proxy 42 50) =
     fs_inode_count (NfsInputs.proxy 8 7)) \/
  (0 < 0 /\ 41 = 0 /\ NfsInputs.proxy 42 50 = NfsInputs.proxy 8 7).
Proof.
  apply (allocation_respects_inode_count (NfsInputs.reads_as 40)
           [mk_round 0 "40" 0] (NfsInputs.proxy 8 7) (NfsInputs.proxy 42 50)
           0 41 [GetNextId; SetNextId 50 40]).
  - unfold counters_ok. vm_compute. intuition congruence.
  - reflexivity.
Defined.
End NfsProps.

Module NfsCreateProps.
Import NfsCreate NfsNotions.

Lemma has_slash_inside pre post :
  has_slash (pre +:+ "/" +:+ post) = true.
Proof.
  unfold has_slash.
  destruct (String.index 0 "/" (pre +:+ "/" +:+ post)) as [n|] eqn:E; [done|].
  exfalso. induction pre as [|c pre IH].
  - destruct post; vm_compute in E; discriminate E.
  - apply IH. clear IH.
    change (String.index 0 "/" (String c (pre +:+ "/" +:+ post)) = None) in E.
    cbn [String.index] in E.
    destruct (String.prefix "/" (String c (pre +:+ "/" +:+ post))); [done|].
    by destruct (String.index 0 "/" (pre +:+ "/" +:+ post)).
Qed.

Section Creation.
Variable stoull_full : string -> Z.
Variable dump : gmap string jv -> string.
Variable parse : string -> option (gmap string jv).
Variable string_value : jv -> string.
Variable uint64_value : jv -> Z.

Lemma seen_fields st calls :
  exists d, seen parse uint64_value st calls = set_dup_ino d st.
Proof.
  revert st. induction calls as [|[res value] calls IH]; intros st.
  - exists (dup_ino st). by destruct st.
  - cbn [seen foldl fst snd]. unfold direntry_compare at 2.
    destruct (res =? 0); [|apply IH].
    destruct (parse value) as [direntry|]; [|apply IH].
    destruct (exclusive st && _); [|apply IH].
    cbn [snd]. destruct (IH (set_dup_ino
      (uint64_value (at_key "ino" direntry)) st)) as [d Hd].
    exists d. unfold seen in Hd. rewrite Hd. by destruct st.
Qed.

(** X24: an empty name and a name with a slash in it are refused with
    EINVAL before anything is asked of the database or of the allocator. *)
Lemma create_rejects_bad_name (a : create_answers) (st : kv_create_state)
    (p : nfs_proxy_t) :
  filename st = "" \/ (exists pre post, filename st = pre +:+ "/" +:+ post) ->
  kv_do_create stoull_full dump parse string_value uint64_value a st p =
    (Some (- EINVAL), st, p, []).
Proof.
  intros Hname. unfold kv_do_create.
  assert (String.eqb (filename st) "" || has_slash (filename st) = true)
    as ->; [|done].
  destruct Hname as [->|(pre & post & ->)]; [done|].
  rewrite has_slash_inside. apply orb_true_r.
Qed.

Lemma create_after_allocation (a : create_answers) (st : kv_create_state)
    (p p1 : nfs_proxy_t) (res id : Z) (reqs1 : list db_request) :
  filename st <> "" ->
  has_slash (filename st) = false ->
  allocate_new_id stoull_full (id_answers a) p = (Some (res, id), p1, reqs1) ->
  0 <= res ->
  exists dup,
    let text := dump (written_entry string_value st id) in
    let st' := set_dup_ino dup
                 (set_texts (stored_object st) ∅ text (set_new_id id st)) in
    let set_direntry := SetDirentry (dir_ino st) (filename st) text in
    let set_inode := SetInode id (dump (stored_object st)) in
    let inode_err := if inode_res a =? - EAGAIN then - EEXIST else inode_res a in
    seen parse uint64_value
      (set_texts (stored_object st) ∅ text (set_new_id id st))
      (direntry_seen a) = st' /\
    kv_do_create stoull_full dump parse string_value uint64_value a st p =
      if direntry_res a <? 0 then
        if direntry_res a =? - EAGAIN then
          if negb (dup =? 0)
          then (Some 0, set_new_id dup st', push_unallocated id p1,
                reqs1 ++ [set_direntry])
          else (Some (- EEXIST), st', push_unallocated id p1,
                reqs1 ++ [set_direntry])
        else (Some (direntry_res a), st', push_unallocated id p1,
              reqs1 ++ [set_direntry])
      else if inode_err <? 0 then
        (Some inode_err, st',
         (if del_res a =? 0 then push_unallocated id p1 else p1),
         reqs1 ++ [set_direntry; set_inode;
                   DelDirentry (dir_ino st) (filename st) text])
      else (Some 0, st', p1, reqs1 ++ [set_direntry; set_inode]).
Proof.
  intros Hne Hslash Halloc Hres.
  destruct (seen_fields
    (set_texts (stored_object st) ∅
       (dump (written_entry string_value st id)) (set_new_id id st))
    (direntry_seen a)) as [dup Hdup].
  exists dup. cbn zeta. split; [done|].
  unfold kv_do_create.
  assert (String.eqb (filename st) "" = false) as ->.
  { by apply String.eqb_neq. }
  rewrite Hslash, Halloc. cbn [orb].
  destruct (res <? 0) eqn:E; [lia|].
  change (foldl _ ?s ?c) with (seen parse uint64_value s c).
  change (touch "type" (attrobj (set_new_id id st))) with (stored_object st).
  change (new_id (set_new_id id st)) with id.
  change (if String.eqb (string_value (at_key "type" (stored_object st))) "dir"
          then <["type" := JStr "dir"]> {[ "ino" := JNum id ]}
          else {[ "ino" := JNum id ]})
    with (written_entry string_value st id).
  rewrite Hdup.
  by destruct st.
Qed.

(** X25: once an identifier has been allocated, a creation ends in one of
    three ways.  The entry and the inode are written for that identifier.
    Or the write of the entry fails: nothing more is written and the
    identifier is put on the list of unallocated ones.  Or the write of the
    inode fails: the entry is deleted again under a compare on its text, an
    error is reported, and the identifier is put on the list only if the
    deletion has succeeded. *)
Lemma create_accounts_for_id (a : create_answers) (st : kv_create_state)
    (p p1 : nfs_proxy_t) (res id : Z) (reqs1 : list db_request) :
  filename st <> "" ->
  has_slash (filename st) = false ->
  allocate_new_id stoull_full (id_answers a) p = (Some (res, id), p1, reqs1) ->
  0 <= res ->
  exists r st' text,
    let set_direntry := SetDirentry (dir_ino st) (filename st) text in
    let set_inode := SetInode id (dump (stored_object st)) in
    let del := DelDirentry (dir_ino st) (filename st) text in
    (kv_do_create stoull_full dump parse string_value uint64_value a st p =
       (Some 0, st', p1, reqs1 ++ [set_direntry; set_inode]) /\
     new_id st' = id) \/
    (kv_do_create stoull_full dump parse string_value uint64_value a st p =
       (Some r, st', push_unallocated id p1, reqs1 ++ [set_direntry]) /\
     direntry_res a < 0) \/
    (kv_do_create stoull_full dump parse string_value uint64_value a st p =
       (Some r, st',
        (if del_res a =? 0 then push_unallocated id p1 else p1),
        reqs1 ++ [set_direntry; set_inode; del]) /\
     r < 0 /\ new_id st' = id).
Proof.
  intros Hne Hslash Halloc Hres.
  destruct (create_after_allocation a st p p1 res id reqs1 Hne Hslash Halloc
              Hres) as (dup & _ & ->).
  cbn zeta.
  destruct (direntry_res a <? 0) eqn:E1.
  - destruct (direntry_res a =? - EAGAIN) eqn:E2;
      [destruct (negb (dup =? 0)) eqn:E3|].
    + eexists 0, _, _. right; left. split; [reflexivity|lia].
    + eexists (- EEXIST), _, _. right; left. split; [reflexivity|lia].
    + eexists (direntry_res a), _, _. right; left. split; [reflexivity|lia].
  - destruct ((if inode_res a =? - EAGAIN then - EEXIST else inode_res a) <? 0)
      eqn:E2.
    + eexists _, _, _. right; right. split; [reflexivity|].
      split; [lia|]. by destruct st.
    + eexists 0, _, _. left. split; [reflexivity|]. by destruct st.
Qed.

(** X26: when the database answers the write of the entry with a failed
    compare after showing the entry that exists, the creation reports
    EEXIST; but an exclusive creation whose verifier is the one found in
    that entry, with an inode number other than 0, reports success with the
    inode of the existing entry.  Either way no inode is written and the
    identifier that was allocated is put on the list of unallocated ones. *)
Lemma existing_entry_outcome (a : create_answers) (st : kv_create_state)
    (p p1 : nfs_proxy_t) (res id : Z) (reqs1 : list db_request)
    (value : string) (direntry : gmap string jv) :
  filename st <> "" ->
  has_slash (filename st) = false ->
  allocate_new_id stoull_full (id_answers a) p = (Some (res, id), p1, reqs1) ->
  0 <= res ->
  dup_ino st = 0 ->
  direntry_seen a = [(0, value)] ->
  parse value = Some direntry ->
  direntry_res a = - EAGAIN ->
  let existing := uint64_value (at_key "ino" direntry) in
  let same := exclusive st &&
              (uint64_value (at_key "verf" direntry) =? verf st) &&
              negb (existing =? 0) in
  exists st' text,
    kv_do_create stoull_full dump parse string_value uint64_value a st p =
      (Some (if same then 0 else - EEXIST), st', push_unallocated id p1,
       reqs1 ++ [SetDirentry (dir_ino st) (filename st) text]) /\
    new_id st' = (if same then existing else id).
Proof.
  intros Hne Hslash Halloc Hres Hdup Hseen Hparse Hdres existing same.
  destruct (create_after_allocation a st p p1 res id reqs1 Hne Hslash Halloc
              Hres) as (dup & Hfold & ->).
  cbn zeta in Hfold |- *.
  rewrite Hseen in Hfold. cbn [seen foldl fst snd] in Hfold.
  unfold direntry_compare in Hfold. cbn [Z.eqb] in Hfold.
  rewrite Hparse in Hfold.
  cbn [exclusive verf set_texts set_new_id] in Hfold.
  rewrite Hdres.
  assert ((- EAGAIN <? 0) = true) as -> by done.
  rewrite Z.eqb_refl.
  assert (Hd : dup = if exclusive st &&
                        (uint64_value (at_key "verf" direntry) =? verf st)
                     then existing else 0).
  { destruct (exclusive st &&
              (uint64_value (at_key "verf" direntry) =? verf st));
      cbn [snd] in Hfold; apply (f_equal dup_ino) in Hfold;
      cbn in Hfold; subst existing; congruence. }
  subst same.
  destruct (exclusive st &&
            (uint64_value (at_key "verf" direntry) =? verf st)) eqn:E.
  - rewrite Hd. cbn [andb]. destruct (negb (existing =? 0)) eqn:E2.
    + eexists _, _. split; [reflexivity|]. done.
    + eexists _, _. split; [reflexivity|]. done.
  - rewrite Hd. cbn [andb negb Z.eqb].
    eexists _, _. split; [reflexivity|]. done.
Qed.

(** X27: the object stored for a new inode has every attribute of the
    request and always a key "type", null when the request had none; the
    entry written names the new identifier and has no key other than "ino"
    and "type". *)
Lemma stored_inode_has_type (a : create_answers) (st : kv_create_state)
    (p p1 : nfs_proxy_t) (res id : Z) (reqs1 : list db_request) :
  filename st <> "" ->
  has_slash (filename st) = false ->
  allocate_new_id stoull_full (id_answers a) p = (Some (res, id), p1, reqs1) ->
  0 <= res ->
  0 <= direntry_res a ->
  exists r st' p' rest obj entry,
    kv_do_create stoull_full dump parse string_value uint64_value a st p =
      (r, st', p',
       reqs1 ++ SetDirentry (dir_ino st) (filename st) (dump entry)
             :: SetInode id (dump obj) :: rest) /\
    attrs st' = Some obj /\
    is_Some (obj !! "type") /\
    (forall k v, attrobj st !! k = Some v -> obj !! k = Some v) /\
    (forall k, k <> "type" -> obj !! k = attrobj st !! k) /\
    entry !! "ino" = Some (JNum id) /\
    (forall k, k <> "ino" -> k <> "type" -> entry !! k = None).
Proof.
  intros Hne Hslash Halloc Hres Hdres.
  destruct (create_after_allocation a st p p1 res id reqs1 Hne Hslash Halloc
              Hres) as (dup & _ & ->).
  cbn zeta.
  destruct (direntry_res a <? 0) eqn:E1; [lia|].
  assert (Hobj : is_Some (stored_object st !! "type") /\
    (forall k v, attrobj st !! k = Some v -> stored_object st !! k = Some v) /\
    (forall k, k <> "type" -> stored_object st !! k = attrobj st !! k)).
  { unfold stored_object, touch.
    destruct (attrobj st !! "type") as [t|] eqn:Et.
    - split_and!; [by rewrite Et|done|done].
    - split_and!.
      + by rewrite lookup_insert_eq.
      + intros k v Hk. rewrite lookup_insert_ne; [done|congruence].
      + intros k Hk. by rewrite lookup_insert_ne. }
  assert (Hentry : written_entry string_value st id !! "ino" = Some (JNum id) /\
    (forall k, k <> "ino" -> k <> "type" ->
       written_entry string_value st id !! k = None)).
  { unfold written_entry.
    destruct (String.eqb _ "dir").
    - split.
      + rewrite lookup_insert_ne by done. by rewrite lookup_singleton_eq.
      + intros k H1 H2. rewrite lookup_insert_ne by done.
        by rewrite lookup_singleton_ne.
    - split; [by rewrite lookup_singleton_eq|].
      intros k H1 H2. by rewrite lookup_singleton_ne. }
  destruct ((if inode_res a =? - EAGAIN then - EEXIST else inode_res a) <? 0).
  - eexists _, _, _, _, _, _. split; [reflexivity|].
    split; [by destruct st|]. tauto.
  - eexists _, _, _, _, _, _. split; [reflexivity|].
    split; [by destruct st|]. tauto.
Qed.
End Creation.

Lemma create_rejects_bad_name_witness :
  kv_do_create (NfsInputs.reads_as 0) NfsInputs.braces NfsInputs.entry_nine
      NfsInputs.text_of NfsInputs.number_of NfsInputs.all_written
      NfsInputs.slash_name (NfsInputs.proxy 5 7) =
    (Some (- EINVAL), NfsInputs.slash_name, NfsInputs.proxy 5 7, []).
Proof.
  apply (create_rejects_bad_name (NfsInputs.reads_as 0) NfsInputs.braces
           NfsInputs.entry_nine NfsInputs.text_of NfsInputs.number_of
           NfsInputs.all_written NfsInputs.slash_name (NfsInputs.proxy 5 7)).
  right. exists "a", "b". reflexivity.
Defined.

Lemma create_accounts_for_id_witness :
  exists r st' p' reqs,
    kv_do_create (NfsInputs.reads_as 0) NfsInputs.braces NfsInputs.entry_nine
      NfsInputs.text_of NfsInputs.number_of NfsInputs.all_written
      NfsInputs.exclusive_f (NfsInputs.proxy 5 7) = (Some r, st', p', reqs).
Proof.
  destruct (create_accounts_for_id (NfsInputs.reads_as 0) NfsInputs.braces
              NfsInputs.entry_nine NfsInputs.text_of NfsInputs.number_of
              NfsInputs.all_written NfsInputs.exclusive_f
              (NfsInputs.proxy 5 7) (NfsInputs.proxy 6 7) 0 5 [])
    as (r & st' & text & [[H _]|[[H _]|[H _]]]);
    try done; rewrite H; eauto.
Defined.

Lemma existing_entry_outcome_witness :
  exists st' text,
    kv_do_create (NfsInputs.reads_as 0) NfsInputs.braces NfsInputs.entry_nine
      NfsInputs.text_of NfsInputs.number_of NfsInputs.entry_exists
      NfsInputs.exclusive_f (NfsInputs.proxy 5 7) =
      (Some 0, st', push_unallocated 5 (NfsInputs.proxy 6 7),
       [SetDirentry 1 "f" text]) /\
    new_id st' = 9.
Proof.
  assert (H := existing_entry_outcome (NfsInputs.reads_as 0) NfsInputs.braces
           NfsInputs.entry_nine NfsInputs.text_of NfsInputs.number_of
           NfsInputs.entry_exists NfsInputs.exclusive_f
           (NfsInputs.proxy 5 7) (NfsInputs.proxy 6 7) 0 5 [] "e"
           {[ "ino" := JNum 9; "verf" := JNum 77 ]}).
  apply H; done.
Defined.

Lemma stored_inode_has_type_witness :
  exists r st' p' rest obj entry,
    kv_do_create (NfsInputs.reads_as 0) NfsInputs.braces NfsInputs.entry_nine
      NfsInputs.text_of NfsInputs.number_of NfsInputs.all_written
      NfsInputs.exclusive_f (NfsInputs.proxy 5 7) =
      (r, st', p',
       [] ++ SetDirentry 1 "f" (NfsInputs.braces entry)
          :: SetInode 5 (NfsInputs.braces obj) :: rest) /\
    attrs st' = Some obj /\
    is_Some (obj !! "type") /\
    (forall k v, attrobj NfsInputs.exclusive_f !! k = Some v ->
       obj !! k = Some v) /\
    (forall k, k <> "type" -> obj !! k = attrobj NfsInputs.exclusive_f !! k) /\
    entry !! "ino" = Some (JNum 5) /\
    (forall k, k <> "ino" -> k <> "type" -> entry !! k = None).
Proof.
  apply (stored_inode_has_type (NfsInputs.reads_as 0) NfsInputs.braces
           NfsInputs.entry_nine NfsInputs.text_of NfsInputs.number_of
           NfsInputs.all_written NfsInputs.exclusive_f
           (NfsInputs.proxy 5 7) (NfsInputs.proxy 6 7) 0 5 []); done.
Defined.
End NfsCreateProps.

Module NfsProcsProps.
Import NfsCreate NfsNotions NfsProcs.

Lemma allocate_requests stoull_full answers p r p' reqs :
  allocate_new_id stoull_full answers p = (r, p', reqs) ->
  forall d n t, ~ In (SetDirentry d n t) reqs.
Proof.
  revert reqs. induction answers as [|a answers IH]; intros reqs;
    cbn [allocate_new_id].
  - destruct (_ <=? _); [|destruct (_ <? _)]; intros [= <- <- <-] d n t Hin;
      cbn in Hin; intuition congruence.
  - destruct (allocate_new_id stoull_full answers p) as [[r1 p1] reqs1].
    destruct (_ <=? _); [|destruct (_ <? _); [|destruct (_ && _);
      [|destruct (_ <=? _); [|destruct (_ =? _); [|destruct (_ <? _)]]]]];
      intros [= <- <- <-] d n t Hin; cbn in Hin;
      try (intuition congruence).
    destruct Hin as [|[|Hin]]; [congruence..|]. by eapply IH.
Qed.

Lemma at_key_touch k obj : at_key k (touch k obj) = at_key k obj.
Proof.
  unfold at_key, touch. destruct (obj !! k) as [v|] eqn:E.
  - by rewrite E.
  - by rewrite lookup_insert_eq.
Qed.

Lemma setattr_type nfstime_to_str obj sattr :
  kv_create_setattr nfstime_to_str obj sattr !! "type" = obj !! "type".
Proof.
  unfold kv_create_setattr.
  repeat case_match; by rewrite ?lookup_insert_ne.
Qed.

Section Entries.
Variable stoull_full : string -> Z.
Variable dump : gmap string jv -> string.
Variable parse : string -> option (gmap string jv).
Variable string_value : jv -> string.
Variable uint64_value : jv -> Z.
Variable kv_fh_inode : string -> Z.
Variable nfstime_to_str : Z * Z -> string.

Lemma entry_writes a st p r p' reqs d n t :
  create_and_reply stoull_full dump parse string_value uint64_value a st p =
    (r, p', reqs) ->
  In (SetDirentry d n t) reqs ->
  exists id, t = dump (written_entry string_value st id).
Proof.
  unfold create_and_reply.
  destruct (kv_do_create stoull_full dump parse string_value uint64_value
              a st p) as [[[r0 st'] p0] reqs0] eqn:Hrun.
  intros [= _ _ <-] Hin. clear r p'.
  destruct (decide (filename st = "")) as [Hempty|Hne].
  { unfold kv_do_create in Hrun. rewrite Hempty in Hrun.
    cbn [String.eqb orb] in Hrun. injection Hrun as _ _ _ <-. done. }
  destruct (has_slash (filename st)) eqn:Hslash.
  { unfold kv_do_create in Hrun. rewrite Hslash, orb_true_r in Hrun.
    injection Hrun as _ _ _ <-. done. }
  destruct (allocate_new_id stoull_full (id_answers a) p)
    as [[[[res id]|] p1] reqs1] eqn:Halloc.
  - destruct (Z_lt_le_dec res 0) as [Hneg|Hpos].
    + unfold kv_do_create in Hrun.
      assert (String.eqb (filename st) "" = false) as Hnm
        by (by apply String.eqb_neq).
      rewrite Hnm, Hslash, Halloc in Hrun. cbn [orb] in Hrun.
      assert ((res <? 0) = true) as Hlt by lia. rewrite Hlt in Hrun.
      injection Hrun as _ _ _ <-.
      by apply (allocate_requests _ _ _ _ _ _ Halloc) in Hin.
    + destruct (NfsCreateProps.create_after_allocation stoull_full dump parse
                  string_value uint64_value a st p p1 res id reqs1 Hne Hslash
                  Halloc Hpos) as (dup & _ & Hshape).
      cbn zeta in Hshape. rewrite Hshape in Hrun. clear Hshape.
      exists id.
      assert (Hreqs : exists rest, reqs0 = reqs1 ++
        SetDirentry (dir_ino st) (filename st)
          (dump (written_entry string_value st id)) :: rest /\
        forall d n t, ~ In (SetDirentry d n t) rest).
      { destruct (direntry_res a <? 0);
          [destruct (direntry_res a =? - EAGAIN); [destruct (negb _)|]
          |destruct (_ <? 0)];
          injection Hrun as _ _ _ <-; eexists;
          (split; [reflexivity|]); intros ? ? ? Hr; cbn in Hr;
          intuition congruence. }
      destruct Hreqs as (rest & -> & Hrest).
      apply in_app_or in Hin as [Hin|[Hin|Hin]].
      * by apply (allocate_requests _ _ _ _ _ _ Halloc) in Hin.
      * congruence.
      * by apply Hrest in Hin.
  - unfold kv_do_create in Hrun.
    assert (String.eqb (filename st) "" = false) as Hnm
      by (by apply String.eqb_neq).
    rewrite Hnm, Hslash, Halloc in Hrun. cbn [orb] in Hrun.
    injection Hrun as _ _ _ <-.
    by apply (allocate_requests _ _ _ _ _ _ Halloc) in Hin.
Qed.

Hypothesis string_value_string : forall s, string_value (JStr s) = s.
Hypothesis string_value_null : string_value JNull = "".

Lemma entry_dir st id :
  attrobj st !! "type" = Some (JStr "dir") ->
  written_entry string_value st id =
    <["type" := JStr "dir"]> {[ "ino" := JNum id ]}.
Proof.
  intros Ht. unfold written_entry, stored_object.
  rewrite at_key_touch. unfold at_key. rewrite Ht. simpl.
  by rewrite string_value_string.
Qed.

Lemma entry_plain st id :
  attrobj st !! "type" = None \/
  (exists s, attrobj st !! "type" = Some (JStr s) /\ s <> "dir") ->
  written_entry string_value st id = {[ "ino" := JNum id ]}.
Proof.
  intros Ht. unfold written_entry, stored_object.
  rewrite at_key_touch. unfold at_key.
  destruct Ht as [->|(s & -> & Hs)]; simpl.
  - by rewrite string_value_null.
  - rewrite string_value_string.
    by apply String.eqb_neq in Hs as ->.
Qed.

(** X28: of the four procedures only MKDIR writes a directory entry marked
    as a directory: every directory entry that MKDIR writes is the new
    identifier with type "dir", and every one that CREATE, SYMLINK or MKNOD
    writes is the new identifier alone. *)
Lemma only_mkdir_marks_directories (a : create_answers) (p : nfs_proxy_t) :
  (forall args ret r p' reqs d n t,
     kv_nfs3_mkdir_proc stoull_full dump parse string_value uint64_value
       kv_fh_inode nfstime_to_str a args p = (ret, (r, p', reqs)) ->
     In (SetDirentry d n t) reqs ->
     exists id, t = dump (<["type" := JStr "dir"]> {[ "ino" := JNum id ]})) /\
  (forall args ret r p' reqs d n t,
     kv_nfs3_create_proc stoull_full dump parse string_value uint64_value
       kv_fh_inode nfstime_to_str a args p = (ret, (r, p', reqs)) ->
     In (SetDirentry d n t) reqs ->
     exists id, t = dump {[ "ino" := JNum id ]}) /\
  (forall args ret r p' reqs d n t,
     kv_nfs3_symlink_proc stoull_full dump parse string_value uint64_value
       kv_fh_inode nfstime_to_str a args p = (ret, (r, p', reqs)) ->
     In (SetDirentry d n t) reqs ->
     exists id, t = dump {[ "ino" := JNum id ]}) /\
  (forall args ret r p' reqs d n t,
     kv_nfs3_mknod_proc stoull_full dump parse string_value uint64_value
       kv_fh_inode nfstime_to_str a args p = (ret, (r, p', reqs)) ->
     In (SetDirentry d n t) reqs ->
     exists id, t = dump {[ "ino" := JNum id ]}).
Proof.
  split_and!; intros args ret r p' reqs d n t.
  - unfold kv_nfs3_mkdir_proc. intros [= _ Hrun] Hin.
    destruct (entry_writes _ _ _ _ _ _ _ _ _ Hrun Hin) as [id ->].
    exists id. rewrite entry_dir; [done|].
    unfold mkdir_state, set_request; cbn [attrobj].
    rewrite setattr_type, lookup_insert_ne by done.
    by rewrite lookup_insert_eq.
  - unfold kv_nfs3_create_proc. intros [= _ Hrun] Hin.
    destruct (entry_writes _ _ _ _ _ _ _ _ _ Hrun Hin) as [id ->].
    exists id. rewrite entry_plain; [done|]. left.
    unfold create_state, set_request; cbn [attrobj].
    destruct (how_mode args =? NFS_EXCLUSIVE); [done|].
    destruct (how_mode args =? NFS_UNCHECKED); [|done].
    destruct (size_set_it _);
      rewrite ?lookup_insert_ne by done; by rewrite setattr_type.
  - unfold kv_nfs3_symlink_proc. intros [= _ Hrun] Hin.
    destruct (entry_writes _ _ _ _ _ _ _ _ _ Hrun Hin) as [id ->].
    exists id. rewrite entry_plain; [done|]. right. exists "link".
    unfold symlink_state, set_request; cbn [attrobj].
    rewrite setattr_type, lookup_insert_ne by done.
    by rewrite lookup_insert_eq.
  - unfold kv_nfs3_mknod_proc.
    destruct (mknod_state kv_fh_inode nfstime_to_str args) as [st|] eqn:Hst.
    + intros [= _ Hrun] Hin.
      destruct (entry_writes _ _ _ _ _ _ _ _ _ Hrun Hin) as [id ->].
      exists id. rewrite entry_plain; [done|]. right.
      unfold mknod_state in Hst.
      destruct ((what_type args =? NF3CHR) || (what_type args =? NF3BLK)).
      * injection Hst as <-. unfold set_request; cbn [attrobj].
        exists (if what_type args =? NF3CHR then "chr" else "blk").
        rewrite setattr_type, !lookup_insert_ne by done.
        rewrite lookup_insert_eq. by destruct (what_type args =? NF3CHR).
      * destruct ((what_type args =? NF3SOCK) || (what_type args =? NF3FIFO));
          [|done].
        injection Hst as <-. unfold set_request; cbn [attrobj].
        exists (if what_type args =? NF3SOCK then "sock" else "fifo").
        rewrite setattr_type, lookup_insert_eq.
        by destruct (what_type args =? NF3SOCK).
    + by intros [= _ _ _ <-] [].
Qed.
End Entries.

Lemma only_mkdir_marks_directories_witness :
  exists id,
    NfsInputs.braces (<["type" := JStr "dir"]> {[ "ino" := JNum 5 ]}) =
    NfsInputs.braces (<["type" := JStr "dir"]> {[ "ino" := JNum id ]}).
Proof.
  destruct (only_mkdir_marks_directories (NfsInputs.reads_as 0)
              NfsInputs.braces NfsInputs.entry_nine NfsInputs.text_of
              NfsInputs.number_of NfsInputs.handle_one NfsInputs.time_text
              (fun s => eq_refl) eq_refl NfsInputs.all_written
              (NfsInputs.proxy 5 7)) as [Hmkdir _].
  apply (Hmkdir NfsInputs.mkdir_d 1
           (Some (Created 5 (Some (<["parent_ino" := JNum 1]>
                                     (<["type" := JStr "dir"]> ∅)))))
           (NfsInputs.proxy 6 7)
           [SetDirentry 1 "d" "{}"; SetInode 5 "{}"] 1 "d").
  - vm_compute. reflexivity.
  - left. reflexivity.
Defined.
End NfsProcsProps.
